(** * Nested-list indent / outdent of the Lexical editor

    A shallow embedding of [packages/lexical-react/src/useLexicalNestedList.js]
    over a keyed node store, and the properties of its selection resolver and
    of its two tree transforms. *)

From stdpp Require Import base option list gmap sets strings.

(** ** The node store

    Lexical keeps every node of the document in a map from node keys to nodes;
    a node records its parent key and, for element nodes, the ordered keys of
    its children.  The store below keeps one finite map per field. *)

Inductive ListTag : Type := ul | ol.

Inductive NodeType : Type :=
  | ListNode (tag : ListTag)
  | ListItemNode
  | TextNode
  | ElementNode.

#[global] Instance ListTag_eq_dec : EqDecision ListTag.
Proof. solve_decision. Defined.

#[global] Instance NodeType_eq_dec : EqDecision NodeType.
Proof. solve_decision. Defined.

Record Selection : Type := mkSelection {
  sel_nodes : list nat;
  sel_anchor : nat
}.

Record EditorState : Type := mkEditorState {
  node_type : gmap nat NodeType;
  node_parent : gmap nat nat;
  node_children : gmap nat (list nat);
  dirty : gset nat;
  next_key : nat;
  selection : option Selection
}.

(** ** The node API of the host document tree *)

Definition setParent (k : nat) (p : option nat) (s : EditorState) : EditorState :=
  {| node_type := node_type s;
     node_parent := partial_alter (λ _, p) k (node_parent s);
     node_children := node_children s;
     dirty := dirty s;
     next_key := next_key s;
     selection := selection s |}.

Definition setChildren (k : nat) (l : list nat) (s : EditorState) : EditorState :=
  {| node_type := node_type s;
     node_parent := node_parent s;
     node_children := <[k := l]> (node_children s);
     dirty := dirty s;
     next_key := next_key s;
     selection := selection s |}.

Fixpoint indexOf (k : nat) (l : list nat) : option nat :=
  match l with
  | [] => None
  | x :: l' => if decide (x = k) then Some 0 else S <$> indexOf k l'
  end.

Definition removeKey (k : nat) (l : list nat) : list nat :=
  filter (λ x, x ≠ k) l.

Definition insertAt (i : nat) (k : nat) (l : list nat) : list nat :=
  take i l ++ k :: drop i l.

(** Modelled from the spec: the read capabilities of a node (get-parent,
    get-children, get-first-child, get-last-child, the sibling getters,
    is-empty and the identity test), which live in the host document tree
    and are consumed through its node API. *)
Definition getParent (s : EditorState) (k : nat) : option nat :=
  node_parent s !! k.

Definition getChildren (s : EditorState) (k : nat) : list nat :=
  default [] (node_children s !! k).

Definition getFirstChild (s : EditorState) (k : nat) : option nat :=
  head (getChildren s k).

Definition getLastChild (s : EditorState) (k : nat) : option nat :=
  last (getChildren s k).

Definition isEmpty (s : EditorState) (k : nat) : bool :=
  bool_decide (getChildren s k = []).

Definition getIndexWithinParent (s : EditorState) (k : nat) : option (nat * nat) :=
  p ← getParent s k;
  i ← indexOf k (getChildren s p);
  Some (p, i).

Definition getPreviousSibling (s : EditorState) (k : nat) : option nat :=
  '(p, i) ← getIndexWithinParent s k;
  match i with
  | 0 => None
  | S j => getChildren s p !! j
  end.

Definition getNextSibling (s : EditorState) (k : nat) : option nat :=
  '(p, i) ← getIndexWithinParent s k;
  getChildren s p !! S i.

Definition getPreviousSiblings (s : EditorState) (k : nat) : list nat :=
  match getIndexWithinParent s k with
  | Some (p, i) => take i (getChildren s p)
  | None => []
  end.

Definition getNextSiblings (s : EditorState) (k : nat) : list nat :=
  match getIndexWithinParent s k with
  | Some (p, i) => drop (S i) (getChildren s p)
  | None => []
  end.

Definition is_ (k : nat) (other : option nat) : bool :=
  bool_decide (other = Some k).

Definition isListNode (s : EditorState) (node : option nat) : bool :=
  match node with
  | Some k =>
      match node_type s !! k with
      | Some (ListNode _) => true
      | _ => false
      end
  | None => false
  end.

Definition isListItemNode (s : EditorState) (node : option nat) : bool :=
  match node with
  | Some k =>
      match node_type s !! k with
      | Some ListItemNode => true
      | _ => false
      end
  | None => false
  end.

Definition getTag (s : EditorState) (k : nat) : ListTag :=
  match node_type s !! k with
  | Some (ListNode tag) => tag
  | _ => ul
  end.

(** Modelled from the spec: the mutation primitives of the host tree
    (append-child(s), insert-before, insert-after, remove, replace-with,
    mark-dirty) and node construction.  A relocation takes the node out of
    its owner's child sequence and puts it into the new owner's, so that no
    node is ever referenced by two owners; a relocation next to a detached
    node is rejected by the host, which is the [None] result here. *)
Definition removeFromParent (k : nat) (s : EditorState) : EditorState :=
  match getParent s k with
  | None => s
  | Some p => setParent k None (setChildren p (removeKey k (getChildren s p)) s)
  end.

Definition remove (k : nat) (s : EditorState) : EditorState :=
  removeFromParent k s.

Definition append (q : nat) (k : nat) (s : EditorState) : EditorState :=
  let s1 := removeFromParent k s in
  setParent k (Some q) (setChildren q (getChildren s1 q ++ [k]) s1).

Definition appendAll (q : nat) (ks : list nat) (s : EditorState) : EditorState :=
  foldl (λ s' k, append q k s') s ks.

Definition insertBefore (ref : nat) (k : nat) (s : EditorState) : option EditorState :=
  let s1 := removeFromParent k s in
  p ← getParent s1 ref;
  i ← indexOf ref (getChildren s1 p);
  Some (setParent k (Some p) (setChildren p (insertAt i k (getChildren s1 p)) s1)).

Definition insertAfter (ref : nat) (k : nat) (s : EditorState) : option EditorState :=
  let s1 := removeFromParent k s in
  p ← getParent s1 ref;
  i ← indexOf ref (getChildren s1 p);
  Some (setParent k (Some p) (setChildren p (insertAt (S i) k (getChildren s1 p)) s1)).

Definition replace (ref : nat) (k : nat) (s : EditorState) : option EditorState :=
  s1 ← insertBefore ref k s;
  Some (remove ref s1).

Definition markDirty (k : nat) (s : EditorState) : EditorState :=
  {| node_type := node_type s;
     node_parent := node_parent s;
     node_children := node_children s;
     dirty := {[k]} ∪ dirty s;
     next_key := next_key s;
     selection := selection s |}.

Definition markAllDirty (ks : list nat) (s : EditorState) : EditorState :=
  foldl (λ s' k, markDirty k s') s ks.

Definition newNode (ty : NodeType) (s : EditorState) : EditorState :=
  let k := next_key s in
  {| node_type := <[k := ty]> (node_type s);
     node_parent := delete k (node_parent s);
     node_children := <[k := []]> (node_children s);
     dirty := dirty s;
     next_key := S k;
     selection := selection s |}.

Definition createNode (ty : NodeType) (s : EditorState) : nat * EditorState :=
  (next_key s, newNode ty s).

Definition createListItemNode (s : EditorState) : nat * EditorState :=
  createNode ListItemNode s.

Definition createListNode (tag : ListTag) (s : EditorState) : nat * EditorState :=
  createNode (ListNode tag) s.

(** ** The source functions *)

Inductive Direction : Type := indent | outdent.

Definition isNestedListNode (s : EditorState) (node : option nat) : bool :=
  isListItemNode s node &&
  match node with
  | Some k => isListNode s (getFirstChild s k)
  | None => false
  end.

(** The loop of [findNearestListItemNode] climbs one parent link per turn;
    [fuel] bounds the number of turns and [None] is the answer of a walk that
    has not finished within it. *)
Fixpoint findNearestListItemNode (fuel : nat) (s : EditorState) (node : nat)
  : option (option nat) :=
  match fuel with
  | 0 => None
  | S fuel' =>
      if isListItemNode s (Some node) then Some (Some node)
      else match getParent s node with
           | Some p => findNearestListItemNode fuel' s p
           | None => Some None
           end
  end.

(** A JavaScript [Set] keeps insertion order and ignores a second [add] of
    the same object. *)
Definition setAdd (keys : list nat) (node : nat) : list nat :=
  if decide (node ∈ keys) then keys else keys ++ [node].

Definition getUniqueListItemNodes (s : EditorState) (nodeList : list nat) : list nat :=
  foldl (λ keys node, if isListItemNode s (Some node) then setAdd keys node else keys)
        [] nodeList.

(** The four arms of the callback of [handleIndent]. *)
Definition indentMerge (previousSibling nextSibling listItemNode : nat)
    (s : EditorState) : EditorState :=
  let innerList := getFirstChild s previousSibling in
  match innerList with
  | Some il =>
      if isListNode s innerList then
        let s1 := append il listItemNode s in
        let nextInnerList := getFirstChild s1 nextSibling in
        let s2 :=
          match nextInnerList with
          | Some nil_ =>
              if isListNode s1 nextInnerList then
                let children := getChildren s1 nil_ in
                remove nil_ (appendAll il children s1)
              else s1
          | None => s1
          end in
        markAllDirty (getChildren s2 il) s2
      else s
  | None => s
  end.

Definition indentIntoNext (nextSibling listItemNode : nat)
    (s : EditorState) : option EditorState :=
  let innerList := getFirstChild s nextSibling in
  match innerList with
  | Some il =>
      if isListNode s innerList then
        s1 ← match getFirstChild s il with
             | Some firstChild => insertBefore firstChild listItemNode s
             | None => Some s
             end;
        Some (markAllDirty (getChildren s1 il) s1)
      else Some s
  | None => Some s
  end.

Definition indentIntoPrevious (previousSibling listItemNode : nat)
    (s : EditorState) : EditorState :=
  let innerList := getFirstChild s previousSibling in
  match innerList with
  | Some il =>
      if isListNode s innerList then
        let s1 := append il listItemNode s in
        markAllDirty (getChildren s1 il) s1
      else s
  | None => s
  end.

Definition indentNewList (parent previousSibling nextSibling : option nat)
    (listItemNode : nat) (s : EditorState) : option EditorState :=
  match parent with
  | Some p =>
      if isListNode s parent then
        let '(newListItem, s1) := createListItemNode s in
        let '(newList, s2) := createListNode (getTag s1 p) s1 in
        let s3 := append newListItem newList s2 in
        let s4 := append newList listItemNode s3 in
        match previousSibling with
        | Some prev => insertAfter prev newListItem s4
        | None =>
            match nextSibling with
            | Some next => insertBefore next newListItem s4
            | None => Some (append p newListItem s4)
            end
        end
      else Some s
  | None => Some s
  end.

Definition indentListItem (listItemNode : nat) (s : EditorState) : option EditorState :=
  if isNestedListNode s (Some listItemNode) then Some s
  else
    let parent := getParent s listItemNode in
    let nextSibling := getNextSibling s listItemNode in
    let previousSibling := getPreviousSibling s listItemNode in
    s1 ← (if isNestedListNode s nextSibling && isNestedListNode s previousSibling then
            match previousSibling, nextSibling with
            | Some prev, Some next => Some (indentMerge prev next listItemNode s)
            | _, _ => Some s
            end
          else if isNestedListNode s nextSibling then
            match nextSibling with
            | Some next => indentIntoNext next listItemNode s
            | None => Some s
            end
          else if isNestedListNode s previousSibling then
            match previousSibling with
            | Some prev => Some (indentIntoPrevious prev listItemNode s)
            | None => Some s
            end
          else indentNewList parent previousSibling nextSibling listItemNode s);
    match parent with
    | Some p =>
        if isListNode s1 parent then Some (markAllDirty (getChildren s1 p) s1)
        else Some s1
    | None => Some s1
    end.

(** [listItemNodes.forEach]: the targets are processed in order, each on the
    state left by the one before; an exception ([None]) ends the batch. *)
Fixpoint forEach (f : nat → EditorState → option EditorState)
    (l : list nat) (s : EditorState) : option EditorState :=
  match l with
  | [] => Some s
  | x :: l' => s' ← f x s; forEach f l' s'
  end.

Definition handleIndent (listItemNodes : list nat) (s : EditorState)
  : option EditorState :=
  forEach indentListItem listItemNodes s.

(** The arms of the callback of [handleOutdent]. *)
Inductive OutdentCase : Type := FirstChild | LastChild | InteriorChild.

Definition outdentCase (s : EditorState) (parentList listItemNode : nat) : OutdentCase :=
  let firstChild := getFirstChild s parentList in
  let lastChild := getLastChild s parentList in
  if is_ listItemNode firstChild then FirstChild
  else if is_ listItemNode lastChild then LastChild
  else InteriorChild.

Definition outdentSplit (parentList grandparentListItem listItemNode : nat)
    (s : EditorState) : option EditorState :=
  let tag := getTag s parentList in
  let '(previousSiblingsListItem, s1) := createListItemNode s in
  let '(previousSiblingsList, s2) := createListNode tag s1 in
  let s3 := append previousSiblingsListItem previousSiblingsList s2 in
  let s4 := foldl (λ s' sibling, append previousSiblingsList sibling s')
                  s3 (getPreviousSiblings s3 listItemNode) in
  let '(nextSiblingsListItem, s5) := createListItemNode s4 in
  let '(nextSiblingsList, s6) := createListNode tag s5 in
  let s7 := append nextSiblingsListItem nextSiblingsList s6 in
  let s8 := appendAll nextSiblingsList (getNextSiblings s7 listItemNode) s7 in
  s9 ← insertBefore grandparentListItem previousSiblingsListItem s8;
  s10 ← insertAfter grandparentListItem nextSiblingsListItem s9;
  replace grandparentListItem listItemNode s10.

Definition outdentListItem (listItemNode : nat) (s : EditorState) : option EditorState :=
  if isNestedListNode s (Some listItemNode) then Some s
  else
    let parentList := getParent s listItemNode in
    let grandparentListItem := parentList ≫= getParent s in
    let greatGrandparentList := grandparentListItem ≫= getParent s in
    if isListNode s greatGrandparentList
       && isListItemNode s grandparentListItem
       && isListNode s parentList
    then
      match parentList, grandparentListItem, greatGrandparentList with
      | Some pl, Some gp, Some ggp =>
          s1 ← match outdentCase s pl listItemNode with
               | FirstChild =>
                   s' ← insertBefore gp listItemNode s;
                   if isEmpty s' pl then Some (remove gp s') else Some s'
               | LastChild =>
                   s' ← insertAfter gp listItemNode s;
                   if isEmpty s' pl then Some (remove gp s') else Some s'
               | InteriorChild => outdentSplit pl gp listItemNode s
               end;
          let s2 := markAllDirty (getChildren s1 pl) s1 in
          Some (markAllDirty (getChildren s2 ggp) s2)
      | _, _, _ => Some s
      end
    else Some s.

Definition handleOutdent (listItemNodes : list nat) (s : EditorState)
  : option EditorState :=
  forEach outdentListItem listItemNodes s.

(** The targets of a selection: the first half of [maybeIndentOrOutdent]. *)
Definition selectedListItemNodes (fuel : nat) (s : EditorState) (sel : Selection)
  : option (list nat) :=
  let selectedNodes := sel_nodes sel in
  let selectedNodes :=
    if bool_decide (length selectedNodes = 0) then selectedNodes ++ [sel_anchor sel]
    else selectedNodes in
  match selectedNodes with
  | [node] =>
      nearestListItemNode ← findNearestListItemNode fuel s node;
      match nearestListItemNode with
      | Some li => Some [li]
      | None => Some []
      end
  | _ => Some (getUniqueListItemNodes s selectedNodes)
  end.

Definition maybeIndentOrOutdent (fuel : nat) (direction : Direction) (s : EditorState)
  : option (bool * EditorState) :=
  match selection s with
  | None => Some (false, s)
  | Some sel =>
      listItemNodes ← selectedListItemNodes fuel s sel;
      if bool_decide (0 < length listItemNodes) then
        s' ← match direction with
             | indent => handleIndent listItemNodes s
             | outdent => handleOutdent listItemNodes s
             end;
        Some (true, s')
      else Some (false, s)
  end.

(** The command listener registered by [useLexicalNestedList]. *)
Definition commandListener (fuel : nat) (type : string) (s : EditorState)
  : option (bool * EditorState) :=
  if bool_decide (type = "indentContent"%string) then
    match maybeIndentOrOutdent fuel indent s with
    | Some (hasHandledIndention, s') =>
        if hasHandledIndention then Some (true, s') else Some (false, s')
    | None => None
    end
  else if bool_decide (type = "outdentContent"%string) then
    match maybeIndentOrOutdent fuel outdent s with
    | Some (hasHandledIndention, s') =>
        if hasHandledIndention then Some (true, s') else Some (false, s')
    | None => None
    end
  else Some (false, s).

(** The guard of [handleOutdent]: the target hangs below a List, inside a
    ListItem, inside a List. *)
Definition validAncestry (s : EditorState) (listItemNode : nat) : bool :=
  let parentList := getParent s listItemNode in
  let grandparentListItem := parentList ≫= getParent s in
  let greatGrandparentList := grandparentListItem ≫= getParent s in
  isListNode s greatGrandparentList
  && isListItemNode s grandparentListItem
  && isListNode s parentList.

(** ** Well-formed document trees *)

Definition parentOf (s : EditorState) (k p : nat) : Prop := getParent s k = Some p.

Definition childOf (s : EditorState) (p k : nat) : Prop := k ∈ getChildren s p.

(** [k] lies in the subtree of [r]: it is reachable from [r] by child links. *)
Definition inSubtree (s : EditorState) (r k : nat) : Prop := rtc (childOf s) r k.

Definition rooted (s : EditorState) (k : nat) : Prop :=
  ∃ r, rtc (parentOf s) k r ∧ getParent s r = None.

(** Parent links and child sequences agree, no child is listed twice, and
    keys not yet handed out are unused. *)
Record linked (s : EditorState) : Prop := mkLinked {
  linked_parent_child : ∀ k p, getParent s k = Some p → k ∈ getChildren s p;
  linked_child_parent : ∀ k p, k ∈ getChildren s p → getParent s k = Some p;
  linked_nodup : ∀ p, NoDup (getChildren s p);
  linked_fresh : ∀ k, next_key s ≤ k →
    getParent s k = None ∧ getChildren s k = [] ∧ node_type s !! k = None
}.

(** A document tree: linked, and every parent chain ends at a root. *)
Record tree (s : EditorState) : Prop := mkTree {
  tree_linked : linked s;
  tree_rooted : ∀ k, rooted s k
}.

(** A ListItem that holds a List holds nothing else. *)
Definition wrapped (s : EditorState) : Prop :=
  ∀ g l, isListItemNode s (Some g) = true → l ∈ getChildren s g →
         isListNode s (Some l) = true → getChildren s g = [l].

(** Content: a node that is neither a List nor a ListItem. *)
Definition isContentType (ty : NodeType) : Prop :=
  match ty with
  | TextNode | ElementNode => True
  | ListNode _ | ListItemNode => False
  end.

Definition isContent (s : EditorState) (k : nat) : Prop :=
  match node_type s !! k with
  | Some ty => isContentType ty
  | None => False
  end.

(** The two conditions together. *)
Definition wf (s : EditorState) : Prop := linked s ∧ wrapped s.

(** [s'] has every node of [s], with its type, and no new content node. *)
Definition extends (s s' : EditorState) : Prop :=
  next_key s ≤ next_key s'
  ∧ (∀ k, k < next_key s → node_type s' !! k = node_type s !! k)
  ∧ (∀ k, isContent s' k → isContent s k).

(** What a transform keeps: every parent chain of [s'] ends, the roots of [s]
    are roots of [s'], and a content node lies below a root of [s] in [s']
    exactly when it did in [s]. *)
Definition preserved (s s' : EditorState) : Prop :=
  (∀ k, rooted s' k)
  ∧ (∀ r, getParent s r = None → r < next_key s → getParent s' r = None)
  ∧ (∀ c r, isContent s c → getParent s r = None → r < next_key s →
            (rtc (parentOf s') c r ↔ rtc (parentOf s) c r)).

(** Every node of [s] has in [s2] the parent, the children and the type it
    has in [s]. *)
Definition restored (s s2 : EditorState) : Prop :=
  ∀ x, x < next_key s →
    getParent s2 x = getParent s x
    ∧ getChildren s2 x = getChildren s x
    ∧ node_type s2 !! x = node_type s !! x.

(** The content nodes of a forest in document order: each node before its
    children, the children from first to last. *)
Definition own (s : EditorState) (k : nat) : list nat :=
  match node_type s !! k with
  | Some TextNode | Some ElementNode => [k]
  | _ => []
  end.

Inductive reading (s : EditorState) : list nat → list nat → Prop :=
  | reading_nil : reading s [] []
  | reading_cons k ks l1 l2 :
      reading s (getChildren s k) l1 → reading s ks l2 →
      reading s (k :: ks) (own s k ++ l1 ++ l2).

(** The nodes a transform may change around a wrapper [w] with inner List
    [il] below [h]: these three and the nodes it creates. *)
Definition changed_below (s : EditorState) (h w il : nat) (d : nat) : Prop :=
  d = h ∨ d = w ∨ d = il ∨ next_key s ≤ d.

(** A node that is a root, or that is no ListItem and does not hang
    directly below one: a root of the document, a top-level List, but not
    the inner List of a wrapper. *)
Definition unnested (s : EditorState) (r : nat) : Prop :=
  r < next_key s
  ∧ (getParent s r = None
     ∨ (isListItemNode s (Some r) = false
        ∧ isListItemNode s (getParent s r) = false)).

(** The targets of the current selection; none when there is no selection. *)
Definition resolveTargets (fuel : nat) (s : EditorState) : option (list nat) :=
  match selection s with
  | None => Some []
  | Some sel => selectedListItemNodes fuel s sel
  end.

(** Executable checks of the two conditions, for concrete stores. *)
Fixpoint rootOf (fuel : nat) (s : EditorState) (k : nat) : option nat :=
  match fuel with
  | 0 => None
  | S fuel' =>
      match getParent s k with
      | None => Some k
      | Some p => rootOf fuel' s p
      end
  end.

Definition tree_check (s : EditorState) : bool :=
  bool_decide (map_Forall (λ k p, k ∈ getChildren s p ∧ k < next_key s
                                  ∧ is_Some (rootOf (size (node_parent s)) s p))
                 (node_parent s))
  && bool_decide (map_Forall (λ p l, p < next_key s ∧ NoDup l
                                     ∧ Forall (λ k, getParent s k = Some p) l)
                    (node_children s))
  && bool_decide (map_Forall (λ k (_ : NodeType), k < next_key s) (node_type s)).

Definition wrapped_check (s : EditorState) : bool :=
  bool_decide (map_Forall (λ g ty, ty = ListItemNode →
                 Forall (λ l, isListNode s (Some l) = true → getChildren s g = [l])
                        (getChildren s g))
                 (node_type s)).

(** ** Concrete documents *)

Definition stateOf (nodes : list (nat * (NodeType * option nat * list nat)))
    (sel : option Selection) : EditorState :=
  {| node_type := list_to_map ((λ x, (x.1, x.2.1.1)) <$> nodes);
     node_parent := list_to_map (omap (λ x, (λ p, (x.1, p)) <$> x.2.1.2) nodes);
     node_children := list_to_map ((λ x, (x.1, x.2.2)) <$> nodes);
     dirty := ∅;
     next_key := length nodes;
     selection := sel |}.

(** Outer List 0 = [A; B; C] with A = 1 around List 4 = [a1], B = 2 and
    C = 3 around List 6 = [c1]. *)
Definition merge_doc : EditorState :=
  stateOf [ (0, (ListNode ul, None, [1; 2; 3]));
            (1, (ListItemNode, Some 0, [4]));
            (2, (ListItemNode, Some 0, [8]));
            (3, (ListItemNode, Some 0, [6]));
            (4, (ListNode ul, Some 1, [5]));
            (5, (ListItemNode, Some 4, [9]));
            (6, (ListNode ul, Some 3, [7]));
            (7, (ListItemNode, Some 6, [10]));
            (8, (TextNode, Some 2, []));
            (9, (TextNode, Some 5, []));
            (10, (TextNode, Some 7, [])) ] None.

(** Outer List 0 = [P] with P = 1 around List 2 = [W; X; Y; Z] = [3; 4; 5; 6],
    each item holding one text node. *)
Definition split_doc : EditorState :=
  stateOf [ (0, (ListNode ol, None, [1]));
            (1, (ListItemNode, Some 0, [2]));
            (2, (ListNode ul, Some 1, [3; 4; 5; 6]));
            (3, (ListItemNode, Some 2, [7]));
            (4, (ListItemNode, Some 2, [8]));
            (5, (ListItemNode, Some 2, [9]));
            (6, (ListItemNode, Some 2, [10]));
            (7, (TextNode, Some 3, []));
            (8, (TextNode, Some 4, []));
            (9, (TextNode, Some 5, []));
            (10, (TextNode, Some 6, [])) ] None.

(** Outer List 0 = [1; G; 3] with G = 2 around List 4 = [T], T = 5. *)
Definition sole_doc : EditorState :=
  stateOf [ (0, (ListNode ul, None, [1; 2; 3]));
            (1, (ListItemNode, Some 0, [7]));
            (2, (ListItemNode, Some 0, [4]));
            (3, (ListItemNode, Some 0, [8]));
            (4, (ListNode ol, Some 2, [5]));
            (5, (ListItemNode, Some 4, [6]));
            (6, (TextNode, Some 5, []));
            (7, (TextNode, Some 1, []));
            (8, (TextNode, Some 3, [])) ] None.

(** A ListItem 1 with two text nodes 2 and 3, both selected. *)
Definition dedup_doc : EditorState :=
  stateOf [ (0, (ListNode ul, None, [1]));
            (1, (ListItemNode, Some 0, [2; 3]));
            (2, (TextNode, Some 1, []));
            (3, (TextNode, Some 1, [])) ]
          (Some {| sel_nodes := [2; 3]; sel_anchor := 2 |}).

(** ListItems 1 and 2 directly below an element 0 that is not a List; item 2
    wraps List 3 = [4]. *)
Definition stray_doc : EditorState :=
  stateOf [ (0, (ElementNode, None, [1; 2]));
            (1, (ListItemNode, Some 0, [5]));
            (2, (ListItemNode, Some 0, [3]));
            (3, (ListNode ul, Some 2, [4]));
            (4, (ListItemNode, Some 3, [6]));
            (5, (TextNode, Some 1, []));
            (6, (TextNode, Some 4, [])) ] None.

(** ListItems 1 and 2 directly below an element 0 that is not a List; item 1
    wraps List 3 = [4], item 2 is a plain item with the text node 5. *)
Definition astray_doc : EditorState :=
  stateOf [ (0, (ElementNode, None, [1; 2]));
            (1, (ListItemNode, Some 0, [3]));
            (2, (ListItemNode, Some 0, [5]));
            (3, (ListNode ul, Some 1, [4]));
            (4, (ListItemNode, Some 3, [6]));
            (5, (TextNode, Some 2, []));
            (6, (TextNode, Some 4, [])) ] None.

(** Outer List 0 = [G], G = 1 around List 2 = [T; C] = [3; 4], where C wraps
    the empty List 5. *)
Definition hollow_doc : EditorState :=
  stateOf [ (0, (ListNode ul, None, [1]));
            (1, (ListItemNode, Some 0, [2]));
            (2, (ListNode ul, Some 1, [3; 4]));
            (3, (ListItemNode, Some 2, [6]));
            (4, (ListItemNode, Some 2, [5]));
            (5, (ListNode ul, Some 4, []));
            (6, (TextNode, Some 3, [])) ] None.

(** The document [sole_doc] with the caret in the text node 6 of item T = 5
    and an empty set of selected nodes. *)
Definition caret_doc : EditorState :=
  stateOf [ (0, (ListNode ul, None, [1; 2; 3]));
            (1, (ListItemNode, Some 0, [7]));
            (2, (ListItemNode, Some 0, [4]));
            (3, (ListItemNode, Some 0, [8]));
            (4, (ListNode ol, Some 2, [5]));
            (5, (ListItemNode, Some 4, [6]));
            (6, (TextNode, Some 5, []));
            (7, (TextNode, Some 1, []));
            (8, (TextNode, Some 3, [])) ]
          (Some {| sel_nodes := []; sel_anchor := 6 |}).

(** Outer List 0 = [1], 1 around List 2 = [3], and 3 itself around
    List 4 = [5]: item 3 is a nested-list wrapper and the sole child of a
    nested List. *)
Definition deep_doc : EditorState :=
  stateOf [ (0, (ListNode ul, None, [1]));
            (1, (ListItemNode, Some 0, [2]));
            (2, (ListNode ul, Some 1, [3]));
            (3, (ListItemNode, Some 2, [4]));
            (4, (ListNode ul, Some 3, [5]));
            (5, (ListItemNode, Some 4, [6]));
            (6, (TextNode, Some 5, [])) ] None.

(** Outer List 0 = [1], 1 around List 2 = [3; 4; 5], whose three items are
    nested-list wrappers themselves, around Lists 6 = [9], 7 = [10] and
    8 = [11]. *)
Definition mid_doc : EditorState :=
  stateOf [ (0, (ListNode ul, None, [1]));
            (1, (ListItemNode, Some 0, [2]));
            (2, (ListNode ul, Some 1, [3; 4; 5]));
            (3, (ListItemNode, Some 2, [6]));
            (4, (ListItemNode, Some 2, [7]));
            (5, (ListItemNode, Some 2, [8]));
            (6, (ListNode ul, Some 3, [9]));
            (7, (ListNode ul, Some 4, [10]));
            (8, (ListNode ul, Some 5, [11]));
            (9, (ListItemNode, Some 6, [12]));
            (10, (ListItemNode, Some 7, [13]));
            (11, (ListItemNode, Some 8, [14]));
            (12, (TextNode, Some 9, []));
            (13, (TextNode, Some 10, []));
            (14, (TextNode, Some 11, [])) ] None.

(** ListItems 1 and 2, neither of them a wrapper, directly below an element
    0 that is not a List. *)
Definition loose_doc : EditorState :=
  stateOf [ (0, (ElementNode, None, [1; 2]));
            (1, (ListItemNode, Some 0, [3]));
            (2, (ListItemNode, Some 0, [4]));
            (3, (TextNode, Some 1, []));
            (4, (TextNode, Some 2, [])) ] None.

(** Outer List 0 = [1; 2], where 1 wraps the empty List 3 and 2 is a plain
    item with the text node 4. *)
Definition prev_hollow_doc : EditorState :=
  stateOf [ (0, (ListNode ul, None, [1; 2]));
            (1, (ListItemNode, Some 0, [3]));
            (2, (ListItemNode, Some 0, [4]));
            (3, (ListNode ul, Some 1, []));
            (4, (TextNode, Some 2, [])) ] None.

(** A root element 0 that holds the top-level List 1 = [2; 3]; item 2 wraps
    List 4 = [5; 6]; the text nodes 7, 8, 9 belong to items 3, 5, 6. *)
Definition rooted_doc : EditorState :=
  stateOf [ (0, (ElementNode, None, [1]));
            (1, (ListNode ul, Some 0, [2; 3]));
            (2, (ListItemNode, Some 1, [4]));
            (3, (ListItemNode, Some 1, [7]));
            (4, (ListNode ol, Some 2, [5; 6]));
            (5, (ListItemNode, Some 4, [8]));
            (6, (ListItemNode, Some 4, [9]));
            (7, (TextNode, Some 3, []));
            (8, (TextNode, Some 5, []));
            (9, (TextNode, Some 6, [])) ] None.

#[global] Arguments getParent : simpl never.
#[global] Arguments getChildren : simpl never.
#[global] Arguments getFirstChild : simpl never.
#[global] Arguments getLastChild : simpl never.
#[global] Arguments isListNode : simpl never.
#[global] Arguments isListItemNode : simpl never.
#[global] Arguments isNestedListNode : simpl never.
#[global] Arguments isEmpty : simpl never.
#[global] Arguments getTag : simpl never.
#[global] Arguments setParent : simpl never.
#[global] Arguments setChildren : simpl never.
#[global] Arguments removeFromParent : simpl never.
#[global] Arguments remove : simpl never.
#[global] Arguments append : simpl never.
#[global] Arguments appendAll : simpl never.
#[global] Arguments insertBefore : simpl never.
#[global] Arguments insertAfter : simpl never.
#[global] Arguments replace : simpl never.
#[global] Arguments markAllDirty : simpl never.
#[global] Arguments newNode : simpl never.
#[global] Arguments own : simpl never.

(** ** Reading the store after a write *)

Section accessors.
Implicit Types (s : EditorState) (k p q x : nat) (l : list nat).

Lemma getParent_setParent k o s x :
    getParent (setParent k o s) x = if decide (x = k) then o else getParent s x.
  Proof.
    unfold getParent, setParent; simpl.
    rewrite lookup_partial_alter. repeat case_decide; simpl; congruence.
  Qed.

Lemma getParent_setChildren k l s x :
    getParent (setChildren k l s) x = getParent s x.
  Proof. reflexivity. Qed.

Lemma getChildren_setParent k o s x :
    getChildren (setParent k o s) x = getChildren s x.
  Proof. reflexivity. Qed.

Lemma getChildren_setChildren k l s x :
    getChildren (setChildren k l s) x = if decide (x = k) then l else getChildren s x.
  Proof.
    unfold getChildren, setChildren; simpl.
    rewrite lookup_insert. repeat case_decide; simpl; congruence.
  Qed.

Lemma node_type_setParent k o s : node_type (setParent k o s) = node_type s.
Proof. reflexivity. Qed.

Lemma node_type_setChildren k l s : node_type (setChildren k l s) = node_type s.
Proof. reflexivity. Qed.

Lemma next_key_setParent k o s : next_key (setParent k o s) = next_key s.
Proof. reflexivity. Qed.

Lemma next_key_setChildren k l s : next_key (setChildren k l s) = next_key s.
Proof. reflexivity. Qed.

Lemma getParent_newNode ty s x :
  getParent (newNode ty s) x = if decide (x = next_key s) then None else getParent s x.
Proof.
  unfold getParent, newNode; simpl. rewrite lookup_delete.
  repeat case_decide; congruence.
Qed.

Lemma getChildren_newNode ty s x :
  getChildren (newNode ty s) x = if decide (x = next_key s) then [] else getChildren s x.
Proof.
  unfold getChildren, newNode; simpl. rewrite lookup_insert.
  repeat case_decide; simpl; congruence.
Qed.

Lemma node_type_newNode ty s x :
  node_type (newNode ty s) !! x =
    if decide (x = next_key s) then Some ty else node_type s !! x.
Proof.
  unfold newNode; simpl. rewrite lookup_insert. repeat case_decide; congruence.
Qed.

Lemma next_key_newNode ty s : next_key (newNode ty s) = S (next_key s).
Proof. reflexivity. Qed.

Lemma getParent_markDirty k s x : getParent (markDirty k s) x = getParent s x.
  Proof. reflexivity. Qed.

Lemma getChildren_markDirty k s x : getChildren (markDirty k s) x = getChildren s x.
  Proof. reflexivity. Qed.

Lemma node_type_markAllDirty l s : node_type (markAllDirty l s) = node_type s.
  Proof. revert s; induction l as [|a l IH]; intros s; [done|]. apply (IH (markDirty a s)). Qed.

Lemma node_parent_markAllDirty l s : node_parent (markAllDirty l s) = node_parent s.
  Proof. revert s; induction l as [|a l IH]; intros s; [done|]. apply (IH (markDirty a s)). Qed.

Lemma node_children_markAllDirty l s : node_children (markAllDirty l s) = node_children s.
  Proof. revert s; induction l as [|a l IH]; intros s; [done|]. apply (IH (markDirty a s)). Qed.

Lemma next_key_markAllDirty l s : next_key (markAllDirty l s) = next_key s.
  Proof. revert s; induction l as [|a l IH]; intros s; [done|]. apply (IH (markDirty a s)). Qed.

Lemma getParent_markAllDirty l s x : getParent (markAllDirty l s) x = getParent s x.
  Proof. unfold getParent. by rewrite node_parent_markAllDirty. Qed.

Lemma getChildren_markAllDirty l s x : getChildren (markAllDirty l s) x = getChildren s x.
  Proof. unfold getChildren. by rewrite node_children_markAllDirty. Qed.

Lemma getParent_removeFromParent k s x :
    getParent (removeFromParent k s) x = if decide (x = k) then None else getParent s x.
  Proof.
    unfold removeFromParent. destruct (getParent s k) as [p|] eqn:E.
    - by rewrite getParent_setParent, getParent_setChildren.
    - case_decide; congruence.
  Qed.

Lemma getChildren_removeFromParent k s x :
    getChildren (removeFromParent k s) x =
      if decide (getParent s k = Some x) then removeKey k (getChildren s x)
      else getChildren s x.
  Proof.
    unfold removeFromParent. destruct (getParent s k) as [p|] eqn:E.
    - rewrite getChildren_setParent, getChildren_setChildren.
      repeat case_decide; congruence.
    - case_decide; congruence.
  Qed.

Lemma node_type_removeFromParent k s : node_type (removeFromParent k s) = node_type s.
  Proof. unfold removeFromParent. by destruct (getParent s k). Qed.

Lemma next_key_removeFromParent k s : next_key (removeFromParent k s) = next_key s.
  Proof. unfold removeFromParent. by destruct (getParent s k). Qed.

Lemma getParent_append q k s x :
    getParent (append q k s) x = if decide (x = k) then Some q else getParent s x.
  Proof.
    unfold append. rewrite getParent_setParent, getParent_setChildren,
      getParent_removeFromParent. by repeat case_decide.
  Qed.

Lemma getChildren_append q k s x :
    getChildren (append q k s) x =
      if decide (x = q) then getChildren (removeFromParent k s) q ++ [k]
      else getChildren (removeFromParent k s) x.
  Proof. unfold append. by rewrite getChildren_setParent, getChildren_setChildren. Qed.

Lemma node_type_append q k s : node_type (append q k s) = node_type s.
  Proof. apply node_type_removeFromParent. Qed.

Lemma next_key_append q k s : next_key (append q k s) = next_key s.
  Proof. apply next_key_removeFromParent. Qed.

Lemma isListNode_type s s' o : node_type s' = node_type s → isListNode s' o = isListNode s o.
  Proof. intros E. unfold isListNode. by rewrite E. Qed.

Lemma isListItemNode_type s s' o :
    node_type s' = node_type s → isListItemNode s' o = isListItemNode s o.
  Proof. intros E. unfold isListItemNode. by rewrite E. Qed.

Lemma getTag_type s s' k : node_type s' = node_type s → getTag s' k = getTag s k.
  Proof. intros E. unfold getTag. by rewrite E. Qed.
End accessors.

(** ** Lists of children *)

Section child_lists.
Implicit Types (k x : nat) (l : list nat).

Lemma indexOf_app k l1 l2 : k ∉ l1 → indexOf k (l1 ++ k :: l2) = Some (length l1).
  Proof.
    induction l1 as [|a l1 IH]; intros Hn; simpl.
    - by rewrite decide_True.
    - apply not_elem_of_cons in Hn as [Hne Hn].
      rewrite decide_False by done. by rewrite IH.
  Qed.

Lemma indexOf_Some k l i :
    indexOf k l = Some i → ∃ l1 l2, l = l1 ++ k :: l2 ∧ (k ∉ l1) ∧ length l1 = i.
  Proof.
    revert i; induction l as [|a l IH]; intros i; simpl; [done|].
    case_decide as Ha.
    - intros [= <-]. subst a. exists [], l. split_and!; [done| |done].
      apply not_elem_of_nil.
    - destruct (indexOf k l) as [j|] eqn:E; simpl; [|done]. intros [= <-].
      destruct (IH j eq_refl) as (l1 & l2 & -> & Hn & Hl).
      exists (a :: l1), l2. split_and!; [done| |by simpl; rewrite Hl].
      apply not_elem_of_cons. split; [congruence|done].
  Qed.

Lemma indexOf_None k l : indexOf k l = None ↔ k ∉ l.
  Proof.
    induction l as [|a l IH]; simpl.
    - split; [intros _; apply not_elem_of_nil|done].
    - case_decide as Ha.
      + subst a. split; [done|]. intros Hn. exfalso. apply Hn. by left.
      + rewrite not_elem_of_cons. destruct (indexOf k l); simpl.
        * split; [done|]. intros [_ Hn]. by apply IH in Hn.
        * split; [|done]. intros _. split; [congruence|]. by apply IH.
  Qed.

Lemma removeKey_nil k : removeKey k [] = [].
Proof. reflexivity. Qed.

Lemma removeKey_notin k l : k ∉ l → removeKey k l = l.
  Proof.
    induction l as [|a l IH]; intros Hn; [done|].
    apply not_elem_of_cons in Hn as [Hne Hn].
    unfold removeKey in *. rewrite filter_cons_True by congruence. by rewrite IH.
  Qed.

Lemma removeKey_app k l1 l2 : removeKey k (l1 ++ l2) = removeKey k l1 ++ removeKey k l2.
  Proof. unfold removeKey. apply filter_app. Qed.

Lemma removeKey_cons_eq k l : removeKey k (k :: l) = removeKey k l.
  Proof. unfold removeKey. rewrite filter_cons_False; [done|]. intros H. by apply H. Qed.

Lemma removeKey_cons_ne k a l : a ≠ k → removeKey k (a :: l) = a :: removeKey k l.
  Proof. intros. unfold removeKey. by rewrite filter_cons_True. Qed.

Lemma removeKey_middle k l1 l2 :
    k ∉ l1 → k ∉ l2 → removeKey k (l1 ++ k :: l2) = l1 ++ l2.
  Proof.
    intros H1 H2.
    by rewrite removeKey_app, removeKey_cons_eq, !removeKey_notin.
  Qed.

Lemma elem_of_removeKey k x l : x ∈ removeKey k l ↔ x ∈ l ∧ x ≠ k.
  Proof. unfold removeKey. rewrite list_elem_of_filter. tauto. Qed.

Lemma NoDup_removeKey k l : NoDup l → NoDup (removeKey k l).
  Proof. apply NoDup_filter. Qed.

Lemma insertAt_app k l1 l2 : insertAt (length l1) k (l1 ++ l2) = l1 ++ k :: l2.
  Proof. unfold insertAt. by rewrite take_app_length, drop_app_length. Qed.

Lemma insertAt_app_S k a l1 l2 :
    insertAt (S (length l1)) k (l1 ++ a :: l2) = l1 ++ a :: k :: l2.
  Proof.
    unfold insertAt.
    replace (l1 ++ a :: l2) with ((l1 ++ [a]) ++ l2) by by rewrite <- app_assoc.
    replace (S (length l1)) with (length (l1 ++ [a])) by (rewrite length_app; simpl; lia).
    rewrite take_app_length, drop_app_length. by rewrite <- app_assoc.
  Qed.
End child_lists.

(** ** The relocation primitives on a node that has a place *)

Section relocation.
Implicit Types (s : EditorState) (k p q x ref : nat) (l : list nat).

Lemma insertBefore_eq ref k s p l1 l2 :
    getParent (removeFromParent k s) ref = Some p →
    getChildren (removeFromParent k s) p = l1 ++ ref :: l2 →
    ref ∉ l1 →
    insertBefore ref k s =
      Some (setParent k (Some p)
              (setChildren p (l1 ++ k :: ref :: l2) (removeFromParent k s))).
  Proof.
    intros Hp Hc Hn. unfold insertBefore. rewrite Hp; simpl. rewrite Hc.
    rewrite indexOf_app by done; simpl. by rewrite insertAt_app.
  Qed.

Lemma insertAfter_eq ref k s p l1 l2 :
    getParent (removeFromParent k s) ref = Some p →
    getChildren (removeFromParent k s) p = l1 ++ ref :: l2 →
    ref ∉ l1 →
    insertAfter ref k s =
      Some (setParent k (Some p)
              (setChildren p (l1 ++ ref :: k :: l2) (removeFromParent k s))).
  Proof.
    intros Hp Hc Hn. unfold insertAfter. rewrite Hp; simpl. rewrite Hc.
    rewrite indexOf_app by done; simpl. by rewrite insertAt_app_S.
  Qed.

Lemma getFirstChild_cons s k a l : getChildren s k = a :: l → getFirstChild s k = Some a.
  Proof. unfold getFirstChild. by intros ->. Qed.

Lemma getLastChild_snoc s k a l : getChildren s k = l ++ [a] → getLastChild s k = Some a.
  Proof. unfold getLastChild. intros ->. apply last_snoc. Qed.

Lemma isEmpty_true s k : getChildren s k = [] → isEmpty s k = true.
  Proof. intros H. unfold isEmpty. by rewrite H. Qed.

Lemma isEmpty_false s k a l : getChildren s k = a :: l → isEmpty s k = false.
  Proof. intros H. unfold isEmpty. by rewrite H. Qed.
End relocation.

Create Rewrite HintDb store.

#[global] Hint Rewrite getParent_setParent getParent_setChildren getChildren_setParent
  getChildren_setChildren getParent_markAllDirty getChildren_markAllDirty
  getParent_removeFromParent getChildren_removeFromParent
  getParent_append getChildren_append
  node_type_removeFromParent node_type_append node_type_markAllDirty
  next_key_removeFromParent next_key_append next_key_markAllDirty
  node_type_setParent node_type_setChildren next_key_setParent next_key_setChildren
  getParent_newNode getChildren_newNode node_type_newNode next_key_newNode
  : store.

Ltac solve_key := first [done | congruence | lia].

Ltac store_hyps :=
  repeat match goal with
         | H : getParent ?s ?k = _ |- context [getParent ?s ?k] => rewrite H
         | H : getChildren ?s ?k = _ |- context [getChildren ?s ?k] => rewrite H
         end.

Ltac decide_step :=
  match goal with
  | |- context [decide ?P] =>
      first [rewrite (decide_True (P:=P)) by solve_key
            |rewrite (decide_False (P:=P)) by solve_key]
  end.

Ltac store_simp :=
  repeat (progress (autorewrite with store; store_hyps; repeat decide_step)).

Ltac removeKey_simp :=
  repeat first [rewrite removeKey_nil
               |rewrite removeKey_app
               |rewrite removeKey_cons_eq
               |rewrite removeKey_cons_ne by solve_key
               |rewrite removeKey_notin by assumption].

(** ** Soundness of the executable checks *)

Section checks.
Implicit Types (s : EditorState) (k p r : nat).

Lemma rootOf_sound fuel s k r :
    rootOf fuel s k = Some r → rtc (parentOf s) k r ∧ getParent s r = None.
  Proof.
    revert k; induction fuel as [|fuel IH]; intros k; simpl; [done|].
    destruct (getParent s k) as [p|] eqn:E.
    - intros H. destruct (IH _ H) as [Hr Hn]. split; [|done].
      by eapply rtc_l; [exact E|].
    - intros [= <-]. by split.
  Qed.

Lemma getChildren_elem s p k :
    k ∈ getChildren s p → ∃ l, node_children s !! p = Some l ∧ k ∈ l.
  Proof.
    unfold getChildren. destruct (node_children s !! p) as [l|]; simpl.
    - intros H. by exists l.
    - intros H. by apply elem_of_nil in H.
  Qed.

Lemma tree_check_sound s : tree_check s = true → tree s.
Proof.
  unfold tree_check. rewrite !andb_true_iff, !bool_decide_eq_true.
  intros [[HP HC] HT]. split; [split|].
  - intros k p E. by destruct (HP k p E) as (? & _).
  - intros k p Hk. destruct (getChildren_elem _ _ _ Hk) as (l & El & Hl).
    destruct (HC p l El) as (_ & _ & HF).
    rewrite Forall_forall in HF. by apply HF.
  - intros p. unfold getChildren.
    destruct (node_children s !! p) as [l|] eqn:El; simpl; [|constructor].
    by destruct (HC p l El) as (_ & ? & _).
  - intros k Hk. split_and!.
    + destruct (getParent s k) as [p|] eqn:E; [|done].
      destruct (HP k p E) as (_ & ? & _). lia.
    + unfold getChildren.
      destruct (node_children s !! k) as [l|] eqn:El; simpl; [|done].
      destruct (HC k l El) as (? & _). lia.
    + destruct (node_type s !! k) as [ty|] eqn:Et; [|done].
      specialize (HT k ty Et). simpl in HT. lia.
  - intros k. destruct (getParent s k) as [p|] eqn:E.
    + destruct (HP k p E) as (_ & _ & [r Hr]).
      apply rootOf_sound in Hr as [Hr Hn]. exists r. split; [|done].
      by eapply rtc_l; [exact E|].
    + exists k. by split.
Qed.

Lemma wrapped_check_sound s : wrapped_check s = true → wrapped s.
  Proof.
    unfold wrapped_check. rewrite bool_decide_eq_true.
    intros H g l Hg Hl Hll. unfold isListItemNode in Hg.
    destruct (node_type s !! g) as [ty|] eqn:Et; [|done].
    destruct ty; try done.
    specialize (H g _ Et eq_refl). rewrite Forall_forall in H. by apply H.
  Qed.
End checks.

Example merge_doc_tree : tree merge_doc ∧ wrapped merge_doc.
Proof.
  split; [apply tree_check_sound|apply wrapped_check_sound]; by vm_compute.
Qed.

Example split_doc_tree : tree split_doc ∧ wrapped split_doc.
Proof.
  split; [apply tree_check_sound|apply wrapped_check_sound]; by vm_compute.
Qed.

Example hollow_doc_tree : tree hollow_doc ∧ wrapped hollow_doc.
Proof.
  split; [apply tree_check_sound|apply wrapped_check_sound]; by vm_compute.
Qed.

(** ** The selection resolver *)

Section resolver.
Implicit Types (s : EditorState) (k : nat) (l keys : list nat).

Lemma setAdd_NoDup keys k : NoDup keys → NoDup (setAdd keys k).
  Proof.
    intros H. unfold setAdd. case_decide as Hk; [done|].
    apply NoDup_app. split_and!; [done| |apply NoDup_singleton].
    intros x Hx Hx'. apply list_elem_of_singleton in Hx'. by subst.
  Qed.

Lemma elem_of_setAdd keys k x : x ∈ setAdd keys k ↔ x ∈ keys ∨ x = k.
  Proof.
    unfold setAdd. case_decide as Hk.
    - split; [by left|]. intros [?| ->]; done.
    - rewrite elem_of_app, list_elem_of_singleton. tauto.
  Qed.

Lemma setAdd_prefix keys k : keys `prefix_of` setAdd keys k.
  Proof. unfold setAdd. case_decide; [done|]. by apply prefix_app_r. Qed.

Lemma uniqueListItemNodes_fold s l keys :
    let r := foldl (λ keys node,
                      if isListItemNode s (Some node) then setAdd keys node else keys)
                   keys l in
    (NoDup keys → NoDup r)
    ∧ (∀ k, k ∈ r ↔ k ∈ keys ∨ (k ∈ l ∧ isListItemNode s (Some k) = true))
    ∧ keys `prefix_of` r.
  Proof.
    revert keys; induction l as [|a l IH]; intros keys; simpl.
    - split_and!; [done| |done]. intros k. split; [by left|].
      intros [?|[H _]]; [done|]. by apply elem_of_nil in H.
    - destruct (IH (if isListItemNode s (Some a) then setAdd keys a else keys))
        as (IH1 & IH2 & IH3).
      split_and!.
      + intros Hk. apply IH1. destruct (isListItemNode s (Some a)); [|done].
        by apply setAdd_NoDup.
      + intros k. rewrite IH2. destruct (isListItemNode s (Some a)) eqn:Ea.
        * rewrite elem_of_setAdd, elem_of_cons. split.
          -- intros [[?| ->]|[? ?]]; [by left|right|right]; split; auto.
          -- intros [?|[[->|?] ?]]; [by left; left|by left; right|by right].
        * rewrite elem_of_cons. split.
          -- intros [?|[? ?]]; [by left|right]; split; auto.
          -- intros [?|[[->|?] ?]]; [by left|congruence|by right].
      + etrans; [|exact IH3]. destruct (isListItemNode s (Some a)); [|done].
        apply setAdd_prefix.
  Qed.

Lemma getUniqueListItemNodes_NoDup s l : NoDup (getUniqueListItemNodes s l).
  Proof.
    destruct (uniqueListItemNodes_fold s l []) as (H & _). apply H. constructor.
  Qed.

Lemma elem_of_getUniqueListItemNodes s l k :
    k ∈ getUniqueListItemNodes s l ↔ k ∈ l ∧ isListItemNode s (Some k) = true.
  Proof.
    destruct (uniqueListItemNodes_fold s l []) as (_ & H & _).
    unfold getUniqueListItemNodes. rewrite H. split; [|by right].
    intros [Hk|?]; [|done]. by apply elem_of_nil in Hk.
  Qed.

Lemma filter_eq_notin l k : k ∉ l → filter (λ x, x = k) l = [].
  Proof.
    induction l as [|a l IH]; intros Hk; [done|].
    apply not_elem_of_cons in Hk as [Hne Hk].
    rewrite filter_cons_False by congruence. by apply IH.
  Qed.

Lemma NoDup_count_one l k :
    NoDup l → k ∈ l → length (filter (λ x, x = k) l) = 1.
  Proof.
    induction 1 as [|a l Ha Hl IH]; intros Hk.
    - by apply elem_of_nil in Hk.
    - apply elem_of_cons in Hk as [->|Hk].
      + rewrite filter_cons_True by done. by rewrite filter_eq_notin.
      + rewrite filter_cons_False; [by apply IH|]. intros ->. done.
  Qed.

Lemma selectedListItemNodes_many fuel s sel :
    2 ≤ length (sel_nodes sel) →
    selectedListItemNodes fuel s sel = Some (getUniqueListItemNodes s (sel_nodes sel)).
  Proof.
    intros H. unfold selectedListItemNodes.
    destruct (sel_nodes sel) as [|a [|b l]]; simpl in *; [lia|lia|done].
  Qed.
End resolver.

(** C2, as amended.  When the selection spans two or more nodes and one of
    them is a ListItem, however often that ListItem is listed, the resolver
    returns it exactly once.  (Nodes that are not themselves ListItems yield
    nothing on this path, see [resolver_ignores_descendants].) *)
Theorem resolver_dedup fuel s sel li :
  2 ≤ length (sel_nodes sel) →
  li ∈ sel_nodes sel →
  isListItemNode s (Some li) = true →
  ∃ l, selectedListItemNodes fuel s sel = Some l
       ∧ NoDup l
       ∧ length (filter (λ x, x = li) l) = 1.
Proof.
  intros Hlen Hin Hli. exists (getUniqueListItemNodes s (sel_nodes sel)).
  split_and!.
  - by apply selectedListItemNodes_many.
  - apply getUniqueListItemNodes_NoDup.
  - apply NoDup_count_one; [apply getUniqueListItemNodes_NoDup|].
    by apply elem_of_getUniqueListItemNodes.
Qed.

Lemma resolver_dedup_witness :
  ∃ l, selectedListItemNodes 0 merge_doc {| sel_nodes := [2; 8; 2]; sel_anchor := 2 |}
       = Some l
       ∧ NoDup l
       ∧ length (filter (λ x, x = 2) l) = 1.
Proof.
  apply (resolver_dedup 0 merge_doc {| sel_nodes := [2; 8; 2]; sel_anchor := 2 |} 2).
  - simpl. lia.
  - simpl. apply elem_of_cons. by left.
  - reflexivity.
Defined.

(** C2, as stated, fails: the two selected text nodes 2 and 3 both lie in
    ListItem 1, yet the resolver returns no target at all. *)
Lemma resolver_ignores_descendants :
  findNearestListItemNode 2 dedup_doc 2 = Some (Some 1)
  ∧ findNearestListItemNode 2 dedup_doc 3 = Some (Some 1)
  ∧ selectedListItemNodes 2 dedup_doc {| sel_nodes := [2; 3]; sel_anchor := 2 |}
    = Some [].
Proof. split_and!; by vm_compute. Qed.

(** C1.  Indenting B = 2 between the wrappers A = 1 and C = 3 gathers
    [a1; B; c1] in A's inner List 4 and detaches C's inner List 6, but C itself
    stays in the outer List, now empty: the outer List is [A; C], not [A]. *)
Theorem indent_merge_leaves_empty_wrapper :
  ∃ s', handleIndent [2] merge_doc = Some s'
        ∧ getChildren s' 4 = [5; 2; 7]
        ∧ getParent s' 6 = None
        ∧ getChildren s' 0 = [1; 3]
        ∧ getChildren s' 3 = []
        ∧ isListItemNode s' (Some 3) = true.
Proof.
  exists (default merge_doc (handleIndent [2] merge_doc)).
  split_and!; by vm_compute.
Qed.

(** ** Targets that are skipped *)

Lemma outdentListItem_invalid s t :
  validAncestry s t = false → outdentListItem t s = Some s.
Proof.
  unfold validAncestry, outdentListItem. intros ->.
  by destruct (isNestedListNode s (Some t)).
Qed.

Lemma indentNewList_no_list s parent prev next t :
  isListNode s parent = false → indentNewList parent prev next t s = Some s.
Proof. unfold indentNewList. intros ->. by destruct parent. Qed.

Lemma indentListItem_no_list s t :
  isListNode s (getParent s t) = false →
  isNestedListNode s (getNextSibling s t) = false →
  isNestedListNode s (getPreviousSibling s t) = false →
  indentListItem t s = Some s.
Proof.
  intros Hp Hn Hv. unfold indentListItem.
  destruct (isNestedListNode s (Some t)); [done|].
  rewrite Hn, Hv; simpl. rewrite indentNewList_no_list by done; simpl.
  rewrite Hp. by destruct (getParent s t).
Qed.


(** C6, as stated, fails for indent: ListItem 1 sits below element 0, which is
    no List, and still moves into the inner List 3 of its next sibling. *)
Lemma indent_moves_below_non_list :
  isListNode stray_doc (getParent stray_doc 1) = false
  ∧ getChildren stray_doc 0 = [1; 2]
  ∧ ∃ s', handleIndent [1] stray_doc = Some s'
          ∧ getChildren s' 0 = [2]
          ∧ getChildren s' 3 = [1; 4].
Proof.
  split_and!; [by vm_compute..|].
  exists (default stray_doc (handleIndent [1] stray_doc)).
  split_and!; by vm_compute.
Qed.

(** ** The primitives keep the store linked *)

Section linked_primitives.
Implicit Types (s : EditorState) (k p q x ref : nat) (l L : list nat).

Lemma linked_parent_lt s k p :
  linked s → getParent s k = Some p → k < next_key s ∧ p < next_key s.
Proof.
  intros Hl E. split.
  - destruct (decide (k < next_key s)) as [|Hn]; [done|].
    destruct (linked_fresh s Hl k) as (H & _); [lia|congruence].
  - destruct (decide (p < next_key s)) as [|Hn]; [done|].
    destruct (linked_fresh s Hl p) as (_ & H & _); [lia|].
    apply (linked_parent_child s Hl) in E. rewrite H in E.
    by apply elem_of_nil in E.
Qed.

Lemma linked_typed_lt s k :
  linked s → is_Some (node_type s !! k) → k < next_key s.
Proof.
  intros Hl [ty E]. destruct (decide (k < next_key s)) as [|Hn]; [done|].
  destruct (linked_fresh s Hl k) as (_ & _ & H); [lia|congruence].
Qed.

Lemma linked_detached_notin s k p :
  linked s → getParent s k = None → k ∉ getChildren s p.
Proof. intros Hl E Hk. apply (linked_child_parent s Hl) in Hk. congruence. Qed.

Lemma linked_removeFromParent k s : linked s → linked (removeFromParent k s).
Proof.
  intros Hl. split.
  - intros x y. rewrite getParent_removeFromParent, getChildren_removeFromParent.
    case_decide as Hx; [done|]. intros E. pose proof (linked_parent_child s Hl _ _ E).
    case_decide; [|done]. by apply elem_of_removeKey.
  - intros x y. rewrite getParent_removeFromParent, getChildren_removeFromParent.
    case_decide as Hy.
    + rewrite elem_of_removeKey. intros [Hx Hne]. rewrite decide_False by done.
      by apply (linked_child_parent s Hl).
    + intros Hx. pose proof (linked_child_parent s Hl _ _ Hx) as E.
      case_decide; [congruence|done].
  - intros y. rewrite getChildren_removeFromParent.
    case_decide; [apply NoDup_removeKey|]; apply (linked_nodup s Hl).
  - intros x Hx. rewrite next_key_removeFromParent in Hx.
    destruct (linked_fresh s Hl x Hx) as (H1 & H2 & H3).
    rewrite getParent_removeFromParent, getChildren_removeFromParent,
      node_type_removeFromParent, H1, H2, H3.
    split_and!; [by case_decide| by case_decide|done].
Qed.

Lemma linked_attach s k q L :
  linked s → getParent s k = None → k < next_key s → q < next_key s →
  NoDup L → (∀ x, x ∈ L ↔ x = k ∨ x ∈ getChildren s q) →
  linked (setParent k (Some q) (setChildren q L s)).
Proof.
  intros Hl Hk Hkn Hqn HL HLe. split.
  - intros x y. rewrite getParent_setParent, getParent_setChildren,
      getChildren_setParent, getChildren_setChildren.
    case_decide as Hx.
    + intros [= <-]. rewrite decide_True by done. apply HLe. by left.
    + intros E. pose proof (linked_parent_child s Hl _ _ E).
      case_decide; [|done]. subst. apply HLe. by right.
  - intros x y. rewrite getParent_setParent, getParent_setChildren,
      getChildren_setParent, getChildren_setChildren.
    case_decide as Hy.
    + subst y. rewrite HLe. intros [->|Hx]; [by rewrite decide_True|].
      pose proof (linked_child_parent s Hl _ _ Hx) as E.
      case_decide; [congruence|done].
    + intros Hx. pose proof (linked_child_parent s Hl _ _ Hx) as E.
      case_decide; [congruence|done].
  - intros y. rewrite getChildren_setParent, getChildren_setChildren.
    case_decide; [done|]. apply (linked_nodup s Hl).
  - intros x Hx. simpl in Hx.
    destruct (linked_fresh s Hl x Hx) as (H1 & H2 & H3).
    rewrite getParent_setParent, getParent_setChildren,
      getChildren_setParent, getChildren_setChildren.
    rewrite !decide_False by lia. done.
Qed.

Lemma removeFromParent_detached k s : getParent (removeFromParent k s) k = None.
Proof. rewrite getParent_removeFromParent. by rewrite decide_True. Qed.

Lemma linked_append q k s :
  linked s → k < next_key s → q < next_key s → linked (append q k s).
Proof.
  intros Hl Hk Hq. unfold append.
  pose proof (linked_removeFromParent k s Hl) as Hl1.
  pose proof (removeFromParent_detached k s) as Hd.
  apply linked_attach; try done.
  - by rewrite next_key_removeFromParent.
  - by rewrite next_key_removeFromParent.
  - apply NoDup_app. split_and!.
    + apply (linked_nodup _ Hl1).
    + intros x Hx Hx'. apply list_elem_of_singleton in Hx'. subst.
      by apply (linked_detached_notin _ _ _ Hl1 Hd) in Hx.
    + apply NoDup_singleton.
  - intros x. rewrite elem_of_app, list_elem_of_singleton. tauto.
Qed.

Lemma insertAt_perm i k l : insertAt i k l ≡ₚ k :: l.
Proof.
  unfold insertAt. rewrite <- Permutation_middle. by rewrite take_drop.
Qed.

Lemma linked_insertAt s k p i :
  linked s → getParent s k = None → k < next_key s → p < next_key s →
  linked (setParent k (Some p) (setChildren p (insertAt i k (getChildren s p)) s)).
Proof.
  intros Hl Hd Hk Hp. apply linked_attach; try done.
  - rewrite insertAt_perm. apply NoDup_cons. split.
    + by apply linked_detached_notin.
    + apply (linked_nodup s Hl).
  - intros x. rewrite insertAt_perm, elem_of_cons. tauto.
Qed.

Lemma linked_insertBefore ref k s s' :
  linked s → k < next_key s → insertBefore ref k s = Some s' → linked s'.
Proof.
  intros Hl Hk. unfold insertBefore.
  pose proof (linked_removeFromParent k s Hl) as Hl1.
  destruct (getParent (removeFromParent k s) ref) as [p|] eqn:Ep; simpl; [|done].
  destruct (indexOf ref (getChildren (removeFromParent k s) p)) as [i|]; simpl; [|done].
  intros [= <-]. apply linked_insertAt; try done.
  - apply removeFromParent_detached.
  - by rewrite next_key_removeFromParent.
  - by destruct (linked_parent_lt _ _ _ Hl1 Ep).
Qed.

Lemma linked_insertAfter ref k s s' :
  linked s → k < next_key s → insertAfter ref k s = Some s' → linked s'.
Proof.
  intros Hl Hk. unfold insertAfter.
  pose proof (linked_removeFromParent k s Hl) as Hl1.
  destruct (getParent (removeFromParent k s) ref) as [p|] eqn:Ep; simpl; [|done].
  destruct (indexOf ref (getChildren (removeFromParent k s) p)) as [i|]; simpl; [|done].
  intros [= <-]. apply linked_insertAt; try done.
  - apply removeFromParent_detached.
  - by rewrite next_key_removeFromParent.
  - by destruct (linked_parent_lt _ _ _ Hl1 Ep).
Qed.

Lemma linked_newNode ty s : linked s → linked (newNode ty s).
Proof.
  intros Hl. split.
  - intros x y. rewrite getParent_newNode, getChildren_newNode.
    case_decide; [done|]. intros E.
    destruct (linked_parent_lt _ _ _ Hl E). rewrite decide_False by lia.
    by apply (linked_parent_child s Hl).
  - intros x y. rewrite getParent_newNode, getChildren_newNode.
    case_decide; [by intros ?%elem_of_nil|]. intros Hx.
    pose proof (linked_child_parent s Hl _ _ Hx) as E.
    destruct (linked_parent_lt _ _ _ Hl E). by rewrite decide_False by lia.
  - intros y. rewrite getChildren_newNode. case_decide; [constructor|].
    apply (linked_nodup s Hl).
  - intros x. rewrite next_key_newNode. intros Hx.
    destruct (linked_fresh s Hl x) as (H1 & H2 & H3); [lia|].
    rewrite getParent_newNode, getChildren_newNode, node_type_newNode.
    rewrite !decide_False by lia. done.
Qed.

Lemma linked_markAllDirty l s : linked s → linked (markAllDirty l s).
Proof.
  intros Hl. split.
  - intros x y. rewrite getParent_markAllDirty, getChildren_markAllDirty.
    apply (linked_parent_child s Hl).
  - intros x y. rewrite getParent_markAllDirty, getChildren_markAllDirty.
    apply (linked_child_parent s Hl).
  - intros y. rewrite getChildren_markAllDirty. apply (linked_nodup s Hl).
  - intros x. rewrite next_key_markAllDirty, getParent_markAllDirty,
      getChildren_markAllDirty, node_type_markAllDirty.
    apply (linked_fresh s Hl).
Qed.
End linked_primitives.

(** ** Parent chains *)

Section chains.
Implicit Types (s : EditorState) (k p q x r : nat).

Lemma rooted_no_cycle s k : rooted s k → ¬ tc (parentOf s) k k.
Proof.
  intros (r & Hr & Hn). induction Hr as [r|k p r Hkp Hpr IH].
  - intros Hc. inversion Hc; unfold parentOf in *; congruence.
  - intros Hc. apply IH; [done|].
    inversion Hc as [? ? Hy|? y ? Hy Hyk]; subst.
    + unfold parentOf in *. assert (p = k) as -> by congruence. by apply tc_once.
    + unfold parentOf in *. assert (y = p) as -> by congruence.
      eapply tc_r; [exact Hyk|done].
Qed.

Lemma tree_ancestor_ne s x y : tree s → tc (parentOf s) x y → x ≠ y.
Proof.
  intros Ht Hc ->. by apply (rooted_no_cycle s y (tree_rooted s Ht y)).
Qed.

Lemma rtc_simulation s s' (rep : nat → nat) :
  (∀ x q, getParent s x = Some q → rtc (parentOf s') (rep x) (rep q)) →
  ∀ x r, rtc (parentOf s) x r → rtc (parentOf s') (rep x) (rep r).
Proof.
  intros H x r Hr. induction Hr as [|x q r Hxq Hqr IH]; [done|].
  etrans; [|exact IH]. by apply H.
Qed.

Lemma childOf_parentOf s p k : linked s → childOf s p k ↔ parentOf s k p.
Proof.
  intros Hl. split.
  - apply (linked_child_parent s Hl).
  - apply (linked_parent_child s Hl).
Qed.

Lemma inSubtree_parent_chain s r k :
  linked s → inSubtree s r k ↔ rtc (parentOf s) k r.
Proof.
  intros Hl. unfold inSubtree. split.
  - induction 1 as [|x y z Hxy Hyz IH]; [done|].
    eapply rtc_r; [exact IH|]. by apply childOf_parentOf.
  - induction 1 as [|x y z Hxy Hyz IH]; [done|].
    eapply rtc_r; [exact IH|]. by apply childOf_parentOf.
Qed.

Lemma parent_chain_root s k r r' :
  rtc (parentOf s) k r → getParent s r = None →
  rtc (parentOf s) k r' → rtc (parentOf s) r' r.
Proof.
  intros Hr Hn Hr'. induction Hr' as [|x y z Hxy Hyz IH]; [done|].
  apply IH. inversion Hr as [|? y' ? Hxy' Hy'r]; subst.
  - unfold parentOf in *. congruence.
  - unfold parentOf in *. by assert (y' = y) as -> by congruence.
Qed.
End chains.

(** ** Positions among siblings *)

Section siblings.
Implicit Types (s : EditorState) (k p t : nat) (l : list nat).

Lemma NoDup_middle l1 k l2 : NoDup (l1 ++ k :: l2) → (k ∉ l1) ∧ (k ∉ l2).
Proof.
  intros H. apply NoDup_app in H as (_ & H1 & H2).
  apply NoDup_cons in H2 as [H2 _]. split; [|done].
  intros Hk. apply (H1 _ Hk). by left.
Qed.

Lemma getIndexWithinParent_shape s t p l1 l2 :
  getParent s t = Some p → getChildren s p = l1 ++ t :: l2 → t ∉ l1 →
  getIndexWithinParent s t = Some (p, length l1).
Proof.
  intros Hp Hc Hn. unfold getIndexWithinParent. rewrite Hp; simpl. rewrite Hc.
  by rewrite indexOf_app.
Qed.

Lemma getPreviousSibling_shape s t p l1 l2 :
  getParent s t = Some p → getChildren s p = l1 ++ t :: l2 → t ∉ l1 →
  getPreviousSibling s t = last l1.
Proof.
  intros Hp Hc Hn. unfold getPreviousSibling.
  rewrite (getIndexWithinParent_shape _ _ _ _ _ Hp Hc Hn); simpl. rewrite Hc.
  destruct l1 as [|a l1] using rev_ind; [done|].
  rewrite length_app; simpl. replace (length l1 + 1) with (S (length l1)) by lia.
  rewrite last_snoc, <- app_assoc; simpl. by rewrite list_lookup_middle.
Qed.

Lemma getNextSibling_shape s t p l1 l2 :
  getParent s t = Some p → getChildren s p = l1 ++ t :: l2 → t ∉ l1 →
  getNextSibling s t = head l2.
Proof.
  intros Hp Hc Hn. unfold getNextSibling.
  rewrite (getIndexWithinParent_shape _ _ _ _ _ Hp Hc Hn); simpl. rewrite Hc.
  replace (l1 ++ t :: l2) with ((l1 ++ [t]) ++ l2) by by rewrite <- app_assoc.
  rewrite lookup_app_r by (rewrite length_app; simpl; lia).
  rewrite length_app; simpl. replace (S (length l1) - (length l1 + 1)) with 0 by lia.
  by destruct l2.
Qed.

Lemma getPreviousSiblings_shape s t p l1 l2 :
  getParent s t = Some p → getChildren s p = l1 ++ t :: l2 → t ∉ l1 →
  getPreviousSiblings s t = l1.
Proof.
  intros Hp Hc Hn. unfold getPreviousSiblings.
  rewrite (getIndexWithinParent_shape _ _ _ _ _ Hp Hc Hn), Hc.
  by rewrite take_app_length.
Qed.

Lemma getNextSiblings_shape s t p l1 l2 :
  getParent s t = Some p → getChildren s p = l1 ++ t :: l2 → t ∉ l1 →
  getNextSiblings s t = l2.
Proof.
  intros Hp Hc Hn. unfold getNextSiblings.
  rewrite (getIndexWithinParent_shape _ _ _ _ _ Hp Hc Hn), Hc.
  replace (l1 ++ t :: l2) with ((l1 ++ [t]) ++ l2) by by rewrite <- app_assoc.
  replace (S (length l1)) with (length (l1 ++ [t])) by (rewrite length_app; simpl; lia).
  by rewrite drop_app_length.
Qed.

Lemma linked_child_shape s t p :
  linked s → getParent s t = Some p →
  ∃ l1 l2, getChildren s p = l1 ++ t :: l2 ∧ (t ∉ l1) ∧ (t ∉ l2).
Proof.
  intros Hl Hp. pose proof (linked_parent_child s Hl _ _ Hp) as Hin.
  apply list_elem_of_split in Hin as (l1 & l2 & E).
  exists l1, l2. split; [done|]. apply NoDup_middle. rewrite <- E.
  apply (linked_nodup s Hl).
Qed.

Lemma getPreviousSibling_None_parent s t :
  getParent s t = None → getPreviousSibling s t = None.
Proof.
  intros H. unfold getPreviousSibling, getIndexWithinParent. by rewrite H.
Qed.

Lemma getNextSibling_None_parent s t :
  getParent s t = None → getNextSibling s t = None.
Proof.
  intros H. unfold getNextSibling, getIndexWithinParent. by rewrite H.
Qed.
End siblings.

(** ** Moving a run of siblings *)

Section append_all.
Implicit Types (s : EditorState) (k p q x : nat) (l ks : list nat).

Lemma filter_notin_nil l : filter (λ y, y ∉ []) l = l.
Proof.
  induction l as [|a l IH]; [done|].
  rewrite filter_cons_True by apply not_elem_of_nil. by rewrite IH.
Qed.

Lemma filter_notin_cons k ks l :
  filter (λ y, y ∉ k :: ks) l = filter (λ y, y ∉ ks) (removeKey k l).
Proof.
  induction l as [|a l IH]; [done|]. destruct (decide (a = k)) as [->|Hne].
  - rewrite removeKey_cons_eq, filter_cons_False; [done|].
    intros H. apply H. by left.
  - rewrite removeKey_cons_ne by done. destruct (decide (a ∈ ks)) as [Hin|Hnin].
    + rewrite !filter_cons_False; [done|by intros H|].
      intros H. apply H. by right.
    + rewrite !filter_cons_True; [by rewrite IH|done|].
      by apply not_elem_of_cons.
Qed.

Lemma filter_notin_disjoint ks l :
  (∀ x, x ∈ l → x ∉ ks) → filter (λ y, y ∉ ks) l = l.
Proof.
  induction l as [|a l IH]; intros H; [done|].
  rewrite filter_cons_True by (apply H; by left).
  rewrite IH; [done|]. intros x Hx. apply H. by right.
Qed.

Lemma filter_notin_all ks l :
  (∀ x, x ∈ l → x ∈ ks) → filter (λ y, y ∉ ks) l = [].
Proof.
  induction l as [|a l IH]; intros H; [done|].
  rewrite filter_cons_False by (intros Hn; apply Hn, H; by left).
  apply IH. intros x Hx. apply H. by right.
Qed.

Lemma appendAll_effect q p ks s :
  NoDup ks → p ≠ q → (∀ k, k ∈ ks → getParent s k = Some p) →
  (∀ x, getParent (appendAll q ks s) x =
          if decide (x ∈ ks) then Some q else getParent s x)
  ∧ (∀ x, getChildren (appendAll q ks s) x =
          if decide (x = q) then getChildren s q ++ ks
          else if decide (x = p) then filter (λ y, y ∉ ks) (getChildren s p)
          else getChildren s x)
  ∧ node_type (appendAll q ks s) = node_type s
  ∧ next_key (appendAll q ks s) = next_key s.
Proof.
  intros Hnd Hpq. revert s. induction Hnd as [|k ks Hk Hnd IH]; intros s Hp.
  - split_and!; [| |reflexivity..].
    + intros x. rewrite decide_False; [reflexivity|apply not_elem_of_nil].
    + intros x. rewrite app_nil_r, filter_notin_nil.
      repeat case_decide; subst; reflexivity.
  - change (appendAll q (k :: ks) s) with (appendAll q ks (append q k s)).
    assert (getParent s k = Some p) as Hkp by (apply Hp; by left).
    destruct (IH (append q k s)) as (IP & IC & IT & IN).
    { intros k' Hk'. rewrite getParent_append.
      rewrite decide_False by (intros ->; done). apply Hp. by right. }
    split_and!.
    + intros x. rewrite IP, getParent_append.
      destruct (decide (x = k)) as [->|Hxk].
      * rewrite (decide_True (P:=k ∈ k :: ks)) by by left. by case_decide.
      * destruct (decide (x ∈ ks)) as [Hx|Hx].
        -- by rewrite decide_True by by right.
        -- rewrite decide_False; [done|]. by apply not_elem_of_cons.
    + intros x. rewrite IC.
      destruct (decide (x = q)) as [->|Hxq];
        [|destruct (decide (x = p)) as [->|Hxp]]; store_simp.
      * by rewrite <- app_assoc.
      * by rewrite filter_notin_cons.
      * done.
    + by rewrite IT, node_type_append.
    + by rewrite IN, next_key_append.
Qed.
End append_all.

(** ** Which arm of the outdent callback runs *)

Lemma outdentCase_first s p t rest :
  getChildren s p = t :: rest → outdentCase s p t = FirstChild.
Proof.
  intros H. unfold outdentCase, is_. rewrite (getFirstChild_cons _ _ _ _ H).
  by rewrite bool_decide_true.
Qed.

Lemma outdentCase_last s p t a pre :
  getChildren s p = a :: pre ++ [t] → t ≠ a → outdentCase s p t = LastChild.
Proof.
  intros H Hne. unfold outdentCase, is_. rewrite (getFirstChild_cons _ _ _ _ H).
  rewrite bool_decide_false by congruence.
  rewrite (getLastChild_snoc s p t (a :: pre)) by done.
  by rewrite bool_decide_true.
Qed.

Lemma outdentCase_interior s p t a pre post b :
  getChildren s p = (a :: pre) ++ t :: post ++ [b] → t ≠ a → t ≠ b →
  outdentCase s p t = InteriorChild.
Proof.
  intros H Ha Hb. unfold outdentCase, is_.
  rewrite (getFirstChild_cons s p a (pre ++ t :: post ++ [b])) by done.
  rewrite bool_decide_false by congruence.
  rewrite (getLastChild_snoc s p b ((a :: pre) ++ t :: post)).
  - by rewrite bool_decide_false by congruence.
  - rewrite H. by rewrite <- !app_assoc.
Qed.

Lemma outdentCase_middle s p t pre post :
  getChildren s p = pre ++ t :: post → pre ≠ [] → post ≠ [] →
  t ∉ pre → t ∉ post → outdentCase s p t = InteriorChild.
Proof.
  intros H Hpre Hpost Hn1 Hn2.
  destruct pre as [|a pre]; [done|].
  destruct post as [|b post _] using rev_ind; [done|].
  apply (outdentCase_interior s p t a pre post b H).
  - intros ->. apply Hn1. by left.
  - intros ->. apply Hn2. apply elem_of_app. right. by left.
Qed.

Lemma outdentSplit_unfold p gp t s :
  outdentSplit p gp t s =
    let n := next_key s in
    let tag := getTag s p in
    let s3 := append n (S n) (newNode (ListNode tag) (newNode ListItemNode s)) in
    let s4 := appendAll (S n) (getPreviousSiblings s3 t) s3 in
    let m := next_key s4 in
    let s7 := append m (S m) (newNode (ListNode tag) (newNode ListItemNode s4)) in
    let s8 := appendAll (S m) (getNextSiblings s7 t) s7 in
    s9 ← insertBefore gp n s8;
    s10 ← insertAfter gp m s9;
    replace gp t s10.
Proof. reflexivity. Qed.

Lemma removeFromParent_None k s : getParent s k = None → removeFromParent k s = s.
Proof. intros H. unfold removeFromParent. by rewrite H. Qed.

Ltac case_split x :=
  repeat first [decide_step
               |case_decide;
                repeat match goal with
                       | H : Some _ = Some _ |- _ => injection H as H
                       end;
                try subst x].

(** ** The arms of the outdent callback *)

Section outdent_arms.
Variables (s : EditorState) (t p gp ggp : nat) (l1 l2 : list nat).
Hypothesis Hl : linked s.
Hypothesis Hnested : isNestedListNode s (Some t) = false.
Hypothesis Hpt : getParent s t = Some p.
Hypothesis Hpp : getParent s p = Some gp.
Hypothesis Hpg : getParent s gp = Some ggp.
Hypothesis Hkp : isListNode s (Some p) = true.
Hypothesis Hkg : isListItemNode s (Some gp) = true.
Hypothesis Hkgg : isListNode s (Some ggp) = true.
Hypothesis Hcgg : getChildren s ggp = l1 ++ gp :: l2.
Hypothesis Hne : p ≠ ggp.

Lemma outdent_gp_notin : (gp ∉ l1) ∧ (gp ∉ l2).
Proof. apply NoDup_middle. rewrite <- Hcgg. apply (linked_nodup s Hl). Qed.

Lemma outdent_t_ne_gp : t ≠ gp.
Proof. congruence. Qed.

Lemma outdentListItem_valid :
  outdentListItem t s =
    s1 ← match outdentCase s p t with
         | FirstChild =>
             s' ← insertBefore gp t s;
             if isEmpty s' p then Some (remove gp s') else Some s'
         | LastChild =>
             s' ← insertAfter gp t s;
             if isEmpty s' p then Some (remove gp s') else Some s'
         | InteriorChild => outdentSplit p gp t s
         end;
    Some (markAllDirty (getChildren (markAllDirty (getChildren s1 p) s1) ggp)
            (markAllDirty (getChildren s1 p) s1)).
Proof.
  unfold outdentListItem. rewrite Hnested, Hpt; simpl. rewrite Hpp; simpl.
  by rewrite Hpg, Hkp, Hkg, Hkgg.
Qed.

Lemma outdent_first_effect rest :
  getChildren s p = t :: rest →
  ∃ s', outdentListItem t s = Some s'
    ∧ (∀ x, getParent s' x =
         if decide (x = t) then Some ggp
         else if decide (x = gp ∧ rest = []) then None else getParent s x)
    ∧ (∀ x, getChildren s' x =
         if decide (x = ggp)
         then l1 ++ t :: (if decide (rest = []) then l2 else gp :: l2)
         else if decide (x = p) then rest else getChildren s x)
    ∧ node_type s' = node_type s
    ∧ next_key s' = next_key s.
Proof.
  intros Hcp. destruct outdent_gp_notin as [Hg1 Hg2]. pose proof outdent_t_ne_gp.
  assert (t ∉ rest) as Hrest.
  { pose proof (linked_nodup s Hl p) as Hn. rewrite Hcp in Hn.
    by apply NoDup_cons in Hn as [? _]. }
  rewrite outdentListItem_valid. unfold outdentCase.
  rewrite (getFirstChild_cons _ _ _ _ Hcp). unfold is_.
  rewrite bool_decide_true by done.
  erewrite insertBefore_eq; [|store_simp; reflexivity|store_simp; reflexivity|done].
  simpl.
  set (s1 := setParent t (Some ggp)
               (setChildren ggp (l1 ++ t :: gp :: l2) (removeFromParent t s))).
  assert (getChildren s1 p = rest) as Hs1p.
  { unfold s1. store_simp. removeKey_simp. done. }
  destruct rest as [|a rest'].
  - rewrite isEmpty_true by done. simpl. eexists. split; [reflexivity|].
    unfold remove. split_and!.
    + intros x. unfold s1. store_simp. repeat case_decide; intuition congruence.
    + intros x. unfold s1. store_simp.
      repeat case_decide; subst; store_simp; try congruence; removeKey_simp; done.
    + unfold s1. by store_simp.
    + unfold s1. by store_simp.
  - rewrite (isEmpty_false _ _ _ _ Hs1p). simpl. eexists. split; [reflexivity|].
    split_and!.
    + intros x. unfold s1. store_simp. repeat case_decide; intuition congruence.
    + intros x. unfold s1. store_simp.
      repeat case_decide; subst; store_simp; try congruence; removeKey_simp; done.
    + unfold s1. by store_simp.
    + unfold s1. by store_simp.
Qed.
Lemma outdent_last_effect a pre :
  getChildren s p = a :: pre ++ [t] →
  ∃ s', outdentListItem t s = Some s'
    ∧ (∀ x, getParent s' x = if decide (x = t) then Some ggp else getParent s x)
    ∧ (∀ x, getChildren s' x =
         if decide (x = ggp) then l1 ++ gp :: t :: l2
         else if decide (x = p) then a :: pre else getChildren s x)
    ∧ node_type s' = node_type s
    ∧ next_key s' = next_key s.
Proof.
  intros Hcp. destruct outdent_gp_notin as [Hg1 Hg2]. pose proof outdent_t_ne_gp.
  assert (t ≠ a ∧ t ∉ pre) as [Hta Htp].
  { pose proof (linked_nodup s Hl p) as Hn. rewrite Hcp in Hn.
    change (a :: pre ++ [t]) with ((a :: pre) ++ [t]) in Hn.
    apply NoDup_middle in Hn as [Hn _]. by apply not_elem_of_cons in Hn. }
  rewrite outdentListItem_valid. rewrite (outdentCase_last _ _ _ _ _ Hcp Hta).
  erewrite insertAfter_eq; [|store_simp; reflexivity|store_simp; reflexivity|done].
  simpl.
  set (s1 := setParent t (Some ggp)
               (setChildren ggp (l1 ++ gp :: t :: l2) (removeFromParent t s))).
  assert (getChildren s1 p = a :: pre) as Hs1p.
  { unfold s1. store_simp. removeKey_simp. by rewrite app_nil_r. }
  rewrite (isEmpty_false _ _ _ _ Hs1p). simpl. eexists. split; [reflexivity|].
  split_and!.
  - intros x. unfold s1. store_simp. repeat case_decide; intuition congruence.
  - intros x. unfold s1. store_simp.
    repeat case_decide; subst; store_simp; try congruence; removeKey_simp.
    by rewrite app_nil_r.
  - unfold s1. by store_simp.
  - unfold s1. by store_simp.
Qed.
Lemma outdent_split_effect pre post :
  getChildren s p = pre ++ t :: post → pre ≠ [] → post ≠ [] →
  ∃ s', outdentListItem t s = Some s'
    ∧ (∀ x, getParent s' x =
         if decide (x = t) then Some ggp
         else if decide (x ∈ pre) then Some (S (next_key s))
         else if decide (x ∈ post) then Some (S (S (S (next_key s))))
         else if decide (x = S (next_key s)) then Some (next_key s)
         else if decide (x = S (S (S (next_key s)))) then Some (S (S (next_key s)))
         else if decide (x = next_key s ∨ x = S (S (next_key s))) then Some ggp
         else if decide (x = gp) then None
         else getParent s x)
    ∧ (∀ x, getChildren s' x =
         if decide (x = ggp) then l1 ++ next_key s :: t :: S (S (next_key s)) :: l2
         else if decide (x = next_key s) then [S (next_key s)]
         else if decide (x = S (next_key s)) then pre
         else if decide (x = S (S (next_key s))) then [S (S (S (next_key s)))]
         else if decide (x = S (S (S (next_key s)))) then post
         else if decide (x = p) then []
         else getChildren s x)
    ∧ (∀ x, node_type s' !! x =
         if decide (x = next_key s ∨ x = S (S (next_key s))) then Some ListItemNode
         else if decide (x = S (next_key s) ∨ x = S (S (S (next_key s))))
              then Some (ListNode (getTag s p))
         else node_type s !! x)
    ∧ next_key s' = S (S (S (S (next_key s)))).
Proof.
  intros Hcp Hpre Hpost.
  destruct outdent_gp_notin as [Hg1 Hg2]. pose proof outdent_t_ne_gp as Htg.
  pose proof (linked_nodup s Hl p) as Hnd. rewrite Hcp in Hnd.
  destruct (NoDup_middle _ _ _ Hnd) as [Htpre Htpost].
  apply NoDup_app in Hnd as (Hndpre & Hdisj & Hndpost).
  apply NoDup_cons in Hndpost as [_ Hndpost].
  assert (∀ k, k ∈ pre → getParent s k = Some p) as Hppre.
  { intros k Hk. apply (linked_child_parent s Hl). rewrite Hcp.
    apply elem_of_app. by left. }
  assert (∀ k, k ∈ post → getParent s k = Some p) as Hppost.
  { intros k Hk. apply (linked_child_parent s Hl). rewrite Hcp.
    apply elem_of_app. right. by right. }
  assert (∀ k, k ∈ pre → k ∉ post) as Hprepost.
  { intros k Hk Hk'. apply (Hdisj k Hk). by right. }
  destruct (linked_parent_lt _ _ _ Hl Hpt) as [Htn Hpn].
  destruct (linked_parent_lt _ _ _ Hl Hpg) as [Hgn Hggn].
  assert (∀ k, k ∈ pre → k < next_key s) as Hpren.
  { intros k Hk. by destruct (linked_parent_lt _ _ _ Hl (Hppre k Hk)). }
  assert (∀ k, k ∈ post → k < next_key s) as Hpostn.
  { intros k Hk. by destruct (linked_parent_lt _ _ _ Hl (Hppost k Hk)). }
  rewrite outdentListItem_valid.
  rewrite (outdentCase_middle _ _ _ _ _ Hcp Hpre Hpost Htpre Htpost).
  remember (next_key s) as n eqn:En.
  remember (getTag s p) as tag eqn:Etag.
  (* the first wrapper and the preceding siblings *)
  set (s3 := append n (S n) (newNode (ListNode tag) (newNode ListItemNode s))).
  assert (∀ x, getParent s3 x = if decide (x = S n) then Some n else getParent s x)
    as H3P.
  { intros x. unfold s3. store_simp. rewrite <- En.
    destruct (linked_fresh s Hl n) as (F1 & _); [lia|].
    destruct (linked_fresh s Hl (S n)) as (F2 & _); [lia|].
    repeat case_decide; try subst x; congruence. }
  assert (∀ x, getChildren s3 x = if decide (x = n) then [S n] else getChildren s x)
    as H3C.
  { intros x. unfold s3. store_simp. rewrite <- En. store_simp.
    destruct (linked_fresh s Hl (S n)) as (_ & F2 & _); [lia|].
    repeat case_decide; try subst x; try congruence; try lia; by rewrite ?F2. }
  assert (∀ x, node_type s3 !! x =
               if decide (x = n) then Some ListItemNode
               else if decide (x = S n) then Some (ListNode tag)
               else node_type s !! x) as H3T.
  { intros x. unfold s3. store_simp. rewrite <- En.
    repeat case_decide; try subst x; try congruence; lia. }
  assert (next_key s3 = S (S n)) as H3N.
  { unfold s3. store_simp. by rewrite <- En. }
  assert (getPreviousSiblings s3 t = pre) as Hprev.
  { apply (getPreviousSiblings_shape s3 t p pre post); [| |done].
    - rewrite H3P. by rewrite decide_False by lia.
    - rewrite H3C. by rewrite decide_False by lia. }
  set (s4 := appendAll (S n) pre s3).
  assert (∀ k, next_key s ≤ k → getParent s k = None ∧ getChildren s k = [])
    as Hfresh.
  { intros k Hk. by destruct (linked_fresh s Hl k Hk) as (? & ? & _). }
  destruct (Hfresh n) as [Fp0 Fc0]; [lia|].
  destruct (Hfresh (S n)) as [Fp1 Fc1]; [lia|].
  destruct (Hfresh (S (S n))) as [Fp2 Fc2]; [lia|].
  destruct (Hfresh (S (S (S n)))) as [Fp3 Fc3]; [lia|].
  assert ((∀ x, getParent s4 x =
                if decide (x ∈ pre) then Some (S n)
                else if decide (x = S n) then Some n else getParent s x)
          ∧ (∀ x, getChildren s4 x =
                if decide (x = S n) then pre
                else if decide (x = p) then t :: post
                else if decide (x = n) then [S n] else getChildren s x)
          ∧ node_type s4 = node_type s3
          ∧ next_key s4 = S (S n)) as (H4P & H4C & H4T & H4N).
  { destruct (appendAll_effect (S n) p pre s3) as (HP & HC & HT & HN);
      [done|lia| |].
    { intros k Hk. rewrite H3P.
      rewrite decide_False by (specialize (Hpren k Hk); lia). by apply Hppre. }
    fold s4 in HP, HC, HT, HN. split_and!; [| |done|congruence].
    - intros x. by rewrite HP, H3P.
    - intros x. rewrite HC, !H3C.
      destruct (decide (x = S n)) as [->|?].
      { rewrite decide_False by lia. by rewrite Fc1. }
      destruct (decide (x = p)) as [->|?]; [|done].
      rewrite decide_False by lia. rewrite Hcp, filter_app.
      rewrite filter_notin_all by done.
      rewrite filter_notin_disjoint; [done|].
      intros y Hy Hy'. apply (Hdisj y Hy'). done. }
  (* the second wrapper and the following siblings *)
  set (s7 := append (S (S n)) (S (S (S n)))
               (newNode (ListNode tag) (newNode ListItemNode s4))).
  assert (getParent s4 (S (S n)) = None) as F4p2.
  { rewrite H4P. rewrite decide_False by (intros Hk%Hpren; lia).
    by rewrite decide_False by lia. }
  assert (getParent s4 (S (S (S n))) = None) as F4p3.
  { rewrite H4P. rewrite decide_False by (intros Hk%Hpren; lia).
    by rewrite decide_False by lia. }
  assert (getChildren s4 (S (S (S n))) = []) as F4c3.
  { rewrite H4C. by rewrite !decide_False by lia. }
  assert (∀ x, getParent s7 x =
               if decide (x = S (S (S n))) then Some (S (S n)) else getParent s4 x)
    as H7P.
  { intros x. unfold s7. store_simp. rewrite H4N.
    repeat case_decide; try subst x; congruence. }
  assert (∀ x, getChildren s7 x =
               if decide (x = S (S n)) then [S (S (S n))] else getChildren s4 x)
    as H7C.
  { intros x. unfold s7. store_simp. rewrite H4N. store_simp.
    repeat case_decide; try subst x; try congruence; try lia; by rewrite ?F4c3. }
  assert (∀ x, node_type s7 !! x =
               if decide (x = S (S n)) then Some ListItemNode
               else if decide (x = S (S (S n))) then Some (ListNode tag)
               else node_type s3 !! x) as H7T.
  { intros x. unfold s7. store_simp. rewrite H4N, H4T.
    repeat case_decide; try subst x; try congruence; lia. }
  assert (next_key s7 = S (S (S (S n)))) as H7N.
  { unfold s7. store_simp. by rewrite H4N. }
  assert (getNextSiblings s7 t = post) as Hnext.
  { apply (getNextSiblings_shape s7 t p [] post); [| |apply not_elem_of_nil].
    - rewrite H7P, H4P. rewrite decide_False by lia.
      rewrite decide_False by done. by rewrite decide_False by lia.
    - rewrite H7C, H4C. rewrite decide_False by lia.
      rewrite decide_False by lia. by rewrite decide_True by done. }
  set (s8 := appendAll (S (S (S n))) post s7).
  assert ((∀ x, getParent s8 x =
                if decide (x ∈ post) then Some (S (S (S n))) else getParent s7 x)
          ∧ (∀ x, getChildren s8 x =
                if decide (x = S (S (S n))) then post
                else if decide (x = p) then [t] else getChildren s7 x)
          ∧ node_type s8 = node_type s7
          ∧ next_key s8 = S (S (S (S n)))) as (H8P & H8C & H8T & H8N).
  { destruct (appendAll_effect (S (S (S n))) p post s7) as (HP & HC & HT & HN);
      [done|lia| |].
    { intros k Hk. rewrite H7P, H4P.
      rewrite decide_False by (specialize (Hpostn k Hk); lia).
      rewrite decide_False by (intros Hk'; by apply (Hprepost k)).
      rewrite decide_False by (specialize (Hpostn k Hk); lia). by apply Hppost. }
    fold s8 in HP, HC, HT, HN. split_and!; [done| |done|congruence].
    intros x. rewrite HC, !H7C, !H4C.
    destruct (decide (x = S (S (S n)))) as [->|?].
    { rewrite decide_False by lia. rewrite decide_False by lia.
      rewrite decide_False by lia. rewrite decide_False by lia. by rewrite Fc3. }
    destruct (decide (x = p)) as [->|?]; [|done].
    rewrite decide_False by lia. rewrite decide_False by lia.
    rewrite decide_True by done.
    rewrite filter_cons_True by done. by rewrite filter_notin_all. }
  assert (∀ k, k ∈ pre ∨ k ∈ post → k < n) as Hsibn.
  { intros k [Hk|Hk]; [specialize (Hpren k Hk)|specialize (Hpostn k Hk)]; lia. }
  assert (∀ x, getParent s8 x =
               if decide (x ∈ post) then Some (S (S (S n)))
               else if decide (x = S (S (S n))) then Some (S (S n))
               else if decide (x ∈ pre) then Some (S n)
               else if decide (x = S n) then Some n else getParent s x) as H8P'.
  { intros x. by rewrite H8P, H7P, H4P. }
  assert (∀ x, getChildren s8 x =
               if decide (x = S (S (S n))) then post
               else if decide (x = p) then [t]
               else if decide (x = S (S n)) then [S (S (S n))]
               else if decide (x = S n) then pre
               else if decide (x = n) then [S n] else getChildren s x) as H8C'.
  { intros x. rewrite H8C, H7C, H4C. case_split x; done. }
  assert (∀ x, node_type s8 !! x =
               if decide (x = S (S n)) then Some ListItemNode
               else if decide (x = S (S (S n))) then Some (ListNode tag)
               else if decide (x = n) then Some ListItemNode
               else if decide (x = S n) then Some (ListNode tag)
               else node_type s !! x) as H8T'.
  { intros x. by rewrite H8T, H7T, H3T. }
  clear H8P H8C H8T H7P H7C H7T H4P H4C H4T H3P H3C H3T.
  assert (outdentSplit p gp t s =
          s9 ← insertBefore gp n s8;
          s10 ← insertAfter gp (S (S n)) s9;
          replace gp t s10) as ->.
  { rewrite outdentSplit_unfold. cbv zeta. rewrite <- En, <- Etag. fold s3.
    rewrite Hprev. fold s4. rewrite H4N. fold s7. rewrite Hnext. by fold s8. }
  assert (∀ k, n ≤ k → (k ∉ pre) ∧ (k ∉ post)) as Hfr.
  { intros k Hk. split; intros Hin.
    - specialize (Hsibn k (or_introl Hin)). lia.
    - specialize (Hsibn k (or_intror Hin)). lia. }
  destruct (Hfr n) as [? ?]; [lia|].
  destruct (Hfr (S n)) as [? ?]; [lia|].
  destruct (Hfr (S (S n))) as [? ?]; [lia|].
  destruct (Hfr (S (S (S n)))) as [? ?]; [lia|].
  assert ((gp ∉ pre) ∧ (gp ∉ post)) as [? ?].
  { split; intros Hin; [apply Hppre in Hin|apply Hppost in Hin]; congruence. }
  assert (getParent s8 n = None) as F8n by (rewrite H8P'; case_split n; done).
  assert (getParent s8 gp = Some ggp) as F8g by (rewrite H8P'; case_split gp; done).
  assert (getChildren s8 ggp = l1 ++ gp :: l2) as F8gg
    by (rewrite H8C'; case_split ggp; done).
  erewrite insertBefore_eq;
    [|rewrite (removeFromParent_None _ _ F8n); eassumption
     |rewrite (removeFromParent_None _ _ F8n); eassumption|done].
  rewrite (removeFromParent_None _ _ F8n). simpl.
  set (s9 := setParent n (Some ggp) (setChildren ggp (l1 ++ n :: gp :: l2) s8)).
  assert (getParent s9 (S (S n)) = None) as F9n.
  { unfold s9. store_simp. rewrite H8P'. case_split n; done. }
  rewrite (insertAfter_eq gp (S (S n)) s9 ggp (l1 ++ [n]) l2).
  2: { rewrite (removeFromParent_None _ _ F9n). unfold s9. by store_simp. }
  2: { rewrite (removeFromParent_None _ _ F9n). unfold s9. store_simp.
       by rewrite <- app_assoc. }
  2: { apply not_elem_of_app. split; [done|].
       apply not_elem_of_cons. split; [lia|apply not_elem_of_nil]. }
  rewrite (removeFromParent_None _ _ F9n). simpl.
  set (s10 := setParent (S (S n)) (Some ggp)
                (setChildren ggp ((l1 ++ [n]) ++ gp :: S (S n) :: l2) s9)).
  assert ((t ∉ l1) ∧ True) as [Htl1 _].
  { split; [|done]. intros Hin.
    assert (t ∈ getChildren s ggp) as Hin' by (rewrite Hcgg; apply elem_of_app; by left).
    apply (linked_child_parent s Hl) in Hin'. congruence. }
  unfold replace.
  rewrite (insertBefore_eq gp t s10 ggp (l1 ++ [n]) (S (S n) :: l2)).
  2: { unfold s10, s9. by store_simp. }
  2: { unfold s10, s9. store_simp. rewrite ?H8P'. case_split t; done. }
  2: { apply not_elem_of_app. split; [done|].
       apply not_elem_of_cons. split; [lia|apply not_elem_of_nil]. }
  simpl. eexists. split; [reflexivity|]. unfold remove.
  split_and!.
  - intros x. unfold s10, s9. store_simp. rewrite !H8P'.
    case_split x; try done; exfalso; eapply Hprepost; eassumption.
  - intros x. unfold s10, s9. store_simp. rewrite ?H8P', ?H8C'.
    case_split x; try done; removeKey_simp; by rewrite <- ?app_assoc.
  - intros x. unfold s10, s9. store_simp. rewrite H8T'.
    case_split x; try done; lia.
  - unfold s10, s9. store_simp. done.
Qed.
End outdent_arms.

(** ** The arms of the indent callback *)

Lemma isNestedListNode_inv s k :
  isNestedListNode s (Some k) = true →
  isListItemNode s (Some k) = true
  ∧ ∃ il, getFirstChild s k = Some il ∧ isListNode s (Some il) = true.
Proof.
  unfold isNestedListNode. rewrite andb_true_iff. intros [H1 H2]. split; [done|].
  destruct (getFirstChild s k) as [il|] eqn:E; [|done]. by exists il.
Qed.

Lemma getFirstChild_inv s k a :
  getFirstChild s k = Some a → ∃ l, getChildren s k = a :: l.
Proof.
  unfold getFirstChild. destruct (getChildren s k) as [|b l]; [done|].
  intros [= ->]. by exists l.
Qed.

Lemma indent_finish (m : option EditorState) (parent : option nat) s1
    (P : EditorState → Prop) :
  m = Some s1 →
  (∀ d, P (markAllDirty d s1)) →
  ∃ s', (s1 ← m;
         match parent with
         | Some p =>
             if isListNode s1 parent then Some (markAllDirty (getChildren s1 p) s1)
             else Some s1
         | None => Some s1
         end) = Some s' ∧ P s'.
Proof.
  intros -> HP. simpl. destruct parent as [p|].
  - destruct (isListNode s1 (Some p)).
    + eexists. split; [reflexivity|]. apply HP.
    + exists s1. split; [done|]. apply (HP []).
  - exists s1. split; [done|]. apply (HP []).
Qed.

Lemma list_type_ne s a b :
  isListItemNode s (Some a) = true → isListNode s (Some b) = true → a ≠ b.
Proof.
  unfold isListItemNode, isListNode. intros Ha Hb ->.
  destruct (node_type s !! b) as [[]|]; done.
Qed.

Section indent_arms.
Variables (s : EditorState) (t p : nat).
Hypothesis Hl : linked s.
Hypothesis Hnested : isNestedListNode s (Some t) = false.
Hypothesis Hpt : getParent s t = Some p.

Lemma indent_previous_effect A La :
  getPreviousSibling s t = Some A →
  isNestedListNode s (getNextSibling s t) = false →
  isNestedListNode s (Some A) = true →
  getFirstChild s A = Some La →
  p ≠ La →
  ∃ s', indentListItem t s = Some s'
    ∧ (∀ x, getParent s' x = if decide (x = t) then Some La else getParent s x)
    ∧ (∀ x, getChildren s' x =
         if decide (x = La) then getChildren s La ++ [t]
         else if decide (x = p) then removeKey t (getChildren s p)
         else getChildren s x)
    ∧ node_type s' = node_type s
    ∧ next_key s' = next_key s.
Proof.
  intros Hprev Hnext HA HLa Hne.
  destruct (isNestedListNode_inv _ _ HA) as (HkA & La' & HLa' & HkLa).
  assert (La' = La) as -> by congruence.
  unfold indentListItem. rewrite Hnested. cbv zeta.
  eapply indent_finish.
  { rewrite Hnext, Hprev, HA. simpl.
    unfold indentIntoPrevious. rewrite HLa, HkLa. reflexivity. }
  intros d. split_and!.
  - intros x. store_simp. case_split x; done.
  - intros x. store_simp. case_split x; done.
  - by store_simp.
  - by store_simp.
Qed.

Lemma indent_next_effect C Lc f rf :
  isNestedListNode s (getPreviousSibling s t) = false →
  getNextSibling s t = Some C →
  isNestedListNode s (Some C) = true →
  getFirstChild s C = Some Lc →
  getChildren s Lc = f :: rf →
  p ≠ Lc →
  ∃ s', indentListItem t s = Some s'
    ∧ (∀ x, getParent s' x = if decide (x = t) then Some Lc else getParent s x)
    ∧ (∀ x, getChildren s' x =
         if decide (x = Lc) then t :: f :: rf
         else if decide (x = p) then removeKey t (getChildren s p)
         else getChildren s x)
    ∧ node_type s' = node_type s
    ∧ next_key s' = next_key s.
Proof.
  intros Hprev Hnext HC HLc Hc Hne.
  destruct (isNestedListNode_inv _ _ HC) as (HkC & Lc' & HLc' & HkLc).
  assert (Lc' = Lc) as -> by congruence.
  assert (getParent s f = Some Lc) as Hpf.
  { apply (linked_child_parent s Hl). rewrite Hc. by left. }
  assert (f ≠ t) as Hft by congruence.
  unfold indentListItem. rewrite Hnested. cbv zeta.
  eapply indent_finish.
  { rewrite Hnext, Hprev, HC. simpl.
    unfold indentIntoNext. rewrite HLc, HkLc.
    rewrite (getFirstChild_cons _ _ _ _ Hc).
    rewrite (insertBefore_eq f t s Lc [] rf);
      [|by store_simp|by store_simp|apply not_elem_of_nil].
    reflexivity. }
  intros d. split_and!.
  - intros x. store_simp. case_split x; done.
  - intros x. store_simp. case_split x; done.
  - by store_simp.
  - by store_simp.
Qed.

Lemma indent_next_empty_effect C Lc :
  isNestedListNode s (getPreviousSibling s t) = false →
  getNextSibling s t = Some C →
  isNestedListNode s (Some C) = true →
  getFirstChild s C = Some Lc →
  getChildren s Lc = [] →
  ∃ s', indentListItem t s = Some s' ∧ ∃ d, s' = markAllDirty d s.
Proof.
  intros Hprev Hnext HC HLc Hc.
  destruct (isNestedListNode_inv _ _ HC) as (HkC & Lc' & HLc' & HkLc).
  assert (Lc' = Lc) as -> by congruence.
  unfold indentListItem. rewrite Hnested. cbv zeta.
  eapply (indent_finish _ _ _ (λ s', ∃ d, s' = markAllDirty d s)).
  { rewrite Hnext, Hprev, HC. simpl.
    unfold indentIntoNext. rewrite HLc, HkLc.
    unfold getFirstChild at 1. rewrite Hc. reflexivity. }
  intros d. simpl. rewrite Hc. by exists d.
Qed.

Lemma indent_merge_effect A C La Lc :
  getPreviousSibling s t = Some A →
  getNextSibling s t = Some C →
  isNestedListNode s (Some A) = true →
  isNestedListNode s (Some C) = true →
  getFirstChild s A = Some La →
  getFirstChild s C = Some Lc →
  p ≠ La → p ≠ Lc → p ≠ C → A ≠ C →
  ∃ s', indentListItem t s = Some s'
    ∧ (∀ x, getParent s' x =
         if decide (x = t) then Some La
         else if decide (x ∈ getChildren s Lc) then Some La
         else if decide (x = Lc) then None
         else getParent s x)
    ∧ (∀ x, getChildren s' x =
         if decide (x = La) then getChildren s La ++ t :: getChildren s Lc
         else if decide (x = Lc) then []
         else if decide (x = C) then removeKey Lc (getChildren s C)
         else if decide (x = p) then removeKey t (getChildren s p)
         else getChildren s x)
    ∧ node_type s' = node_type s
    ∧ next_key s' = next_key s.
Proof.
  intros Hprev Hnext HA HC HLa HLc Hn1 Hn2 Hn3 Hn4.
  destruct (isNestedListNode_inv _ _ HA) as (HkA & La' & HLa' & HkLa).
  assert (La' = La) as -> by congruence.
  destruct (isNestedListNode_inv _ _ HC) as (HkC & Lc' & HLc' & HkLc).
  assert (Lc' = Lc) as -> by congruence.
  destruct (getFirstChild_inv _ _ _ HLa) as (ra & HcA).
  destruct (getFirstChild_inv _ _ _ HLc) as (rc & HcC).
  assert (getParent s La = Some A) as HpLa.
  { apply (linked_child_parent s Hl). rewrite HcA. by left. }
  assert (getParent s Lc = Some C) as HpLc.
  { apply (linked_child_parent s Hl). rewrite HcC. by left. }
  assert (La ≠ Lc) as Hn5 by congruence.
  pose proof (list_type_ne _ _ _ HkC HkLa) as Hn6.
  pose proof (list_type_ne _ _ _ HkC HkLc) as Hn7.
  assert (t ≠ Lc) as Hn8 by congruence.
  set (s1 := append La t s).
  assert (getFirstChild s1 C = Some Lc) as HLc1.
  { unfold getFirstChild, s1. by store_simp. }
  assert (getChildren s1 Lc = getChildren s Lc) as Hc1.
  { unfold s1. by store_simp. }
  destruct (appendAll_effect La Lc (getChildren s Lc) s1)
    as (HP2 & HC2 & HT2 & HN2); [apply (linked_nodup s Hl)|done| |].
  { intros k Hk. pose proof (linked_child_parent s Hl _ _ Hk) as Hpk.
    unfold s1. by store_simp. }
  set (s2 := appendAll La (getChildren s Lc) s1) in *.
  unfold indentListItem. rewrite Hnested. cbv zeta.
  eapply indent_finish.
  { rewrite Hnext, Hprev, HA, HC. simpl.
    unfold indentMerge. rewrite HLa, HkLa. fold s1. rewrite HLc1.
    rewrite (isListNode_type s s1) by (unfold s1; by store_simp).
    rewrite HkLc, Hc1. fold s2. reflexivity. }
  intros d. split_and!.
  - intros x. unfold remove. store_simp. rewrite !HP2. unfold s1. store_simp.
    assert (Lc ∉ getChildren s Lc) as HnLc.
    { intros Hin. apply (linked_child_parent s Hl) in Hin. congruence. }
    assert (t ∉ getChildren s Lc) as HntLc.
    { intros Hin. apply (linked_child_parent s Hl) in Hin. congruence. }
    case_split x; done.
  - intros x. unfold remove. store_simp. rewrite ?HP2, ?HC2. unfold s1. store_simp.
    assert (Lc ∉ getChildren s Lc) as HnLc.
    { intros Hin. apply (linked_child_parent s Hl) in Hin. congruence. }
    rewrite (decide_False (P:=Lc ∈ getChildren s Lc)) by done.
    rewrite (filter_notin_all (getChildren s Lc) (getChildren s Lc)) by done.
    case_split x; store_simp; try done.
    by rewrite <- app_assoc.
  - unfold remove. store_simp. rewrite HT2. unfold s1. by store_simp.
  - unfold remove. store_simp. rewrite HN2. unfold s1. by store_simp.
Qed.
Lemma getTag_newNode ty k :
  k ≠ next_key s → getTag (newNode ty s) k = getTag s k.
Proof.
  intros Hk. unfold getTag. rewrite node_type_newNode. by rewrite decide_False.
Qed.

Lemma indent_new_effect l1 l2 :
  isNestedListNode s (getPreviousSibling s t) = false →
  isNestedListNode s (getNextSibling s t) = false →
  isListNode s (Some p) = true →
  getChildren s p = l1 ++ t :: l2 →
  ∃ s', indentListItem t s = Some s'
    ∧ (∀ x, getParent s' x =
         if decide (x = t) then Some (S (next_key s))
         else if decide (x = S (next_key s)) then Some (next_key s)
         else if decide (x = next_key s) then Some p
         else getParent s x)
    ∧ (∀ x, getChildren s' x =
         if decide (x = p) then l1 ++ next_key s :: l2
         else if decide (x = next_key s) then [S (next_key s)]
         else if decide (x = S (next_key s)) then [t]
         else getChildren s x)
    ∧ (∀ x, node_type s' !! x =
         if decide (x = next_key s) then Some ListItemNode
         else if decide (x = S (next_key s)) then Some (ListNode (getTag s p))
         else node_type s !! x)
    ∧ next_key s' = S (S (next_key s)).
Proof.
  intros Hprev Hnext Hkp Hcp.
  pose proof (linked_nodup s Hl p) as Hnd. rewrite Hcp in Hnd.
  destruct (NoDup_middle _ _ _ Hnd) as [Ht1 Ht2].
  destruct (linked_parent_lt _ _ _ Hl Hpt) as [Htn Hpn].
  assert (∀ k, next_key s ≤ k → getParent s k = None ∧ getChildren s k = [])
    as Hfresh.
  { intros k Hk. by destruct (linked_fresh s Hl k Hk) as (? & ? & _). }
  destruct (Hfresh (next_key s)) as [Fp0 Fc0]; [lia|].
  destruct (Hfresh (S (next_key s))) as [Fp1 Fc1]; [lia|].
  assert (getTag (newNode ListItemNode s) p = getTag s p) as Htag
    by (apply getTag_newNode; lia).
  remember (next_key s) as n eqn:En.
  remember (getTag s p) as tag eqn:Etag.
  set (s4 := append (S n) t (append n (S n)
               (newNode (ListNode tag) (newNode ListItemNode s)))).
  assert (∀ x, getParent s4 x =
               if decide (x = t) then Some (S n)
               else if decide (x = S n) then Some n else getParent s x) as H4P.
  { intros x. unfold s4. store_simp. rewrite <- En. case_split x; done. }
  assert (∀ x, getChildren s4 x =
               if decide (x = S n) then [t]
               else if decide (x = n) then [S n]
               else if decide (x = p) then l1 ++ l2 else getChildren s x) as H4C.
  { intros x. unfold s4. store_simp. rewrite <- En. store_simp.
    case_split x; store_simp; try done; try lia.
    by removeKey_simp. }
  assert (∀ x, node_type s4 !! x =
               if decide (x = n) then Some ListItemNode
               else if decide (x = S n) then Some (ListNode tag)
               else node_type s !! x) as H4T.
  { intros x. unfold s4. store_simp. rewrite <- En. case_split x; done. }
  assert (next_key s4 = S (S n)) as H4N.
  { unfold s4. store_simp. by rewrite <- En. }
  assert (getParent s4 n = None) as F4n.
  { rewrite H4P. case_split n; done. }
  assert (getPreviousSibling s t = last l1) as Eprev
    by by apply (getPreviousSibling_shape s t p l1 l2).
  assert (getNextSibling s t = head l2) as Enext
    by by apply (getNextSibling_shape s t p l1 l2).
  assert (∃ s1, indentNewList (Some p) (last l1) (head l2) t s = Some s1
            ∧ (∀ x, getParent s1 x = if decide (x = n) then Some p else getParent s4 x)
            ∧ (∀ x, getChildren s1 x =
                 if decide (x = p) then l1 ++ n :: l2 else getChildren s4 x)
            ∧ node_type s1 = node_type s4
            ∧ next_key s1 = next_key s4) as (s1 & Hs1 & H1P & H1C & H1T & H1N).
  { unfold indentNewList. rewrite Hkp.
    unfold createListItemNode, createListNode, createNode. cbv beta iota zeta.
    rewrite !next_key_newNode, Htag, <- En. fold s4.
    destruct l1 as [|A l1' _] using rev_ind.
    - simpl (last []). cbv beta iota. destruct l2 as [|C l2'].
      + simpl (head []). cbv beta iota. eexists. split; [reflexivity|]. split_and!.
        * intros x. by store_simp.
        * intros x. store_simp. rewrite ?H4C. case_split x; done.
        * by store_simp.
        * by store_simp.
      + simpl (head _). cbv beta iota.
        assert (getParent s C = Some p) as HpC.
        { apply (linked_child_parent s Hl). rewrite Hcp. right. by left. }
        assert (C ≠ t) as HCt.
        { intros ->. apply Ht2. by left. }
        destruct (linked_parent_lt _ _ _ Hl HpC) as [HCn _].
        rewrite (insertBefore_eq C n s4 p [] l2').
        2: { rewrite (removeFromParent_None _ _ F4n), H4P. case_split C; done. }
        2: { rewrite (removeFromParent_None _ _ F4n), H4C. case_split p; done. }
        2: { apply not_elem_of_nil. }
        rewrite (removeFromParent_None _ _ F4n).
        eexists. split; [reflexivity|]. split_and!.
        * intros x. by store_simp.
        * intros x. by store_simp.
        * by store_simp.
        * by store_simp.
    - rewrite last_snoc. cbv beta iota.
      assert (getParent s A = Some p) as HpA.
      { apply (linked_child_parent s Hl). rewrite Hcp.
        apply elem_of_app. left. apply elem_of_app. right. by left. }
      assert (A ≠ t) as HAt.
      { intros ->. apply Ht1. apply elem_of_app. right. by left. }
      destruct (linked_parent_lt _ _ _ Hl HpA) as [HAn _].
      assert (A ∉ l1') as HAl1.
      { apply NoDup_app in Hnd as (Hnd & _ & _).
        apply NoDup_app in Hnd as (_ & Hd & _).
        intros Hin. apply (Hd _ Hin). by left. }
      rewrite (insertAfter_eq A n s4 p l1' l2).
      2: { rewrite (removeFromParent_None _ _ F4n), H4P. case_split A; done. }
      2: { rewrite (removeFromParent_None _ _ F4n), H4C. case_split p; try done.
           by rewrite <- app_assoc. }
      2: { done. }
      rewrite (removeFromParent_None _ _ F4n).
      eexists. split; [reflexivity|]. split_and!.
      * intros x. by store_simp.
      * intros x. store_simp. by rewrite <- app_assoc.
      * by store_simp.
      * by store_simp. }
  unfold indentListItem. rewrite Hnested. cbv zeta.
  eapply indent_finish.
  { rewrite Hnext, Hprev. simpl. rewrite Hpt, Eprev, Enext. exact Hs1. }
  intros d. split_and!.
  - intros x. store_simp. rewrite H1P, H4P. case_split x; done.
  - intros x. store_simp. rewrite H1C, H4C. case_split x; done.
  - intros x. store_simp. by rewrite H1T, H4T.
  - store_simp. by rewrite H1N, H4N.
Qed.
End indent_arms.

(** ** Outdent of one target *)

Lemma forEach_single f t s : forEach f [t] s = f t s.
Proof. simpl. by destruct (f t s). Qed.

Lemma tree_valid_ancestry_ne s t p gp ggp :
  tree s → getParent s t = Some p → getParent s p = Some gp →
  getParent s gp = Some ggp → p ≠ ggp.
Proof.
  intros Ht Hpt Hpp Hpg. apply (tree_ancestor_ne s); [done|].
  eapply tc_l; [exact Hpp|]. by apply tc_once.
Qed.

(** C7, as amended.  In a document tree, the first child of a nested List,
    when it is not itself a nested-list wrapper, moves to just before the
    grandparent ListItem in the great-grandparent List, and the grandparent
    ListItem is removed exactly when the parent List is empty after the
    move. *)
Theorem outdent_first_child s t p gp ggp rest l1 l2 :
  tree s →
  isNestedListNode s (Some t) = false →
  getParent s t = Some p → getParent s p = Some gp → getParent s gp = Some ggp →
  isListNode s (Some p) = true →
  isListItemNode s (Some gp) = true →
  isListNode s (Some ggp) = true →
  getChildren s p = t :: rest →
  getChildren s ggp = l1 ++ gp :: l2 →
  ∃ s', handleOutdent [t] s = Some s'
    ∧ getParent s' t = Some ggp
    ∧ getChildren s' p = rest
    ∧ getChildren s' ggp =
        l1 ++ t :: (if decide (getChildren s' p = []) then l2 else gp :: l2)
    ∧ getParent s' gp =
        (if decide (getChildren s' p = []) then None else Some ggp).
Proof.
  intros Ht Hn Hpt Hpp Hpg Hkp Hkg Hkgg Hcp Hcgg.
  pose proof (tree_valid_ancestry_ne _ _ _ _ _ Ht Hpt Hpp Hpg) as Hne.
  destruct (outdent_first_effect s t p gp ggp l1 l2 (tree_linked s Ht)
              Hn Hpt Hpp Hpg Hkp Hkg Hkgg Hcgg Hne rest Hcp)
    as (s' & Hs' & HP & HC & _ & _).
  assert (getChildren s' p = rest) as Hp'.
  { rewrite HC. rewrite decide_False by done. by rewrite decide_True. }
  exists s'. unfold handleOutdent. rewrite forEach_single.
  split_and!; [done| |done| |].
  - rewrite HP. by rewrite decide_True.
  - rewrite Hp', HC. by rewrite decide_True.
  - rewrite Hp', HP. rewrite decide_False by congruence.
    destruct (decide (rest = [])) as [->|Hr].
    + by rewrite decide_True.
    + rewrite decide_False; [done|]. by intros [_ ?].
Qed.

Lemma outdent_first_child_witness :
  ∃ s', handleOutdent [3] split_doc = Some s'
    ∧ getParent s' 3 = Some 0
    ∧ getChildren s' 2 = [4; 5; 6]
    ∧ getChildren s' 0 =
        [] ++ 3 :: (if decide (getChildren s' 2 = []) then [] else 1 :: [])
    ∧ getParent s' 1 =
        (if decide (getChildren s' 2 = []) then None else Some 0).
Proof.
  apply (outdent_first_child split_doc 3 2 1 0 [4; 5; 6] [] []);
    try reflexivity.
  apply tree_check_sound. by vm_compute.
Defined.

(** C7, as stated, fails for a target that is itself a nested-list wrapper:
    item 3 is the first child of List 2 with List, ListItem, List above it,
    yet the outdent leaves it in List 2. *)
Lemma outdent_skips_first_wrapper :
  tree mid_doc
  ∧ validAncestry mid_doc 3 = true
  ∧ getFirstChild mid_doc 2 = Some 3
  ∧ isNestedListNode mid_doc (Some 3) = true
  ∧ handleOutdent [3] mid_doc = Some mid_doc.
Proof.
  split; [apply tree_check_sound; by vm_compute|].
  split_and!; by vm_compute.
Qed.

(** C10, as amended.  In a document tree, a sole child that is not itself a
    nested-list wrapper takes the first-child arm, never the insert-after
    arm: it lands where the grandparent ListItem was, and the grandparent
    ListItem is removed. *)
Theorem outdent_sole_child s t p gp ggp l1 l2 :
  tree s →
  isNestedListNode s (Some t) = false →
  getParent s t = Some p → getParent s p = Some gp → getParent s gp = Some ggp →
  isListNode s (Some p) = true →
  isListItemNode s (Some gp) = true →
  isListNode s (Some ggp) = true →
  getChildren s p = [t] →
  getChildren s ggp = l1 ++ gp :: l2 →
  outdentCase s p t = FirstChild
  ∧ ∃ s', handleOutdent [t] s = Some s'
      ∧ getChildren s' ggp = l1 ++ t :: l2
      ∧ getParent s' t = Some ggp
      ∧ getParent s' gp = None
      ∧ (gp ∉ getChildren s' ggp)
      ∧ getChildren s' p = [].
Proof.
  intros Ht Hn Hpt Hpp Hpg Hkp Hkg Hkgg Hcp Hcgg.
  split; [by apply (outdentCase_first s p t [])|].
  pose proof (tree_valid_ancestry_ne _ _ _ _ _ Ht Hpt Hpp Hpg) as Hne.
  destruct (outdent_gp_notin s gp ggp l1 l2 (tree_linked s Ht) Hcgg) as [Hg1 Hg2].
  destruct (outdent_first_effect s t p gp ggp l1 l2 (tree_linked s Ht)
              Hn Hpt Hpp Hpg Hkp Hkg Hkgg Hcgg Hne [] Hcp)
    as (s' & Hs' & HP & HC & _ & _).
  exists s'. unfold handleOutdent. rewrite forEach_single.
  assert (getChildren s' ggp = l1 ++ t :: l2) as Hgg.
  { rewrite HC. rewrite decide_True by done. by rewrite decide_True. }
  split_and!; [done|done| | | |].
  - rewrite HP. by rewrite decide_True.
  - rewrite HP. rewrite decide_False by congruence. by rewrite decide_True.
  - rewrite Hgg. apply not_elem_of_app. split; [done|].
    apply not_elem_of_cons. split; [congruence|done].
  - rewrite HC. rewrite decide_False by done. by rewrite decide_True.
Qed.

Lemma outdent_sole_child_witness :
  outdentCase sole_doc 4 5 = FirstChild
  ∧ ∃ s', handleOutdent [5] sole_doc = Some s'
      ∧ getChildren s' 0 = [1] ++ 5 :: [3]
      ∧ getParent s' 5 = Some 0
      ∧ getParent s' 2 = None
      ∧ (2 ∉ getChildren s' 0)
      ∧ getChildren s' 4 = [].
Proof.
  apply (outdent_sole_child sole_doc 5 4 2 0 [1] [3]); try reflexivity.
  apply tree_check_sound. by vm_compute.
Defined.

(** C10, as stated, fails for a target that is itself a nested-list
    wrapper: item 3 is the sole child of List 2 with List, ListItem, List
    above it, yet neither path runs and the grandparent ListItem 1 stays. *)
Lemma outdent_skips_sole_wrapper :
  tree deep_doc
  ∧ validAncestry deep_doc 3 = true
  ∧ getChildren deep_doc 2 = [3]
  ∧ isNestedListNode deep_doc (Some 3) = true
  ∧ handleOutdent [3] deep_doc = Some deep_doc.
Proof.
  split; [apply tree_check_sound; by vm_compute|].
  split_and!; by vm_compute.
Qed.

(** C3, as amended.  In a document tree, an interior child that is not
    itself a nested-list wrapper takes the place of the grandparent ListItem
    in the great-grandparent List, between two new wrappers: a new ListItem
    around a new List (with the tag of the parent List) that holds the
    preceding siblings, and another such pair that holds the following
    siblings. *)
Theorem outdent_interior_child s t p gp ggp pre post l1 l2 :
  tree s →
  isNestedListNode s (Some t) = false →
  getParent s t = Some p → getParent s p = Some gp → getParent s gp = Some ggp →
  isListNode s (Some p) = true →
  isListItemNode s (Some gp) = true →
  isListNode s (Some ggp) = true →
  getChildren s p = pre ++ t :: post → pre ≠ [] → post ≠ [] →
  getChildren s ggp = l1 ++ gp :: l2 →
  ∃ s' w1 i1 w2 i2,
    handleOutdent [t] s = Some s'
    ∧ getChildren s' ggp = l1 ++ [w1; t; w2] ++ l2
    ∧ node_type s !! w1 = None ∧ node_type s !! i1 = None
    ∧ node_type s !! w2 = None ∧ node_type s !! i2 = None
    ∧ node_type s' !! w1 = Some ListItemNode
    ∧ getChildren s' w1 = [i1]
    ∧ node_type s' !! i1 = Some (ListNode (getTag s p))
    ∧ getChildren s' i1 = pre
    ∧ node_type s' !! w2 = Some ListItemNode
    ∧ getChildren s' w2 = [i2]
    ∧ node_type s' !! i2 = Some (ListNode (getTag s p))
    ∧ getChildren s' i2 = post
    ∧ getParent s' t = Some ggp
    ∧ getParent s' gp = None.
Proof.
  intros Ht Hn Hpt Hpp Hpg Hkp Hkg Hkgg Hcp Hpre Hpost Hcgg.
  pose proof (tree_valid_ancestry_ne _ _ _ _ _ Ht Hpt Hpp Hpg) as Hne.
  pose proof (tree_linked s Ht) as Hl.
  destruct (outdent_split_effect s t p gp ggp l1 l2 Hl
              Hn Hpt Hpp Hpg Hkp Hkg Hkgg Hcgg Hne pre post Hcp Hpre Hpost)
    as (s' & Hs' & HP & HC & HT & _).
  destruct (linked_parent_lt _ _ _ Hl Hpt) as [Htn Hpn].
  destruct (linked_parent_lt _ _ _ Hl Hpg) as [Hgn Hggn].
  assert (∀ k, next_key s ≤ k → node_type s !! k = None) as Hfresh.
  { intros k Hk. by destruct (linked_fresh s Hl k Hk) as (_ & _ & ?). }
  assert (t ∉ pre) as Htpre.
  { pose proof (linked_nodup s Hl p) as Hnd. rewrite Hcp in Hnd.
    by destruct (NoDup_middle _ _ _ Hnd). }
  assert (gp ∉ pre) as Hgpre.
  { intros Hin. assert (gp ∈ getChildren s p) as Hin'
      by (rewrite Hcp; apply elem_of_app; by left).
    apply (linked_child_parent s Hl) in Hin'. congruence. }
  assert (gp ∉ post) as Hgpost.
  { intros Hin. assert (gp ∈ getChildren s p) as Hin'
      by (rewrite Hcp; apply elem_of_app; right; by right).
    apply (linked_child_parent s Hl) in Hin'. congruence. }
  exists s', (next_key s), (S (next_key s)), (S (S (next_key s))),
    (S (S (S (next_key s)))).
  unfold handleOutdent. rewrite forEach_single.
  split_and!; try done; try (apply Hfresh; lia).
  - rewrite HC. by rewrite decide_True.
  - rewrite HT. by rewrite decide_True by (by left).
  - rewrite HC. rewrite decide_False by lia. by rewrite decide_True.
  - rewrite HT. rewrite decide_False by lia. by rewrite decide_True by (by left).
  - rewrite HC. rewrite !decide_False by lia. by rewrite decide_True.
  - rewrite HT. by rewrite decide_True by (by right).
  - rewrite HC. rewrite !decide_False by lia. by rewrite decide_True.
  - rewrite HT. rewrite decide_False by lia. by rewrite decide_True by (by right).
  - rewrite HC. rewrite !decide_False by lia. by rewrite decide_True.
  - rewrite HP. by rewrite decide_True.
  - rewrite HP. rewrite decide_False by congruence.
    rewrite decide_False by done. rewrite decide_False by done.
    rewrite !decide_False by lia. by rewrite decide_True.
Qed.

Lemma outdent_interior_child_witness :
  ∃ s' w1 i1 w2 i2,
    handleOutdent [5] split_doc = Some s'
    ∧ getChildren s' 0 = [] ++ [w1; 5; w2] ++ []
    ∧ node_type split_doc !! w1 = None ∧ node_type split_doc !! i1 = None
    ∧ node_type split_doc !! w2 = None ∧ node_type split_doc !! i2 = None
    ∧ node_type s' !! w1 = Some ListItemNode
    ∧ getChildren s' w1 = [i1]
    ∧ node_type s' !! i1 = Some (ListNode (getTag split_doc 2))
    ∧ getChildren s' i1 = [3; 4]
    ∧ node_type s' !! w2 = Some ListItemNode
    ∧ getChildren s' w2 = [i2]
    ∧ node_type s' !! i2 = Some (ListNode (getTag split_doc 2))
    ∧ getChildren s' i2 = [6]
    ∧ getParent s' 5 = Some 0
    ∧ getParent s' 1 = None.
Proof.
  apply (outdent_interior_child split_doc 5 2 1 0 [3; 4] [6] [] []);
    try reflexivity; try done.
  apply tree_check_sound. by vm_compute.
Defined.

(** C3, as stated, fails for a target that is itself a nested-list wrapper:
    item 4 is an interior child of List 2 with List, ListItem, List above
    it, yet the outdent returns at once and splits nothing. *)
Lemma outdent_skips_interior_wrapper :
  tree mid_doc
  ∧ validAncestry mid_doc 4 = true
  ∧ getChildren mid_doc 2 = [3; 4; 5]
  ∧ isNestedListNode mid_doc (Some 4) = true
  ∧ handleOutdent [4] mid_doc = Some mid_doc.
Proof.
  split; [apply tree_check_sound; by vm_compute|].
  split_and!; by vm_compute.
Qed.

(** ** The primitives keep the store well formed *)

Section wf_primitives.
Implicit Types (s : EditorState) (k p q x ref : nat) (l L ks : list nat).

Lemma extends_refl s : extends s s.
Proof. by split_and!. Qed.

Lemma extends_trans s1 s2 s3 : extends s1 s2 → extends s2 s3 → extends s1 s3.
Proof.
  intros (H1 & H2 & H5) (H3 & H4 & H6). split_and!; [lia| |].
  - intros k Hk. rewrite H4 by lia. by apply H2.
  - intros k Hk. by apply H5, H6.
Qed.

Lemma extends_same s s' :
  node_type s' = node_type s → next_key s' = next_key s → extends s s'.
Proof.
  intros Ht Hn. split_and!; [lia| |].
  - intros k _. by rewrite Ht.
  - intros k. unfold isContent. by rewrite Ht.
Qed.

Lemma extends_newNode ty s : ¬ isContentType ty → extends s (newNode ty s).
Proof.
  intros Hty. split_and!; [rewrite next_key_newNode; lia| |].
  - intros k Hk. rewrite node_type_newNode. by rewrite decide_False by lia.
  - intros k. unfold isContent. rewrite node_type_newNode.
    case_decide; [|done]. intros ?. done.
Qed.

Lemma isListNode_not_item s o :
  isListNode s o = true → isListItemNode s o = false.
Proof.
  unfold isListNode, isListItemNode. destruct o as [k|]; [|done].
  by destruct (node_type s !! k) as [[]|].
Qed.

Lemma wrapped_removeFromParent k s : wrapped s → wrapped (removeFromParent k s).
Proof.
  intros Hw g l Hg Hl Hll.
  rewrite (isListItemNode_type s) in Hg by apply node_type_removeFromParent.
  rewrite (isListNode_type s) in Hll by apply node_type_removeFromParent.
  rewrite getChildren_removeFromParent in *. case_decide; [|by apply Hw].
  apply elem_of_removeKey in Hl as [Hl Hne].
  rewrite (Hw g l Hg Hl Hll). by rewrite removeKey_cons_ne.
Qed.

Lemma wrapped_attach s k q L :
  wrapped s → isListItemNode s (Some q) = false →
  wrapped (setParent k (Some q) (setChildren q L s)).
Proof.
  intros Hw Hq g l Hg Hl Hll.
  change (isListItemNode s (Some g) = true) in Hg.
  change (isListNode s (Some l) = true) in Hll.
  rewrite getChildren_setParent, getChildren_setChildren in *.
  case_decide; [congruence|]. by apply Hw.
Qed.

Lemma wrapped_attach_sole s k q :
  wrapped s → wrapped (setParent k (Some q) (setChildren q [k] s)).
Proof.
  intros Hw g l Hg Hl Hll.
  change (isListItemNode s (Some g) = true) in Hg.
  change (isListNode s (Some l) = true) in Hll.
  rewrite getChildren_setParent, getChildren_setChildren in *.
  case_decide; [|by apply Hw]. by apply list_elem_of_singleton in Hl as ->.
Qed.

Lemma wf_removeFromParent k s : wf s → wf (removeFromParent k s).
Proof.
  intros [Hl Hw]. split; [by apply linked_removeFromParent|].
  by apply wrapped_removeFromParent.
Qed.

Lemma wf_append q k s :
  wf s → k < next_key s → q < next_key s → isListItemNode s (Some q) = false →
  wf (append q k s).
Proof.
  intros [Hl Hw] Hk Hq Hnq. split; [by apply linked_append|].
  unfold append. apply wrapped_attach; [by apply wrapped_removeFromParent|].
  by rewrite (isListItemNode_type s) by apply node_type_removeFromParent.
Qed.

Lemma wf_append_sole q k s :
  wf s → k < next_key s → q < next_key s →
  getChildren (removeFromParent k s) q = [] →
  wf (append q k s).
Proof.
  intros [Hl Hw] Hk Hq Hc. split; [by apply linked_append|].
  unfold append. rewrite Hc. simpl.
  apply wrapped_attach_sole. by apply wrapped_removeFromParent.
Qed.

Lemma wf_appendAll q ks s :
  wf s → q < next_key s → (∀ k, k ∈ ks → k < next_key s) →
  isListItemNode s (Some q) = false →
  wf (appendAll q ks s).
Proof.
  revert s. induction ks as [|k ks IH]; intros s Hwf Hq Hks Hnq; [done|].
  change (appendAll q (k :: ks) s) with (appendAll q ks (append q k s)).
  apply IH.
  - apply wf_append; [done|apply Hks; by left|done|done].
  - by rewrite next_key_append.
  - intros k' Hk'. rewrite next_key_append. apply Hks. by right.
  - by rewrite (isListItemNode_type s) by apply node_type_append.
Qed.

Lemma extends_appendAll q ks s : extends s (appendAll q ks s).
Proof.
  revert s. induction ks as [|k ks IH]; intros s; [apply extends_refl|].
  change (appendAll q (k :: ks) s) with (appendAll q ks (append q k s)).
  eapply extends_trans; [|apply IH].
  apply extends_same; [apply node_type_append|apply next_key_append].
Qed.

Lemma insertBefore_inv ref k s s' :
  insertBefore ref k s = Some s' →
  ∃ p L, getParent (removeFromParent k s) ref = Some p
    ∧ s' = setParent k (Some p) (setChildren p L (removeFromParent k s)).
Proof.
  unfold insertBefore.
  destruct (getParent (removeFromParent k s) ref) as [p|]; simpl; [|done].
  destruct (indexOf ref (getChildren (removeFromParent k s) p)); simpl; [|done].
  intros [= <-]. by eexists _, _.
Qed.

Lemma insertAfter_inv ref k s s' :
  insertAfter ref k s = Some s' →
  ∃ p L, getParent (removeFromParent k s) ref = Some p
    ∧ s' = setParent k (Some p) (setChildren p L (removeFromParent k s)).
Proof.
  unfold insertAfter.
  destruct (getParent (removeFromParent k s) ref) as [p|]; simpl; [|done].
  destruct (indexOf ref (getChildren (removeFromParent k s) p)); simpl; [|done].
  intros [= <-]. by eexists _, _.
Qed.

Lemma wf_insertBefore ref k s s' :
  wf s → k < next_key s →
  (∀ p, getParent s ref = Some p → isListItemNode s (Some p) = false) →
  insertBefore ref k s = Some s' →
  wf s' ∧ extends s s'.
Proof.
  intros [Hl Hw] Hk Hp Hs'. split; [split|].
  - by eapply linked_insertBefore.
  - destruct (insertBefore_inv _ _ _ _ Hs') as (p & L & Ep & ->).
    apply wrapped_attach; [by apply wrapped_removeFromParent|].
    rewrite (isListItemNode_type s) by apply node_type_removeFromParent.
    apply Hp. rewrite getParent_removeFromParent in Ep. by case_decide.
  - destruct (insertBefore_inv _ _ _ _ Hs') as (p & L & Ep & ->).
    apply extends_same; by store_simp.
Qed.

Lemma wf_insertAfter ref k s s' :
  wf s → k < next_key s →
  (∀ p, getParent s ref = Some p → isListItemNode s (Some p) = false) →
  insertAfter ref k s = Some s' →
  wf s' ∧ extends s s'.
Proof.
  intros [Hl Hw] Hk Hp Hs'. split; [split|].
  - by eapply linked_insertAfter.
  - destruct (insertAfter_inv _ _ _ _ Hs') as (p & L & Ep & ->).
    apply wrapped_attach; [by apply wrapped_removeFromParent|].
    rewrite (isListItemNode_type s) by apply node_type_removeFromParent.
    apply Hp. rewrite getParent_removeFromParent in Ep. by case_decide.
  - destruct (insertAfter_inv _ _ _ _ Hs') as (p & L & Ep & ->).
    apply extends_same; by store_simp.
Qed.

Lemma wf_newNode ty s : wf s → wf (newNode ty s).
Proof.
  intros [Hl Hw]. split; [by apply linked_newNode|].
  intros g l Hg Hin Hll. rewrite getChildren_newNode in *.
  case_decide as Hgn; [by apply elem_of_nil in Hin|].
  pose proof (linked_child_parent s Hl _ _ Hin) as Hpl.
  destruct (linked_parent_lt _ _ _ Hl Hpl) as [Hln Hgn'].
  apply Hw; [|done|].
  - unfold isListItemNode in *. rewrite node_type_newNode in Hg.
    by rewrite decide_False in Hg by lia.
  - unfold isListNode in *. rewrite node_type_newNode in Hll.
    by rewrite decide_False in Hll by lia.
Qed.

Lemma wf_markAllDirty l s : wf s → wf (markAllDirty l s).
Proof.
  intros [Hl Hw]. split; [by apply linked_markAllDirty|].
  intros g k Hg Hin Hk.
  rewrite (isListItemNode_type s) in Hg by apply node_type_markAllDirty.
  rewrite (isListNode_type s) in Hk by apply node_type_markAllDirty.
  rewrite getChildren_markAllDirty in *. by apply Hw.
Qed.

Lemma extends_markAllDirty l s : extends s (markAllDirty l s).
Proof.
  apply extends_same; [apply node_type_markAllDirty|apply next_key_markAllDirty].
Qed.
End wf_primitives.

(** ** The indent callback keeps the store well formed *)

Section indent_wf.
Implicit Types (s : EditorState) (k p q t : nat).

Lemma extends_append q k s : extends s (append q k s).
Proof. apply extends_same; [apply node_type_append|apply next_key_append]. Qed.

Lemma extends_removeFromParent k s : extends s (removeFromParent k s).
Proof.
  apply extends_same;
    [apply node_type_removeFromParent|apply next_key_removeFromParent].
Qed.

Lemma getFirstChild_elem s k a : getFirstChild s k = Some a → a ∈ getChildren s k.
Proof.
  intros H. destruct (getFirstChild_inv _ _ _ H) as (l & ->). by left.
Qed.

Lemma getIndexWithinParent_inv s t p i :
  getIndexWithinParent s t = Some (p, i) → getParent s t = Some p.
Proof.
  unfold getIndexWithinParent. destruct (getParent s t) as [p'|]; simpl; [|done].
  destruct (indexOf t (getChildren s p')); simpl; [|done]. by intros [= -> _].
Qed.

Lemma getPreviousSibling_inv s t a :
  getPreviousSibling s t = Some a →
  ∃ p, getParent s t = Some p ∧ a ∈ getChildren s p.
Proof.
  unfold getPreviousSibling.
  destruct (getIndexWithinParent s t) as [[p i]|] eqn:E; simpl; [|done].
  destruct i as [|j]; [done|]. intros Ha. exists p. split.
  - by eapply getIndexWithinParent_inv.
  - by eapply list_elem_of_lookup_2.
Qed.

Lemma getNextSibling_inv s t a :
  getNextSibling s t = Some a →
  ∃ p, getParent s t = Some p ∧ a ∈ getChildren s p.
Proof.
  unfold getNextSibling.
  destruct (getIndexWithinParent s t) as [[p i]|] eqn:E; simpl; [|done].
  intros Ha. exists p. split.
  - by eapply getIndexWithinParent_inv.
  - by eapply list_elem_of_lookup_2.
Qed.

Lemma linked_child_lt s k p :
  linked s → k ∈ getChildren s p → k < next_key s ∧ p < next_key s.
Proof.
  intros Hl Hk. apply (linked_parent_lt s k p Hl).
  by apply (linked_child_parent s Hl).
Qed.

Lemma indentMerge_wf prev next t s :
  wf s → t < next_key s →
  wf (indentMerge prev next t s) ∧ extends s (indentMerge prev next t s).
Proof.
  intros Hwf Ht. unfold indentMerge.
  destruct (getFirstChild s prev) as [il|] eqn:Eil;
    [|split; [done|apply extends_refl]].
  destruct (isListNode s (Some il)) eqn:Ekil;
    [|split; [done|apply extends_refl]].
  destruct (linked_child_lt s il prev (proj1 Hwf) (getFirstChild_elem _ _ _ Eil))
    as [Hil _].
  assert (wf (append il t s)) as Hwf1.
  { apply wf_append; try done. by apply isListNode_not_item. }
  set (s1 := append il t s) in *.
  assert (extends s s1) as He1 by apply extends_append.
  assert (∃ s2, wf s2 ∧ extends s1 s2 ∧
            match getFirstChild s1 next with
            | Some nil_ =>
                if isListNode s1 (getFirstChild s1 next)
                then remove nil_ (appendAll il (getChildren s1 nil_) s1)
                else s1
            | None => s1
            end = s2) as (s2 & Hwf2 & He2 & ->).
  { destruct (getFirstChild s1 next) as [nil_|] eqn:En;
      [|by exists s1; split_and!; [|apply extends_refl|]].
    destruct (isListNode s1 (Some nil_)) eqn:Ekn;
      [|by exists s1; split_and!; [|apply extends_refl|]].
    eexists. split_and!; [| |reflexivity].
    - apply wf_removeFromParent, wf_appendAll; try done.
      + unfold s1. by rewrite next_key_append.
      + intros k Hk. by destruct (linked_child_lt s1 k nil_ (proj1 Hwf1) Hk).
      + unfold s1. rewrite (isListItemNode_type s) by apply node_type_append.
        by apply isListNode_not_item.
    - eapply extends_trans; [apply extends_appendAll|].
      apply extends_removeFromParent. }
  split; [by apply wf_markAllDirty|].
  eapply extends_trans; [exact He1|]. eapply extends_trans; [exact He2|].
  apply extends_markAllDirty.
Qed.

Lemma indentIntoPrevious_wf prev t s :
  wf s → t < next_key s →
  wf (indentIntoPrevious prev t s) ∧ extends s (indentIntoPrevious prev t s).
Proof.
  intros Hwf Ht. unfold indentIntoPrevious.
  destruct (getFirstChild s prev) as [il|] eqn:Eil;
    [|split; [done|apply extends_refl]].
  destruct (isListNode s (Some il)) eqn:Ekil;
    [|split; [done|apply extends_refl]].
  destruct (linked_child_lt s il prev (proj1 Hwf) (getFirstChild_elem _ _ _ Eil))
    as [Hil _].
  split.
  - apply wf_markAllDirty, wf_append; try done. by apply isListNode_not_item.
  - eapply extends_trans; [apply extends_append|apply extends_markAllDirty].
Qed.

Lemma indentIntoNext_wf next t s s' :
  wf s → t < next_key s → indentIntoNext next t s = Some s' →
  wf s' ∧ extends s s'.
Proof.
  intros Hwf Ht. unfold indentIntoNext.
  destruct (getFirstChild s next) as [il|] eqn:Eil;
    [|intros [= <-]; split; [done|apply extends_refl]].
  destruct (isListNode s (Some il)) eqn:Ekil;
    [|intros [= <-]; split; [done|apply extends_refl]].
  destruct (getFirstChild s il) as [f|] eqn:Ef; simpl.
  - destruct (insertBefore f t s) as [s1|] eqn:Es1; simpl; [|done].
    intros [= <-].
    destruct (wf_insertBefore f t s s1 Hwf Ht) as [Hwf1 He1]; [|done|].
    { intros p Hp.
      pose proof (linked_child_parent s (proj1 Hwf) _ _ (getFirstChild_elem _ _ _ Ef)).
      assert (p = il) as -> by congruence. by apply isListNode_not_item. }
    split; [by apply wf_markAllDirty|].
    eapply extends_trans; [exact He1|apply extends_markAllDirty].
  - intros [= <-]. split; [by apply wf_markAllDirty|apply extends_markAllDirty].
Qed.
Lemma indentNewList_wf prev next t s s' :
  wf s →
  (∀ a, prev = Some a → getParent s a = getParent s t) →
  (∀ a, next = Some a → getParent s a = getParent s t) →
  indentNewList (getParent s t) prev next t s = Some s' →
  wf s' ∧ extends s s'.
Proof.
  intros Hwf Hprev Hnext. unfold indentNewList.
  destruct (getParent s t) as [p|] eqn:Ept;
    [|intros [= <-]; split; [done|apply extends_refl]].
  destruct (isListNode s (Some p)) eqn:Ekp;
    [|intros [= <-]; split; [done|apply extends_refl]].
  destruct (linked_parent_lt s t p (proj1 Hwf) Ept) as [Ht Hp].
  unfold createListItemNode, createListNode, createNode. cbv beta iota zeta.
  rewrite !next_key_newNode.
  remember (next_key s) as n eqn:En.
  remember (getTag (newNode ListItemNode s) p) as tag eqn:Etag.
  set (s2 := newNode (ListNode tag) (newNode ListItemNode s)).
  assert (wf s2) as Hwf2 by by apply wf_newNode, wf_newNode.
  assert (next_key s2 = S (S n)) as Hn2.
  { unfold s2. rewrite !next_key_newNode. by rewrite <- ?En. }
  assert (extends s s2) as He2.
  { eapply extends_trans; apply extends_newNode; exact id. }
  assert (∀ x, x < n → getParent s2 x = getParent s x) as Hp2.
  { intros x Hx. unfold s2. store_simp. rewrite <- ?En. by store_simp. }
  assert (∀ x, node_type s2 !! x =
               if decide (x = S n) then Some (ListNode tag)
               else if decide (x = n) then Some ListItemNode
               else node_type s !! x) as Ht2.
  { intros x. unfold s2. store_simp. by rewrite <- ?En. }
  set (s3 := append n (S n) s2).
  assert (wf s3) as Hwf3.
  { apply wf_append_sole; [done|lia|lia|].
    unfold s2. store_simp. rewrite <- ?En. store_simp.
    by destruct (linked_fresh s (proj1 Hwf) n) as (_ & ? & _); [lia|]. }
  set (s4 := append (S n) t s3).
  assert (wf s4) as Hwf4.
  { apply wf_append; [done| | |].
    - unfold s3. rewrite next_key_append. lia.
    - unfold s3. rewrite next_key_append. lia.
    - unfold isListItemNode, s3. rewrite node_type_append, Ht2.
      by rewrite decide_True. }
  assert (extends s s4) as He4.
  { eapply extends_trans; [exact He2|].
    eapply extends_trans; apply extends_append. }
  assert (next_key s4 = S (S n)) as Hn4.
  { unfold s4, s3. by rewrite !next_key_append. }
  assert (∀ a q, getParent s a = Some p → getParent s4 a = Some q →
                 isListItemNode s4 (Some q) = false) as Hdest.
  { intros a q Ha. destruct (linked_parent_lt s a p (proj1 Hwf) Ha) as [Han _].
    unfold s4, s3. rewrite !getParent_append. unfold isListItemNode.
    rewrite !node_type_append, Ht2.
    destruct (decide (a = t)) as [->|Hat].
    - intros [= <-]. by rewrite decide_True.
    - rewrite decide_False by lia. rewrite Hp2 by lia. rewrite Ha.
      intros [= <-]. rewrite !decide_False by lia.
      apply isListNode_not_item in Ekp. exact Ekp. }
  destruct prev as [a|].
  - intros Hs'.
    destruct (wf_insertAfter a n s4 s' Hwf4) as [Hwf' He']; [lia| |done|].
    { intros q. apply Hdest. by apply Hprev. }
    split; [done|]. by eapply extends_trans.
  - destruct next as [a|].
    + intros Hs'.
      destruct (wf_insertBefore a n s4 s' Hwf4) as [Hwf' He']; [lia| |done|].
      { intros q. apply Hdest. by apply Hnext. }
      split; [done|]. by eapply extends_trans.
    + intros [= <-]. split.
      * apply wf_append; [done|lia|lia|].
        unfold isListItemNode, s4, s3. rewrite !node_type_append, Ht2.
        rewrite !decide_False by lia.
        apply isListNode_not_item in Ekp. exact Ekp.
      * eapply extends_trans; [exact He4|apply extends_append].
Qed.

Lemma indentListItem_wf t s s' :
  wf s → indentListItem t s = Some s' → wf s' ∧ extends s s'.
Proof.
  intros Hwf. unfold indentListItem.
  destruct (isNestedListNode s (Some t));
    [intros [= <-]; split; [done|apply extends_refl]|].
  cbv zeta.
  match goal with |- (?m ≫= _) = _ → _ => destruct m as [s1|] eqn:Hm end;
    simpl; [|done].
  assert (wf s1 ∧ extends s s1) as [Hwf1 He1].
  { assert (∀ a, getPreviousSibling s t = Some a → t < next_key s) as Htp.
    { intros a Ha. destruct (getPreviousSibling_inv _ _ _ Ha) as (p & Hp & _).
      by destruct (linked_parent_lt s t p (proj1 Hwf) Hp). }
    assert (∀ a, getNextSibling s t = Some a → t < next_key s) as Htn.
    { intros a Ha. destruct (getNextSibling_inv _ _ _ Ha) as (p & Hp & _).
      by destruct (linked_parent_lt s t p (proj1 Hwf) Hp). }
    destruct (isNestedListNode s (getNextSibling s t)
              && isNestedListNode s (getPreviousSibling s t)).
    { destruct (getPreviousSibling s t) as [a|] eqn:Ea;
        [|injection Hm as <-; split; [done|apply extends_refl]].
      destruct (getNextSibling s t) as [b|] eqn:Eb;
        [|injection Hm as <-; split; [done|apply extends_refl]].
      injection Hm as <-. apply indentMerge_wf; [done|]. by eapply Htp. }
    destruct (isNestedListNode s (getNextSibling s t)).
    { destruct (getNextSibling s t) as [b|] eqn:Eb;
        [|injection Hm as <-; split; [done|apply extends_refl]].
      eapply indentIntoNext_wf; [done| |exact Hm]. by eapply Htn. }
    destruct (isNestedListNode s (getPreviousSibling s t)).
    { destruct (getPreviousSibling s t) as [a|] eqn:Ea;
        [|injection Hm as <-; split; [done|apply extends_refl]].
      injection Hm as <-. apply indentIntoPrevious_wf; [done|]. by eapply Htp. }
    eapply indentNewList_wf; [done| | |exact Hm].
    - intros a Ha. destruct (getPreviousSibling_inv _ _ _ Ha) as (p & Hp & Hin).
      rewrite Hp. by apply (linked_child_parent s (proj1 Hwf)).
    - intros a Ha. destruct (getNextSibling_inv _ _ _ Ha) as (p & Hp & Hin).
      rewrite Hp. by apply (linked_child_parent s (proj1 Hwf)). }
  destruct (getParent s t) as [p|].
  - destruct (isListNode s1 (Some p)); intros [= <-]; [|done].
    split; [by apply wf_markAllDirty|].
    eapply extends_trans; [exact He1|apply extends_markAllDirty].
  - by intros [= <-].
Qed.
End indent_wf.

(** ** The outdent callback keeps the store well formed *)

Section outdent_wf.
Implicit Types (s : EditorState) (k p q t : nat).

Lemma node_type_appendAll q ks s : node_type (appendAll q ks s) = node_type s.
Proof.
  revert s. induction ks as [|k ks IH]; intros s; [done|].
  change (appendAll q (k :: ks) s) with (appendAll q ks (append q k s)).
  by rewrite IH, node_type_append.
Qed.

Lemma next_key_appendAll q ks s : next_key (appendAll q ks s) = next_key s.
Proof.
  revert s. induction ks as [|k ks IH]; intros s; [done|].
  change (appendAll q (k :: ks) s) with (appendAll q ks (append q k s)).
  by rewrite IH, next_key_append.
Qed.

Lemma appendAll_parent_inv q ks s x y :
  getParent (appendAll q ks s) x = Some y → y = q ∨ getParent s x = Some y.
Proof.
  revert s. induction ks as [|k ks IH]; intros s; [by right|].
  change (appendAll q (k :: ks) s) with (appendAll q ks (append q k s)).
  intros [->|H]%IH; [by left|]. rewrite getParent_append in H.
  case_decide; [left; congruence|by right].
Qed.

Lemma getPreviousSiblings_elem s t k :
  k ∈ getPreviousSiblings s t → ∃ p, k ∈ getChildren s p.
Proof.
  unfold getPreviousSiblings.
  destruct (getIndexWithinParent s t) as [[p i]|]; [|by intros ?%elem_of_nil].
  intros Hk. exists p. rewrite <- (take_drop i (getChildren s p)).
  apply elem_of_app. by left.
Qed.

Lemma getNextSiblings_elem s t k :
  k ∈ getNextSiblings s t → ∃ p, k ∈ getChildren s p.
Proof.
  unfold getNextSiblings.
  destruct (getIndexWithinParent s t) as [[p i]|]; [|by intros ?%elem_of_nil].
  intros Hk. exists p. rewrite <- (take_drop (S i) (getChildren s p)).
  apply elem_of_app. by right.
Qed.

Lemma wf_new_wrapper tag s :
  wf s →
  let n := next_key s in
  let s3 := append n (S n) (newNode (ListNode tag) (newNode ListItemNode s)) in
  wf s3 ∧ extends s s3 ∧ next_key s3 = S (S n)
  ∧ (∀ x, x < n → getParent s3 x = getParent s x)
  ∧ (∀ x, node_type s3 !! x =
       if decide (x = S n) then Some (ListNode tag)
       else if decide (x = n) then Some ListItemNode
       else node_type s !! x).
Proof.
  intros Hwf n s3. unfold s3, n. clear s3 n.
  remember (next_key s) as n eqn:En.
  set (s2 := newNode (ListNode tag) (newNode ListItemNode s)).
  assert (wf s2) as Hwf2 by by apply wf_newNode, wf_newNode.
  assert (next_key s2 = S (S n)) as Hn2.
  { unfold s2. rewrite !next_key_newNode. by rewrite <- ?En. }
  split_and!.
  - apply wf_append_sole; [done|lia|lia|].
    unfold s2. store_simp. rewrite <- ?En. store_simp.
    by destruct (linked_fresh s (proj1 Hwf) n) as (_ & ? & _); [lia|].
  - eapply extends_trans; [|apply extends_append].
    eapply extends_trans; apply extends_newNode; exact id.
  - by rewrite next_key_append.
  - intros x Hx. unfold s2. store_simp. rewrite <- ?En. by store_simp.
  - intros x. unfold s2. store_simp. by rewrite <- ?En.
Qed.

Lemma outdentSplit_wf pl gp ggp t s s' :
  wf s → getParent s gp = Some ggp → isListNode s (Some ggp) = true →
  t < next_key s →
  outdentSplit pl gp t s = Some s' →
  wf s' ∧ extends s s'.
Proof.
  intros Hwf Hpg Hkgg Ht. rewrite outdentSplit_unfold. cbv zeta.
  destruct (linked_parent_lt s gp ggp (proj1 Hwf) Hpg) as [Hgn Hggn].
  remember (getTag s pl) as tag eqn:Etag.
  destruct (wf_new_wrapper tag s Hwf) as (Hwf3 & He3 & Hn3 & Hp3 & Ht3).
  cbv zeta in Hwf3, He3, Hn3, Hp3, Ht3.
  remember (next_key s) as n eqn:En.
  set (s3 := append n (S n) (newNode (ListNode tag) (newNode ListItemNode s))) in *.
  set (s4 := appendAll (S n) (getPreviousSiblings s3 t) s3).
  assert (wf s4) as Hwf4.
  { apply wf_appendAll; [done|lia| |].
    - intros k (p & Hk)%getPreviousSiblings_elem.
      by destruct (linked_child_lt s3 k p (proj1 Hwf3) Hk).
    - unfold isListItemNode. rewrite Ht3. by rewrite decide_True. }
  assert (next_key s4 = S (S n)) as Hn4.
  { unfold s4. by rewrite next_key_appendAll. }
  assert (extends s3 s4) as He4 by apply extends_appendAll.
  rewrite Hn4.
  destruct (wf_new_wrapper tag s4 Hwf4) as (Hwf7 & He7 & Hn7 & Hp7 & Ht7).
  cbv zeta in Hwf7, He7, Hn7, Hp7, Ht7. rewrite Hn4 in *.
  set (s7 := append (S (S n)) (S (S (S n)))
               (newNode (ListNode tag) (newNode ListItemNode s4))) in *.
  set (s8 := appendAll (S (S (S n))) (getNextSiblings s7 t) s7).
  assert (wf s8) as Hwf8.
  { apply wf_appendAll; [done|lia| |].
    - intros k (p & Hk)%getNextSiblings_elem.
      by destruct (linked_child_lt s7 k p (proj1 Hwf7) Hk).
    - unfold isListItemNode. rewrite Ht7. by rewrite decide_True. }
  assert (next_key s8 = S (S (S (S n)))) as Hn8.
  { unfold s8. by rewrite next_key_appendAll. }
  assert (extends s s8) as He8.
  { eapply extends_trans; [exact He3|]. eapply extends_trans; [exact He4|].
    eapply extends_trans; [exact He7|]. apply extends_appendAll. }
  assert (∀ x, node_type s8 !! x =
               if decide (x = S (S (S n))) then Some (ListNode tag)
               else if decide (x = S (S n)) then Some ListItemNode
               else if decide (x = S n) then Some (ListNode tag)
               else if decide (x = n) then Some ListItemNode
               else node_type s !! x) as Ht8.
  { intros x. unfold s8. rewrite node_type_appendAll, Ht7.
    unfold s4. by rewrite node_type_appendAll, Ht3. }
  assert (∀ q, getParent s8 gp = Some q → isListItemNode s8 (Some q) = false)
    as Hd8.
  { intros q [->|Hq]%appendAll_parent_inv.
    { unfold isListItemNode. rewrite Ht8. by rewrite decide_True. }
    rewrite Hp7 in Hq by lia.
    apply appendAll_parent_inv in Hq as [->|Hq].
    { unfold isListItemNode. rewrite Ht8. rewrite !decide_False by lia.
      by rewrite decide_True. }
    rewrite Hp3 in Hq by lia. assert (q = ggp) as -> by congruence.
    unfold isListItemNode. rewrite Ht8. rewrite !decide_False by lia.
    apply isListNode_not_item in Hkgg. exact Hkgg. }
  destruct (insertBefore gp n s8) as [s9|] eqn:Es9; simpl; [|done].
  destruct (wf_insertBefore gp n s8 s9 Hwf8) as [Hwf9 He9]; [lia|done|done|].
  destruct (insertBefore_inv _ _ _ _ Es9) as (p9 & L9 & _ & Eq9).
  assert (∀ q, getParent s9 gp = Some q → isListItemNode s9 (Some q) = false)
    as Hd9.
  { intros q. rewrite Eq9. unfold isListItemNode. store_simp.
    intros Hq. by apply Hd8. }
  destruct (insertAfter gp (S (S n)) s9) as [s10|] eqn:Es10; simpl; [|done].
  assert (next_key s9 = S (S (S (S n)))) as Hn9.
  { rewrite Eq9. by store_simp. }
  destruct (wf_insertAfter gp (S (S n)) s9 s10 Hwf9) as [Hwf10 He10];
    [lia|done|done|].
  destruct (insertAfter_inv _ _ _ _ Es10) as (p10 & L10 & _ & Eq10).
  assert (∀ q, getParent s10 gp = Some q → isListItemNode s10 (Some q) = false)
    as Hd10.
  { intros q. rewrite Eq10. unfold isListItemNode. store_simp.
    intros Hq. by apply Hd9. }
  assert (next_key s10 = S (S (S (S n)))) as Hn10.
  { rewrite Eq10. store_simp. done. }
  unfold replace.
  destruct (insertBefore gp t s10) as [s11|] eqn:Es11; simpl; [|done].
  intros [= <-].
  destruct (wf_insertBefore gp t s10 s11 Hwf10) as [Hwf11 He11];
    [lia|done|done|].
  split; [by apply wf_removeFromParent|].
  eapply extends_trans; [exact He8|]. eapply extends_trans; [exact He9|].
  eapply extends_trans; [exact He10|]. eapply extends_trans; [exact He11|].
  apply extends_removeFromParent.
Qed.

Lemma outdentListItem_wf t s s' :
  wf s → outdentListItem t s = Some s' → wf s' ∧ extends s s'.
Proof.
  intros Hwf. unfold outdentListItem.
  destruct (isNestedListNode s (Some t));
    [intros [= <-]; split; [done|apply extends_refl]|].
  cbv zeta.
  match goal with |- (if ?c then _ else _) = _ → _ => destruct c eqn:Ev end;
    [|intros [= <-]; split; [done|apply extends_refl]].
  apply andb_true_iff in Ev as [Ev Hkp]. apply andb_true_iff in Ev as [Hkgg Hkg].
  destruct (getParent s t) as [pl|] eqn:Ept; [|discriminate Hkp]. simpl in *.
  destruct (getParent s pl) as [gp|] eqn:Epp; [|discriminate Hkg]. simpl in *.
  destruct (getParent s gp) as [ggp|] eqn:Epg; [|discriminate Hkgg]. simpl in *.
  destruct (linked_parent_lt s t pl (proj1 Hwf) Ept) as [Ht _].
  match goal with |- (?m ≫= _) = _ → _ => destruct m as [s1|] eqn:Hm end;
    simpl; [|done].
  intros [= <-].
  assert (wf s1 ∧ extends s s1) as [Hwf1 He1].
  { assert (∀ p, getParent s gp = Some p → isListItemNode s (Some p) = false)
      as Hd.
    { intros p Hp. assert (p = ggp) as -> by congruence.
      by apply isListNode_not_item. }
    destruct (outdentCase s pl t).
    - destruct (insertBefore gp t s) as [s2|] eqn:Es2; simpl in Hm; [|done].
      destruct (wf_insertBefore gp t s s2 Hwf Ht Hd Es2) as [Hwf2 He2].
      destruct (isEmpty s2 pl); injection Hm as <-; [|done].
      split; [by apply wf_removeFromParent|].
      eapply extends_trans; [exact He2|apply extends_removeFromParent].
    - destruct (insertAfter gp t s) as [s2|] eqn:Es2; simpl in Hm; [|done].
      destruct (wf_insertAfter gp t s s2 Hwf Ht Hd Es2) as [Hwf2 He2].
      destruct (isEmpty s2 pl); injection Hm as <-; [|done].
      split; [by apply wf_removeFromParent|].
      eapply extends_trans; [exact He2|apply extends_removeFromParent].
    - by eapply outdentSplit_wf. }
  split; [by apply wf_markAllDirty, wf_markAllDirty|].
  eapply extends_trans; [exact He1|].
  eapply extends_trans; apply extends_markAllDirty.
Qed.
End outdent_wf.

(** ** Parent chains across a transform *)

Section transfer.
Implicit Types (s : EditorState) (k p q x r c : nat).

Lemma chain_lt s x r :
  linked s → x < next_key s → rtc (parentOf s) x r → r < next_key s.
Proof.
  intros Hl Hx Hr. induction Hr as [|x y z Hxy Hyz IH]; [done|].
  apply IH. by destruct (linked_parent_lt s x y Hl Hxy).
Qed.

Lemma chain_step s x y : getParent s x = Some y → rtc (parentOf s) x y.
Proof. intros H. by apply rtc_once. Qed.

Lemma chain_step2 s x y z :
  getParent s x = Some y → getParent s y = Some z → rtc (parentOf s) x z.
Proof. intros H1 H2. eapply rtc_l; [exact H1|]. by apply rtc_once. Qed.

Lemma chain_step3 s x y z w :
  getParent s x = Some y → getParent s y = Some z → getParent s z = Some w →
  rtc (parentOf s) x w.
Proof. intros H1 H2 H3. eapply rtc_l; [exact H1|]. by eapply chain_step2. Qed.

Lemma content_not_item s c k :
  isContent s c → isListItemNode s (Some k) = true → c ≠ k.
Proof.
  unfold isContent, isListItemNode. intros Hc Hk ->.
  by destruct (node_type s !! k) as [[]|].
Qed.

Lemma content_not_list s c k :
  isContent s c → isListNode s (Some k) = true → c ≠ k.
Proof.
  unfold isContent, isListNode. intros Hc Hk ->.
  by destruct (node_type s !! k) as [[]|].
Qed.

Lemma content_lt s c : linked s → isContent s c → c < next_key s.
Proof.
  intros Hl Hc. apply linked_typed_lt; [done|]. unfold isContent in Hc.
  by destruct (node_type s !! c).
Qed.

Lemma preserved_same s s' :
  tree s → (∀ x, getParent s' x = getParent s x) → preserved s s'.
Proof.
  intros Ht HF.
  assert (∀ x y, rtc (parentOf s') x y ↔ rtc (parentOf s) x y) as Hch.
  { intros x y. split; induction 1 as [|a b c Hab Hbc IH]; try done.
    - eapply rtc_l; [|exact IH]. unfold parentOf in *. by rewrite <- HF.
    - eapply rtc_l; [|exact IH]. unfold parentOf in *. by rewrite HF. }
  split_and!.
  - intros k. destruct (tree_rooted s Ht k) as (r & Hr & Hn).
    exists r. split; [by apply Hch|by rewrite HF].
  - intros r Hr _. by rewrite HF.
  - intros c r _ _ _. apply Hch.
Qed.

Lemma chains_transfer s s' (rep rep' : nat → nat) :
  tree s →
  (∀ x q, getParent s x = Some q → rtc (parentOf s') (rep x) (rep q)) →
  (∀ x q, getParent s' x = Some q → rtc (parentOf s) (rep' x) (rep' q)) →
  (∀ x, ∃ y, rtc (parentOf s') x y
             ∧ ((rep y = y ∧ y < next_key s) ∨ getParent s' y = None)) →
  (∀ r, getParent s r = None → r < next_key s →
        getParent s' r = None ∧ rep r = r ∧ rep' r = r) →
  (∀ c, isContent s c → rep c = c ∧ rep' c = c) →
  preserved s s'.
Proof.
  intros Ht H1 H2 H3 H4 H6. split_and!.
  - intros k. destruct (H3 k) as (y & Hky & [[Hy Hyn]|Hy]).
    + destruct (tree_rooted s Ht y) as (r0 & Hr0 & Hn0).
      pose proof (chain_lt s y r0 (tree_linked s Ht) Hyn Hr0) as Hr0n.
      destruct (H4 r0 Hn0 Hr0n) as (Hn0' & Hrep & _).
      exists r0. split; [|done]. etrans; [exact Hky|].
      pose proof (rtc_simulation s s' rep H1 y r0 Hr0) as Hsim.
      by rewrite Hy, Hrep in Hsim.
    + by exists y.
  - intros r Hr Hrn. by destruct (H4 r Hr Hrn).
  - intros c r Hc Hr Hrn. destruct (H6 c Hc) as [Hc1 Hc2].
    destruct (H4 r Hr Hrn) as (_ & Hr1 & Hr2). split.
    + intros Hch. pose proof (rtc_simulation s' s rep' H2 c r Hch) as Hsim.
      by rewrite Hc2, Hr2 in Hsim.
    + intros Hch. pose proof (rtc_simulation s s' rep H1 c r Hch) as Hsim.
      by rewrite Hc1, Hr1 in Hsim.
Qed.

(** A node moves below a niece: from [p] to the List [q] inside the sibling
    wrapper [A]. *)
Lemma transfer_move_down s s' t p q A :
  tree s →
  getParent s t = Some p → getParent s q = Some A → getParent s A = Some p →
  isListNode s (Some q) = true → isListItemNode s (Some A) = true →
  t ≠ A →
  (∀ x, getParent s' x = if decide (x = t) then Some q else getParent s x) →
  preserved s s'.
Proof.
  intros Ht Hpt Hpq HpA Hkq HkA HtA HF.
  assert (t ≠ q) as Htq.
  { intros ->. apply HtA.
    assert (A = p) as -> by congruence.
    exfalso. eapply (tree_ancestor_ne s p p Ht); [|done]. by apply tc_once. }
  assert (getParent s' t = Some q) as Ft by (rewrite HF; by rewrite decide_True).
  assert (getParent s' q = Some A) as Fq by (rewrite HF; by rewrite decide_False).
  assert (getParent s' A = Some p) as FA by (rewrite HF; by rewrite decide_False).
  apply (chains_transfer s s' id
           (λ x, if decide (x = q ∨ x = A) then p else x)); try done.
  - intros x y Hxy. unfold id. destruct (decide (x = t)) as [->|Hx].
    + assert (y = p) as -> by congruence. by eapply chain_step3.
    + apply chain_step. rewrite HF. by rewrite decide_False.
  - intros x y. rewrite HF. destruct (decide (x = t)) as [->|Hx].
    + intros [= <-]. rewrite decide_False by (intros [?|?]; congruence).
      rewrite decide_True by by left. by apply chain_step.
    + intros Hxy. destruct (decide (x = q ∨ x = A)) as [[->| ->]|Hxs].
      * assert (y = A) as -> by congruence. by rewrite decide_True by by right.
      * assert (y = p) as -> by congruence.
        rewrite decide_False; [done|]. intros [->| ->].
        -- apply (tree_ancestor_ne s q q Ht); [|done].
           eapply tc_l; [exact Hpq|]. by apply tc_once.
        -- apply (tree_ancestor_ne s A A Ht); [|done]. by apply tc_once.
      * destruct (decide (y = q ∨ y = A)) as [[->| ->]|Hys].
        -- by eapply chain_step3.
        -- by eapply chain_step2.
        -- by apply chain_step.
  - intros x. exists x. split; [done|].
    destruct (decide (x < next_key s)) as [Hlt|Hge]; [by left|right].
    rewrite HF. rewrite decide_False.
    + by destruct (linked_fresh s (tree_linked s Ht) x) as (? & _); [lia|].
    + intros ->. destruct (linked_parent_lt s t p (tree_linked s Ht) Hpt). lia.
  - intros r Hr Hrn. split_and!; [|done|].
    + rewrite HF. rewrite decide_False by congruence. done.
    + rewrite decide_False; [done|]. intros [->| ->]; congruence.
  - intros c Hc. split; [done|]. rewrite decide_False; [done|].
    intros [->| ->].
    + by eapply content_not_list.
    + by eapply content_not_item.
Qed.
(** A node moves up, from the List [p] inside the wrapper [gp] to the List
    [ggp] that holds the wrapper; the wrapper goes when [removed] holds. *)
Lemma transfer_move_up s s' t p gp ggp (removed : Prop) `{!Decision removed} :
  tree s →
  getParent s t = Some p → getParent s p = Some gp → getParent s gp = Some ggp →
  isListNode s (Some p) = true → isListItemNode s (Some gp) = true →
  (removed → (∀ x, getParent s x = Some p → x = t)
                    ∧ (∀ x, getParent s x = Some gp → x = p)) →
  (∀ x, getParent s' x =
        if decide (x = t) then Some ggp
        else if decide (x = gp ∧ removed) then None else getParent s x) →
  preserved s s'.
Proof.
  intros Ht Hpt Hpp Hpg Hkp Hkg Hrem HF.
  pose proof (tree_linked s Ht) as Hl.
  assert (t ≠ p) as Htp.
  { apply (tree_ancestor_ne s t p Ht). by apply tc_once. }
  assert (t ≠ gp) as Htg.
  { apply (tree_ancestor_ne s t gp Ht). eapply tc_l; [exact Hpt|]. by apply tc_once. }
  assert (p ≠ gp) as Hpgp.
  { apply (tree_ancestor_ne s p gp Ht). by apply tc_once. }
  assert (p ≠ ggp) as Hpgg.
  { apply (tree_ancestor_ne s p ggp Ht). eapply tc_l; [exact Hpp|]. by apply tc_once. }
  assert (gp ≠ ggp) as Hgg.
  { apply (tree_ancestor_ne s gp ggp Ht). by apply tc_once. }
  assert (getParent s' t = Some ggp) as Ft by (rewrite HF; by rewrite decide_True).
  assert (getParent s' p = Some gp) as Fp.
  { rewrite HF. rewrite decide_False by congruence.
    rewrite decide_False; [done|]. intros [? _]. congruence. }
  assert (∀ x, x ≠ t → x ≠ gp → getParent s' x = getParent s x) as Fo.
  { intros x H1 H2. rewrite HF. rewrite decide_False by done.
    rewrite decide_False; [done|]. by intros [? _]. }
  destruct (linked_parent_lt s gp ggp Hl Hpg) as [Hgn Hggn].
  apply (chains_transfer s s' (λ x, if decide (x = p ∨ x = gp) then ggp else x) id);
    try done.
  - intros x y Hxy. destruct (decide (x = p ∨ x = gp)) as [[->| ->]|Hxs].
    + assert (y = gp) as -> by congruence. by rewrite decide_True by by right.
    + assert (y = ggp) as -> by congruence.
      rewrite decide_False; [done|]. intros [?|?]; congruence.
    + destruct (decide (x = t)) as [->|Hxt].
      * assert (y = p) as -> by congruence. rewrite decide_True by by left.
        by apply chain_step.
      * assert (getParent s' x = Some y) as Fx.
        { rewrite Fo; [done|done|]. intros ->. apply Hxs. by right. }
        destruct (decide removed) as [Er|Er].
        -- destruct (Hrem Er) as [Hr1 Hr2].
           rewrite decide_False; [by apply chain_step|].
           intros [->| ->]; [by apply Hxt, Hr1|].
           apply Hxs. left. by apply Hr2.
        -- assert (getParent s' gp = Some ggp) as Fg.
           { rewrite HF. rewrite decide_False by congruence.
             rewrite decide_False; [done|]. by intros [_ ?]. }
           destruct (decide (y = p ∨ y = gp)) as [[->| ->]|Hys].
           ++ by eapply chain_step3.
           ++ by eapply chain_step2.
           ++ by apply chain_step.
  - intros x y. unfold id. rewrite HF. destruct (decide (x = t)) as [->|Hxt].
    + intros [= <-]. by eapply chain_step3.
    + destruct (decide (x = gp ∧ removed)); [by intros [=]|].
      by apply chain_step.
  - intros x. destruct (decide removed) as [Er|Er].
    + assert (getParent s' gp = None) as Fg.
      { rewrite HF. rewrite decide_False by congruence. by rewrite decide_True. }
      destruct (decide (x = p ∨ x = gp)) as [[->| ->]|Hxs].
      * exists gp. split; [by apply chain_step|by right].
      * exists gp. split; [done|by right].
      * exists x. split; [done|]. rewrite decide_False by done.
        destruct (decide (x < next_key s)) as [Hlt|Hge]; [by left|right].
        rewrite HF. destruct (linked_parent_lt s t p Hl Hpt).
        rewrite decide_False by lia. rewrite decide_False by (intros [? _]; lia).
        by destruct (linked_fresh s Hl x) as (? & _); [lia|].
    + assert (getParent s' gp = Some ggp) as Fg.
      { rewrite HF. rewrite decide_False by congruence.
        rewrite decide_False; [done|]. by intros [_ ?]. }
      destruct (decide (x = p ∨ x = gp)) as [[->| ->]|Hxs].
      * exists ggp. split; [by eapply chain_step2|]. left.
        split; [by destruct (decide (ggp = p ∨ ggp = gp))|done].
      * exists ggp. split; [by apply chain_step|]. left.
        split; [by destruct (decide (ggp = p ∨ ggp = gp))|done].
      * exists x. split; [done|]. rewrite decide_False by done.
        destruct (decide (x < next_key s)) as [Hlt|Hge]; [by left|right].
        rewrite HF. destruct (linked_parent_lt s t p Hl Hpt).
        rewrite decide_False by lia. rewrite decide_False by (intros [? _]; lia).
        by destruct (linked_fresh s Hl x) as (? & _); [lia|].
  - intros r Hr Hrn. split_and!; [| |done].
    + rewrite HF. rewrite decide_False by congruence.
      by destruct (decide (r = gp ∧ removed)).
    + rewrite decide_False; [done|]. intros [->| ->]; congruence.
  - intros c Hc. split; [|done]. rewrite decide_False; [done|].
    intros [->| ->].
    + by eapply content_not_list.
    + by eapply content_not_item.
Qed.
(** A node moves into a new wrapper pair [n], [S n] at its old place. *)
Lemma transfer_new_wrapper s s' t p :
  tree s →
  getParent s t = Some p →
  (∀ x, getParent s' x =
        if decide (x = t) then Some (S (next_key s))
        else if decide (x = S (next_key s)) then Some (next_key s)
        else if decide (x = next_key s) then Some p
        else getParent s x) →
  preserved s s'.
Proof.
  intros Ht Hpt HF. pose proof (tree_linked s Ht) as Hl.
  destruct (linked_parent_lt s t p Hl Hpt) as [Htn Hpn].
  remember (next_key s) as n eqn:En.
  assert (getParent s' t = Some (S n)) as Ft by (rewrite HF; by rewrite decide_True).
  assert (getParent s' (S n) = Some n) as F1.
  { rewrite HF. rewrite decide_False by lia. by rewrite decide_True. }
  assert (getParent s' n = Some p) as F0.
  { rewrite HF. rewrite !decide_False by lia. by rewrite decide_True. }
  assert (∀ x, x ≠ t → x < n → getParent s' x = getParent s x) as Fo.
  { intros x H1 H2. rewrite HF. by rewrite !decide_False by lia. }
  assert (∀ x y, getParent s x = Some y → x < n ∧ y < n) as Hlt.
  { intros x y Hxy. rewrite En. by apply (linked_parent_lt s x y Hl). }
  apply (chains_transfer s s' id (λ x, if decide (x = n ∨ x = S n) then p else x));
    try done.
  - intros x y Hxy. unfold id. destruct (decide (x = t)) as [->|Hxt].
    + assert (y = p) as -> by congruence. by eapply chain_step3.
    + apply chain_step. rewrite Fo; [done|done|]. by destruct (Hlt x y Hxy).
  - intros x y. rewrite HF. destruct (decide (x = t)) as [->|Hxt].
    { intros [= <-]. rewrite decide_False by lia. rewrite decide_True by by right.
      by apply chain_step. }
    destruct (decide (x = S n)) as [->|Hx1].
    { intros [= <-]. rewrite decide_True by by right. by rewrite decide_True by by left. }
    destruct (decide (x = n)) as [->|Hx0].
    { intros [= <-]. rewrite decide_True by by left. by rewrite decide_False by lia. }
    intros Hxy. destruct (Hlt x y Hxy). rewrite !decide_False by lia.
    by apply chain_step.
  - intros x. destruct (decide (x = n ∨ x = S n)) as [[->| ->]|Hxs].
    + exists p. split; [by apply chain_step|]. left. split; [done|lia].
    + exists p. split; [by eapply chain_step2|]. left. split; [done|lia].
    + exists x. split; [done|].
      destruct (decide (x < n)) as [Hx|Hx]; [left; split; [done|lia]|right].
      rewrite HF. rewrite !decide_False by lia.
      by destruct (linked_fresh s Hl x) as (? & _); [lia|].
  - intros r Hr Hrn. split_and!; [|done|].
    + rewrite Fo; [done|congruence|lia].
    + by rewrite decide_False by lia.
  - intros c Hc. split; [done|]. pose proof (content_lt s c Hl Hc).
    by rewrite decide_False by lia.
Qed.

(** The merge of three Lists: [t] and the children of [Lc] move below [La],
    and [Lc] is detached from its wrapper [C]. *)
Lemma transfer_merge s s' t p A La C Lc :
  tree s → wrapped s →
  getParent s t = Some p →
  getParent s La = Some A → getParent s A = Some p →
  getParent s Lc = Some C → getParent s C = Some p →
  isListNode s (Some La) = true → isListItemNode s (Some A) = true →
  isListNode s (Some Lc) = true → isListItemNode s (Some C) = true →
  t ≠ A → t ≠ C → A ≠ C →
  (∀ x, getParent s' x =
        if decide (x = t) then Some La
        else if decide (x ∈ getChildren s Lc) then Some La
        else if decide (x = Lc) then None
        else getParent s x) →
  preserved s s'.
Proof.
  intros Ht Hw Hpt HpLa HpA HpLc HpC HkLa HkA HkLc HkC HtA HtC HAC HF.
  pose proof (tree_linked s Ht) as Hl.
  pose proof (list_type_ne s A La HkA HkLa) as HALa.
  pose proof (list_type_ne s A Lc HkA HkLc) as HALc.
  pose proof (list_type_ne s C La HkC HkLa) as HCLa.
  pose proof (list_type_ne s C Lc HkC HkLc) as HCLc.
  assert (La ≠ Lc) as HLL by congruence.
  assert (p ≠ A) as HpA'.
  { intros ->. apply (tree_ancestor_ne s A A Ht); [|done]. by apply tc_once. }
  assert (p ≠ C) as HpC'.
  { intros ->. apply (tree_ancestor_ne s C C Ht); [|done]. by apply tc_once. }
  assert (p ≠ La) as HpLa'.
  { intros ->. apply (tree_ancestor_ne s La La Ht); [|done].
    eapply tc_l; [exact HpLa|]. by apply tc_once. }
  assert (p ≠ Lc) as HpLc'.
  { intros ->. apply (tree_ancestor_ne s Lc Lc Ht); [|done].
    eapply tc_l; [exact HpLc|]. by apply tc_once. }
  assert (t ≠ La) as HtLa by congruence.
  assert (t ≠ Lc) as HtLc by congruence.
  assert (∀ x, x ∈ getChildren s Lc ↔ getParent s x = Some Lc) as Hch.
  { intros x. split; [apply (linked_child_parent s Hl)|apply (linked_parent_child s Hl)]. }
  assert (∀ x, getParent s x = Some C → x = Lc) as HonlyC.
  { intros x Hx. apply (linked_parent_child s Hl) in HpLc as HinLc.
    pose proof (Hw C Lc HkC HinLc HkLc) as HcC.
    apply (linked_parent_child s Hl) in Hx. rewrite HcC in Hx.
    by apply list_elem_of_singleton in Hx. }
  assert (getParent s' t = Some La) as Ft by (rewrite HF; by rewrite decide_True).
  assert (∀ x, getParent s x = Some Lc → getParent s' x = Some La) as Fch.
  { intros x Hx. rewrite HF. rewrite decide_False by congruence.
    rewrite decide_True; [done|]. by apply Hch. }
  assert (getParent s' Lc = None) as FLc.
  { rewrite HF. rewrite decide_False by congruence.
    rewrite decide_False by (rewrite Hch; congruence). by rewrite decide_True. }
  assert (∀ x, x ≠ t → x ≠ Lc → getParent s x ≠ Some Lc →
               getParent s' x = getParent s x) as Fo.
  { intros x H1 H2 H3. rewrite HF. rewrite decide_False by done.
    rewrite decide_False by (by rewrite Hch). by rewrite decide_False. }
  assert (getParent s' La = Some A) as FLa by (rewrite Fo; congruence).
  assert (getParent s' A = Some p) as FA by (rewrite Fo; congruence).
  assert (getParent s' C = Some p) as FC by (rewrite Fo; congruence).
  destruct (linked_parent_lt s t p Hl Hpt) as [Htn Hpn].
  apply (chains_transfer s s'
           (λ x, if decide (x = Lc ∨ x = C) then p else x)
           (λ x, if decide (x = La ∨ x = A) then p else x)); try done.
  - intros x y Hxy. destruct (decide (x = Lc ∨ x = C)) as [[->| ->]|Hxs].
    { assert (y = C) as -> by congruence. by rewrite decide_True by by right. }
    { assert (y = p) as -> by congruence.
      rewrite decide_False; [done|]. intros [?|?]; congruence. }
    destruct (decide (x = t)) as [->|Hxt].
    { assert (y = p) as -> by congruence.
      rewrite decide_False by (intros [?|?]; congruence). by eapply chain_step3. }
    destruct (decide (y = Lc)) as [->|HyLc].
    { rewrite decide_True by by left. eapply rtc_l; [by apply Fch|].
      by eapply chain_step2. }
    destruct (decide (y = C)) as [->|HyC].
    { exfalso. apply Hxs. left. by apply HonlyC. }
    rewrite decide_False by (intros [?|?]; congruence).
    apply chain_step. rewrite Fo; [done|done| |congruence].
    intros ->. apply Hxs. by left.
  - intros x y. rewrite HF. destruct (decide (x = t)) as [->|Hxt].
    { intros [= <-]. rewrite decide_False by (intros [?|?]; congruence).
      rewrite decide_True by by left. by apply chain_step. }
    destruct (decide (x ∈ getChildren s Lc)) as [Hx|Hx].
    { intros [= <-]. apply Hch in Hx.
      rewrite decide_False by (intros [->| ->]; congruence).
      rewrite decide_True by by left. by eapply chain_step3. }
    destruct (decide (x = Lc)) as [->|HxLc]; [by intros [=]|].
    intros Hxy. destruct (decide (x = La ∨ x = A)) as [[->| ->]|Hxs].
    { assert (y = A) as -> by congruence. by rewrite decide_True by by right. }
    { assert (y = p) as -> by congruence.
      rewrite decide_False; [done|]. intros [?|?]; congruence. }
    destruct (decide (y = La ∨ y = A)) as [[->| ->]|Hys].
    + by eapply chain_step3.
    + by eapply chain_step2.
    + by apply chain_step.
  - intros x. destruct (decide (x = Lc)) as [->|HxLc].
    { exists Lc. split; [done|by right]. }
    destruct (decide (x = C)) as [->|HxC].
    { exists p. split; [by apply chain_step|]. left. split; [|done].
      rewrite decide_False; [done|]. intros [?|?]; congruence. }
    exists x. split; [done|]. rewrite decide_False by (intros [?|?]; congruence).
    destruct (decide (x < next_key s)) as [Hx|Hx]; [by left|right].
    destruct (linked_fresh s Hl x) as (Hpx & _); [lia|].
    rewrite Fo.
    + exact Hpx.
    + intros ->. lia.
    + exact HxLc.
    + rewrite Hpx. by intros [=].
  - intros r Hr Hrn. split_and!.
    + rewrite Fo; [done|congruence|congruence|congruence].
    + rewrite decide_False; [done|]. intros [->| ->]; congruence.
    + rewrite decide_False; [done|]. intros [->| ->]; congruence.
  - intros c Hc. split.
    + rewrite decide_False; [done|]. intros [->| ->].
      * exact (content_not_list s Lc Lc Hc HkLc eq_refl).
      * exact (content_not_item s C C Hc HkC eq_refl).
    + rewrite decide_False; [done|]. intros [->| ->].
      * exact (content_not_list s La La Hc HkLa eq_refl).
      * exact (content_not_item s A A Hc HkA eq_refl).
Qed.
(** The split: the siblings before and after [t] go into two new wrapper
    pairs, [t] takes the place of the wrapper [gp], and [gp] is detached. *)
Lemma transfer_split s s' t p gp ggp (pre post : list nat) :
  tree s →
  getParent s t = Some p → getParent s p = Some gp → getParent s gp = Some ggp →
  isListNode s (Some p) = true → isListItemNode s (Some gp) = true →
  (∀ x, getParent s x = Some p ↔ x = t ∨ x ∈ pre ∨ x ∈ post) →
  (∀ x, getParent s x = Some gp → x = p) →
  t ∉ pre → t ∉ post →
  (∀ x, getParent s' x =
        if decide (x = t) then Some ggp
        else if decide (x ∈ pre) then Some (S (next_key s))
        else if decide (x ∈ post) then Some (S (S (S (next_key s))))
        else if decide (x = S (next_key s)) then Some (next_key s)
        else if decide (x = S (S (S (next_key s)))) then Some (S (S (next_key s)))
        else if decide (x = next_key s ∨ x = S (S (next_key s))) then Some ggp
        else if decide (x = gp) then None
        else getParent s x) →
  preserved s s'.
Proof.
  intros Ht Hpt Hpp Hpg Hkp Hkg Hsib Honly Htpre Htpost HF.
  pose proof (tree_linked s Ht) as Hl.
  assert (t ≠ p) as Htp.
  { apply (tree_ancestor_ne s t p Ht). by apply tc_once. }
  assert (t ≠ gp) as Htg.
  { apply (tree_ancestor_ne s t gp Ht). eapply tc_l; [exact Hpt|]. by apply tc_once. }
  assert (p ≠ gp) as Hpgp.
  { apply (tree_ancestor_ne s p gp Ht). by apply tc_once. }
  assert (p ≠ ggp) as Hpgg.
  { apply (tree_ancestor_ne s p ggp Ht). eapply tc_l; [exact Hpp|]. by apply tc_once. }
  assert (gp ≠ ggp) as Hgg.
  { apply (tree_ancestor_ne s gp ggp Ht). by apply tc_once. }
  assert (∀ x y, getParent s x = Some y → x < next_key s ∧ y < next_key s) as Hlt.
  { intros x y. apply (linked_parent_lt s x y Hl). }
  destruct (Hlt _ _ Hpt) as [Htn Hpn]. destruct (Hlt _ _ Hpg) as [Hgn Hggn].
  assert (∀ x, x ∈ pre → getParent s x = Some p) as Hpre.
  { intros x Hx. apply Hsib. right. by left. }
  assert (∀ x, x ∈ post → getParent s x = Some p) as Hpost.
  { intros x Hx. apply Hsib. right. by right. }
  assert (∀ x, next_key s ≤ x → (x ∉ pre) ∧ (x ∉ post)) as Hfr.
  { intros x Hx. split; intros Hin; [apply Hpre in Hin|apply Hpost in Hin];
      destruct (Hlt _ _ Hin); lia. }
  remember (next_key s) as n eqn:En.
  assert (getParent s' t = Some ggp) as Ft by (rewrite HF; by rewrite decide_True).
  assert (∀ x, x ∈ pre → getParent s' x = Some (S n)) as Fpre.
  { intros x Hx. rewrite HF. rewrite decide_False by (intros ->; done).
    by rewrite decide_True. }
  assert (∀ x, x ∈ post → x ∉ pre → getParent s' x = Some (S (S (S n)))) as Fpost.
  { intros x Hx Hx'. rewrite HF. rewrite decide_False by (intros ->; done).
    rewrite decide_False by done. by rewrite decide_True. }
  destruct (Hfr n) as [? ?]; [lia|]. destruct (Hfr (S n)) as [? ?]; [lia|].
  destruct (Hfr (S (S n))) as [? ?]; [lia|].
  destruct (Hfr (S (S (S n)))) as [? ?]; [lia|].
  assert (getParent s' (S n) = Some n) as F1.
  { rewrite HF. repeat decide_step. done. }
  assert (getParent s' (S (S (S n))) = Some (S (S n))) as F3.
  { rewrite HF. repeat decide_step. done. }
  assert (getParent s' n = Some ggp) as F0.
  { rewrite HF. repeat decide_step. done. }
  assert (getParent s' (S (S n)) = Some ggp) as F2.
  { rewrite HF. repeat decide_step. done. }
  assert (getParent s' gp = None) as Fg.
  { assert (gp ∉ pre) by (intros Hin%Hpre; congruence).
    assert (gp ∉ post) by (intros Hin%Hpost; congruence).
    rewrite HF. repeat decide_step. done. }
  assert (∀ x, x < n → x ≠ t → x ≠ gp → getParent s x ≠ Some p →
               getParent s' x = getParent s x) as Fo.
  { intros x Hx1 Hx2 Hx3 Hx4.
    assert (x ∉ pre) by (intros Hin%Hpre; congruence).
    assert (x ∉ post) by (intros Hin%Hpost; congruence).
    rewrite HF. repeat decide_step. done. }
  assert (∀ x, n + 4 ≤ x → getParent s' x = None) as Fbig.
  { intros x Hx. destruct (Hfr x) as [? ?]; [lia|]. rewrite HF.
    repeat decide_step.
    by destruct (linked_fresh s Hl x) as (? & _); [lia|]. }
  assert (getParent s' p = Some gp) as Fp.
  { rewrite Fo; [done|lia|congruence|congruence|]. rewrite Hpp.
    intros [= ->]. done. }
  apply (chains_transfer s s'
           (λ x, if decide (x = p ∨ x = gp) then ggp else x)
           (λ x, if decide (n ≤ x) then ggp else x)); try done.
  - intros x y Hxy. destruct (decide (x = p ∨ x = gp)) as [[->| ->]|Hxs].
    { assert (y = gp) as -> by congruence. by rewrite decide_True by by right. }
    { assert (y = ggp) as -> by congruence.
      rewrite decide_False; [done|]. intros [?|?]; congruence. }
    destruct (decide (y = p)) as [->|Hyp].
    { rewrite decide_True by by left.
      apply Hsib in Hxy as [->|[Hx|Hx]].
      - by apply chain_step.
      - eapply chain_step3; [by apply Fpre|done|done].
      - destruct (decide (x ∈ pre)) as [Hx'|Hx'].
        + eapply chain_step3; [by apply Fpre|done|done].
        + eapply chain_step3; [by apply Fpost|done|done]. }
    destruct (decide (y = gp)) as [->|Hyg].
    { exfalso. apply Hxs. left. by apply Honly. }
    rewrite decide_False by (intros [?|?]; congruence).
    apply chain_step. destruct (Hlt _ _ Hxy). rewrite Fo; [done|lia| | |congruence].
    + intros ->. congruence.
    + intros ->. apply Hxs. by right.
  - intros x y. destruct (decide (n ≤ x)) as [Hx|Hx].
    { destruct (decide (x = n)) as [->|?].
      { rewrite F0. intros [= <-]. by rewrite decide_False by lia. }
      destruct (decide (x = S n)) as [->|?].
      { rewrite F1. intros [= <-]. by rewrite decide_True by lia. }
      destruct (decide (x = S (S n))) as [->|?].
      { rewrite F2. intros [= <-]. by rewrite decide_False by lia. }
      destruct (decide (x = S (S (S n)))) as [->|?].
      { rewrite F3. intros [= <-]. by rewrite decide_True by lia. }
      rewrite Fbig by lia. by intros [=]. }
    destruct (decide (x = t)) as [->|Hxt].
    { rewrite Ft. intros [= <-]. rewrite decide_False by lia.
      by eapply chain_step3. }
    destruct (decide (x ∈ pre)) as [Hxp|Hxp].
    { rewrite Fpre by done. intros [= <-]. rewrite decide_True by lia.
      eapply chain_step3; [by apply Hpre|done|done]. }
    destruct (decide (x ∈ post)) as [Hxq|Hxq].
    { rewrite Fpost by done. intros [= <-]. rewrite decide_True by lia.
      eapply chain_step3; [by apply Hpost|done|done]. }
    destruct (decide (x = gp)) as [->|Hxg].
    { rewrite Fg. by intros [=]. }
    rewrite Fo; [|lia|done|done|].
    + intros Hxy. destruct (Hlt _ _ Hxy). rewrite decide_False by lia.
      by apply chain_step.
    + intros Hxp'. apply Hsib in Hxp' as [?|[?|?]]; done.
  - intros x. destruct (decide (x = p)) as [->|Hxp].
    { exists gp. split; [by apply chain_step|by right]. }
    destruct (decide (x = gp)) as [->|Hxg].
    { exists gp. split; [done|by right]. }
    assert (ggp = (if decide (ggp = p ∨ ggp = gp) then ggp else ggp)) as Hrg
      by by destruct (decide (ggp = p ∨ ggp = gp)).
    destruct (decide (n ≤ x)) as [Hx|Hx].
    { destruct (decide (x = n)) as [->|?].
      { exists ggp. split; [by apply chain_step|]. left. split; [done|lia]. }
      destruct (decide (x = S n)) as [->|?].
      { exists ggp. split; [by eapply chain_step2|]. left. split; [done|lia]. }
      destruct (decide (x = S (S n))) as [->|?].
      { exists ggp. split; [by apply chain_step|]. left. split; [done|lia]. }
      destruct (decide (x = S (S (S n)))) as [->|?].
      { exists ggp. split; [by eapply chain_step2|]. left. split; [done|lia]. }
      exists x. split; [done|]. right. apply Fbig. lia. }
    exists x. split; [done|]. left. split; [|lia].
    rewrite decide_False; [done|]. intros [?|?]; congruence.
  - intros r Hr Hrn. split_and!.
    + rewrite Fo; [done|lia|congruence|congruence|congruence].
    + rewrite decide_False; [done|]. intros [->| ->]; congruence.
    + by rewrite decide_False by lia.
  - intros c Hc. pose proof (content_lt s c Hl Hc). split.
    + rewrite decide_False; [done|]. intros [->| ->].
      * exact (content_not_list s p p Hc Hkp eq_refl).
      * exact (content_not_item s gp gp Hc Hkg eq_refl).
    + by rewrite decide_False by lia.
Qed.
End transfer.

(** ** One target of a batch *)

Section steps.
Implicit Types (s : EditorState) (k p q t r c : nat).

Lemma previous_sibling_parent s t A p :
  linked s → getPreviousSibling s t = Some A → getParent s t = Some p →
  getParent s A = Some p.
Proof.
  intros Hl HA Hp. destruct (getPreviousSibling_inv _ _ _ HA) as (p' & Hp' & Hin).
  assert (p' = p) as -> by congruence. by apply (linked_child_parent s Hl).
Qed.

Lemma next_sibling_parent s t C p :
  linked s → getNextSibling s t = Some C → getParent s t = Some p →
  getParent s C = Some p.
Proof.
  intros Hl HC Hp. destruct (getNextSibling_inv _ _ _ HC) as (p' & Hp' & Hin).
  assert (p' = p) as -> by congruence. by apply (linked_child_parent s Hl).
Qed.

Lemma first_child_parent s k a :
  linked s → getFirstChild s k = Some a → getParent s a = Some k.
Proof.
  intros Hl Ha. apply (linked_child_parent s Hl). by apply getFirstChild_elem.
Qed.

Lemma tree_parent_ne s x y : tree s → getParent s x = Some y → x ≠ y.
Proof. intros Ht H. apply (tree_ancestor_ne s x y Ht). by apply tc_once. Qed.

Lemma tree_grandparent_ne s x y z :
  tree s → getParent s x = Some y → getParent s y = Some z → x ≠ z.
Proof.
  intros Ht H1 H2. apply (tree_ancestor_ne s x z Ht).
  eapply tc_l; [exact H1|]. by apply tc_once.
Qed.

Lemma isNestedListNode_None s : isNestedListNode s None = false.
Proof. reflexivity. Qed.

Lemma siblings_distinct s t p A C :
  linked s → getParent s t = Some p →
  getPreviousSibling s t = Some A → getNextSibling s t = Some C → A ≠ C.
Proof.
  intros Hl Hp HA HC.
  destruct (linked_child_shape s t p Hl Hp) as (l1 & l2 & Hc & Hn1 & Hn2).
  rewrite (getPreviousSibling_shape s t p l1 l2 Hp Hc Hn1) in HA.
  rewrite (getNextSibling_shape s t p l1 l2 Hp Hc Hn1) in HC.
  pose proof (linked_nodup s Hl p) as Hnd. rewrite Hc in Hnd.
  apply NoDup_app in Hnd as (_ & Hd & _). intros ->.
  apply (Hd C).
  - destruct l1 as [|a l1 _] using rev_ind; [done|].
    rewrite last_snoc in HA. injection HA as ->. apply elem_of_app. right. by left.
  - right. destruct l2; [done|]. injection HC as ->. by left.
Qed.

Lemma indent_preserved t s :
  tree s → wrapped s → ∃ s', indentListItem t s = Some s' ∧ preserved s s'.
Proof.
  intros Ht Hw. pose proof (tree_linked s Ht) as Hl.
  destruct (isNestedListNode s (Some t)) eqn:Hnested.
  { exists s. split; [|by apply preserved_same].
    unfold indentListItem. by rewrite Hnested. }
  destruct (getParent s t) as [p|] eqn:Hpt.
  2: { exists s. split; [|by apply preserved_same].
       apply indentListItem_no_list.
       - by rewrite Hpt.
       - by rewrite getNextSibling_None_parent.
       - by rewrite getPreviousSibling_None_parent. }
  destruct (isNestedListNode s (getNextSibling s t)) eqn:Hnn;
    destruct (isNestedListNode s (getPreviousSibling s t)) eqn:Hnp.
  - (* merge *)
    destruct (getNextSibling s t) as [C|] eqn:EC; [|done].
    destruct (getPreviousSibling s t) as [A|] eqn:EA; [|done].
    destruct (isNestedListNode_inv _ _ Hnn) as (HkC & Lc & HLc & HkLc).
    destruct (isNestedListNode_inv _ _ Hnp) as (HkA & La & HLa & HkLa).
    pose proof (previous_sibling_parent s t A p Hl EA Hpt) as HpA.
    pose proof (next_sibling_parent s t C p Hl EC Hpt) as HpC.
    pose proof (first_child_parent s A La Hl HLa) as HpLa.
    pose proof (first_child_parent s C Lc Hl HLc) as HpLc.
    pose proof (siblings_distinct s t p A C Hl Hpt EA EC) as HAC.
    assert (t ≠ A) as HtA by (intros ->; congruence).
    assert (t ≠ C) as HtC by (intros ->; congruence).
    destruct (indent_merge_effect s t p Hl Hnested Hpt A C La Lc)
      as (s' & Hs' & HF & _); try done.
    + intros ->. by apply (tree_grandparent_ne s La A La Ht HpLa HpA).
    + intros ->. by apply (tree_grandparent_ne s Lc C Lc Ht HpLc HpC).
    + intros ->. by apply (tree_parent_ne s C C Ht HpC).
    + exists s'. split; [done|].
      by apply (transfer_merge s s' t p A La C Lc).
  - (* only the next sibling is a wrapper *)
    destruct (getNextSibling s t) as [C|] eqn:EC; [|done].
    destruct (isNestedListNode_inv _ _ Hnn) as (HkC & Lc & HLc & HkLc).
    pose proof (next_sibling_parent s t C p Hl EC Hpt) as HpC.
    pose proof (first_child_parent s C Lc Hl HLc) as HpLc.
    assert (t ≠ C) as HtC by (intros ->; congruence).
    destruct (getChildren s Lc) as [|f rf] eqn:EcLc.
    + destruct (indent_next_empty_effect s t Hnested C Lc)
        as (s' & Hs' & d & ->); try done.
      eexists. split; [done|]. apply preserved_same; [done|].
      intros x. by rewrite getParent_markAllDirty.
    + destruct (indent_next_effect s t p Hl Hnested Hpt C Lc f rf)
        as (s' & Hs' & HF & _); try done.
      { intros ->. by apply (tree_grandparent_ne s Lc C Lc Ht HpLc HpC). }
      exists s'. split; [done|].
      by apply (transfer_move_down s s' t p Lc C).
  - (* only the previous sibling is a wrapper *)
    destruct (getPreviousSibling s t) as [A|] eqn:EA; [|done].
    destruct (isNestedListNode_inv _ _ Hnp) as (HkA & La & HLa & HkLa).
    pose proof (previous_sibling_parent s t A p Hl EA Hpt) as HpA.
    pose proof (first_child_parent s A La Hl HLa) as HpLa.
    assert (t ≠ A) as HtA by (intros ->; congruence).
    destruct (indent_previous_effect s t p Hnested Hpt A La)
      as (s' & Hs' & HF & _); try done.
    { intros ->. by apply (tree_grandparent_ne s La A La Ht HpLa HpA). }
    exists s'. split; [done|].
    by apply (transfer_move_down s s' t p La A).
  - (* no wrapper on either side *)
    destruct (isListNode s (Some p)) eqn:Hkp.
    + destruct (linked_child_shape s t p Hl Hpt) as (l1 & l2 & Hc & _ & _).
      destruct (indent_new_effect s t p Hl Hnested Hpt l1 l2)
        as (s' & Hs' & HF & _); try done.
      exists s'. split; [done|].
      by apply (transfer_new_wrapper s s' t p).
    + exists s. split; [|by apply preserved_same].
      apply indentListItem_no_list; [by rewrite Hpt|done|done].
Qed.
Lemma validAncestry_inv s t :
  validAncestry s t = true →
  ∃ p gp ggp, getParent s t = Some p ∧ getParent s p = Some gp
    ∧ getParent s gp = Some ggp
    ∧ isListNode s (Some p) = true ∧ isListItemNode s (Some gp) = true
    ∧ isListNode s (Some ggp) = true.
Proof.
  unfold validAncestry. cbv zeta. rewrite !andb_true_iff. intros [[H1 H2] H3].
  destruct (getParent s t) as [p|] eqn:E1; [|discriminate H3]. simpl in *.
  destruct (getParent s p) as [gp|] eqn:E2; [|discriminate H2]. simpl in *.
  destruct (getParent s gp) as [ggp|] eqn:E3; [|discriminate H1]. simpl in *.
  exists p, gp, ggp. split_and!; done.
Qed.

Lemma wrapped_only_child s gp p x :
  linked s → wrapped s →
  isListItemNode s (Some gp) = true → isListNode s (Some p) = true →
  getParent s p = Some gp → getParent s x = Some gp → x = p.
Proof.
  intros Hl Hw Hkg Hkp Hpp Hx.
  apply (linked_parent_child s Hl) in Hpp as Hin.
  pose proof (Hw gp p Hkg Hin Hkp) as Hc.
  apply (linked_parent_child s Hl) in Hx. rewrite Hc in Hx.
  by apply list_elem_of_singleton in Hx.
Qed.

Lemma outdent_preserved t s :
  tree s → wrapped s → ∃ s', outdentListItem t s = Some s' ∧ preserved s s'.
Proof.
  intros Ht Hw. pose proof (tree_linked s Ht) as Hl.
  destruct (isNestedListNode s (Some t)) eqn:Hnested.
  { exists s. split; [|by apply preserved_same].
    unfold outdentListItem. by rewrite Hnested. }
  destruct (validAncestry s t) eqn:Hv.
  2: { exists s. split; [|by apply preserved_same].
       by apply outdentListItem_invalid. }
  destruct (validAncestry_inv s t Hv)
    as (p & gp & ggp & Hpt & Hpp & Hpg & Hkp & Hkg & Hkgg).
  destruct (linked_child_shape s t p Hl Hpt) as (l1 & l2 & Hc & Hn1 & Hn2).
  destruct (linked_child_shape s gp ggp Hl Hpg) as (g1 & g2 & Hcg & _ & _).
  pose proof (tree_valid_ancestry_ne s t p gp ggp Ht Hpt Hpp Hpg) as Hne.
  assert (∀ x, getParent s x = Some gp → x = p) as Honly.
  { intros x. by apply (wrapped_only_child s gp p x). }
  destruct l1 as [|a pre].
  - (* first child *)
    destruct (outdent_first_effect s t p gp ggp g1 g2 Hl Hnested Hpt Hpp Hpg
                Hkp Hkg Hkgg Hcg Hne l2 Hc) as (s' & Hs' & HF & _).
    exists s'. split; [done|].
    apply (transfer_move_up s s' t p gp ggp (l2 = [])); try done.
    intros ->. split; [|done]. intros x Hx.
    apply (linked_parent_child s Hl) in Hx. rewrite Hc in Hx.
    by apply list_elem_of_singleton in Hx.
  - destruct l2 as [|b post].
    + (* last child *)
      destruct (outdent_last_effect s t p gp ggp g1 g2 Hl Hnested Hpt Hpp Hpg
                  Hkp Hkg Hkgg Hcg Hne a pre Hc) as (s' & Hs' & HF & _).
      exists s'. split; [done|].
      apply (transfer_move_up s s' t p gp ggp False); try done.
      intros x. rewrite HF. destruct (decide (x = t)); [done|].
      rewrite decide_False; [done|]. by intros [_ ?].
    + (* interior child *)
      destruct (outdent_split_effect s t p gp ggp g1 g2 Hl Hnested Hpt Hpp Hpg
                  Hkp Hkg Hkgg Hcg Hne (a :: pre) (b :: post) Hc)
        as (s' & Hs' & HF & _); [done|done|].
      exists s'. split; [done|].
      apply (transfer_split s s' t p gp ggp (a :: pre) (b :: post)); try done.
      intros x. split.
      * intros Hx. apply (linked_parent_child s Hl) in Hx. rewrite Hc in Hx.
        apply elem_of_app in Hx as [Hx|Hx]; [right; by left|].
        apply elem_of_cons in Hx as [->|Hx]; [by left|right; by right].
      * intros Hx. apply (linked_child_parent s Hl). rewrite Hc.
        destruct Hx as [->|[Hx|Hx]].
        -- apply elem_of_app. right. by left.
        -- apply elem_of_app. by left.
        -- apply elem_of_app. right. by right.
Qed.

Lemma preserved_trans s1 s2 s3 :
  linked s1 → extends s1 s2 → preserved s1 s2 → preserved s2 s3 →
  preserved s1 s3.
Proof.
  intros Hl (He1 & He2 & He3) (_ & Hr1 & Hc1) (Hk2 & Hr2 & Hc2). split_and!.
  - done.
  - intros r Hr Hrn. apply Hr2; [by apply Hr1|lia].
  - intros c r Hc Hr Hrn. rewrite <- Hc1 by done. apply Hc2.
    + unfold isContent in *. rewrite He2; [done|]. by apply content_lt.
    + by apply Hr1.
    + lia.
Qed.

Lemma indent_step t s :
  tree s → wrapped s →
  ∃ s', indentListItem t s = Some s'
    ∧ tree s' ∧ wrapped s' ∧ extends s s' ∧ preserved s s'.
Proof.
  intros Ht Hw. destruct (indent_preserved t s Ht Hw) as (s' & Hs' & Hp).
  destruct (indentListItem_wf t s s') as [[Hl' Hw'] He]; [|done|].
  { split; [by apply tree_linked|done]. }
  exists s'. split_and!; try done. split; [done|]. by destruct Hp.
Qed.

Lemma outdent_step t s :
  tree s → wrapped s →
  ∃ s', outdentListItem t s = Some s'
    ∧ tree s' ∧ wrapped s' ∧ extends s s' ∧ preserved s s'.
Proof.
  intros Ht Hw. destruct (outdent_preserved t s Ht Hw) as (s' & Hs' & Hp).
  destruct (outdentListItem_wf t s s') as [[Hl' Hw'] He]; [|done|].
  { split; [by apply tree_linked|done]. }
  exists s'. split_and!; try done. split; [done|]. by destruct Hp.
Qed.

Lemma forEach_batch (f : nat → EditorState → option EditorState) :
  (∀ t s, tree s → wrapped s →
     ∃ s', f t s = Some s' ∧ tree s' ∧ wrapped s' ∧ extends s s' ∧ preserved s s') →
  ∀ l s, tree s → wrapped s →
    ∃ s', forEach f l s = Some s'
      ∧ tree s' ∧ wrapped s' ∧ extends s s' ∧ preserved s s'.
Proof.
  intros Hf l. induction l as [|t l IH]; intros s Ht Hw.
  - exists s. split_and!; [done|done|done|apply extends_refl|by apply preserved_same].
  - destruct (Hf t s Ht Hw) as (s1 & Hs1 & Ht1 & Hw1 & He1 & Hp1).
    destruct (IH s1 Ht1 Hw1) as (s2 & Hs2 & Ht2 & Hw2 & He2 & Hp2).
    exists s2. simpl. rewrite Hs1. simpl. split_and!; try done.
    + by eapply extends_trans.
    + eapply preserved_trans; [by apply tree_linked|done..].
Qed.
End steps.

(** ** Batches *)

Lemma handleIndent_batch l s :
  tree s → wrapped s →
  ∃ s', handleIndent l s = Some s'
    ∧ tree s' ∧ wrapped s' ∧ extends s s' ∧ preserved s s'.
Proof. apply (forEach_batch indentListItem indent_step). Qed.

Lemma handleOutdent_batch l s :
  tree s → wrapped s →
  ∃ s', handleOutdent l s = Some s'
    ∧ tree s' ∧ wrapped s' ∧ extends s s' ∧ preserved s s'.
Proof. apply (forEach_batch outdentListItem outdent_step). Qed.

(** C5, as stated for every list subtree, fails: the text node 9 of item 5
    lies in the subtree of the inner List 2 before item 5 is outdented and
    not afterwards. *)
Lemma inner_subtree_loses_content :
  isContent split_doc 9 ∧ inSubtree split_doc 2 9
  ∧ ∃ s', handleOutdent [5] split_doc = Some s' ∧ ¬ inSubtree s' 2 9.
Proof.
  split_and!.
  - by vm_compute.
  - eapply rtc_l; [|eapply rtc_l; [|apply rtc_refl]].
    + unfold childOf. instantiate (1 := 5). vm_compute.
      apply elem_of_cons. right. apply elem_of_cons. right.
      apply elem_of_cons. by left.
    + unfold childOf. vm_compute. apply elem_of_cons. by left.
  - exists (default split_doc (handleOutdent [5] split_doc)).
    split; [by vm_compute|].
    intros Hr. apply rtc_inv in Hr as [Heq|(y & Hy & _)]; [done|].
    unfold childOf in Hy. vm_compute in Hy. by apply elem_of_nil in Hy.
Qed.

(** ** The command listener *)

Lemma findNearestListItemNode_mono fuel fuel' s k res :
  fuel ≤ fuel' →
  findNearestListItemNode fuel s k = Some res →
  findNearestListItemNode fuel' s k = Some res.
Proof.
  revert fuel' k. induction fuel as [|fuel IH]; intros fuel' k Hle; [done|].
  destruct fuel' as [|fuel']; [lia|]. simpl.
  destruct (isListItemNode s (Some k)); [done|].
  destruct (getParent s k) as [p|]; [|done]. apply IH. lia.
Qed.

Lemma findNearestListItemNode_terminates s k :
  rooted s k → ∃ fuel res, findNearestListItemNode fuel s k = Some res.
Proof.
  intros (r & Hr & Hn). induction Hr as [r|k p r Hkp Hpr IH].
  - exists 1. simpl. rewrite Hn. destruct (isListItemNode s (Some r)); by eexists.
  - destruct (IH Hn) as (fuel & res & Hres). exists (S fuel). simpl.
    unfold parentOf in Hkp. rewrite Hkp.
    destruct (isListItemNode s (Some k)); by eexists.
Qed.

Lemma selectedListItemNodes_terminates s sel :
  tree s → ∃ fuel0, ∀ fuel, fuel0 ≤ fuel →
    ∃ tg, selectedListItemNodes fuel s sel = Some tg.
Proof.
  intros Ht. unfold selectedListItemNodes.
  destruct (if bool_decide (length (sel_nodes sel) = 0)
            then sel_nodes sel ++ [sel_anchor sel] else sel_nodes sel)
    as [|node [|node' l]].
  - exists 0. intros fuel _. by eexists.
  - destruct (findNearestListItemNode_terminates s node (tree_rooted s Ht node))
      as (fuel0 & res & Hres).
    exists fuel0. intros fuel Hle.
    rewrite (findNearestListItemNode_mono fuel0 fuel s node res Hle Hres). simpl.
    destruct res; by eexists.
  - exists 0. intros fuel _. by eexists.
Qed.

(** C9.  In a well-formed document the listener answers (given fuel enough
    for the ancestor walk), and its answer is [true] exactly when the command
    is one of the two handled kinds and the selection resolves to at least
    one target; with no selection there is no target. *)
Theorem command_handled_iff (type : string) s :
  tree s → wrapped s →
  ∃ fuel0, ∀ fuel, fuel0 ≤ fuel →
    ∃ tg s',
      resolveTargets fuel s = Some tg
      ∧ (selection s = None → tg = [])
      ∧ commandListener fuel type s =
          Some (bool_decide ((type = "indentContent"%string
                              ∨ type = "outdentContent"%string) ∧ tg ≠ []), s').
Proof.
  intros Ht Hw. unfold resolveTargets, commandListener, maybeIndentOrOutdent.
  destruct (selection s) as [sel|] eqn:Esel.
  2: { exists 0. intros fuel _. exists [], s. split_and!; [done|done|].
       rewrite (bool_decide_false (_ ∧ [] ≠ [])) by (by intros [_ ?]).
       by repeat case_bool_decide. }
  destruct (selectedListItemNodes_terminates s sel Ht) as (fuel0 & Hf).
  exists fuel0. intros fuel Hle. destruct (Hf fuel Hle) as (tg & Htg).
  rewrite Htg. simpl.
  destruct (handleIndent_batch tg s Ht Hw) as (si & Hsi & _).
  destruct (handleOutdent_batch tg s Ht Hw) as (so & Hso & _).
  rewrite Hsi, Hso. simpl.
  destruct tg as [|t tg'].
  - exists [], s. split_and!; [done|done|].
    rewrite (bool_decide_false (_ ∧ [] ≠ [])) by (by intros [_ ?]).
    simpl. by repeat case_bool_decide.
  - rewrite (bool_decide_true (0 < _)) by (simpl; lia).
    destruct (decide (type = "indentContent"%string)) as [Hi|Hi].
    { exists (t :: tg'), si. split_and!; [done|done|].
      rewrite (bool_decide_true (type = _)) by done.
      by rewrite bool_decide_true by (split; [by left|done]). }
    destruct (decide (type = "outdentContent"%string)) as [Ho|Ho].
    { exists (t :: tg'), so. split_and!; [done|done|].
      rewrite (bool_decide_false (type = "indentContent"%string)) by done.
      rewrite (bool_decide_true (type = _)) by done.
      by rewrite bool_decide_true by (split; [by right|done]). }
    exists (t :: tg'), s. split_and!; [done|done|].
    rewrite !(bool_decide_false (type = _)) by done.
    by rewrite bool_decide_false by (intros [[?|?] _]; done).
Qed.

Lemma command_handled_iff_witness :
  ∃ fuel0, ∀ fuel, fuel0 ≤ fuel →
    ∃ tg s',
      resolveTargets fuel caret_doc = Some tg
      ∧ (selection caret_doc = None → tg = [])
      ∧ commandListener fuel "outdentContent" caret_doc =
          Some (bool_decide (("outdentContent"%string = "indentContent"%string
                              ∨ "outdentContent"%string = "outdentContent"%string)
                             ∧ tg ≠ []), s').
Proof.
  apply (command_handled_iff "outdentContent" caret_doc).
  - apply tree_check_sound. by vm_compute.
  - apply wrapped_check_sound. by vm_compute.
Defined.

(** ** Indent next to one wrapper *)

Lemma tree_sibling_inner_ne s t p w il :
  tree s → getParent s t = Some p → getParent s w = Some p →
  getFirstChild s w = Some il → p ≠ il ∧ t ≠ il.
Proof.
  intros Ht Hpt Hpw Hf.
  pose proof (first_child_parent s w il (tree_linked s Ht) Hf) as Hil.
  split.
  - intros <-. by apply (tree_grandparent_ne s p w p Ht Hil Hpw).
  - intros <-. rewrite Hpt in Hil. injection Hil as ->.
    by apply (tree_parent_ne s w w Ht Hpw).
Qed.

(** C8, as amended.  When only the next sibling is a nested-list wrapper and
    its inner List is not empty, the target becomes the first child of that
    inner List, before the former first child, and nothing else moves; when
    the inner List is empty the target stays where it is. *)
Theorem indent_into_next s t C :
  tree s →
  isNestedListNode s (Some t) = false →
  isNestedListNode s (getPreviousSibling s t) = false →
  getNextSibling s t = Some C →
  isNestedListNode s (Some C) = true →
  ∃ p Lc s',
    getParent s t = Some p
    ∧ getFirstChild s C = Some Lc
    ∧ isListNode s (Some Lc) = true
    ∧ handleIndent [t] s = Some s'
    ∧ if decide (getChildren s Lc = [])
      then (∀ x, getParent s' x = getParent s x)
           ∧ (∀ x, getChildren s' x = getChildren s x)
      else getChildren s' Lc = t :: getChildren s Lc
           ∧ getParent s' t = Some Lc
           ∧ getChildren s' p = removeKey t (getChildren s p)
           ∧ (∀ x, x ≠ t → getParent s' x = getParent s x)
           ∧ (∀ x, x ≠ Lc → x ≠ p → getChildren s' x = getChildren s x).
Proof.
  intros Ht Hn Hprev Hnext HC.
  pose proof (tree_linked s Ht) as Hl.
  destruct (getParent s t) as [p|] eqn:Hpt.
  2: { by rewrite (getNextSibling_None_parent s t Hpt) in Hnext. }
  destruct (isNestedListNode_inv s C HC) as (_ & Lc & HfLc & HkLc).
  pose proof (next_sibling_parent s t C p Hl Hnext Hpt) as HpC.
  destruct (tree_sibling_inner_ne s t p C Lc Ht Hpt HpC HfLc) as [HpLc HtLc].
  exists p, Lc. unfold handleIndent. setoid_rewrite forEach_single.
  destruct (getChildren s Lc) as [|f rf] eqn:HcLc.
  - destruct (indent_next_empty_effect s t Hn C Lc Hprev Hnext HC HfLc HcLc)
      as (s' & Hs' & d & ->).
    exists (markAllDirty d s). rewrite decide_True by done.
    split_and!; try done.
    + intros x. apply getParent_markAllDirty.
    + intros x. apply getChildren_markAllDirty.
  - destruct (indent_next_effect s t p Hl Hn Hpt C Lc f rf
                Hprev Hnext HC HfLc HcLc HpLc)
      as (s' & Hs' & HP & HC' & _ & _).
    exists s'. rewrite decide_False by done.
    split_and!; try done.
    + rewrite HC'. by rewrite decide_True.
    + rewrite HP. by rewrite decide_True.
    + rewrite HC'. rewrite decide_False by done. by rewrite decide_True.
    + intros x Hx. rewrite HP. by rewrite decide_False.
    + intros x Hx1 Hx2. rewrite HC'. by rewrite !decide_False.
Qed.

Lemma indent_into_next_witness :
  ∃ p Lc s',
    getParent sole_doc 1 = Some p
    ∧ getFirstChild sole_doc 2 = Some Lc
    ∧ isListNode sole_doc (Some Lc) = true
    ∧ handleIndent [1] sole_doc = Some s'
    ∧ if decide (getChildren sole_doc Lc = [])
      then (∀ x, getParent s' x = getParent sole_doc x)
           ∧ (∀ x, getChildren s' x = getChildren sole_doc x)
      else getChildren s' Lc = 1 :: getChildren sole_doc Lc
           ∧ getParent s' 1 = Some Lc
           ∧ getChildren s' p = removeKey 1 (getChildren sole_doc p)
           ∧ (∀ x, x ≠ 1 → getParent s' x = getParent sole_doc x)
           ∧ (∀ x, x ≠ Lc → x ≠ p → getChildren s' x = getChildren sole_doc x).
Proof.
  apply (indent_into_next sole_doc 1 2); try reflexivity.
  apply tree_check_sound. by vm_compute.
Defined.

(** C8, as stated, fails next to a wrapper around an empty List: item 3 of
    List 2 has the wrapper 4 around the empty List 5 as next sibling, and the
    indent leaves item 3 in List 2 and List 5 empty. *)
Lemma indent_next_to_empty_list :
  isNestedListNode hollow_doc (Some 3) = false
  ∧ isNestedListNode hollow_doc (getPreviousSibling hollow_doc 3) = false
  ∧ getNextSibling hollow_doc 3 = Some 4
  ∧ isNestedListNode hollow_doc (Some 4) = true
  ∧ getFirstChild hollow_doc 4 = Some 5
  ∧ ∃ s', handleIndent [3] hollow_doc = Some s'
      ∧ getChildren s' 5 = []
      ∧ getParent s' 3 = Some 2
      ∧ getChildren s' 2 = [3; 4].
Proof.
  do 5 (split; [by vm_compute|]).
  exists (default hollow_doc (handleIndent [3] hollow_doc)).
  split_and!; by vm_compute.
Qed.

(** ** Indent, then outdent *)

Lemma isNestedListNode_old s s' k :
  linked s →
  (∀ x, x < next_key s → node_type s' !! x = node_type s !! x) →
  k < next_key s →
  getChildren s' k = getChildren s k →
  isNestedListNode s' (Some k) = isNestedListNode s (Some k).
Proof.
  intros Hl Hty Hk Hc. unfold isNestedListNode, isListItemNode, getFirstChild.
  rewrite Hc, (Hty k Hk). f_equal.
  destruct (getChildren s k) as [|c l] eqn:E; [done|]. simpl.
  assert (c < next_key s) as Hc'.
  { apply (linked_child_lt s c k Hl). rewrite E. by left. }
  unfold isListNode. by rewrite (Hty c Hc').
Qed.

Lemma isListNode_old s s' k :
  node_type s' !! k = node_type s !! k →
  isListNode s' (Some k) = isListNode s (Some k).
Proof. intros H. unfold isListNode. by rewrite H. Qed.

Lemma isListItemNode_old s s' k :
  node_type s' !! k = node_type s !! k →
  isListItemNode s' (Some k) = isListItemNode s (Some k).
Proof. intros H. unfold isListItemNode. by rewrite H. Qed.

Section round_trip.
Variables (s : EditorState) (t p : nat) (l1 l2 : list nat).
Hypothesis Ht : tree s.
Hypothesis Hw : wrapped s.
Hypothesis Hn : isNestedListNode s (Some t) = false.
Hypothesis Hpt : getParent s t = Some p.
Hypothesis Hkp : isListNode s (Some p) = true.
Hypothesis Hcp : getChildren s p = l1 ++ t :: l2.
Hypothesis Hn1 : t ∉ l1.
Hypothesis Hn2 : t ∉ l2.

Lemma round_trip_next C Lc f rf :
  isNestedListNode s (getPreviousSibling s t) = false →
  getNextSibling s t = Some C →
  isNestedListNode s (Some C) = true →
  getFirstChild s C = Some Lc →
  getChildren s Lc = f :: rf →
  ∃ s1 s2, indentListItem t s = Some s1 ∧ outdentListItem t s1 = Some s2
    ∧ restored s s2.
Proof.
  intros Hprev Hnext HC HfLc HcLc.
  pose proof (tree_linked s Ht) as Hl.
  destruct (isNestedListNode_inv s C HC) as (HkC & Lc' & HfLc' & HkLc).
  rewrite HfLc in HfLc'. injection HfLc' as <-.
  pose proof (next_sibling_parent s t C p Hl Hnext Hpt) as HpC.
  pose proof (first_child_parent s C Lc Hl HfLc) as HpLc.
  destruct (tree_sibling_inner_ne s t p C Lc Ht Hpt HpC HfLc) as [HneLc HtLc].
  pose proof (tree_parent_ne s t p Ht Hpt) as Htp.
  rewrite (getNextSibling_shape s t p l1 l2 Hpt Hcp Hn1) in Hnext.
  destruct l2 as [|C' l2']; [done|]. injection Hnext as ->.
  assert (C ≠ t) as HCt.
  { intros ->. apply Hn2. by left. }
  destruct (indent_next_effect s t p Hl Hn Hpt C Lc f rf
              Hprev ltac:(by rewrite (getNextSibling_shape s t p l1 (C :: l2') Hpt Hcp Hn1))
              HC HfLc HcLc HneLc)
    as (s1 & Hs1 & HP1 & HC1 & HT1 & HK1).
  destruct (indent_step t s Ht Hw) as (s1' & Hs1' & Ht1 & _).
  rewrite Hs1 in Hs1'. injection Hs1' as <-.
  assert (isNestedListNode s1 (Some t) = false) as Hn'.
  { rewrite <- Hn. apply isNestedListNode_old; [done|by rewrite HT1| |].
    - apply (linked_parent_lt s t p Hl Hpt).
    - rewrite HC1. by rewrite !decide_False. }
  assert (getChildren s1 p = l1 ++ C :: l2') as Hcp1.
  { rewrite HC1. rewrite decide_False by done. rewrite decide_True by done.
    rewrite Hcp. by apply removeKey_middle. }
  destruct (outdent_first_effect s1 t Lc C p l1 l2' (tree_linked s1 Ht1) Hn')
    with (rest := f :: rf) as (s2 & Hs2 & HP2 & HC2 & HT2 & HK2).
  - rewrite HP1. by rewrite decide_True.
  - rewrite HP1. by rewrite decide_False.
  - rewrite HP1. by rewrite decide_False.
  - by rewrite (isListNode_type s s1).
  - by rewrite (isListItemNode_type s s1).
  - by rewrite (isListNode_type s s1).
  - done.
  - done.
  - rewrite HC1. by rewrite decide_True.
  - exists s1, s2. split_and!; [done|done|]. intros x _. split_and!.
    + rewrite HP2. destruct (decide (x = t)) as [->|Hxt]; [done|].
      rewrite decide_False by (by intros [_ ?]).
      rewrite HP1. by rewrite decide_False.
    + rewrite HC2. destruct (decide (x = p)) as [->|Hxp].
      { rewrite decide_False by done. by rewrite Hcp. }
      destruct (decide (x = Lc)) as [->|HxLc]; [done|].
      rewrite HC1. by rewrite !decide_False.
    + by rewrite HT2, HT1.
Qed.

Lemma round_trip_previous A La a pre :
  getPreviousSibling s t = Some A →
  isNestedListNode s (getNextSibling s t) = false →
  isNestedListNode s (Some A) = true →
  getFirstChild s A = Some La →
  getChildren s La = a :: pre →
  ∃ s1 s2, indentListItem t s = Some s1 ∧ outdentListItem t s1 = Some s2
    ∧ restored s s2.
Proof.
  intros Hprev Hnext HA HfLa HcLa.
  pose proof (tree_linked s Ht) as Hl.
  destruct (isNestedListNode_inv s A HA) as (HkA & La' & HfLa' & HkLa).
  rewrite HfLa in HfLa'. injection HfLa' as <-.
  pose proof (previous_sibling_parent s t A p Hl Hprev Hpt) as HpA.
  pose proof (first_child_parent s A La Hl HfLa) as HpLa.
  destruct (tree_sibling_inner_ne s t p A La Ht Hpt HpA HfLa) as [HneLa HtLa].
  pose proof (tree_parent_ne s t p Ht Hpt) as Htp.
  pose proof Hprev as Hprev'.
  rewrite (getPreviousSibling_shape s t p l1 l2 Hpt Hcp Hn1) in Hprev'.
  apply last_Some in Hprev' as (l1' & Hl1).
  assert (A ≠ t) as HAt.
  { intros ->. apply Hn1. rewrite Hl1. apply elem_of_app. right. by left. }
  destruct (indent_previous_effect s t p Hn Hpt A La Hprev Hnext HA HfLa HneLa)
    as (s1 & Hs1 & HP1 & HC1 & HT1 & HK1).
  destruct (indent_step t s Ht Hw) as (s1' & Hs1' & Ht1 & _).
  rewrite Hs1 in Hs1'. injection Hs1' as <-.
  assert (isNestedListNode s1 (Some t) = false) as Hn'.
  { rewrite <- Hn. apply isNestedListNode_old; [done|by rewrite HT1| |].
    - apply (linked_parent_lt s t p Hl Hpt).
    - rewrite HC1. by rewrite !decide_False. }
  assert (getChildren s1 p = l1' ++ A :: l2) as Hcp1.
  { rewrite HC1. rewrite decide_False by done. rewrite decide_True by done.
    rewrite Hcp. rewrite removeKey_middle by done. rewrite Hl1.
    by rewrite <- app_assoc. }
  destruct (outdent_last_effect s1 t La A p l1' l2 (tree_linked s1 Ht1) Hn')
    with (a := a) (pre := pre) as (s2 & Hs2 & HP2 & HC2 & HT2 & HK2).
  - rewrite HP1. by rewrite decide_True.
  - rewrite HP1. by rewrite decide_False.
  - rewrite HP1. by rewrite decide_False.
  - by rewrite (isListNode_type s s1).
  - by rewrite (isListItemNode_type s s1).
  - by rewrite (isListNode_type s s1).
  - done.
  - done.
  - rewrite HC1. rewrite decide_True by done. by rewrite HcLa.
  - exists s1, s2. split_and!; [done|done|]. intros x _. split_and!.
    + rewrite HP2. destruct (decide (x = t)) as [->|Hxt]; [done|].
      rewrite HP1. by rewrite decide_False.
    + rewrite HC2. destruct (decide (x = p)) as [->|Hxp].
      { rewrite Hcp, Hl1. by rewrite <- app_assoc. }
      destruct (decide (x = La)) as [->|HxLa]; [done|].
      rewrite HC1. by rewrite !decide_False.
    + by rewrite HT2, HT1.
Qed.

Lemma round_trip_new :
  isNestedListNode s (getPreviousSibling s t) = false →
  isNestedListNode s (getNextSibling s t) = false →
  ∃ s1 s2, indentListItem t s = Some s1 ∧ outdentListItem t s1 = Some s2
    ∧ restored s s2.
Proof.
  intros Hprev Hnext.
  pose proof (tree_linked s Ht) as Hl.
  destruct (linked_parent_lt s t p Hl Hpt) as [Htn Hpn].
  destruct (indent_new_effect s t p Hl Hn Hpt l1 l2 Hprev Hnext Hkp Hcp)
    as (s1 & Hs1 & HP1 & HC1 & HT1 & HK1).
  destruct (indent_step t s Ht Hw) as (s1' & Hs1' & Ht1 & _).
  rewrite Hs1 in Hs1'. injection Hs1' as <-.
  pose proof (tree_parent_ne s t p Ht Hpt) as Htp.
  assert (∀ x, x < next_key s → node_type s1 !! x = node_type s !! x) as Hty.
  { intros x Hx. rewrite HT1. rewrite !decide_False by lia. done. }
  assert (isNestedListNode s1 (Some t) = false) as Hn'.
  { rewrite <- Hn. apply isNestedListNode_old; [done|done|done|].
    rewrite HC1. rewrite decide_False by done. by rewrite !decide_False by lia. }
  destruct (outdent_first_effect s1 t (S (next_key s)) (next_key s) p l1 l2
              (tree_linked s1 Ht1) Hn')
    with (rest := @nil nat) as (s2 & Hs2 & HP2 & HC2 & HT2 & HK2).
  - rewrite HP1. by rewrite decide_True.
  - rewrite HP1. rewrite decide_False by lia. by rewrite decide_True.
  - rewrite HP1. rewrite !decide_False by lia. by rewrite decide_True.
  - unfold isListNode. rewrite HT1. rewrite decide_False by lia.
    by rewrite decide_True.
  - unfold isListItemNode. rewrite HT1. by rewrite decide_True.
  - rewrite <- Hkp. apply isListNode_old. by apply Hty.
  - rewrite HC1. by rewrite decide_True.
  - lia.
  - rewrite HC1. rewrite !decide_False by lia. by rewrite decide_True.
  - exists s1, s2. split_and!; [done|done|]. intros x Hx. split_and!.
    + rewrite HP2. destruct (decide (x = t)) as [->|Hxt]; [done|].
      rewrite decide_False by (intros [? _]; lia).
      rewrite HP1. by rewrite !decide_False by lia.
    + rewrite HC2. destruct (decide (x = p)) as [->|Hxp].
      { by rewrite decide_True. }
      rewrite decide_False by lia. rewrite HC1. by rewrite !decide_False by lia.
    + rewrite HT2. by apply Hty.
Qed.
End round_trip.

Lemma validAncestry_markAllDirty d s t :
  validAncestry (markAllDirty d s) t = validAncestry s t.
Proof.
  unfold validAncestry. rewrite getParent_markAllDirty.
  rewrite !(isListNode_type s (markAllDirty d s)),
    !(isListItemNode_type s (markAllDirty d s)) by apply node_type_markAllDirty.
  destruct (getParent s t) as [p|]; simpl; [|done].
  rewrite getParent_markAllDirty.
  destruct (getParent s p) as [gp|]; simpl; [|done].
  by rewrite getParent_markAllDirty.
Qed.

Lemma validAncestry_parent s t :
  isListNode s (getParent s t) = false → validAncestry s t = false.
Proof. unfold validAncestry. intros ->. by rewrite andb_false_r. Qed.

Lemma restored_markAllDirty d s : restored s (markAllDirty d s).
Proof.
  intros x _. by rewrite getParent_markAllDirty, getChildren_markAllDirty,
    node_type_markAllDirty.
Qed.

Lemma restored_refl s : restored s s.
Proof. by intros x _. Qed.

(** C4, as amended.  In a well-formed document, indent followed by outdent
    of one target both run, and afterwards every node of the document has the
    parent, the children (in order) and the type it had before (the target is
    back between the same siblings) in each of these cases: the target is
    itself a nested-list wrapper; neither neighbour of the target is a
    nested-list wrapper; exactly one neighbour is a nested-list wrapper, its
    inner List is not empty and the parent of the target is a List; only the
    next sibling is a nested-list wrapper, its inner List is empty and the
    ancestry of the target is not List, ListItem, List. *)
Theorem indent_outdent_round_trip s t :
  tree s → wrapped s →
  (isNestedListNode s (Some t) = false →
     isNestedListNode s (getPreviousSibling s t)
       && isNestedListNode s (getNextSibling s t) = false
     ∧ (∀ A La, getPreviousSibling s t = Some A →
          isNestedListNode s (Some A) = true →
          getFirstChild s A = Some La →
          getChildren s La ≠ [] ∧ isListNode s (getParent s t) = true)
     ∧ (∀ C Lc, getNextSibling s t = Some C →
          isNestedListNode s (Some C) = true →
          getFirstChild s C = Some Lc →
          if decide (getChildren s Lc = []) then validAncestry s t = false
          else isListNode s (getParent s t) = true)) →
  ∃ s1 s2,
    handleIndent [t] s = Some s1
    ∧ handleOutdent [t] s1 = Some s2
    ∧ ∀ x, x < next_key s →
        getParent s2 x = getParent s x
        ∧ getChildren s2 x = getChildren s x
        ∧ node_type s2 !! x = node_type s !! x.
Proof.
  intros Ht Hw Hshape.
  unfold handleIndent, handleOutdent. setoid_rewrite forEach_single.
  change (∃ s1 s2, indentListItem t s = Some s1
            ∧ outdentListItem t s1 = Some s2 ∧ restored s s2).
  destruct (isNestedListNode s (Some t)) eqn:Hn.
  { exists s, s. split_and!; [| |apply restored_refl].
    - unfold indentListItem. by rewrite Hn.
    - unfold outdentListItem. by rewrite Hn. }
  destruct (Hshape eq_refl) as (Hboth & Hprevious & Hnext). clear Hshape.
  assert (∀ p, getParent s t = Some p → isListNode s (Some p) = true →
            ∃ l1 l2, getChildren s p = l1 ++ t :: l2 ∧ (t ∉ l1) ∧ (t ∉ l2))
    as Hshape.
  { intros p Hpt _. apply (linked_child_shape s t p (tree_linked s Ht) Hpt). }
  destruct (isNestedListNode s (getNextSibling s t)) eqn:Hnn.
  - rewrite andb_true_r in Hboth.
    destruct (getNextSibling s t) as [C|] eqn:EC;
      [|by rewrite isNestedListNode_None in Hnn].
    destruct (isNestedListNode_inv s C Hnn) as (_ & Lc & HfLc & _).
    specialize (Hnext C Lc eq_refl Hnn HfLc).
    destruct (decide (getChildren s Lc = [])) as [Hempty|Hfull].
    + destruct (indent_next_empty_effect s t Hn C Lc)
        as (s1 & Hs1 & d & ->); try done.
      exists (markAllDirty d s), (markAllDirty d s).
      split_and!; [done| |apply restored_markAllDirty].
      apply outdentListItem_invalid. by rewrite validAncestry_markAllDirty.
    + destruct (getParent s t) as [p|] eqn:Hpt; [|done].
      destruct (Hshape p eq_refl Hnext) as (l1 & l2 & Hcp & Hn1 & Hn2).
      destruct (getChildren s Lc) as [|f rf] eqn:HcLc; [done|].
      by eapply (round_trip_next s t p l1 l2).
  - destruct (isNestedListNode s (getPreviousSibling s t)) eqn:Hnp.
    + destruct (getPreviousSibling s t) as [A|] eqn:EA;
        [|by rewrite isNestedListNode_None in Hnp].
      destruct (isNestedListNode_inv s A Hnp) as (_ & La & HfLa & _).
      destruct (Hprevious A La eq_refl Hnp HfLa) as [Hfull Hkp].
      destruct (getParent s t) as [p|] eqn:Hpt; [|done].
      destruct (Hshape p eq_refl Hkp) as (l1 & l2 & Hcp & Hn1 & Hn2).
      destruct (getChildren s La) as [|a pre] eqn:HcLa; [done|].
      by eapply (round_trip_previous s t p l1 l2).
    + destruct (isListNode s (getParent s t)) eqn:Hkp.
      * destruct (getParent s t) as [p|] eqn:Hpt; [|done].
        destruct (Hshape p eq_refl Hkp) as (l1 & l2 & Hcp & Hn1 & Hn2).
        by eapply (round_trip_new s t p l1 l2).
      * exists s, s. split_and!; [| |apply restored_refl].
        -- by apply indentListItem_no_list.
        -- by apply outdentListItem_invalid, validAncestry_parent.
Qed.

Lemma indent_outdent_round_trip_witness :
  ∃ s1 s2,
    handleIndent [1] sole_doc = Some s1
    ∧ handleOutdent [1] s1 = Some s2
    ∧ ∀ x, x < next_key sole_doc →
        getParent s2 x = getParent sole_doc x
        ∧ getChildren s2 x = getChildren sole_doc x
        ∧ node_type s2 !! x = node_type sole_doc !! x.
Proof.
  apply (indent_outdent_round_trip sole_doc 1).
  - apply tree_check_sound. by vm_compute.
  - apply wrapped_check_sound. by vm_compute.
  - intros _. split; [reflexivity|]. split.
    + intros A La H. by vm_compute in H.
    + intros C Lc H. vm_compute in H. injection H as <-.
      intros _ H. vm_compute in H. injection H as <-.
      rewrite decide_False by (by vm_compute). reflexivity.
Defined.

(** C4, as stated, fails in each of the other shapes.  Next to a following
    wrapper around an empty List ([hollow_doc], target 3) the indent leaves
    the target in List 2 and the outdent moves it into List 0.  Behind a
    wrapper around an empty List ([prev_hollow_doc], target 2) the indent
    appends the target to that List and the outdent takes it back out and
    removes the wrapper 1 from List 0.  Between two wrappers ([merge_doc],
    target 2) the inner Lists are merged and the outdent splits them into
    new wrappers beside the emptied item 3.  Below a parent that is not a
    List, next to a wrapper with a non-empty List ([astray_doc], target 2,
    and [stray_doc], target 1) the indent moves the target into List 3 and
    the outdent leaves it there. *)
Lemma round_trip_moves_target :
  (tree hollow_doc ∧ wrapped hollow_doc
   ∧ isNestedListNode hollow_doc (Some 3) = false
   ∧ getParent hollow_doc 3 = Some 2
   ∧ getChildren hollow_doc 2 = [3; 4]
   ∧ getChildren hollow_doc 0 = [1]
   ∧ ∃ s1 s2, handleIndent [3] hollow_doc = Some s1
       ∧ handleOutdent [3] s1 = Some s2
       ∧ getParent s2 3 = Some 0
       ∧ getChildren s2 2 = [4]
       ∧ getChildren s2 0 = [3; 1])
  ∧ (tree prev_hollow_doc ∧ wrapped prev_hollow_doc
     ∧ isNestedListNode prev_hollow_doc (Some 2) = false
     ∧ getParent prev_hollow_doc 2 = Some 0
     ∧ getChildren prev_hollow_doc 0 = [1; 2]
     ∧ ∃ s1 s2, handleIndent [2] prev_hollow_doc = Some s1
         ∧ handleOutdent [2] s1 = Some s2
         ∧ getParent s1 2 = Some 3
         ∧ getParent s2 2 = Some 0
         ∧ getParent s2 1 = None
         ∧ getChildren s2 0 = [2])
  ∧ (tree merge_doc ∧ wrapped merge_doc
     ∧ isNestedListNode merge_doc (Some 2) = false
     ∧ getParent merge_doc 2 = Some 0
     ∧ getChildren merge_doc 0 = [1; 2; 3]
     ∧ ∃ s1 s2, handleIndent [2] merge_doc = Some s1
         ∧ handleOutdent [2] s1 = Some s2
         ∧ getParent s2 2 = Some 0
         ∧ getChildren s2 0 = [11; 2; 13; 3]
         ∧ getChildren s2 3 = [])
  ∧ (tree astray_doc ∧ wrapped astray_doc
     ∧ isNestedListNode astray_doc (Some 2) = false
     ∧ getParent astray_doc 2 = Some 0
     ∧ getChildren astray_doc 0 = [1; 2]
     ∧ ∃ s1 s2, handleIndent [2] astray_doc = Some s1
         ∧ handleOutdent [2] s1 = Some s2
         ∧ getParent s2 2 = Some 3
         ∧ getChildren s2 3 = [4; 2]
         ∧ getChildren s2 0 = [1])
  ∧ (tree stray_doc ∧ wrapped stray_doc
     ∧ isNestedListNode stray_doc (Some 1) = false
     ∧ getParent stray_doc 1 = Some 0
     ∧ getChildren stray_doc 0 = [1; 2]
     ∧ ∃ s1 s2, handleIndent [1] stray_doc = Some s1
         ∧ handleOutdent [1] s1 = Some s2
         ∧ getParent s2 1 = Some 3
         ∧ getChildren s2 3 = [1; 4]
         ∧ getChildren s2 0 = [2]).
Proof.
  split.
  { split; [apply tree_check_sound; by vm_compute|].
    split; [apply wrapped_check_sound; by vm_compute|].
    do 4 (split; [by vm_compute|]).
    exists (default hollow_doc (handleIndent [3] hollow_doc)).
    exists (default hollow_doc
              (handleIndent [3] hollow_doc ≫= handleOutdent [3])).
    split_and!; by vm_compute. }
  split.
  { split; [apply tree_check_sound; by vm_compute|].
    split; [apply wrapped_check_sound; by vm_compute|].
    do 3 (split; [by vm_compute|]).
    exists (default prev_hollow_doc (handleIndent [2] prev_hollow_doc)).
    exists (default prev_hollow_doc
              (handleIndent [2] prev_hollow_doc ≫= handleOutdent [2])).
    split_and!; by vm_compute. }
  split.
  { split; [apply tree_check_sound; by vm_compute|].
    split; [apply wrapped_check_sound; by vm_compute|].
    do 3 (split; [by vm_compute|]).
    exists (default merge_doc (handleIndent [2] merge_doc)).
    exists (default merge_doc
              (handleIndent [2] merge_doc ≫= handleOutdent [2])).
    split_and!; by vm_compute. }
  split.
  { split; [apply tree_check_sound; by vm_compute|].
    split; [apply wrapped_check_sound; by vm_compute|].
    do 3 (split; [by vm_compute|]).
    exists (default astray_doc (handleIndent [2] astray_doc)).
    exists (default astray_doc
              (handleIndent [2] astray_doc ≫= handleOutdent [2])).
    split_and!; by vm_compute. }
  split; [apply tree_check_sound; by vm_compute|].
  split; [apply wrapped_check_sound; by vm_compute|].
  do 3 (split; [by vm_compute|]).
  exists (default stray_doc (handleIndent [1] stray_doc)).
  exists (default stray_doc
            (handleIndent [1] stray_doc ≫= handleOutdent [1])).
  split_and!; by vm_compute.
Qed.

(** ** The locator and the resolver *)

Lemma parentOf_functional s k p q : parentOf s k p → parentOf s k q → p = q.
Proof. unfold parentOf. congruence. Qed.

Lemma findNearestListItemNode_found fuel s k li :
  findNearestListItemNode fuel s k = Some (Some li) →
  isListItemNode s (Some li) = true
  ∧ rtc (parentOf s) k li
  ∧ ∀ a, rtc (parentOf s) k a → isListItemNode s (Some a) = true →
         rtc (parentOf s) li a.
Proof.
  revert k. induction fuel as [|fuel IH]; intros k; [done|]. simpl.
  destruct (isListItemNode s (Some k)) eqn:Ek.
  - intros [= <-]. split_and!; [done|apply rtc_refl|]. by intros a Ha _.
  - destruct (getParent s k) as [p|] eqn:Ep; [|done]. intros Hp.
    destruct (IH p Hp) as (Hli & Hch & Hnear). split_and!; [done| |].
    + by eapply rtc_l.
    + intros a Ha Hka. apply rtc_inv in Ha as [<-|(p' & Hkp' & Hp'a)].
      { congruence. }
      rewrite (parentOf_functional s k p' p Hkp' Ep) in Hp'a. by apply Hnear.
Qed.

Lemma findNearestListItemNode_none fuel s k :
  findNearestListItemNode fuel s k = Some None →
  ∀ a, rtc (parentOf s) k a → isListItemNode s (Some a) = false.
Proof.
  revert k. induction fuel as [|fuel IH]; intros k; [done|]. simpl.
  destruct (isListItemNode s (Some k)) eqn:Ek; [done|].
  destruct (getParent s k) as [p|] eqn:Ep.
  - intros Hp a Ha. apply rtc_inv in Ha as [<-|(p' & Hkp' & Hp'a)]; [done|].
    rewrite (parentOf_functional s k p' p Hkp' Ep) in Hp'a. by apply (IH p).
  - intros _ a Ha. apply rtc_inv in Ha as [<-|(p' & Hkp' & _)]; [done|].
    unfold parentOf in Hkp'. congruence.
Qed.

(** X1.  The locator walk up from a node of a document tree ends, and it
    answers with the nearest ListItem among the node and its ancestors: a
    ListItem on the parent chain of the node such that every ListItem on
    that chain is the answer or one of its ancestors.  It answers with no
    node exactly when there is no ListItem on the chain. *)
Theorem nearest_list_item s k :
  rooted s k →
  ∃ fuel0, ∀ fuel, fuel0 ≤ fuel →
    ∃ res, findNearestListItemNode fuel s k = Some res
      ∧ match res with
        | Some li =>
            isListItemNode s (Some li) = true
            ∧ rtc (parentOf s) k li
            ∧ ∀ a, rtc (parentOf s) k a → isListItemNode s (Some a) = true →
                   rtc (parentOf s) li a
        | None =>
            ∀ a, rtc (parentOf s) k a → isListItemNode s (Some a) = false
        end.
Proof.
  intros Hk.
  destruct (findNearestListItemNode_terminates s k Hk) as (fuel0 & res & Hres).
  exists fuel0. intros fuel Hle. exists res.
  pose proof (findNearestListItemNode_mono fuel0 fuel s k res Hle Hres) as Hres'.
  split; [done|]. destruct res as [li|].
  - by apply (findNearestListItemNode_found fuel s k li).
  - by apply (findNearestListItemNode_none fuel s k).
Qed.

Lemma nearest_list_item_witness :
  ∃ fuel0, ∀ fuel, fuel0 ≤ fuel →
    ∃ res, findNearestListItemNode fuel caret_doc 6 = Some res
      ∧ match res with
        | Some li =>
            isListItemNode caret_doc (Some li) = true
            ∧ rtc (parentOf caret_doc) 6 li
            ∧ ∀ a, rtc (parentOf caret_doc) 6 a →
                   isListItemNode caret_doc (Some a) = true →
                   rtc (parentOf caret_doc) li a
        | None =>
            ∀ a, rtc (parentOf caret_doc) 6 a →
                 isListItemNode caret_doc (Some a) = false
        end.
Proof.
  apply (nearest_list_item caret_doc 6).
  apply tree_rooted, tree_check_sound. by vm_compute.
Defined.

Lemma getUniqueListItemNodes_snoc s l x :
  getUniqueListItemNodes s (l ++ [x]) =
    if isListItemNode s (Some x) then setAdd (getUniqueListItemNodes s l) x
    else getUniqueListItemNodes s l.
Proof. unfold getUniqueListItemNodes. by rewrite foldl_app. Qed.

(** X2.  [getUniqueListItemNodes] returns the ListItems of its input, each
    once, in the order of their first occurrence: the input filtered to its
    ListItems, with every repetition after the first dropped. *)
Theorem unique_list_items_first_occurrence s l :
  getUniqueListItemNodes s l =
    reverse (remove_dups
      (reverse (filter (λ k, isListItemNode s (Some k) = true) l))).
Proof.
  induction l as [|x l IH] using rev_ind; [done|].
  rewrite getUniqueListItemNodes_snoc, filter_app, IH.
  destruct (isListItemNode s (Some x)) eqn:Ex.
  - rewrite (filter_cons_True _ x []) by done. rewrite filter_nil.
    rewrite reverse_app. simpl. unfold setAdd.
    set (m := reverse (filter _ l)).
    destruct (decide_rel elem_of x m) as [Hx|Hx].
    + rewrite decide_True; [done|].
      by rewrite elem_of_reverse, elem_of_remove_dups.
    + rewrite decide_False.
      2: { by rewrite elem_of_reverse, elem_of_remove_dups. }
      by rewrite reverse_cons.
  - rewrite (filter_cons_False _ x []) by (by rewrite Ex).
    rewrite filter_nil. by rewrite app_nil_r.
Qed.

Lemma selectedListItemNodes_items fuel s sel tg :
  selectedListItemNodes fuel s sel = Some tg →
  NoDup tg ∧ Forall (λ t, isListItemNode s (Some t) = true) tg.
Proof.
  unfold selectedListItemNodes.
  destruct (if bool_decide (length (sel_nodes sel) = 0)
            then sel_nodes sel ++ [sel_anchor sel] else sel_nodes sel)
    as [|node [|node' l]] eqn:E.
  - intros [= <-]. split; [apply getUniqueListItemNodes_NoDup|].
    apply Forall_forall. intros x Hx.
    by apply elem_of_getUniqueListItemNodes in Hx as [_ ?].
  - destruct (findNearestListItemNode fuel s node) as [[li|]|] eqn:Ef;
      simpl; [| |done].
    + intros [= <-]. split; [apply NoDup_singleton|].
      apply Forall_singleton.
      by apply (findNearestListItemNode_found fuel s node li).
    + intros [= <-]. split; [apply NoDup_nil_2|apply Forall_nil_2].
  - intros [= <-]. split; [apply getUniqueListItemNodes_NoDup|].
    apply Forall_forall. intros x Hx.
    by apply elem_of_getUniqueListItemNodes in Hx as [_ ?].
Qed.

(** X3.  When [maybeIndentOrOutdent] reports the command as handled, the
    document it leaves is the transform of the requested direction run on
    the resolved targets, and these targets are ListItems of the document,
    at least one, none of them twice. *)
Theorem handled_runs_transform fuel direction s s' :
  maybeIndentOrOutdent fuel direction s = Some (true, s') →
  ∃ tg, resolveTargets fuel s = Some tg
    ∧ tg ≠ []
    ∧ NoDup tg
    ∧ Forall (λ t, isListItemNode s (Some t) = true) tg
    ∧ match direction with
      | indent => handleIndent tg s
      | outdent => handleOutdent tg s
      end = Some s'.
Proof.
  unfold maybeIndentOrOutdent, resolveTargets.
  destruct (selection s) as [sel|]; [|done].
  destruct (selectedListItemNodes fuel s sel) as [tg|] eqn:Etg; [|done]. simpl.
  destruct (selectedListItemNodes_items fuel s sel tg Etg) as [Hnd Hit].
  case_bool_decide as Hlen; [|done].
  destruct (match direction with
            | indent => handleIndent tg s
            | outdent => handleOutdent tg s
            end) as [s1|] eqn:Es1; [|done].
  simpl. intros [= <-]. exists tg. split_and!; try done.
  intros ->. simpl in Hlen. lia.
Qed.

Lemma handled_runs_transform_witness :
  ∃ tg, resolveTargets 4 caret_doc = Some tg
    ∧ tg ≠ []
    ∧ NoDup tg
    ∧ Forall (λ t, isListItemNode caret_doc (Some t) = true) tg
    ∧ handleOutdent tg caret_doc
      = Some (default caret_doc (handleOutdent [5] caret_doc)).
Proof.
  apply (handled_runs_transform 4 outdent caret_doc). by vm_compute.
Defined.

(** X4.  When the command listener answers [false], for whatever command
    kind, selection and document, it leaves the document as it was. *)
Theorem unhandled_leaves_document fuel type s s' :
  commandListener fuel type s = Some (false, s') → s' = s.
Proof.
  assert (∀ d, match maybeIndentOrOutdent fuel d s with
               | Some (hasHandledIndention, s1) =>
                   if hasHandledIndention then Some (true, s1)
                   else Some (false, s1)
               | None => None
               end = Some (false, s') → s' = s) as Hd.
  { intros d. unfold maybeIndentOrOutdent.
    destruct (selection s) as [sel|]; [|by intros [= <-]].
    destruct (selectedListItemNodes fuel s sel) as [tg|]; [|done]. simpl.
    case_bool_decide; [|by intros [= <-]].
    by destruct (match d with
                 | indent => handleIndent tg s
                 | outdent => handleOutdent tg s
                 end). }
  unfold commandListener.
  case_bool_decide; [by apply Hd|].
  case_bool_decide; [by apply Hd|]. by intros [= <-].
Qed.

Lemma unhandled_leaves_document_witness : dedup_doc = dedup_doc.
Proof.
  apply (unhandled_leaves_document 0 "indentContent" dedup_doc dedup_doc).
  by vm_compute.
Defined.

(** ** The remaining arms of the two callbacks *)

(** X5.  Neither transform moves a nested-list wrapper: a batch whose
    targets are all nested-list wrappers leaves the document as it is, in
    both directions. *)
Theorem wrappers_are_skipped s l :
  Forall (λ t, isNestedListNode s (Some t) = true) l →
  handleIndent l s = Some s ∧ handleOutdent l s = Some s.
Proof.
  unfold handleIndent, handleOutdent.
  induction 1 as [|t l Ht _ [IHi IHo]]; [done|]. simpl.
  unfold indentListItem, outdentListItem. rewrite Ht. simpl. by split.
Qed.

Lemma wrappers_are_skipped_witness :
  handleIndent [1; 3; 1] merge_doc = Some merge_doc
  ∧ handleOutdent [1; 3; 1] merge_doc = Some merge_doc.
Proof.
  apply (wrappers_are_skipped merge_doc [1; 3; 1]).
  repeat constructor.
Defined.

Lemma tree_item_ne_inner s t p w il :
  tree s → getParent s t = Some p → getParent s w = Some p →
  getFirstChild s w = Some il → w ≠ il ∧ w ≠ p.
Proof.
  intros Ht Hpt Hpw Hf.
  pose proof (first_child_parent s w il (tree_linked s Ht) Hf) as Hil.
  split.
  - intros <-. by apply (tree_parent_ne s w w Ht Hil).
  - intros ->. by apply (tree_parent_ne s p p Ht Hpw).
Qed.

(** X6.  In a document tree, when the target is not itself a nested-list
    wrapper and only its previous sibling is one, the target is appended to
    the inner List of that wrapper, after its current children (also when
    there are none), and nothing else moves. *)
Theorem indent_into_previous s t A :
  tree s →
  isNestedListNode s (Some t) = false →
  getPreviousSibling s t = Some A →
  isNestedListNode s (Some A) = true →
  isNestedListNode s (getNextSibling s t) = false →
  ∃ p La s',
    getParent s t = Some p
    ∧ getFirstChild s A = Some La
    ∧ isListNode s (Some La) = true
    ∧ handleIndent [t] s = Some s'
    ∧ getChildren s' La = getChildren s La ++ [t]
    ∧ getParent s' t = Some La
    ∧ getChildren s' p = removeKey t (getChildren s p)
    ∧ (∀ x, x ≠ t → getParent s' x = getParent s x)
    ∧ (∀ x, x ≠ La → x ≠ p → getChildren s' x = getChildren s x)
    ∧ node_type s' = node_type s.
Proof.
  intros Ht Hn Hprev HA Hnext.
  pose proof (tree_linked s Ht) as Hl.
  destruct (getParent s t) as [p|] eqn:Hpt.
  2: { by rewrite (getPreviousSibling_None_parent s t Hpt) in Hprev. }
  destruct (isNestedListNode_inv s A HA) as (_ & La & HfLa & HkLa).
  pose proof (previous_sibling_parent s t A p Hl Hprev Hpt) as HpA.
  destruct (tree_sibling_inner_ne s t p A La Ht Hpt HpA HfLa) as [HpLa HtLa].
  destruct (indent_previous_effect s t p Hn Hpt A La Hprev Hnext HA HfLa HpLa)
    as (s' & Hs' & HP & HC & HT & _).
  exists p, La, s'. unfold handleIndent. rewrite forEach_single.
  split_and!; try done.
  - rewrite HC. by rewrite decide_True.
  - rewrite HP. by rewrite decide_True.
  - rewrite HC. rewrite decide_False by done. by rewrite decide_True.
  - intros x Hx. rewrite HP. by rewrite decide_False.
  - intros x Hx1 Hx2. rewrite HC. by rewrite !decide_False.
Qed.

Lemma indent_into_previous_witness :
  ∃ p La s',
    getParent sole_doc 3 = Some p
    ∧ getFirstChild sole_doc 2 = Some La
    ∧ isListNode sole_doc (Some La) = true
    ∧ handleIndent [3] sole_doc = Some s'
    ∧ getChildren s' La = getChildren sole_doc La ++ [3]
    ∧ getParent s' 3 = Some La
    ∧ getChildren s' p = removeKey 3 (getChildren sole_doc p)
    ∧ (∀ x, x ≠ 3 → getParent s' x = getParent sole_doc x)
    ∧ (∀ x, x ≠ La → x ≠ p → getChildren s' x = getChildren sole_doc x)
    ∧ node_type s' = node_type sole_doc.
Proof.
  apply (indent_into_previous sole_doc 3 2); try reflexivity.
  apply tree_check_sound. by vm_compute.
Defined.

(** X7.  In a well-linked document, when the target is not itself a
    nested-list wrapper, neither neighbour is one and the parent is a List,
    the indent creates two nodes, a ListItem and inside it a List with the
    tag of the parent List; the new ListItem takes the place of the target
    among its siblings and the target becomes the only child of the new
    List.  Nothing else changes. *)
Theorem indent_new_wrapper s t p l1 l2 :
  linked s →
  isNestedListNode s (Some t) = false →
  getParent s t = Some p →
  isListNode s (Some p) = true →
  isNestedListNode s (getPreviousSibling s t) = false →
  isNestedListNode s (getNextSibling s t) = false →
  getChildren s p = l1 ++ t :: l2 →
  ∃ s' w il,
    handleIndent [t] s = Some s'
    ∧ w = next_key s ∧ il = S (next_key s) ∧ next_key s' = S (S (next_key s))
    ∧ node_type s' !! w = Some ListItemNode
    ∧ node_type s' !! il = Some (ListNode (getTag s p))
    ∧ getChildren s' p = l1 ++ w :: l2
    ∧ getChildren s' w = [il]
    ∧ getChildren s' il = [t]
    ∧ getParent s' t = Some il
    ∧ getParent s' il = Some w
    ∧ getParent s' w = Some p
    ∧ (∀ x, x < next_key s →
         node_type s' !! x = node_type s !! x
         ∧ (x ≠ t → getParent s' x = getParent s x)
         ∧ (x ≠ p → getChildren s' x = getChildren s x)).
Proof.
  intros Hl Hn Hpt Hkp Hprev Hnext Hcp.
  destruct (linked_parent_lt s t p Hl Hpt) as [Htn Hpn].
  destruct (indent_new_effect s t p Hl Hn Hpt l1 l2 Hprev Hnext Hkp Hcp)
    as (s' & Hs' & HP & HC & HT & HK).
  exists s', (next_key s), (S (next_key s)).
  unfold handleIndent. rewrite forEach_single.
  split_and!; try done.
  - rewrite HT. by rewrite decide_True.
  - rewrite HT. rewrite decide_False by lia. by rewrite decide_True.
  - rewrite HC. by rewrite decide_True.
  - rewrite HC. rewrite decide_False by lia. by rewrite decide_True.
  - rewrite HC. rewrite !decide_False by lia. by rewrite decide_True.
  - rewrite HP. by rewrite decide_True.
  - rewrite HP. rewrite decide_False by lia. by rewrite decide_True.
  - rewrite HP. rewrite !decide_False by lia. by rewrite decide_True.
  - intros x Hx. split_and!.
    + rewrite HT. by rewrite !decide_False by lia.
    + intros Hxt. rewrite HP. rewrite decide_False by done.
      by rewrite !decide_False by lia.
    + intros Hxp. rewrite HC. rewrite decide_False by done.
      by rewrite !decide_False by lia.
Qed.

Lemma indent_new_wrapper_witness :
  ∃ s' w il,
    handleIndent [4] split_doc = Some s'
    ∧ w = next_key split_doc ∧ il = S (next_key split_doc)
    ∧ next_key s' = S (S (next_key split_doc))
    ∧ node_type s' !! w = Some ListItemNode
    ∧ node_type s' !! il = Some (ListNode (getTag split_doc 2))
    ∧ getChildren s' 2 = [3] ++ w :: [5; 6]
    ∧ getChildren s' w = [il]
    ∧ getChildren s' il = [4]
    ∧ getParent s' 4 = Some il
    ∧ getParent s' il = Some w
    ∧ getParent s' w = Some 2
    ∧ (∀ x, x < next_key split_doc →
         node_type s' !! x = node_type split_doc !! x
         ∧ (x ≠ 4 → getParent s' x = getParent split_doc x)
         ∧ (x ≠ 2 → getChildren s' x = getChildren split_doc x)).
Proof.
  apply (indent_new_wrapper split_doc 4 2 [3] [5; 6]); try reflexivity.
  apply tree_linked, tree_check_sound. by vm_compute.
Defined.

(** X8.  In a document tree, for a target that is not itself a nested-list
    wrapper and has a nested-list wrapper on each side, the inner List of the
    previous wrapper ends with its own children, then the target, then the
    children of the next wrapper's inner List, in this order.  The next
    wrapper's inner List is left empty and detached, and the next wrapper
    itself stays where it is, in the outer List. *)
Theorem indent_between_wrappers s t A C :
  tree s →
  isNestedListNode s (Some t) = false →
  getPreviousSibling s t = Some A →
  getNextSibling s t = Some C →
  isNestedListNode s (Some A) = true →
  isNestedListNode s (Some C) = true →
  ∃ p La Lc s',
    getParent s t = Some p
    ∧ getFirstChild s A = Some La
    ∧ getFirstChild s C = Some Lc
    ∧ handleIndent [t] s = Some s'
    ∧ getChildren s' La = getChildren s La ++ t :: getChildren s Lc
    ∧ getParent s' t = Some La
    ∧ (∀ x, x ∈ getChildren s Lc → getParent s' x = Some La)
    ∧ getChildren s' Lc = []
    ∧ getParent s' Lc = None
    ∧ getChildren s' C = removeKey Lc (getChildren s C)
    ∧ getParent s' C = Some p
    ∧ getChildren s' p = removeKey t (getChildren s p)
    ∧ node_type s' = node_type s.
Proof.
  intros Ht Hn EA EC HA HC.
  pose proof (tree_linked s Ht) as Hl.
  destruct (getParent s t) as [p|] eqn:Hpt.
  2: { by rewrite (getPreviousSibling_None_parent s t Hpt) in EA. }
  destruct (isNestedListNode_inv s C HC) as (HkC & Lc & HLc & HkLc).
  destruct (isNestedListNode_inv s A HA) as (HkA & La & HLa & HkLa).
  pose proof (previous_sibling_parent s t A p Hl EA Hpt) as HpA.
  pose proof (next_sibling_parent s t C p Hl EC Hpt) as HpC.
  pose proof (first_child_parent s A La Hl HLa) as HpLa.
  pose proof (first_child_parent s C Lc Hl HLc) as HpLc.
  pose proof (siblings_distinct s t p A C Hl Hpt EA EC) as HAC.
  destruct (tree_sibling_inner_ne s t p A La Ht Hpt HpA HLa) as [HpLa' HtLa].
  destruct (tree_sibling_inner_ne s t p C Lc Ht Hpt HpC HLc) as [HpLc' HtLc].
  destruct (tree_item_ne_inner s t p C Lc Ht Hpt HpC HLc) as [HCLc HCp].
  assert (t ≠ C) as HtC by (intros ->; congruence).
  assert (La ≠ Lc) as HLL by (intros ->; congruence).
  assert (C ≠ La) as HCLa.
  { intros ->. rewrite HpC in HpLa. injection HpLa as ->.
    by apply (tree_parent_ne s A A Ht HpA). }
  assert (C ∉ getChildren s Lc) as HCin.
  { intros Hin. apply (linked_child_parent s Hl) in Hin. congruence. }
  assert (Lc ∉ getChildren s Lc) as HLin.
  { intros Hin. apply (linked_child_parent s Hl) in Hin.
    by apply (tree_parent_ne s Lc Lc Ht Hin). }
  assert (t ∉ getChildren s Lc) as Htin.
  { intros Hin. apply (linked_child_parent s Hl) in Hin. congruence. }
  destruct (indent_merge_effect s t p Hl Hn Hpt A C La Lc EA EC HA HC HLa HLc)
    as (s' & Hs' & HP & HC' & HT & _); try done.
  exists p, La, Lc, s'. unfold handleIndent. rewrite forEach_single.
  split_and!; try done.
  - rewrite HC'. by rewrite decide_True.
  - rewrite HP. by rewrite decide_True.
  - intros x Hx. rewrite HP. destruct (decide (x = t)); [done|].
    by rewrite decide_True.
  - rewrite HC'. rewrite decide_False by done. by rewrite decide_True.
  - rewrite HP. rewrite decide_False by done. rewrite decide_False by done.
    by rewrite decide_True.
  - rewrite HC'. rewrite !decide_False by done. by rewrite decide_True.
  - rewrite HP. rewrite decide_False by done. rewrite decide_False by done.
    by rewrite decide_False.
  - rewrite HC'. rewrite !decide_False by done. by rewrite decide_True.
Qed.

Lemma indent_between_wrappers_witness :
  ∃ p La Lc s',
    getParent merge_doc 2 = Some p
    ∧ getFirstChild merge_doc 1 = Some La
    ∧ getFirstChild merge_doc 3 = Some Lc
    ∧ handleIndent [2] merge_doc = Some s'
    ∧ getChildren s' La = getChildren merge_doc La ++ 2 :: getChildren merge_doc Lc
    ∧ getParent s' 2 = Some La
    ∧ (∀ x, x ∈ getChildren merge_doc Lc → getParent s' x = Some La)
    ∧ getChildren s' Lc = []
    ∧ getParent s' Lc = None
    ∧ getChildren s' 3 = removeKey Lc (getChildren merge_doc 3)
    ∧ getParent s' 3 = Some p
    ∧ getChildren s' p = removeKey 2 (getChildren merge_doc p)
    ∧ node_type s' = node_type merge_doc.
Proof.
  apply (indent_between_wrappers merge_doc 2 1 3); try reflexivity.
  apply tree_check_sound. by vm_compute.
Defined.

(** X10.  In a document tree, a target with List, ListItem, List above it
    that is not itself a nested-list wrapper and is the last but not the only
    child of its parent List moves to just after the grandparent ListItem in
    the great-grandparent List.  The grandparent ListItem stays in place and
    keeps the parent List with the remaining children: the last-child arm
    never removes it. *)
Theorem outdent_last_child s t p gp ggp a pre l1 l2 :
  tree s →
  isNestedListNode s (Some t) = false →
  getParent s t = Some p → getParent s p = Some gp → getParent s gp = Some ggp →
  isListNode s (Some p) = true →
  isListItemNode s (Some gp) = true →
  isListNode s (Some ggp) = true →
  getChildren s p = a :: pre ++ [t] →
  getChildren s ggp = l1 ++ gp :: l2 →
  outdentCase s p t = LastChild
  ∧ ∃ s', handleOutdent [t] s = Some s'
      ∧ getChildren s' ggp = l1 ++ gp :: t :: l2
      ∧ getParent s' t = Some ggp
      ∧ getChildren s' p = a :: pre
      ∧ getParent s' gp = Some ggp
      ∧ getParent s' p = Some gp
      ∧ (∀ x, x ≠ t → getParent s' x = getParent s x)
      ∧ (∀ x, x ≠ ggp → x ≠ p → getChildren s' x = getChildren s x)
      ∧ node_type s' = node_type s.
Proof.
  intros Ht Hn Hpt Hpp Hpg Hkp Hkg Hkgg Hcp Hcgg.
  pose proof (tree_linked s Ht) as Hl.
  pose proof (tree_valid_ancestry_ne _ _ _ _ _ Ht Hpt Hpp Hpg) as Hne.
  assert (t ≠ a) as Hta.
  { pose proof (linked_nodup s Hl p) as Hnd. rewrite Hcp in Hnd.
    apply NoDup_cons in Hnd as [Hnd _]. intros <-. apply Hnd.
    apply elem_of_app. right. by left. }
  split.
  { unfold outdentCase.
    rewrite (getFirstChild_cons s p a (pre ++ [t]) Hcp).
    rewrite (getLastChild_snoc s p t (a :: pre) Hcp).
    unfold is_. rewrite bool_decide_false by congruence.
    by rewrite bool_decide_true. }
  assert (t ≠ gp) as Htgp.
  { intros ->. by apply (tree_grandparent_ne s gp p gp Ht Hpt Hpp). }
  assert (t ≠ p) as Htp by (by apply (tree_parent_ne s t p Ht)).
  destruct (outdent_last_effect s t p gp ggp l1 l2 Hl
              Hn Hpt Hpp Hpg Hkp Hkg Hkgg Hcgg Hne a pre Hcp)
    as (s' & Hs' & HP & HC & HT & _).
  exists s'. unfold handleOutdent. rewrite forEach_single.
  split_and!; try done.
  - rewrite HC. by rewrite decide_True.
  - rewrite HP. by rewrite decide_True.
  - rewrite HC. rewrite decide_False by done. by rewrite decide_True.
  - rewrite HP. rewrite decide_False by done. done.
  - rewrite HP. rewrite decide_False by done. done.
  - intros x Hx. rewrite HP. by rewrite decide_False.
  - intros x Hx1 Hx2. rewrite HC. by rewrite !decide_False.
Qed.

Lemma outdent_last_child_witness :
  outdentCase split_doc 2 6 = LastChild
  ∧ ∃ s', handleOutdent [6] split_doc = Some s'
      ∧ getChildren s' 0 = [] ++ 1 :: 6 :: []
      ∧ getParent s' 6 = Some 0
      ∧ getChildren s' 2 = 3 :: [4; 5]
      ∧ getParent s' 1 = Some 0
      ∧ getParent s' 2 = Some 1
      ∧ (∀ x, x ≠ 6 → getParent s' x = getParent split_doc x)
      ∧ (∀ x, x ≠ 0 → x ≠ 2 → getChildren s' x = getChildren split_doc x)
      ∧ node_type s' = node_type split_doc.
Proof.
  apply (outdent_last_child split_doc 6 2 1 0 3 [4; 5] [] []); try reflexivity.
  apply tree_check_sound. by vm_compute.
Defined.

(** ** One level down, one level up *)

Lemma validAncestry_intro s t p gp ggp :
  getParent s t = Some p → getParent s p = Some gp → getParent s gp = Some ggp →
  isListNode s (Some p) = true → isListItemNode s (Some gp) = true →
  isListNode s (Some ggp) = true → validAncestry s t = true.
Proof.
  intros Hpt Hpp Hpg Hkp Hkg Hkgg. unfold validAncestry.
  rewrite Hpt. simpl. rewrite Hpp. simpl. rewrite Hpg.
  by rewrite Hkp, Hkg, Hkgg.
Qed.

(** X9.  An indent puts the target exactly one nesting level down: in a
    document tree, a target in a List that is not a wrapper ends up in a List
    inside a ListItem inside its former parent List, with its own children
    untouched, so that an outdent applies to it.  (Next to a following
    wrapper alone, this needs that wrapper's inner List to be non-empty.) *)
Theorem indent_one_level_down s t p :
  tree s →
  isNestedListNode s (Some t) = false →
  getParent s t = Some p →
  isListNode s (Some p) = true →
  (∀ C il, isNestedListNode s (getPreviousSibling s t) = false →
           getNextSibling s t = Some C → isNestedListNode s (Some C) = true →
           getFirstChild s C = Some il → getChildren s il ≠ []) →
  ∃ s' il w,
    handleIndent [t] s = Some s'
    ∧ getParent s' t = Some il
    ∧ getParent s' il = Some w
    ∧ getParent s' w = Some p
    ∧ isListNode s' (Some il) = true
    ∧ isListItemNode s' (Some w) = true
    ∧ validAncestry s' t = true
    ∧ getChildren s' t = getChildren s t.
Proof.
  intros Ht Hn Hpt Hkp Hne.
  pose proof (tree_linked s Ht) as Hl.
  pose proof (tree_parent_ne s t p Ht Hpt) as Htp.
  destruct (linked_parent_lt s t p Hl Hpt) as [Htn Hpn].
  unfold handleIndent. setoid_rewrite forEach_single.
  destruct (isNestedListNode s (getPreviousSibling s t)) eqn:Hprev.
  - destruct (getPreviousSibling s t) as [A|] eqn:EA;
      [|by rewrite isNestedListNode_None in Hprev].
    destruct (isNestedListNode_inv s A Hprev) as (HkA & La & HLa & HkLa).
    pose proof (previous_sibling_parent s t A p Hl EA Hpt) as HpA.
    pose proof (first_child_parent s A La Hl HLa) as HpLa.
    destruct (tree_sibling_inner_ne s t p A La Ht Hpt HpA HLa) as [HpLa' HtLa].
    assert (t ≠ A) as HtA by (intros ->; congruence).
    destruct (isNestedListNode s (getNextSibling s t)) eqn:Hnext.
    + (* wrappers on both sides *)
      destruct (getNextSibling s t) as [C|] eqn:EC;
        [|by rewrite isNestedListNode_None in Hnext].
      destruct (isNestedListNode_inv s C Hnext) as (HkC & Lc & HLc & HkLc).
      pose proof (next_sibling_parent s t C p Hl EC Hpt) as HpC.
      pose proof (first_child_parent s C Lc Hl HLc) as HpLc.
      pose proof (siblings_distinct s t p A C Hl Hpt EA EC) as HAC.
      destruct (tree_sibling_inner_ne s t p C Lc Ht Hpt HpC HLc) as [HpLc' HtLc].
      destruct (tree_item_ne_inner s t p C Lc Ht Hpt HpC HLc) as [HCLc HCp].
      assert (t ≠ C) as HtC by (intros ->; congruence).
      destruct (tree_item_ne_inner s t p A La Ht Hpt HpA HLa) as [HALa HAp].
      assert (∀ x, x ∈ getChildren s Lc → getParent s x = Some Lc) as Hin.
      { intros x. apply (linked_child_parent s Hl). }
      destruct (indent_merge_effect s t p Hl Hn Hpt A C La Lc EA EC Hprev Hnext
                  HLa HLc) as (s' & Hs' & HP & HC' & HT & _); try done.
      exists s', La, A.
      assert (getParent s' t = Some La) as H1.
      { rewrite HP. by rewrite decide_True. }
      assert (getParent s' La = Some A) as H2.
      { rewrite HP. rewrite decide_False by done.
        rewrite decide_False.
        2: { intros Hx. apply Hin in Hx. congruence. }
        rewrite decide_False; [done|]. intros ->. congruence. }
      assert (getParent s' A = Some p) as H3.
      { rewrite HP. rewrite decide_False by done.
        rewrite decide_False.
        2: { intros Hx. apply Hin in Hx. congruence. }
        rewrite decide_False; [done|]. intros ->. congruence. }
      split_and!; try done.
      * by rewrite (isListNode_type s s').
      * by rewrite (isListItemNode_type s s').
      * apply (validAncestry_intro s' t La A p); try done.
        -- by rewrite (isListNode_type s s').
        -- by rewrite (isListItemNode_type s s').
        -- by rewrite (isListNode_type s s').
      * rewrite HC'. rewrite decide_False by done.
        rewrite decide_False by done.
        rewrite decide_False by done. by rewrite decide_False.
    + (* a wrapper before the target only *)
      destruct (indent_previous_effect s t p Hn Hpt A La EA Hnext Hprev HLa HpLa')
        as (s' & Hs' & HP & HC' & HT & _).
      exists s', La, A.
      assert (getParent s' t = Some La) as H1.
      { rewrite HP. by rewrite decide_True. }
      assert (getParent s' La = Some A) as H2.
      { rewrite HP. by rewrite decide_False. }
      assert (getParent s' A = Some p) as H3.
      { rewrite HP. by rewrite decide_False. }
      split_and!; try done.
      * by rewrite (isListNode_type s s').
      * by rewrite (isListItemNode_type s s').
      * apply (validAncestry_intro s' t La A p); try done.
        -- by rewrite (isListNode_type s s').
        -- by rewrite (isListItemNode_type s s').
        -- by rewrite (isListNode_type s s').
      * rewrite HC'. by rewrite !decide_False.
  - destruct (isNestedListNode s (getNextSibling s t)) eqn:Hnext.
    + (* a wrapper after the target only *)
      destruct (getNextSibling s t) as [C|] eqn:EC;
        [|by rewrite isNestedListNode_None in Hnext].
      destruct (isNestedListNode_inv s C Hnext) as (HkC & Lc & HLc & HkLc).
      pose proof (next_sibling_parent s t C p Hl EC Hpt) as HpC.
      pose proof (first_child_parent s C Lc Hl HLc) as HpLc.
      destruct (tree_sibling_inner_ne s t p C Lc Ht Hpt HpC HLc) as [HpLc' HtLc].
      assert (t ≠ C) as HtC by (intros ->; congruence).
      destruct (getChildren s Lc) as [|f rf] eqn:EcLc.
      { by destruct (Hne C Lc eq_refl eq_refl Hnext HLc). }
      destruct (indent_next_effect s t p Hl Hn Hpt C Lc f rf Hprev EC Hnext
                  HLc EcLc HpLc') as (s' & Hs' & HP & HC' & HT & _).
      exists s', Lc, C.
      assert (getParent s' t = Some Lc) as H1.
      { rewrite HP. by rewrite decide_True. }
      assert (getParent s' Lc = Some C) as H2.
      { rewrite HP. by rewrite decide_False. }
      assert (getParent s' C = Some p) as H3.
      { rewrite HP. by rewrite decide_False. }
      split_and!; try done.
      * by rewrite (isListNode_type s s').
      * by rewrite (isListItemNode_type s s').
      * apply (validAncestry_intro s' t Lc C p); try done.
        -- by rewrite (isListNode_type s s').
        -- by rewrite (isListItemNode_type s s').
        -- by rewrite (isListNode_type s s').
      * rewrite HC'. by rewrite !decide_False.
    + (* no wrapper on either side *)
      destruct (linked_child_shape s t p Hl Hpt) as (l1 & l2 & Hcp & _ & _).
      destruct (indent_new_effect s t p Hl Hn Hpt l1 l2 Hprev Hnext Hkp Hcp)
        as (s' & Hs' & HP & HC' & HT & _).
      exists s', (S (next_key s)), (next_key s).
      assert (getParent s' t = Some (S (next_key s))) as H1.
      { rewrite HP. by rewrite decide_True. }
      assert (getParent s' (S (next_key s)) = Some (next_key s)) as H2.
      { rewrite HP. rewrite decide_False by lia. by rewrite decide_True. }
      assert (getParent s' (next_key s) = Some p) as H3.
      { rewrite HP. rewrite !decide_False by lia. by rewrite decide_True. }
      assert (isListNode s' (Some (S (next_key s))) = true) as H4.
      { unfold isListNode. rewrite HT. rewrite decide_False by lia.
        by rewrite decide_True. }
      assert (isListItemNode s' (Some (next_key s)) = true) as H5.
      { unfold isListItemNode. rewrite HT. by rewrite decide_True. }
      assert (isListNode s' (Some p) = true) as H6.
      { rewrite <- Hkp. apply isListNode_old. rewrite HT.
        by rewrite !decide_False by lia. }
      split_and!; try done.
      * by apply (validAncestry_intro s' t (S (next_key s)) (next_key s) p).
      * rewrite HC'. rewrite decide_False by done.
        by rewrite !decide_False by lia.
Qed.

Lemma indent_one_level_down_witness :
  ∃ s' il w,
    handleIndent [2] merge_doc = Some s'
    ∧ getParent s' 2 = Some il
    ∧ getParent s' il = Some w
    ∧ getParent s' w = Some 0
    ∧ isListNode s' (Some il) = true
    ∧ isListItemNode s' (Some w) = true
    ∧ validAncestry s' 2 = true
    ∧ getChildren s' 2 = getChildren merge_doc 2.
Proof.
  apply (indent_one_level_down merge_doc 2 0); try reflexivity.
  - apply tree_check_sound. by vm_compute.
  - intros C il H. by vm_compute in H.
Defined.

(** X11.  An outdent puts a target with the expected ancestry that is not
    itself a nested-list wrapper exactly one nesting level up, whichever arm
    runs: in a document tree its new parent is its former great-grandparent
    List, and the target keeps its own children and its type. *)
Theorem outdent_one_level_up s t :
  tree s →
  isNestedListNode s (Some t) = false →
  validAncestry s t = true →
  ∃ p gp ggp s',
    getParent s t = Some p ∧ getParent s p = Some gp
    ∧ getParent s gp = Some ggp
    ∧ handleOutdent [t] s = Some s'
    ∧ getParent s' t = Some ggp
    ∧ t ∈ getChildren s' ggp
    ∧ getChildren s' t = getChildren s t
    ∧ node_type s' !! t = node_type s !! t.
Proof.
  intros Ht Hn Hv. pose proof (tree_linked s Ht) as Hl.
  destruct (validAncestry_inv s t Hv)
    as (p & gp & ggp & Hpt & Hpp & Hpg & Hkp & Hkg & Hkgg).
  destruct (linked_child_shape s t p Hl Hpt) as (l1 & l2 & Hc & Hn1 & Hn2).
  destruct (linked_child_shape s gp ggp Hl Hpg) as (g1 & g2 & Hcg & _ & _).
  pose proof (tree_valid_ancestry_ne s t p gp ggp Ht Hpt Hpp Hpg) as Hne.
  pose proof (tree_parent_ne s t p Ht Hpt) as Htp.
  destruct (linked_parent_lt s t p Hl Hpt) as [Htn _].
  assert (t ≠ ggp) as Htgg.
  { intros ->. apply (tree_ancestor_ne s ggp ggp Ht); [|done].
    eapply tc_l; [exact Hpt|]. eapply tc_l; [exact Hpp|]. by apply tc_once. }
  exists p, gp, ggp. unfold handleOutdent. setoid_rewrite forEach_single.
  destruct l1 as [|a pre].
  - destruct (outdent_first_effect s t p gp ggp g1 g2 Hl Hn Hpt Hpp Hpg
                Hkp Hkg Hkgg Hcg Hne l2 Hc) as (s' & Hs' & HP & HC & HT & _).
    exists s'. split_and!; try done.
    + rewrite HP. by rewrite decide_True.
    + rewrite HC. rewrite decide_True by done.
      apply elem_of_app. right. by left.
    + rewrite HC. by rewrite !decide_False.
    + by rewrite HT.
  - destruct l2 as [|b post].
    + destruct (outdent_last_effect s t p gp ggp g1 g2 Hl Hn Hpt Hpp Hpg
                  Hkp Hkg Hkgg Hcg Hne a pre Hc) as (s' & Hs' & HP & HC & HT & _).
      exists s'. split_and!; try done.
      * rewrite HP. by rewrite decide_True.
      * rewrite HC. rewrite decide_True by done.
        apply elem_of_app. right. right. by left.
      * rewrite HC. by rewrite !decide_False.
      * by rewrite HT.
    + destruct (outdent_split_effect s t p gp ggp g1 g2 Hl Hn Hpt Hpp Hpg
                  Hkp Hkg Hkgg Hcg Hne (a :: pre) (b :: post) Hc)
        as (s' & Hs' & HP & HC & HT & _); [done|done|].
      destruct (linked_parent_lt s gp ggp Hl Hpg) as [_ Hggn].
      exists s'. split_and!; try done.
      * rewrite HP. by rewrite decide_True.
      * rewrite HC. rewrite decide_True by done.
        apply elem_of_app. right. right. by left.
      * rewrite HC. rewrite decide_False by done.
        by rewrite !decide_False by lia.
      * rewrite HT. by rewrite !decide_False by lia.
Qed.

Lemma outdent_one_level_up_witness :
  ∃ p gp ggp s',
    getParent split_doc 5 = Some p ∧ getParent split_doc p = Some gp
    ∧ getParent split_doc gp = Some ggp
    ∧ handleOutdent [5] split_doc = Some s'
    ∧ getParent s' 5 = Some ggp
    ∧ 5 ∈ getChildren s' ggp
    ∧ getChildren s' 5 = getChildren split_doc 5
    ∧ node_type s' !! 5 = node_type split_doc !! 5.
Proof.
  apply (outdent_one_level_up split_doc 5); try reflexivity.
  apply tree_check_sound. by vm_compute.
Defined.

(** ** Outdent, then indent *)

Section back_and_forth.
Variables (s : EditorState) (t p gp ggp : nat) (g1 g2 : list nat).
Hypothesis Ht : tree s.
Hypothesis Hw : wrapped s.
Hypothesis Hn : isNestedListNode s (Some t) = false.
Hypothesis Hpt : getParent s t = Some p.
Hypothesis Hpp : getParent s p = Some gp.
Hypothesis Hpg : getParent s gp = Some ggp.
Hypothesis Hkp : isListNode s (Some p) = true.
Hypothesis Hkg : isListItemNode s (Some gp) = true.
Hypothesis Hkgg : isListNode s (Some ggp) = true.
Hypothesis Hcg : getChildren s ggp = g1 ++ gp :: g2.
Hypothesis Hg1 : gp ∉ g1.
Hypothesis Hg2 : gp ∉ g2.

Lemma back_and_forth_ne :
  p ≠ ggp ∧ t ≠ p ∧ t ≠ gp ∧ t ≠ ggp ∧ gp ≠ p ∧ gp ≠ ggp
  ∧ (t ∉ g1) ∧ (t ∉ g2).
Proof.
  pose proof (tree_linked s Ht) as Hl.
  pose proof (tree_valid_ancestry_ne s t p gp ggp Ht Hpt Hpp Hpg) as Hne.
  assert (t ∉ getChildren s ggp) as Hin.
  { intros Hin. apply (linked_child_parent s Hl) in Hin. congruence. }
  rewrite Hcg in Hin. apply not_elem_of_app in Hin as [Hi1 Hi2].
  apply not_elem_of_cons in Hi2 as [Hi2 Hi3].
  split_and!; try done.
  - by apply (tree_parent_ne s t p Ht).
  - intros ->. apply (tree_ancestor_ne s ggp ggp Ht); [|done].
    eapply tc_l; [exact Hpt|]. eapply tc_l; [exact Hpp|]. by apply tc_once.
  - intros ->. by apply (tree_parent_ne s p p Ht).
  - by apply (tree_parent_ne s gp ggp Ht).
Qed.

Lemma back_and_forth_wrapper : getChildren s gp = [p].
Proof.
  apply (Hw gp p Hkg); [|done].
  by apply (linked_parent_child s (tree_linked s Ht)).
Qed.

Lemma back_and_forth_nested s1 :
  node_type s1 = node_type s →
  (∀ x, x ≠ ggp → x ≠ p → getChildren s1 x = getChildren s x) →
  isNestedListNode s1 (Some t) = false
  ∧ isNestedListNode s1 (Some gp) = true
  ∧ getFirstChild s1 gp = Some p
  ∧ (∀ k, k ∈ g1 ∨ k ∈ g2 →
       isNestedListNode s1 (Some k) = isNestedListNode s (Some k)).
Proof.
  intros HT HC. pose proof (tree_linked s Ht) as Hl.
  destruct back_and_forth_ne as (Hne & Htp & Htgp & Htgg & Hgpp & Hgpgg & _).
  assert (∀ k, k ≠ ggp → k ≠ p → k < next_key s →
            isNestedListNode s1 (Some k) = isNestedListNode s (Some k)) as Hold.
  { intros k Hk1 Hk2 Hk3. apply isNestedListNode_old; try done.
    - intros x _. by rewrite HT.
    - by apply HC. }
  assert (getFirstChild s1 gp = Some p) as Hf.
  { unfold getFirstChild. rewrite HC by done.
    by rewrite back_and_forth_wrapper. }
  split_and!.
  - rewrite <- Hn. apply Hold; try done.
    apply (linked_parent_lt s t p Hl Hpt).
  - unfold isNestedListNode. rewrite Hf.
    rewrite (isListItemNode_type s s1), (isListNode_type s s1) by done.
    by rewrite Hkg, Hkp.
  - done.
  - intros k Hk.
    assert (k ∈ getChildren s ggp) as Hin.
    { rewrite Hcg. apply elem_of_app. destruct Hk as [Hk|Hk]; [by left|].
      right. by right. }
    pose proof (linked_child_parent s Hl k ggp Hin) as Hpk.
    apply Hold.
    + by apply (tree_parent_ne s k ggp Ht).
    + intros ->. congruence.
    + apply (linked_parent_lt s k ggp Hl Hpk).
Qed.

Lemma back_and_forth_first f rf :
  getChildren s p = t :: f :: rf →
  isNestedListNode s (getPreviousSibling s gp) = false →
  ∃ s1 s2, outdentListItem t s = Some s1 ∧ indentListItem t s1 = Some s2
    ∧ (∀ x, getParent s2 x = getParent s x)
    ∧ (∀ x, getChildren s2 x = getChildren s x)
    ∧ node_type s2 = node_type s ∧ next_key s2 = next_key s.
Proof.
  intros Hc Hprev. pose proof (tree_linked s Ht) as Hl.
  destruct back_and_forth_ne
    as (Hne & Htp & Htgp & Htgg & Hgpp & Hgpgg & Htg1 & Htg2).
  destruct (outdent_first_effect s t p gp ggp g1 g2 Hl Hn Hpt Hpp Hpg
              Hkp Hkg Hkgg Hcg Hne (f :: rf) Hc)
    as (s1 & Hs1 & HP1 & HC1 & HT1 & HK1).
  destruct (outdent_step t s Ht Hw) as (s1' & Hs1' & Ht1 & _).
  rewrite Hs1 in Hs1'. injection Hs1' as <-.
  assert (getParent s1 t = Some ggp) as Hpt1.
  { rewrite HP1. by rewrite decide_True. }
  assert (getChildren s1 ggp = g1 ++ t :: gp :: g2) as Hcg1.
  { rewrite HC1. rewrite decide_True by done. by rewrite decide_False. }
  assert (getChildren s1 p = f :: rf) as Hcp1.
  { rewrite HC1. rewrite decide_False by done. by rewrite decide_True. }
  destruct (back_and_forth_nested s1 HT1) as (Hn1 & Hgp1 & Hf1 & Hold).
  { intros x Hx1 Hx2. rewrite HC1. by rewrite !decide_False. }
  rewrite (getPreviousSibling_shape s gp ggp g1 g2 Hpg Hcg Hg1) in Hprev.
  assert (isNestedListNode s1 (getPreviousSibling s1 t) = false) as Hprev1.
  { rewrite (getPreviousSibling_shape s1 t ggp g1 (gp :: g2) Hpt1 Hcg1 Htg1).
    destruct (last g1) as [k|] eqn:Ek; [|apply isNestedListNode_None].
    rewrite Hold; [done|]. left. apply last_Some in Ek as (g & ->).
    apply elem_of_app. right. by left. }
  assert (getNextSibling s1 t = Some gp) as Hnext1.
  { by rewrite (getNextSibling_shape s1 t ggp g1 (gp :: g2) Hpt1 Hcg1 Htg1). }
  destruct (indent_next_effect s1 t ggp (tree_linked s1 Ht1) Hn1 Hpt1 gp p f rf
              Hprev1 Hnext1 Hgp1 Hf1 Hcp1 (not_eq_sym Hne))
    as (s2 & Hs2 & HP2 & HC2 & HT2 & HK2).
  exists s1, s2. split_and!; try done.
  - intros x. rewrite HP2. destruct (decide (x = t)) as [->|Hx]; [done|].
    rewrite HP1. rewrite decide_False by done.
    rewrite decide_False; [done|]. by intros [_ ?].
  - intros x. rewrite HC2. destruct (decide (x = p)) as [->|Hx]; [done|].
    destruct (decide (x = ggp)) as [->|Hx'].
    + rewrite Hcg1, Hcg. apply removeKey_middle; [done|].
      apply not_elem_of_cons. by split.
    + rewrite HC1. by rewrite !decide_False.
  - by rewrite HT2.
  - by rewrite HK2.
Qed.

Lemma back_and_forth_last a pre :
  getChildren s p = a :: pre ++ [t] →
  isNestedListNode s (getNextSibling s gp) = false →
  ∃ s1 s2, outdentListItem t s = Some s1 ∧ indentListItem t s1 = Some s2
    ∧ (∀ x, getParent s2 x = getParent s x)
    ∧ (∀ x, getChildren s2 x = getChildren s x)
    ∧ node_type s2 = node_type s ∧ next_key s2 = next_key s.
Proof.
  intros Hc Hnext. pose proof (tree_linked s Ht) as Hl.
  destruct back_and_forth_ne
    as (Hne & Htp & Htgp & Htgg & Hgpp & Hgpgg & Htg1 & Htg2).
  destruct (outdent_last_effect s t p gp ggp g1 g2 Hl Hn Hpt Hpp Hpg
              Hkp Hkg Hkgg Hcg Hne a pre Hc)
    as (s1 & Hs1 & HP1 & HC1 & HT1 & HK1).
  assert (getParent s1 t = Some ggp) as Hpt1.
  { rewrite HP1. by rewrite decide_True. }
  assert (getChildren s1 ggp = (g1 ++ [gp]) ++ t :: g2) as Hcg1.
  { rewrite HC1. rewrite decide_True by done. by rewrite <- app_assoc. }
  assert (getChildren s1 p = a :: pre) as Hcp1.
  { rewrite HC1. rewrite decide_False by done. by rewrite decide_True. }
  assert (t ∉ g1 ++ [gp]) as Htg1'.
  { apply not_elem_of_app. split; [done|].
    apply not_elem_of_cons. split; [done|apply not_elem_of_nil]. }
  destruct (back_and_forth_nested s1 HT1) as (Hn1 & Hgp1 & Hf1 & Hold).
  { intros x Hx1 Hx2. rewrite HC1. by rewrite !decide_False. }
  rewrite (getNextSibling_shape s gp ggp g1 g2 Hpg Hcg Hg1) in Hnext.
  assert (isNestedListNode s1 (getNextSibling s1 t) = false) as Hnext1.
  { rewrite (getNextSibling_shape s1 t ggp (g1 ++ [gp]) g2 Hpt1 Hcg1 Htg1').
    destruct (head g2) as [k|] eqn:Ek; [|apply isNestedListNode_None].
    rewrite Hold; [done|]. right. destruct g2; [done|].
    injection Ek as ->. by left. }
  assert (getPreviousSibling s1 t = Some gp) as Hprev1.
  { rewrite (getPreviousSibling_shape s1 t ggp (g1 ++ [gp]) g2 Hpt1 Hcg1 Htg1').
    by rewrite last_snoc. }
  destruct (indent_previous_effect s1 t ggp Hn1 Hpt1 gp p
              Hprev1 Hnext1 Hgp1 Hf1 (not_eq_sym Hne))
    as (s2 & Hs2 & HP2 & HC2 & HT2 & HK2).
  exists s1, s2. split_and!; try done.
  - intros x. rewrite HP2. destruct (decide (x = t)) as [->|Hx]; [done|].
    rewrite HP1. by rewrite decide_False.
  - intros x. rewrite HC2. destruct (decide (x = p)) as [->|Hx].
    { by rewrite Hcp1, Hc. }
    destruct (decide (x = ggp)) as [->|Hx'].
    + rewrite Hcg1, Hcg. rewrite removeKey_middle by done.
      by rewrite <- app_assoc.
    + rewrite HC1. by rewrite !decide_False.
  - by rewrite HT2.
  - by rewrite HK2.
Qed.
End back_and_forth.

(** X12.  Outdent, then indent.  In a well-formed document, a target that
    is the first or the last of at least two children of a nested List, and
    whose grandparent ListItem has no nested-list wrapper on the side the
    target moves to, is put back by an indent that follows its outdent:
    every node has the parent and the ordered children it had before, and no
    node was created. *)
Theorem outdent_indent_round_trip s t p gp ggp :
  tree s → wrapped s →
  isNestedListNode s (Some t) = false →
  getParent s t = Some p → getParent s p = Some gp → getParent s gp = Some ggp →
  isListNode s (Some p) = true →
  isListItemNode s (Some gp) = true →
  isListNode s (Some ggp) = true →
  2 ≤ length (getChildren s p) →
  match outdentCase s p t with
  | FirstChild => isNestedListNode s (getPreviousSibling s gp) = false
  | LastChild => isNestedListNode s (getNextSibling s gp) = false
  | InteriorChild => False
  end →
  ∃ s1 s2,
    handleOutdent [t] s = Some s1
    ∧ handleIndent [t] s1 = Some s2
    ∧ (∀ x, getParent s2 x = getParent s x)
    ∧ (∀ x, getChildren s2 x = getChildren s x)
    ∧ node_type s2 = node_type s
    ∧ next_key s2 = next_key s.
Proof.
  intros Ht Hw Hn Hpt Hpp Hpg Hkp Hkg Hkgg Hlen Hside.
  pose proof (tree_linked s Ht) as Hl.
  unfold handleIndent, handleOutdent. setoid_rewrite forEach_single.
  destruct (linked_child_shape s t p Hl Hpt) as (l1 & l2 & Hc & Hn1 & Hn2).
  destruct (linked_child_shape s gp ggp Hl Hpg) as (g1 & g2 & Hcg & Hg1 & Hg2).
  destruct l1 as [|a pre].
  - rewrite (outdentCase_first s p t l2 Hc) in Hside.
    destruct l2 as [|f rf]; [rewrite Hc in Hlen; simpl in Hlen; lia|].
    by eapply (back_and_forth_first s t p gp ggp g1 g2).
  - assert (t ≠ a) as Hta.
    { intros ->. apply Hn1. by left. }
    destruct l2 as [|b post].
    + rewrite (outdentCase_last s p t a pre Hc Hta) in Hside.
      by eapply (back_and_forth_last s t p gp ggp g1 g2).
    + by rewrite (outdentCase_middle s p t (a :: pre) (b :: post) Hc) in Hside.
Qed.

Lemma outdent_indent_round_trip_witness :
  ∃ s1 s2,
    handleOutdent [3] split_doc = Some s1
    ∧ handleIndent [3] s1 = Some s2
    ∧ (∀ x, getParent s2 x = getParent split_doc x)
    ∧ (∀ x, getChildren s2 x = getChildren split_doc x)
    ∧ node_type s2 = node_type split_doc
    ∧ next_key s2 = next_key split_doc.
Proof.
  apply (outdent_indent_round_trip split_doc 3 2 1 0); try reflexivity.
  - apply tree_check_sound. by vm_compute.
  - apply wrapped_check_sound. by vm_compute.
  - vm_compute. lia.
Defined.

(** ** What a batch never does *)

(** X13.  A batch of indents or of outdents on a well-formed document runs
    to its end and deletes nothing and retypes nothing: every node keeps
    its type, the only nodes created are Lists and ListItems, and the
    content nodes are those of before. *)
Theorem batch_keeps_types (direction : Direction) l s :
  tree s → wrapped s →
  ∃ s', match direction with
        | indent => handleIndent l s
        | outdent => handleOutdent l s
        end = Some s'
    ∧ next_key s ≤ next_key s'
    ∧ (∀ k, k < next_key s → node_type s' !! k = node_type s !! k)
    ∧ (∀ k, isContent s' k ↔ isContent s k)
    ∧ (∀ k ty, next_key s ≤ k → node_type s' !! k = Some ty →
         ty = ListItemNode ∨ ∃ tag, ty = ListNode tag).
Proof.
  intros Ht Hw.
  assert (∃ s', match direction with
                | indent => handleIndent l s
                | outdent => handleOutdent l s
                end = Some s'
            ∧ tree s' ∧ wrapped s' ∧ extends s s' ∧ preserved s s')
    as (s' & Hs' & _ & _ & (He1 & He2 & He3) & _).
  { destruct direction; [by apply handleIndent_batch|by apply handleOutdent_batch]. }
  pose proof (tree_linked s Ht) as Hl.
  exists s'. split_and!; try done.
  - intros k. split; [apply He3|]. intros Hk. unfold isContent in *.
    rewrite He2; [done|]. by apply (content_lt s k Hl).
  - intros k ty Hk Hty.
    destruct (linked_fresh s Hl k Hk) as (_ & _ & Hnone).
    pose proof (He3 k) as Hc. unfold isContent in Hc. rewrite Hty, Hnone in Hc.
    destruct ty as [tag| | |]; [right; by exists tag|by left| |];
      by destruct (Hc I).
Qed.

Lemma batch_keeps_types_witness :
  ∃ s', handleOutdent [4; 5; 3] split_doc = Some s'
    ∧ next_key split_doc ≤ next_key s'
    ∧ (∀ k, k < next_key split_doc → node_type s' !! k = node_type split_doc !! k)
    ∧ (∀ k, isContent s' k ↔ isContent split_doc k)
    ∧ (∀ k ty, next_key split_doc ≤ k → node_type s' !! k = Some ty →
         ty = ListItemNode ∨ ∃ tag, ty = ListNode tag).
Proof.
  apply (batch_keeps_types outdent [4; 5; 3] split_doc).
  - apply tree_check_sound. by vm_compute.
  - apply wrapped_check_sound. by vm_compute.
Defined.

(** ** Dirty marks *)

Lemma dirty_markAllDirty l s c :
  c ∈ dirty (markAllDirty l s) ↔ c ∈ l ∨ c ∈ dirty s.
Proof.
  unfold markAllDirty. revert s. induction l as [|a l IH]; intros s; simpl.
  - split; [by right|]. intros [Hc|Hc]; [by apply elem_of_nil in Hc|done].
  - rewrite IH. simpl. rewrite elem_of_union, elem_of_singleton, elem_of_cons.
    tauto.
Qed.

(** X14.  After the outdent of a target with the expected ancestry that is
    not itself a nested-list wrapper, every child of its former parent List
    and every child of the great-grandparent List, as they are after the move
    (the target included), is marked dirty. *)
Theorem outdent_marks_dirty s t p gp ggp s' :
  isNestedListNode s (Some t) = false →
  getParent s t = Some p → getParent s p = Some gp → getParent s gp = Some ggp →
  validAncestry s t = true →
  outdentListItem t s = Some s' →
  ∀ c, c ∈ getChildren s' p ∨ c ∈ getChildren s' ggp → c ∈ dirty s'.
Proof.
  intros Hn Hpt Hpp Hpg Hv. unfold outdentListItem. rewrite Hn.
  unfold validAncestry in Hv. rewrite Hpt in *. simpl in *.
  rewrite Hpp in *. simpl in *. rewrite Hpg in *. rewrite Hv.
  destruct (match outdentCase s p t with
            | FirstChild => _ | LastChild => _ | InteriorChild => _
            end) as [s1|]; [|done].
  simpl. intros [= <-] c.
  repeat first [rewrite getChildren_markAllDirty|rewrite dirty_markAllDirty].
  tauto.
Qed.

Lemma outdent_marks_dirty_witness :
  5 ∈ dirty (default split_doc (outdentListItem 5 split_doc)).
Proof.
  apply (outdent_marks_dirty split_doc 5 2 1 0); try by vm_compute.
  right. vm_compute. apply elem_of_cons. right. apply elem_of_cons. by left.
Defined.

(** X15.  After the indent of a target that is not a wrapper, every child
    of its former parent, when that parent is a List, is marked dirty, as
    the children are after the move. *)
Theorem indent_marks_dirty s t p s' :
  isNestedListNode s (Some t) = false →
  getParent s t = Some p →
  indentListItem t s = Some s' →
  isListNode s' (Some p) = true →
  ∀ c, c ∈ getChildren s' p → c ∈ dirty s'.
Proof.
  intros Hn Hpt. unfold indentListItem. rewrite Hn, Hpt.
  destruct (if isNestedListNode s (getNextSibling s t)
               && isNestedListNode s (getPreviousSibling s t)
            then _ else _) as [s1|]; [|done].
  simpl. destruct (isListNode s1 (Some p)) eqn:Hk.
  - intros [= <-] _ c. rewrite getChildren_markAllDirty, dirty_markAllDirty.
    tauto.
  - intros [= <-]. congruence.
Qed.

Lemma indent_marks_dirty_witness :
  3 ∈ dirty (default split_doc (indentListItem 4 split_doc)).
Proof.
  apply (indent_marks_dirty split_doc 4 2); try by vm_compute.
  vm_compute. apply elem_of_cons. by left.
Defined.

(** ** Document order *)

Section reading_facts.
Implicit Types (s : EditorState) (k h r : nat) (ks l : list nat).

Lemma own_type s s' k : node_type s' !! k = node_type s !! k → own s' k = own s k.
Proof. intros H. unfold own. by rewrite H. Qed.

Lemma own_list s k : isListNode s (Some k) = true → own s k = [].
Proof.
  unfold isListNode, own. by destruct (node_type s !! k) as [[]|].
Qed.

Lemma own_item s k : isListItemNode s (Some k) = true → own s k = [].
Proof.
  unfold isListItemNode, own. by destruct (node_type s !! k) as [[]|].
Qed.

Lemma elem_of_own s k x : x ∈ own s k ↔ x = k ∧ isContent s k.
Proof.
  unfold own, isContent.
  destruct (node_type s !! k) as [[]|]; simpl;
    rewrite ?elem_of_nil, ?list_elem_of_singleton; tauto.
Qed.

Lemma reading_app s ks1 ks2 l1 l2 :
  reading s ks1 l1 → reading s ks2 l2 → reading s (ks1 ++ ks2) (l1 ++ l2).
Proof.
  induction 1 as [|k ks a b Ha _ Hb IH]; intros H2; [done|].
  simpl. rewrite <- !app_assoc. apply reading_cons; [done|by apply IH].
Qed.

Lemma reading_cons_inv s k ks l :
  reading s (k :: ks) l →
  ∃ l1 l2, l = own s k ++ l1 ++ l2
    ∧ reading s (getChildren s k) l1 ∧ reading s ks l2.
Proof. inversion 1; subst. by eexists _, _. Qed.

Lemma reading_nil_inv s l : reading s [] l → l = [].
Proof. by inversion 1. Qed.

Lemma reading_app_inv s ks1 ks2 l :
  reading s (ks1 ++ ks2) l →
  ∃ l1 l2, l = l1 ++ l2 ∧ reading s ks1 l1 ∧ reading s ks2 l2.
Proof.
  revert l. induction ks1 as [|k ks1 IH]; intros l; simpl.
  - intros H. exists [], l. split_and!; [done|constructor|done].
  - intros H. apply reading_cons_inv in H as (a & b & -> & Ha & Hb).
    destruct (IH b Hb) as (b1 & b2 & -> & Hb1 & Hb2).
    exists (own s k ++ a ++ b1), b2. split_and!; [|by constructor|done].
    by rewrite <- !app_assoc.
Qed.

Lemma reading_single s k l :
  reading s (getChildren s k) l → reading s [k] (own s k ++ l).
Proof.
  intros H. rewrite <- (app_nil_r l). apply reading_cons; [done|constructor].
Qed.

Lemma reading_single_inv s k l :
  reading s [k] l → ∃ l1, l = own s k ++ l1 ∧ reading s (getChildren s k) l1.
Proof.
  intros H. apply reading_cons_inv in H as (a & b & -> & Ha & Hb).
  apply reading_nil_inv in Hb as ->. exists a. by rewrite app_nil_r.
Qed.

Lemma reading_functional s ks l l' : reading s ks l → reading s ks l' → l = l'.
Proof.
  intros H. revert l'. induction H as [|k ks a b _ IHa _ IHb]; intros l' H'.
  - by apply reading_nil_inv in H'.
  - apply reading_cons_inv in H' as (a' & b' & -> & Ha' & Hb').
    by rewrite (IHa a' Ha'), (IHb b' Hb').
Qed.

(** Subtrees that hold no changed node read the same. *)
Lemma reading_local s s' (D : nat → Prop) :
  (∀ x, ¬ D x → getChildren s' x = getChildren s x ∧ own s' x = own s x) →
  ∀ ks l, reading s ks l →
    (∀ k d, k ∈ ks → D d → ¬ inSubtree s k d) → reading s' ks l.
Proof.
  intros Hsame ks l H.
  induction H as [|k ks a b _ IHa _ IHb]; intros Hclear; [constructor|].
  assert (¬ D k) as Hk.
  { intros Hd. apply (Hclear k k); [by left|done|apply rtc_refl]. }
  destruct (Hsame k Hk) as [Hc Ho]. rewrite <- Ho. apply reading_cons.
  - rewrite Hc. apply IHa. intros c d Hc' Hd Hin.
    apply (Hclear k d); [by left|done|]. by eapply rtc_l.
  - apply IHb. intros c d Hc' Hd. apply Hclear; [by right|done].
Qed.

Lemma reading_ext s s' :
  (∀ x, getChildren s' x = getChildren s x) → node_type s' = node_type s →
  ∀ ks l, reading s ks l → reading s' ks l.
Proof.
  intros Hc HT ks l H. apply (reading_local s s' (λ _, False)); [|done|done].
  intros x _. split; [done|]. apply own_type. by rewrite HT.
Qed.

(** Above the one node [h] below which everything changed lies, the
    document reads the same as soon as [h] does. *)
Lemma reading_transfer s s' h (D : nat → Prop) :
  linked s →
  (∀ x, ¬ D x → getChildren s' x = getChildren s x ∧ own s' x = own s x) →
  (∀ d, D d → d = h ∨ tc (parentOf s) d h ∨ next_key s ≤ d) →
  (∀ l, reading s [h] l → reading s' [h] l) →
  ∀ ks l, reading s ks l →
    (∀ k, k ∈ ks → ¬ tc (parentOf s) k h ∧ k < next_key s) →
    reading s' ks l.
Proof.
  intros Hl Hsame HD Hh ks l H.
  induction H as [|k ks a b Ha IHa Hb IHb]; intros Hinv; [constructor|].
  assert (reading s' ks b) as Hb'.
  { apply IHb. intros c Hc. apply Hinv. by right. }
  destruct (Hinv k) as [Hkh Hkn]; [by left|].
  destruct (decide (k = h)) as [->|Hne].
  - pose proof (Hh _ (reading_single s h a Ha)) as H1.
    pose proof (reading_app s' [h] ks _ _ H1 Hb') as H2.
    simpl in H2. by rewrite <- app_assoc in H2.
  - assert (¬ D k) as Hk.
    { intros Hd. destruct (HD k Hd) as [?|[?|?]]; [done|done|lia]. }
    destruct (Hsame k Hk) as [Hc Ho]. rewrite <- Ho.
    apply reading_cons; [|done]. rewrite Hc. apply IHa.
    intros c Hc'. split.
    + intros Hch. pose proof (linked_child_parent s Hl c k Hc') as Hck.
      inversion Hch as [? ? Hstep|? y ? Hstep Hrest]; subst.
      * apply Hne. unfold parentOf in *. congruence.
      * apply Hkh. unfold parentOf in Hstep.
        assert (y = k) as -> by congruence. done.
    + apply (linked_child_lt s c k Hl Hc').
Qed.

(** Where a node cannot lie: above itself, and below a sibling of one of
    its ancestors. *)
Lemma parent_chain_comparable s x y z :
  rtc (parentOf s) x y → rtc (parentOf s) x z →
  rtc (parentOf s) y z ∨ rtc (parentOf s) z y.
Proof.
  induction 1 as [x|x x' y Hxx' Hx'y IH]; intros Hz; [by left|].
  apply rtc_inv in Hz as [<-|(x'' & Hxx'' & Hx''z)].
  - right. by eapply rtc_l.
  - unfold parentOf in *. assert (x'' = x') as -> by congruence. by apply IH.
Qed.

Lemma not_below_itself s k d :
  tree s → tc (parentOf s) k d → ¬ inSubtree s k d.
Proof.
  intros Ht Hkd Hin.
  apply (inSubtree_parent_chain s k d (tree_linked s Ht)) in Hin.
  apply (tree_ancestor_ne s k k Ht); [|done]. by eapply tc_rtc_r.
Qed.

Lemma not_below_sibling s a b q x y :
  tree s → parentOf s a q → parentOf s b q → a ≠ b →
  rtc (parentOf s) x a → rtc (parentOf s) y b → ¬ inSubtree s x y.
Proof.
  intros Ht Ha Hb Hab Hxa Hyb Hin.
  apply (inSubtree_parent_chain s x y (tree_linked s Ht)) in Hin.
  assert (rtc (parentOf s) y a) as Hya by (by etrans).
  assert (∀ u v, parentOf s u q → parentOf s v q → u ≠ v →
            ¬ rtc (parentOf s) u v) as Hno.
  { intros u v Hu Hv Huv Hr.
    apply rtc_inv in Hr as [?|(q' & Huq' & Hq'v)]; [done|].
    unfold parentOf in *. assert (q' = q) as -> by congruence.
    apply (tree_ancestor_ne s v v Ht); [|done].
    eapply tc_l; [exact Hv|]. apply rtc_tc in Hq'v as [->|?]; [|done].
    exfalso. by apply (tree_parent_ne s v v Ht). }
  destruct (parent_chain_comparable s y a b Hya Hyb) as [H|H].
  - by apply (Hno a b).
  - by apply (Hno b a).
Qed.

Lemma not_below_fresh s k d :
  linked s → k < next_key s → next_key s ≤ d → ¬ inSubtree s k d.
Proof.
  intros Hl Hk Hd Hin. apply (inSubtree_parent_chain s k d Hl) in Hin.
  apply rtc_inv in Hin as [->|(y & Hy & _)]; [lia|].
  destruct (linked_fresh s Hl d Hd) as (Hp & _). unfold parentOf in Hy.
  congruence.
Qed.
End reading_facts.

Ltac list_norm :=
  repeat first [rewrite app_nil_r | rewrite app_nil_l | rewrite <- app_assoc
               | rewrite <- app_comm_cons].

Ltac list_norm_in H :=
  repeat first [rewrite app_nil_r in H | rewrite app_nil_l in H
               | rewrite <- app_assoc in H | rewrite <- app_comm_cons in H].

Lemma reading_root s s' h (D : nat → Prop) :
  tree s →
  (∀ x, ¬ D x → getChildren s' x = getChildren s x ∧ own s' x = own s x) →
  (∀ d, D d → d = h ∨ tc (parentOf s) d h ∨ next_key s ≤ d) →
  (∀ l, reading s [h] l → reading s' [h] l) →
  ∀ r l, getParent s r = None → r < next_key s →
    reading s [r] l → reading s' [r] l.
Proof.
  intros Ht Hsame HD Hh r l Hr Hrn H.
  apply (reading_transfer s s' h D (tree_linked s Ht) Hsame HD Hh [r] l H).
  intros k Hk. apply list_elem_of_singleton in Hk as ->. split; [|done].
  intros Hc. inversion Hc as [? ? Hstep|? ? ? Hstep _]; subst;
    unfold parentOf in Hstep; congruence.
Qed.

(** A wrapper [w] with its inner List [il] below a node [h]. *)
Section nest.
Variables (s : EditorState) (h w il : nat).
Hypothesis Ht : tree s.
Hypothesis Hw : parentOf s w h.
Hypothesis Hil : parentOf s il w.

Lemma clear_beside k d :
  parentOf s k h → k ≠ w → d = h ∨ d = w ∨ d = il → ¬ inSubtree s k d.
Proof.
  intros Hk Hne [-> | [-> | ->]].
  - apply (not_below_itself s k h Ht). by apply tc_once.
  - by apply (not_below_sibling s k w h k w Ht).
  - apply (not_below_sibling s k w h k il Ht); try done.
    by apply rtc_once.
Qed.

Lemma clear_inside k d :
  parentOf s k il → d = h ∨ d = w ∨ d = il → ¬ inSubtree s k d.
Proof.
  intros Hk Hd. apply (not_below_itself s k d Ht).
  destruct Hd as [-> | [-> | ->]].
  - eapply tc_l; [exact Hk|]. eapply tc_l; [exact Hil|]. by apply tc_once.
  - eapply tc_l; [exact Hk|]. by apply tc_once.
  - by apply tc_once.
Qed.

Lemma clear_other k d w2 :
  parentOf s w2 h → w2 ≠ w → rtc (parentOf s) d w2 → parentOf s k il →
  ¬ inSubtree s k d.
Proof.
  intros Hw2 Hne Hd Hk.
  apply (not_below_sibling s w w2 h k d Ht); try done.
  eapply rtc_l; [exact Hk|]. by apply rtc_once.
Qed.

Lemma nest_beside (ks : list nat) :
  (∀ k, k ∈ ks → k ∈ getChildren s h ∧ k ≠ w) →
  ∀ k d, k ∈ ks → changed_below s h w il d → ¬ inSubtree s k d.
Proof.
  intros Hks k d Hk Hd. destruct (Hks k Hk) as [Hin Hne].
  pose proof (linked_child_parent s (tree_linked s Ht) k h Hin) as Hpk.
  destruct Hd as [Hd | [Hd | [Hd | Hd]]].
  - apply clear_beside; auto.
  - apply clear_beside; auto.
  - apply clear_beside; auto.
  - apply (not_below_fresh s k d (tree_linked s Ht)); [|done].
    apply (linked_parent_lt s k h (tree_linked s Ht) Hpk).
Qed.

Lemma nest_inside (ks : list nat) :
  ks ⊆ getChildren s il →
  ∀ k d, k ∈ ks → changed_below s h w il d → ¬ inSubtree s k d.
Proof.
  intros Hks k d Hk Hd. apply Hks in Hk.
  pose proof (linked_child_parent s (tree_linked s Ht) k il Hk) as Hpk.
  destruct Hd as [Hd | [Hd | [Hd | Hd]]].
  - apply clear_inside; auto.
  - apply clear_inside; auto.
  - apply clear_inside; auto.
  - apply (not_below_fresh s k d (tree_linked s Ht)); [|done].
    apply (linked_parent_lt s k il (tree_linked s Ht) Hpk).
Qed.

Lemma nest_other (ks : list nat) w2 il2 :
  parentOf s w2 h → parentOf s il2 w2 → w2 ≠ w →
  ks ⊆ getChildren s il →
  ∀ k d, k ∈ ks → changed_below s h w2 il2 d → ¬ inSubtree s k d.
Proof.
  intros Hw2 Hil2 Hne Hks k d Hk Hd. apply Hks in Hk.
  pose proof (linked_child_parent s (tree_linked s Ht) k il Hk) as Hpk.
  destruct Hd as [Hd | [Hd | [Hd | Hd]]].
  - apply clear_inside; auto.
  - subst d. by apply (clear_other k w2 w2).
  - subst d. apply (clear_other k il2 w2); try done. by apply rtc_once.
  - apply (not_below_fresh s k d (tree_linked s Ht)); [|done].
    apply (linked_parent_lt s k il (tree_linked s Ht) Hpk).
Qed.

Lemma nest_hub d :
  changed_below s h w il d → d = h ∨ tc (parentOf s) d h ∨ next_key s ≤ d.
Proof.
  intros [-> | [-> | [-> | Hd]]]; [by left| | |by right; right]; right; left.
  - by apply tc_once.
  - eapply tc_l; [exact Hil|]. by apply tc_once.
Qed.

(** What lies inside the wrapper reads as the children of its List. *)
Lemma nest_reading l :
  wrapped s → isListItemNode s (Some w) = true → isListNode s (Some il) = true →
  reading s [w] l → reading s (getChildren s il) l.
Proof.
  intros Hwr Hkw Hki H.
  assert (getChildren s w = [il]) as Hcw.
  { apply (Hwr w il Hkw); [|done].
    by apply (linked_parent_child s (tree_linked s Ht)). }
  apply reading_single_inv in H as (l0 & -> & H). rewrite Hcw in H.
  apply reading_single_inv in H as (l1 & -> & H).
  rewrite (own_item s w Hkw), (own_list s il Hki). by list_norm.
Qed.

Lemma nest_children :
  wrapped s → isListItemNode s (Some w) = true → isListNode s (Some il) = true →
  getChildren s w = [il].
Proof.
  intros Hwr Hkw Hki. apply (Hwr w il Hkw); [|done].
  by apply (linked_parent_child s (tree_linked s Ht)).
Qed.
End nest.

Lemma reading_wrapper s' w i ks l :
  getChildren s' w = [i] → getChildren s' i = ks →
  isListItemNode s' (Some w) = true → isListNode s' (Some i) = true →
  reading s' ks l → reading s' [w] l.
Proof.
  intros Hcw Hci Hkw Hki Hl. rewrite <- Hci in Hl.
  apply reading_single in Hl. rewrite <- Hcw in Hl.
  apply reading_single in Hl.
  rewrite (own_item s' w Hkw), (own_list s' i Hki) in Hl.
  by list_norm_in Hl.
Qed.

Section outdent_reading.
Variables (s s' : EditorState) (t p gp ggp : nat) (g1 g2 : list nat).
Hypothesis Ht : tree s.
Hypothesis Hw : wrapped s.
Hypothesis Hpt : getParent s t = Some p.
Hypothesis Hpp : getParent s p = Some gp.
Hypothesis Hpg : getParent s gp = Some ggp.
Hypothesis Hkp : isListNode s (Some p) = true.
Hypothesis Hkg : isListItemNode s (Some gp) = true.
Hypothesis Hcg : getChildren s ggp = g1 ++ gp :: g2.
Hypothesis Hg1 : gp ∉ g1.
Hypothesis Hg2 : gp ∉ g2.
Hypothesis HT : ∀ x, x < next_key s → node_type s' !! x = node_type s !! x.
Hypothesis HC : ∀ x, x ≠ ggp → x ≠ p → x < next_key s →
  getChildren s' x = getChildren s x.

Lemma outdent_reading_wrapper : getChildren s gp = [p].
Proof.
  apply (Hw gp p Hkg); [|done].
  by apply (linked_parent_child s (tree_linked s Ht)).
Qed.

Lemma outdent_reading_ne :
  p ≠ ggp ∧ gp ≠ ggp ∧ gp ≠ p
  ∧ t < next_key s ∧ p < next_key s ∧ gp < next_key s ∧ ggp < next_key s.
Proof.
  pose proof (tree_linked s Ht) as Hl.
  destruct (linked_parent_lt s t p Hl Hpt).
  destruct (linked_parent_lt s gp ggp Hl Hpg).
  split_and!; try done.
  - by apply (tree_valid_ancestry_ne s t p gp ggp Ht).
  - by apply (tree_parent_ne s gp ggp Ht).
  - intros ->. by apply (tree_parent_ne s p p Ht).
Qed.

Lemma outdent_reading_beside ks :
  ks ⊆ g1 ++ g2 →
  ∀ k d, k ∈ ks → changed_below s ggp gp p d → ¬ inSubtree s k d.
Proof.
  intros Hks k d Hk Hd. apply Hks in Hk.
  assert (k ∈ getChildren s ggp ∧ k ≠ gp) as [Hin Hne].
  { rewrite Hcg. apply elem_of_app in Hk as [Hk|Hk].
    - split; [apply elem_of_app; by left|]. by intros ->.
    - split; [apply elem_of_app; right; by right|]. by intros ->. }
  pose proof (linked_child_parent s (tree_linked s Ht) k ggp Hin) as Hpk.
  destruct Hd as [Hd | [Hd | [Hd | Hd]]].
  - apply (clear_beside s ggp gp p Ht Hpg Hpp k d); auto.
  - apply (clear_beside s ggp gp p Ht Hpg Hpp k d); auto.
  - apply (clear_beside s ggp gp p Ht Hpg Hpp k d); auto.
  - apply (not_below_fresh s k d (tree_linked s Ht)); [|done].
    apply (linked_parent_lt s k ggp (tree_linked s Ht) Hpk).
Qed.

Lemma outdent_reading_inside ks :
  ks ⊆ getChildren s p →
  ∀ k d, k ∈ ks → changed_below s ggp gp p d → ¬ inSubtree s k d.
Proof.
  intros Hks k d Hk Hd. apply Hks in Hk.
  pose proof (linked_child_parent s (tree_linked s Ht) k p Hk) as Hpk.
  destruct Hd as [Hd | [Hd | [Hd | Hd]]].
  - apply (clear_inside s ggp gp p Ht Hpg Hpp k d); auto.
  - apply (clear_inside s ggp gp p Ht Hpg Hpp k d); auto.
  - apply (clear_inside s ggp gp p Ht Hpg Hpp k d); auto.
  - apply (not_below_fresh s k d (tree_linked s Ht)); [|done].
    apply (linked_parent_lt s k p (tree_linked s Ht) Hpk).
Qed.

(** The reading of the great-grandparent List, taken apart. *)
Lemma outdent_reading_parts l :
  reading s [ggp] l →
  ∃ a1 lp a2, l = own s ggp ++ a1 ++ lp ++ a2
    ∧ reading s g1 a1 ∧ reading s (getChildren s p) lp ∧ reading s g2 a2.
Proof.
  intros H. apply reading_single_inv in H as (l0 & -> & H).
  rewrite Hcg in H. apply reading_app_inv in H as (a1 & l1 & -> & Ha1 & H).
  apply reading_cons_inv in H as (lg & a2 & -> & Hlg & Ha2).
  rewrite outdent_reading_wrapper in Hlg.
  apply reading_single_inv in Hlg as (lp & -> & Hlp).
  exists a1, lp, a2. rewrite (own_item s gp Hkg), (own_list s p Hkp).
  by list_norm.
Qed.

Lemma outdent_reading_same :
  ∀ x, ¬ changed_below s ggp gp p x →
    getChildren s' x = getChildren s x ∧ own s' x = own s x.
Proof.
  intros x Hx. unfold changed_below in Hx.
  assert (x < next_key s) as Hlt by (apply Nat.lt_nge; intros ?; tauto).
  split; [|by apply own_type, HT].
  apply HC; [| |done]; intros ->; tauto.
Qed.

Lemma outdent_reading_hub :
  ∀ d, changed_below s ggp gp p d →
    d = ggp ∨ tc (parentOf s) d ggp ∨ next_key s ≤ d.
Proof.
  intros d [-> | [-> | [-> | Hd]]]; [by left| | |by right; right]; right; left.
  - by apply tc_once.
  - eapply tc_l; [exact Hpp|]. by apply tc_once.
Qed.

Lemma outdent_reading_pieces a1 a2 k1 l1 k2 l2 :
  k1 ++ k2 ⊆ getChildren s p →
  reading s g1 a1 → reading s g2 a2 → reading s k1 l1 → reading s k2 l2 →
  reading s' g1 a1 ∧ reading s' g2 a2 ∧ reading s' k1 l1 ∧ reading s' k2 l2.
Proof.
  intros Hsub Ha1 Ha2 Hl1 Hl2.
  pose proof outdent_reading_same as Hsame.
  split_and!.
  - apply (reading_local s s' (changed_below s ggp gp p) Hsame g1 a1 Ha1).
    apply outdent_reading_beside. intros x Hx. apply elem_of_app. by left.
  - apply (reading_local s s' (changed_below s ggp gp p) Hsame g2 a2 Ha2).
    apply outdent_reading_beside. intros x Hx. apply elem_of_app. by right.
  - apply (reading_local s s' (changed_below s ggp gp p) Hsame k1 l1 Hl1).
    apply outdent_reading_inside. intros x Hx. apply Hsub.
    apply elem_of_app. by left.
  - apply (reading_local s s' (changed_below s ggp gp p) Hsame k2 l2 Hl2).
    apply outdent_reading_inside. intros x Hx. apply Hsub.
    apply elem_of_app. by right.
Qed.

Lemma outdent_reading_kept rest lr :
  getChildren s' p = rest → reading s' rest lr → reading s' [gp] lr.
Proof.
  intros Hcp Hlr.
  destruct outdent_reading_ne as (Hne1 & Hne2 & Hne3 & Htn & Hpn & Hgn & Hggn).
  apply (reading_wrapper s' gp p rest lr); try done.
  - rewrite HC by done. apply outdent_reading_wrapper.
  - rewrite <- Hkg. by apply isListItemNode_old, HT.
  - rewrite <- Hkp. by apply isListNode_old, HT.
Qed.

Lemma outdent_reading_finish l0 l :
  reading s' (getChildren s' ggp) l0 → l = own s ggp ++ l0 →
  reading s' [ggp] l.
Proof.
  intros Hall ->.
  destruct outdent_reading_ne as (Hne1 & Hne2 & Hne3 & Htn & Hpn & Hgn & Hggn).
  apply reading_single in Hall.
  by rewrite (own_type s s' ggp) in Hall by (by apply HT).
Qed.

Lemma outdent_first_reading rest :
  getChildren s p = t :: rest →
  getChildren s' ggp = g1 ++ t :: (if decide (rest = []) then g2 else gp :: g2) →
  getChildren s' p = rest →
  ∀ l, reading s [ggp] l → reading s' [ggp] l.
Proof.
  intros Hc Hcg' Hcp' l H.
  destruct (outdent_reading_parts l H) as (a1 & lp & a2 & -> & Ha1 & Hlp & Ha2).
  rewrite Hc in Hlp.
  apply (reading_app_inv s [t] rest) in Hlp as (lt & lr & -> & Hlt & Hlr).
  destruct (outdent_reading_pieces a1 a2 [t] lt rest lr)
    as (Ha1' & Ha2' & Hlt' & Hlr'); try done.
  { by rewrite Hc. }
  apply (outdent_reading_finish (a1 ++ lt ++ lr ++ a2)); [|by list_norm].
  rewrite Hcg'. apply reading_app; [done|].
  apply (reading_app s' [t]); [done|].
  destruct (decide (rest = [])) as [->|Hr].
  - apply reading_nil_inv in Hlr as ->. by list_norm.
  - apply (reading_app s' [gp] g2); [|done].
    by apply (outdent_reading_kept rest lr).
Qed.

Lemma outdent_last_reading a pre :
  getChildren s p = a :: pre ++ [t] →
  getChildren s' ggp = g1 ++ gp :: t :: g2 →
  getChildren s' p = a :: pre →
  ∀ l, reading s [ggp] l → reading s' [ggp] l.
Proof.
  intros Hc Hcg' Hcp' l H.
  destruct (outdent_reading_parts l H) as (a1 & lp & a2 & -> & Ha1 & Hlp & Ha2).
  rewrite Hc in Hlp.
  apply (reading_app_inv s (a :: pre) [t]) in Hlp as (lr & lt & -> & Hlr & Hlt).
  destruct (outdent_reading_pieces a1 a2 (a :: pre) lr [t] lt)
    as (Ha1' & Ha2' & Hlr' & Hlt'); try done.
  { by rewrite Hc. }
  apply (outdent_reading_finish (a1 ++ lr ++ lt ++ a2)); [|by list_norm].
  rewrite Hcg'. apply reading_app; [done|].
  apply (reading_app s' [gp] (t :: g2)).
  - by apply (outdent_reading_kept (a :: pre) lr).
  - by apply (reading_app s' [t] g2).
Qed.

Lemma outdent_split_reading pre post w1 i1 w2 i2 :
  getChildren s p = pre ++ t :: post →
  getChildren s' ggp = g1 ++ w1 :: t :: w2 :: g2 →
  getChildren s' w1 = [i1] → getChildren s' i1 = pre →
  getChildren s' w2 = [i2] → getChildren s' i2 = post →
  isListItemNode s' (Some w1) = true → isListNode s' (Some i1) = true →
  isListItemNode s' (Some w2) = true → isListNode s' (Some i2) = true →
  ∀ l, reading s [ggp] l → reading s' [ggp] l.
Proof.
  intros Hc Hcg' Hw1 Hi1 Hw2 Hi2 Hkw1 Hki1 Hkw2 Hki2 l H.
  destruct (outdent_reading_parts l H) as (a1 & lp & a2 & -> & Ha1 & Hlp & Ha2).
  rewrite Hc in Hlp.
  apply reading_app_inv in Hlp as (lpre & lp' & -> & Hlpre & Hlp).
  apply (reading_app_inv s [t] post) in Hlp as (lt & lpost & -> & Hlt & Hlpost).
  destruct (outdent_reading_pieces a1 a2 pre lpre [t] lt)
    as (Ha1' & Ha2' & Hlpre' & Hlt'); try done.
  { rewrite Hc. intros x Hx. apply elem_of_app in Hx as [Hx|Hx].
    - apply elem_of_app. by left.
    - apply list_elem_of_singleton in Hx as ->. apply elem_of_app. right.
      by left. }
  destruct (outdent_reading_pieces a1 a2 post lpost [] [])
    as (_ & _ & Hlpost' & _); try done.
  { rewrite Hc. intros x Hx. rewrite app_nil_r in Hx. apply elem_of_app.
    right. by right. }
  { constructor. }
  apply (outdent_reading_finish (a1 ++ lpre ++ lt ++ lpost ++ a2));
    [|by list_norm].
  rewrite Hcg'. apply reading_app; [done|].
  apply (reading_app s' [w1] (t :: w2 :: g2)).
  { by apply (reading_wrapper s' w1 i1 pre lpre). }
  apply (reading_app s' [t] (w2 :: g2)); [done|].
  apply (reading_app s' [w2] g2); [|done].
  by apply (reading_wrapper s' w2 i2 post lpost).
Qed.
End outdent_reading.

Section indent_reading.
Variables (s s' : EditorState) (t p : nat) (l1 l2 : list nat).
Hypothesis Ht : tree s.
Hypothesis Hw : wrapped s.
Hypothesis Hpt : getParent s t = Some p.
Hypothesis Hcp : getChildren s p = l1 ++ t :: l2.
Hypothesis HT : ∀ x, x < next_key s → node_type s' !! x = node_type s !! x.

Lemma indent_reading_sibling k :
  k ∈ l1 ∨ k ∈ l2 → k ∈ getChildren s p ∧ k ≠ t ∧ getParent s k = Some p.
Proof.
  intros Hk. pose proof (linked_nodup s (tree_linked s Ht) p) as Hnd.
  rewrite Hcp in Hnd. apply NoDup_middle in Hnd as [Hn1 Hn2].
  assert (k ∈ getChildren s p) as Hin.
  { rewrite Hcp. apply elem_of_app. destruct Hk; [by left|right; by right]. }
  split_and!; [done| |by apply (linked_child_parent s (tree_linked s Ht))].
  intros ->. by destruct Hk.
Qed.

Lemma indent_reading_target : t ∈ getChildren s p.
Proof. rewrite Hcp. apply elem_of_app. right. by left. Qed.

Lemma indent_reading_parts l :
  reading s [p] l →
  ∃ a1 lt a2, l = own s p ++ a1 ++ lt ++ a2
    ∧ reading s l1 a1 ∧ reading s [t] lt ∧ reading s l2 a2.
Proof.
  intros H. apply reading_single_inv in H as (l0 & -> & H).
  rewrite Hcp in H. apply reading_app_inv in H as (a1 & l' & -> & Ha1 & H).
  apply (reading_app_inv s [t] l2) in H as (lt & a2 & -> & Hlt & Ha2).
  by exists a1, lt, a2.
Qed.

Lemma indent_reading_finish l0 l :
  reading s' (getChildren s' p) l0 → l = own s p ++ l0 → reading s' [p] l.
Proof.
  intros Hall ->. apply reading_single in Hall.
  rewrite (own_type s s' p) in Hall; [done|]. apply HT.
  apply (linked_parent_lt s t p (tree_linked s Ht) Hpt).
Qed.

(** The target, and the siblings that are not the wrapper, read the same in
    [s']; so do the children of the wrapper's inner List. *)
Lemma indent_reading_pieces w il ks a :
  getParent s w = Some p → getParent s il = Some w →
  (∀ x, ¬ changed_below s p w il x → getChildren s' x = getChildren s x) →
  reading s ks a →
  (∀ k, k ∈ ks → k ∈ getChildren s p ∧ k ≠ w) ∨ ks ⊆ getChildren s il →
  reading s' ks a.
Proof.
  intros Hpw Hpil HC Ha Hks.
  apply (reading_local s s' (changed_below s p w il)); [|done|].
  - intros x Hx. split; [by apply HC|]. apply own_type, HT.
    unfold changed_below in Hx. apply Nat.lt_nge. intros ?. tauto.
  - destruct Hks as [Hks|Hks].
    + by apply (nest_beside s p w il Ht Hpw Hpil).
    + by apply (nest_inside s p w il Ht Hpw Hpil).
Qed.

Lemma indent_previous_reading A La l1' :
  l1 = l1' ++ [A] →
  isNestedListNode s (Some A) = true →
  getFirstChild s A = Some La →
  getChildren s' La = getChildren s La ++ [t] →
  getChildren s' p = l1' ++ A :: l2 →
  (∀ x, x ≠ La → x ≠ p → getChildren s' x = getChildren s x) →
  ∀ l, reading s [p] l → reading s' [p] l.
Proof.
  intros Hl1 HA HLa HcLa HcP HC l H.
  pose proof (tree_linked s Ht) as Hl.
  destruct (isNestedListNode_inv s A HA) as (HkA & La' & HLa' & HkLa).
  rewrite HLa in HLa'. injection HLa' as <-.
  pose proof (first_child_parent s A La Hl HLa) as HpLa.
  destruct (indent_reading_sibling A) as (HAin & HAt & HpA).
  { left. rewrite Hl1. apply elem_of_app. right. by left. }
  destruct (indent_reading_parts l H) as (a1 & lt & a2 & -> & Ha1 & Hlt & Ha2).
  rewrite Hl1 in Ha1.
  apply reading_app_inv in Ha1 as (a1' & la & -> & Ha1' & Hla).
  apply (nest_reading s A La Ht HpLa la Hw HkA HkLa) in Hla.
  assert (∀ x, ¬ changed_below s p A La x → getChildren s' x = getChildren s x)
    as HC'.
  { intros x Hx. unfold changed_below in Hx. apply HC; intros ->; tauto. }
  pose proof (linked_nodup s Hl p) as Hnd. rewrite Hcp, Hl1 in Hnd.
  rewrite <- app_assoc in Hnd. apply NoDup_middle in Hnd as [HA1 HA2].
  assert (reading s' l1' a1') as R1.
  { apply (indent_reading_pieces A La l1' a1' HpA HpLa HC' Ha1'). left.
    intros k Hk. split; [|by intros ->].
    apply indent_reading_sibling. left. rewrite Hl1. apply elem_of_app.
    by left. }
  assert (reading s' l2 a2) as R2.
  { apply (indent_reading_pieces A La l2 a2 HpA HpLa HC' Ha2). left.
    intros k Hk. split; [by apply indent_reading_sibling; right|].
    intros ->. apply HA2. by right. }
  assert (reading s' [t] lt) as R3.
  { apply (indent_reading_pieces A La [t] lt HpA HpLa HC' Hlt). left.
    intros k Hk. apply list_elem_of_singleton in Hk as ->.
    split; [apply indent_reading_target|done]. }
  assert (reading s' (getChildren s La) la) as R4.
  { apply (indent_reading_pieces A La _ la HpA HpLa HC' Hla). by right. }
  destruct (linked_parent_lt s La A Hl HpLa) as [HLan HAn].
  assert (reading s' [A] (la ++ lt)) as R5.
  { apply (reading_wrapper s' A La (getChildren s La ++ [t])); try done.
    - rewrite HC.
      + by apply (nest_children s A La Ht HpLa Hw HkA HkLa).
      + intros ->. by apply (tree_parent_ne s La La Ht).
      + intros ->. by apply (tree_parent_ne s p p Ht).
    - rewrite <- HkA. by apply isListItemNode_old, HT.
    - rewrite <- HkLa. by apply isListNode_old, HT.
    - by apply reading_app. }
  apply (indent_reading_finish (a1' ++ (la ++ lt) ++ a2)); [|by list_norm].
  rewrite HcP. apply reading_app; [done|]. by apply (reading_app s' [A] l2).
Qed.

Lemma indent_next_reading C Lc l2' :
  l2 = C :: l2' →
  isNestedListNode s (Some C) = true →
  getFirstChild s C = Some Lc →
  getChildren s' Lc = t :: getChildren s Lc →
  getChildren s' p = l1 ++ C :: l2' →
  (∀ x, x ≠ Lc → x ≠ p → getChildren s' x = getChildren s x) →
  ∀ l, reading s [p] l → reading s' [p] l.
Proof.
  intros Hl2 HC' HLc HcLc HcP HC l H.
  pose proof (tree_linked s Ht) as Hl.
  destruct (isNestedListNode_inv s C HC') as (HkC & Lc' & HLc' & HkLc).
  rewrite HLc in HLc'. injection HLc' as <-.
  pose proof (first_child_parent s C Lc Hl HLc) as HpLc.
  destruct (indent_reading_sibling C) as (HCin & HCt & HpC).
  { right. rewrite Hl2. by left. }
  destruct (indent_reading_parts l H) as (a1 & lt & a2 & -> & Ha1 & Hlt & Ha2).
  rewrite Hl2 in Ha2.
  apply (reading_app_inv s [C] l2') in Ha2 as (lc & a2' & -> & Hlc & Ha2').
  apply (nest_reading s C Lc Ht HpLc lc Hw HkC HkLc) in Hlc.
  assert (∀ x, ¬ changed_below s p C Lc x → getChildren s' x = getChildren s x)
    as HCx.
  { intros x Hx. unfold changed_below in Hx. apply HC; intros ->; tauto. }
  pose proof (linked_nodup s Hl p) as Hnd. rewrite Hcp, Hl2 in Hnd.
  rewrite (cons_middle t l1 (C :: l2')), app_assoc in Hnd.
  apply NoDup_middle in Hnd as [HC1 HC2].
  assert (reading s' l1 a1) as R1.
  { apply (indent_reading_pieces C Lc l1 a1 HpC HpLc HCx Ha1). left.
    intros k Hk. split; [by apply indent_reading_sibling; left|].
    intros ->. apply HC1. apply elem_of_app. by left. }
  assert (reading s' l2' a2') as R2.
  { apply (indent_reading_pieces C Lc l2' a2' HpC HpLc HCx Ha2'). left.
    intros k Hk. split; [|by intros ->].
    apply indent_reading_sibling. right. rewrite Hl2. by right. }
  assert (reading s' [t] lt) as R3.
  { apply (indent_reading_pieces C Lc [t] lt HpC HpLc HCx Hlt). left.
    intros k Hk. apply list_elem_of_singleton in Hk as ->.
    split; [apply indent_reading_target|done]. }
  assert (reading s' (getChildren s Lc) lc) as R4.
  { apply (indent_reading_pieces C Lc _ lc HpC HpLc HCx Hlc). by right. }
  assert (reading s' [C] (lt ++ lc)) as R5.
  { apply (reading_wrapper s' C Lc (t :: getChildren s Lc)); try done.
    - rewrite HC.
      + by apply (nest_children s C Lc Ht HpLc Hw HkC HkLc).
      + intros ->. by apply (tree_parent_ne s Lc Lc Ht).
      + intros ->. by apply (tree_parent_ne s p p Ht).
    - rewrite <- HkC. apply isListItemNode_old, HT.
      apply (linked_parent_lt s C p Hl HpC).
    - rewrite <- HkLc. apply isListNode_old, HT.
      apply (linked_parent_lt s Lc C Hl HpLc).
    - by apply (reading_app s' [t]). }
  apply (indent_reading_finish (a1 ++ (lt ++ lc) ++ a2')); [|by list_norm].
  rewrite HcP. apply reading_app; [done|]. by apply (reading_app s' [C] l2').
Qed.

Lemma indent_new_reading w il :
  next_key s ≤ w → next_key s ≤ il →
  getChildren s' p = l1 ++ w :: l2 →
  getChildren s' w = [il] → getChildren s' il = [t] →
  isListItemNode s' (Some w) = true → isListNode s' (Some il) = true →
  (∀ x, x ≠ p → x < next_key s → getChildren s' x = getChildren s x) →
  ∀ l, reading s [p] l → reading s' [p] l.
Proof.
  intros Hwn Hiln HcP Hcw Hcil Hkw Hkil HC l H.
  pose proof (tree_linked s Ht) as Hl.
  destruct (indent_reading_parts l H) as (a1 & lt & a2 & -> & Ha1 & Hlt & Ha2).
  assert (∀ ks a, reading s ks a → ks ⊆ getChildren s p → reading s' ks a)
    as Hloc.
  { intros ks a Ha Hks.
    apply (reading_local s s' (λ d, d = p ∨ next_key s ≤ d)); [|done|].
    - intros x Hx.
      assert (x < next_key s) as Hxn by (apply Nat.lt_nge; intros ?; tauto).
      split; [apply HC; [|done]; intros ->; tauto|by apply own_type, HT].
    - intros k d Hk Hd. apply Hks in Hk.
      pose proof (linked_child_parent s Hl k p Hk) as Hpk.
      destruct Hd as [->|Hd].
      + apply (not_below_itself s k p Ht). by apply tc_once.
      + apply (not_below_fresh s k d Hl); [|done].
        apply (linked_parent_lt s k p Hl Hpk). }
  assert (reading s' l1 a1) as R1.
  { apply (Hloc l1 a1 Ha1). intros x Hx.
    by apply indent_reading_sibling; left. }
  assert (reading s' l2 a2) as R2.
  { apply (Hloc l2 a2 Ha2). intros x Hx.
    by apply indent_reading_sibling; right. }
  assert (reading s' [t] lt) as R3.
  { apply (Hloc [t] lt Hlt). intros x Hx.
    apply list_elem_of_singleton in Hx as ->. apply indent_reading_target. }
  assert (reading s' [w] lt) as R5.
  { by apply (reading_wrapper s' w il [t]). }
  apply (indent_reading_finish (a1 ++ lt ++ a2)); [|by list_norm].
  rewrite HcP. apply reading_app; [done|]. by apply (reading_app s' [w] l2).
Qed.

Lemma indent_merge_reading A La C Lc l1' l2' :
  l1 = l1' ++ [A] → l2 = C :: l2' →
  isNestedListNode s (Some A) = true →
  isNestedListNode s (Some C) = true →
  getFirstChild s A = Some La →
  getFirstChild s C = Some Lc →
  getChildren s' La = getChildren s La ++ t :: getChildren s Lc →
  getChildren s' C = [] →
  getChildren s' p = l1' ++ A :: C :: l2' →
  (∀ x, x ≠ La → x ≠ Lc → x ≠ C → x ≠ p →
        getChildren s' x = getChildren s x) →
  ∀ l, reading s [p] l → reading s' [p] l.
Proof.
  intros Hl1 Hl2 HA HC' HLa HLc HcLa HcC HcP HC l H.
  pose proof (tree_linked s Ht) as Hl.
  destruct (isNestedListNode_inv s A HA) as (HkA & La' & HLa' & HkLa).
  rewrite HLa in HLa'. injection HLa' as <-.
  destruct (isNestedListNode_inv s C HC') as (HkC & Lc' & HLc' & HkLc).
  rewrite HLc in HLc'. injection HLc' as <-.
  pose proof (first_child_parent s A La Hl HLa) as HpLa.
  pose proof (first_child_parent s C Lc Hl HLc) as HpLc.
  destruct (indent_reading_sibling A) as (HAin & HAt & HpA).
  { left. rewrite Hl1. apply elem_of_app. right. by left. }
  destruct (indent_reading_sibling C) as (HCin & HCt & HpC).
  { right. rewrite Hl2. by left. }
  destruct (indent_reading_parts l H) as (a1 & lt & a2 & -> & Ha1 & Hlt & Ha2).
  rewrite Hl1 in Ha1. rewrite Hl2 in Ha2.
  apply reading_app_inv in Ha1 as (a1' & la & -> & Ha1' & Hla).
  apply (nest_reading s A La Ht HpLa la Hw HkA HkLa) in Hla.
  apply (reading_app_inv s [C] l2') in Ha2 as (lc & a2' & -> & Hlc & Ha2').
  apply (nest_reading s C Lc Ht HpLc lc Hw HkC HkLc) in Hlc.
  pose proof (linked_nodup s Hl p) as Hnd. rewrite Hcp, Hl1, Hl2 in Hnd.
  assert (A ≠ C ∧ (A ∉ l1') ∧ (A ∉ l2') ∧ (C ∉ l1') ∧ (C ∉ l2'))
    as (HAC & HA1 & HA2 & HC1 & HC2).
  { pose proof Hnd as Hnd1. rewrite <- app_assoc in Hnd1.
    apply NoDup_middle in Hnd1 as [HA1 HA2].
    pose proof Hnd as Hnd2.
    rewrite (cons_middle t (l1' ++ [A]) (C :: l2')), app_assoc in Hnd2.
    apply NoDup_middle in Hnd2 as [HC1 HC2].
    split_and!; try done.
    - intros ->. apply HA2. right. by left.
    - intros Hx. apply HA2. right. by right.
    - intros Hx. apply HC1. apply elem_of_app. left. apply elem_of_app.
      by left. }
  set (D := λ d, changed_below s p A La d ∨ changed_below s p C Lc d).
  assert (∀ x, ¬ D x → getChildren s' x = getChildren s x ∧ own s' x = own s x)
    as Hsame.
  { intros x Hx. unfold D, changed_below in Hx.
    assert (x < next_key s) as Hxn by (apply Nat.lt_nge; intros ?; tauto).
    split; [apply HC; intros ->; tauto|by apply own_type, HT]. }
  assert (∀ ks a, reading s ks a →
            (∀ k, k ∈ ks → k ∈ getChildren s p ∧ k ≠ A ∧ k ≠ C) →
            reading s' ks a) as Hbeside.
  { intros ks a Ha Hks. apply (reading_local s s' D Hsame ks a Ha).
    intros k d Hk [Hd|Hd].
    - apply (nest_beside s p A La Ht HpA HpLa ks); try done.
      intros k' Hk'. destruct (Hks k' Hk') as (? & ? & ?). by split.
    - apply (nest_beside s p C Lc Ht HpC HpLc ks); try done.
      intros k' Hk'. destruct (Hks k' Hk') as (? & ? & ?). by split. }
  assert (reading s' l1' a1') as R1.
  { apply (Hbeside l1' a1' Ha1'). intros k Hk. split_and!.
    - apply indent_reading_sibling. left. rewrite Hl1. apply elem_of_app.
      by left.
    - by intros ->.
    - by intros ->. }
  assert (reading s' l2' a2') as R2.
  { apply (Hbeside l2' a2' Ha2'). intros k Hk. split_and!.
    - apply indent_reading_sibling. right. rewrite Hl2. by right.
    - by intros ->.
    - by intros ->. }
  assert (reading s' [t] lt) as R3.
  { apply (Hbeside [t] lt Hlt). intros k Hk.
    apply list_elem_of_singleton in Hk as ->.
    split_and!; [apply indent_reading_target|done|done]. }
  assert (reading s' (getChildren s La) la) as R4.
  { apply (reading_local s s' D Hsame _ la Hla). intros k d Hk [Hd|Hd].
    - by apply (nest_inside s p A La Ht HpA HpLa (getChildren s La)).
    - by apply (nest_other s p A La Ht HpA HpLa (getChildren s La) C Lc). }
  assert (reading s' (getChildren s Lc) lc) as R5.
  { apply (reading_local s s' D Hsame _ lc Hlc). intros k d Hk [Hd|Hd].
    - by apply (nest_other s p C Lc Ht HpC HpLc (getChildren s Lc) A La).
    - by apply (nest_inside s p C Lc Ht HpC HpLc (getChildren s Lc)). }
  assert (reading s' [A] (la ++ lt ++ lc)) as R6.
  { apply (reading_wrapper s' A La (getChildren s La ++ t :: getChildren s Lc));
      try done.
    - rewrite HC.
      + by apply (nest_children s A La Ht HpLa Hw HkA HkLa).
      + intros ->. by apply (tree_parent_ne s La La Ht).
      + intros E. apply (tree_parent_ne s C p Ht HpC). congruence.
      + done.
      + intros ->. by apply (tree_parent_ne s p p Ht).
    - rewrite <- HkA. apply isListItemNode_old, HT.
      apply (linked_parent_lt s A p Hl HpA).
    - rewrite <- HkLa. apply isListNode_old, HT.
      apply (linked_parent_lt s La A Hl HpLa).
    - apply reading_app; [done|]. by apply (reading_app s' [t]). }
  assert (reading s' [C] []) as R7.
  { assert (isListItemNode s' (Some C) = true) as HkC'.
    { rewrite <- HkC. apply isListItemNode_old, HT.
      apply (linked_parent_lt s C p Hl HpC). }
    assert (reading s' (getChildren s' C) []) as Hnil.
    { rewrite HcC. constructor. }
    apply reading_single in Hnil.
    by rewrite (own_item s' C HkC') in Hnil. }
  apply (indent_reading_finish (a1' ++ (la ++ lt ++ lc) ++ [] ++ a2'));
    [|by list_norm].
  rewrite HcP. apply reading_app; [done|].
  apply (reading_app s' [A] (C :: l2')); [done|].
  by apply (reading_app s' [C] l2').
Qed.
End indent_reading.

(** ** Reading below a node that is not nested *)

Section unnested_reading.
Implicit Types (s : EditorState) (k h r d : nat) (ks l : list nat).

(** As [reading_transfer], for a forest whose nodes reach a changed node
    only through [h]. *)
Lemma reading_transfer_top s s' h (D : nat → Prop) :
  tree s →
  (∀ x, ¬ D x → getChildren s' x = getChildren s x ∧ own s' x = own s x) →
  (∀ d, D d → d = h ∨ tc (parentOf s) d h ∨ next_key s ≤ d) →
  (∀ l, reading s [h] l → reading s' [h] l) →
  ∀ ks l, reading s ks l →
    (∀ k, k ∈ ks →
       k < next_key s
       ∧ ∀ d, D d → d ≠ h → inSubtree s k d → k ≠ d ∧ inSubtree s k h) →
    reading s' ks l.
Proof.
  intros Ht Hsame HD Hh ks l H. pose proof (tree_linked s Ht) as Hl.
  induction H as [|k ks a b Ha IHa Hb IHb]; intros Hinv; [constructor|].
  assert (reading s' ks b) as Hb'.
  { apply IHb. intros c Hc. apply Hinv. by right. }
  destruct (Hinv k) as [Hkn Hk]; [by left|].
  destruct (decide (k = h)) as [->|Hne].
  - pose proof (Hh _ (reading_single s h a Ha)) as H1.
    pose proof (reading_app s' [h] ks _ _ H1 Hb') as H2.
    simpl in H2. by rewrite <- app_assoc in H2.
  - assert (¬ D k) as HDk.
    { intros Hd. by destruct (Hk k Hd Hne (rtc_refl _ _)). }
    destruct (Hsame k HDk) as [Hc Ho]. rewrite <- Ho.
    apply reading_cons; [|done]. rewrite Hc. apply IHa.
    intros c Hc'. pose proof (linked_child_parent s Hl c k Hc') as Hck.
    split; [apply (linked_child_lt s c k Hl Hc')|].
    intros d Hd Hdh Hin.
    assert (inSubtree s k d) as Hkd by (by eapply rtc_l).
    destruct (Hk d Hd Hdh Hkd) as [Hkd' Hkh].
    apply (inSubtree_parent_chain s k h Hl) in Hkh.
    destruct (HD d Hd) as [?|[Hdh'|Hfresh]]; [done| |].
    2: { exfalso. apply (not_below_fresh s c d Hl); [|done|done].
         apply (linked_child_lt s c k Hl Hc'). }
    pose proof Hin as Hdc. apply (inSubtree_parent_chain s c d Hl) in Hdc.
    assert (rtc (parentOf s) h c) as Hhc.
    { destruct (parent_chain_comparable s d h c) as [Hhc|Hch];
        [by apply tc_rtc|done|done|].
      apply rtc_inv in Hch as [->|(k' & Hck' & Hk'h)]; [apply rtc_refl|].
      rewrite (parentOf_functional s c k' k Hck' Hck) in Hk'h.
      exfalso. apply rtc_tc in Hk'h as [->|Hk'h]; [done|].
      apply (tree_ancestor_ne s k k Ht); [|done]. by eapply tc_rtc_r. }
    split; [|by apply (inSubtree_parent_chain s c h Hl)].
    intros ->. apply (tree_ancestor_ne s d d Ht); [|done]. by eapply tc_rtc_r.
Qed.

Lemma reading_top s s' h (D : nat → Prop) :
  tree s →
  (∀ x, ¬ D x → getChildren s' x = getChildren s x ∧ own s' x = own s x) →
  (∀ d, D d → d = h ∨ tc (parentOf s) d h ∨ next_key s ≤ d) →
  (∀ l, reading s [h] l → reading s' [h] l) →
  ∀ r l, r < next_key s →
    (∀ d, D d → d ≠ h → inSubtree s r d → r ≠ d ∧ inSubtree s r h) →
    reading s [r] l → reading s' [r] l.
Proof.
  intros Ht Hsame HD Hh r l Hrn Hinv H.
  apply (reading_transfer_top s s' h D Ht Hsame HD Hh [r] l H).
  intros k Hk. apply list_elem_of_singleton in Hk as ->. by split.
Qed.

(** A node that is not nested reaches a wrapper below [h], or its inner
    List, only through [h]. *)
Lemma nest_unnested s h w il r d :
  tree s → parentOf s w h → parentOf s il w →
  isListItemNode s (Some w) = true →
  unnested s r →
  changed_below s h w il d → d ≠ h → inSubtree s r d →
  r ≠ d ∧ inSubtree s r h.
Proof.
  intros Ht Hw Hil Hkw [Hrn Hr] Hd Hdh Hin.
  pose proof (tree_linked s Ht) as Hl.
  assert (r ≠ w) as Hrw.
  { intros ->. destruct Hr as [Hr|[Hr _]]; unfold parentOf in Hw; congruence. }
  assert (r ≠ il) as Hril.
  { intros ->. unfold parentOf in Hil.
    destruct Hr as [Hr|[_ Hr]]; [congruence|]. rewrite Hil in Hr. congruence. }
  assert (rtc (parentOf s) w r → inSubtree s r h) as Hup.
  { intros Hwr. apply (inSubtree_parent_chain s r h Hl).
    apply rtc_inv in Hwr as [->|(h' & Hwh' & Hh'r)]; [done|].
    by rewrite (parentOf_functional s w h' h Hwh' Hw) in Hh'r. }
  apply (inSubtree_parent_chain s r d Hl) in Hin.
  destruct Hd as [->|[->|[->|Hfresh]]]; [done| | |].
  - split; [done|]. by apply Hup.
  - split; [done|]. apply Hup.
    apply rtc_inv in Hin as [->|(w' & Hilw' & Hw'r)]; [done|].
    by rewrite (parentOf_functional s il w' w Hilw' Hil) in Hw'r.
  - exfalso. apply (not_below_fresh s r d Hl Hrn Hfresh).
    by apply (inSubtree_parent_chain s r d Hl).
Qed.

Lemma unnested_kept s s' r :
  linked s → unnested s r →
  next_key s ≤ next_key s' →
  (∀ x, x < next_key s → node_type s' !! x = node_type s !! x) →
  (getParent s r = None → getParent s' r = None) →
  getParent s' r = getParent s r ∨ getParent s' r = None
  ∨ (∃ q, getParent s' r = Some q ∧ isListNode s' (Some q) = true) →
  unnested s' r.
Proof.
  intros Hl [Hrn Hr] Hk HT Hroot Hcase. split; [lia|].
  destruct Hr as [Hr|[Hki Hkp]]; [left; by apply Hroot|].
  destruct Hcase as [Hsame|[Hnone|(q & Hq & Hkq)]]; [|by left|].
  - right. split.
    + rewrite <- Hki. by apply isListItemNode_old, HT.
    + rewrite Hsame. destruct (getParent s r) as [q|] eqn:Hq; [|done].
      rewrite <- Hkp. apply isListItemNode_old, HT.
      apply (linked_parent_lt s r q Hl Hq).
  - right. split.
    + rewrite <- Hki. by apply isListItemNode_old, HT.
    + rewrite Hq. by apply isListNode_not_item.
Qed.

Lemma unnested_same s s' r :
  (∀ x, getParent s' x = getParent s x) → node_type s' = node_type s →
  next_key s' = next_key s → unnested s r → unnested s' r.
Proof.
  intros HP HT HK [Hrn Hr]. split; [lia|]. rewrite HP.
  by rewrite (isListItemNode_type s s'), (isListItemNode_type s s').
Qed.
End unnested_reading.

(** ** The transforms keep the reading of a node that is not nested *)

Section reading_steps.
Implicit Types (s : EditorState) (t r : nat) (l : list nat).

Lemma old_types_same s s' :
  node_type s' = node_type s →
  ∀ x, x < next_key s → node_type s' !! x = node_type s !! x.
Proof. intros HT x _. by rewrite HT. Qed.

Lemma outdent_reading_step t s r l :
  tree s → wrapped s → unnested s r →
  reading s [r] l →
  ∃ s', outdentListItem t s = Some s' ∧ reading s' [r] l ∧ unnested s' r.
Proof.
  intros Ht Hw Hu H. pose proof (tree_linked s Ht) as Hl.
  destruct (isNestedListNode s (Some t)) eqn:Hnested.
  { exists s. split_and!; [|done|done]. unfold outdentListItem.
    by rewrite Hnested. }
  destruct (validAncestry s t) eqn:Hv.
  2: { exists s. split_and!; [|done|done]. by apply outdentListItem_invalid. }
  destruct (validAncestry_inv s t Hv)
    as (p & gp & ggp & Hpt & Hpp & Hpg & Hkp & Hkg & Hkgg).
  destruct (linked_child_shape s t p Hl Hpt) as (l1 & l2 & Hc & Hn1 & Hn2).
  destruct (linked_child_shape s gp ggp Hl Hpg) as (g1 & g2 & Hcg & Hg1 & Hg2).
  pose proof (tree_valid_ancestry_ne s t p gp ggp Ht Hpt Hpp Hpg) as Hne.
  destruct (linked_parent_lt s t p Hl Hpt) as [Htn Hpn].
  destruct (linked_parent_lt s gp ggp Hl Hpg) as [Hgn Hggn].
  pose proof Hu as [Hrn _].
  assert (∀ s', (∀ x, x < next_key s → node_type s' !! x = node_type s !! x) →
            (∀ x, x ≠ ggp → x ≠ p → x < next_key s →
                  getChildren s' x = getChildren s x) →
            (∀ l, reading s [ggp] l → reading s' [ggp] l) →
            reading s' [r] l) as Hroot.
  { intros s' HT HC Hhub.
    apply (reading_top s s' ggp (changed_below s ggp gp p) Ht); try done.
    - by apply (outdent_reading_same s s' p gp ggp).
    - by apply (outdent_reading_hub s p gp ggp).
    - intros d. by apply (nest_unnested s ggp gp p r d). }
  assert (∀ s', (∀ x, x < next_key s → node_type s' !! x = node_type s !! x) →
            next_key s ≤ next_key s' →
            (∀ x, x < next_key s → getParent s x = None →
                  getParent s' x = None) →
            (∀ x, x < next_key s →
               getParent s' x = getParent s x ∨ getParent s' x = None
               ∨ (∃ q, getParent s' x = Some q ∧ isListNode s' (Some q) = true)) →
            unnested s' r) as Hkept.
  { intros s' HT HK Hr1 Hr2.
    apply (unnested_kept s s' r Hl Hu HK HT); [by apply Hr1|by apply Hr2]. }
  destruct l1 as [|a pre].
  - destruct (outdent_first_effect s t p gp ggp g1 g2 Hl Hnested Hpt Hpp Hpg
                Hkp Hkg Hkgg Hcg Hne l2 Hc) as (s' & Hs' & HP & HC & HT & HK).
    exists s'. split; [done|].
    assert (∀ x, x ≠ ggp → x ≠ p → x < next_key s →
              getChildren s' x = getChildren s x) as HC'.
    { intros x Hx1 Hx2 _. rewrite HC. by rewrite !decide_False. }
    split.
    + apply Hroot; [by apply old_types_same|done|].
      apply (outdent_first_reading s s' t p gp ggp g1 g2) with (rest := l2);
        try done.
      * by apply old_types_same.
      * rewrite HC. by rewrite decide_True.
      * rewrite HC. rewrite decide_False by done. by rewrite decide_True.
    + apply Hkept; [by apply old_types_same|lia| |].
      * intros x _ Hx. rewrite HP.
        rewrite decide_False by congruence.
        by destruct (decide (x = gp ∧ l2 = [])).
      * intros x _. rewrite HP. destruct (decide (x = t)) as [->|?].
        { right. right. exists ggp. split; [done|].
          by rewrite (isListNode_type s s'). }
        destruct (decide (x = gp ∧ l2 = [])); [right; by left|by left].
  - destruct l2 as [|b post].
    + destruct (outdent_last_effect s t p gp ggp g1 g2 Hl Hnested Hpt Hpp Hpg
                  Hkp Hkg Hkgg Hcg Hne a pre Hc)
        as (s' & Hs' & HP & HC & HT & HK).
      exists s'. split; [done|].
      assert (∀ x, x ≠ ggp → x ≠ p → x < next_key s →
                getChildren s' x = getChildren s x) as HC'.
      { intros x Hx1 Hx2 _. rewrite HC. by rewrite !decide_False. }
      split.
      * apply Hroot; [by apply old_types_same|done|].
        apply (outdent_last_reading s s' t p gp ggp g1 g2)
          with (a := a) (pre := pre); try done.
        -- by apply old_types_same.
        -- rewrite HC. by rewrite decide_True.
        -- rewrite HC. rewrite decide_False by done. by rewrite decide_True.
      * apply Hkept; [by apply old_types_same|lia| |].
        -- intros x _ Hx. rewrite HP. by rewrite decide_False by congruence.
        -- intros x _. rewrite HP. destruct (decide (x = t)) as [->|?];
             [|by left].
           right. right. exists ggp. split; [done|].
           by rewrite (isListNode_type s s').
    + destruct (outdent_split_effect s t p gp ggp g1 g2 Hl Hnested Hpt Hpp Hpg
                  Hkp Hkg Hkgg Hcg Hne (a :: pre) (b :: post) Hc)
        as (s' & Hs' & HP & HC & HT & HK); [done|done|].
      exists s'. split; [done|].
      assert (∀ x, x < next_key s → node_type s' !! x = node_type s !! x) as HT'.
      { intros x Hx. rewrite HT. by rewrite !decide_False by lia. }
      assert (∀ x, x ≠ ggp → x ≠ p → x < next_key s →
                getChildren s' x = getChildren s x) as HC'.
      { intros x Hx1 Hx2 Hx3. rewrite HC. rewrite decide_False by done.
        by rewrite !decide_False by lia. }
      assert (isListNode s' (Some (S (next_key s))) = true) as Hk1.
      { unfold isListNode. rewrite HT. rewrite decide_False by lia.
        by rewrite decide_True by lia. }
      assert (isListNode s' (Some (S (S (S (next_key s))))) = true) as Hk3.
      { unfold isListNode. rewrite HT. rewrite decide_False by lia.
        by rewrite decide_True by lia. }
      split.
      * apply Hroot; [done|done|].
        apply (outdent_split_reading s s' t p gp ggp g1 g2)
          with (pre := a :: pre) (post := b :: post)
               (w1 := next_key s) (i1 := S (next_key s))
               (w2 := S (S (next_key s))) (i2 := S (S (S (next_key s))));
          try done.
        -- rewrite HC. by rewrite decide_True.
        -- rewrite HC. rewrite decide_False by lia. by rewrite decide_True.
        -- rewrite HC. rewrite !decide_False by lia. by rewrite decide_True.
        -- rewrite HC. rewrite !decide_False by lia. by rewrite decide_True.
        -- rewrite HC. rewrite !decide_False by lia. by rewrite decide_True.
        -- unfold isListItemNode. rewrite HT. by rewrite decide_True by lia.
        -- unfold isListItemNode. rewrite HT. by rewrite decide_True by lia.
      * assert (∀ x, x ∈ a :: pre ∨ x ∈ b :: post → getParent s x = Some p)
          as Hsib.
        { intros x Hx. apply (linked_child_parent s Hl). rewrite Hc.
          destruct Hx as [Hx|Hx]; apply elem_of_app; [by left|right; by right]. }
        apply Hkept; [done|lia| |].
        -- intros x Hxn Hx. rewrite HP.
           rewrite decide_False by congruence.
           rewrite decide_False by (intros Hin; rewrite Hsib in Hx;
                                    [done|by left]).
           rewrite decide_False by (intros Hin; rewrite Hsib in Hx;
                                    [done|by right]).
           rewrite !decide_False by lia.
           by destruct (decide (x = gp)).
        -- intros x Hxn. rewrite HP.
           destruct (decide (x = t)) as [->|?].
           { right. right. exists ggp. split; [done|].
             rewrite <- Hkgg. by apply isListNode_old, HT'. }
           destruct (decide (x ∈ a :: pre)).
           { right. right. by exists (S (next_key s)). }
           destruct (decide (x ∈ b :: post)).
           { right. right. by exists (S (S (S (next_key s)))). }
           rewrite !decide_False by lia.
           destruct (decide (x = gp)); [right; by left|by left].
Qed.
Lemma indent_reading_step t s r l :
  tree s → wrapped s → unnested s r →
  reading s [r] l →
  ∃ s', indentListItem t s = Some s' ∧ reading s' [r] l ∧ unnested s' r.
Proof.
  intros Ht Hw Hu H. pose proof (tree_linked s Ht) as Hl.
  destruct (isNestedListNode s (Some t)) eqn:Hnested.
  { exists s. split_and!; [|done|done]. unfold indentListItem.
    by rewrite Hnested. }
  destruct (getParent s t) as [p|] eqn:Hpt.
  2: { exists s. split_and!; [|done|done]. apply indentListItem_no_list.
       - by rewrite Hpt.
       - by rewrite getNextSibling_None_parent.
       - by rewrite getPreviousSibling_None_parent. }
  destruct (linked_child_shape s t p Hl Hpt) as (l1 & l2 & Hcp & Hn1 & Hn2).
  pose proof (getPreviousSibling_shape s t p l1 l2 Hpt Hcp Hn1) as Eprev.
  pose proof (getNextSibling_shape s t p l1 l2 Hpt Hcp Hn1) as Enext.
  pose proof (tree_parent_ne s t p Ht Hpt) as Htp.
  destruct (linked_parent_lt s t p Hl Hpt) as [Htn Hpn].
  pose proof Hu as [Hrn _].
  assert (∀ s' il,
            (∀ x, x < next_key s → node_type s' !! x = node_type s !! x) →
            next_key s ≤ next_key s' →
            isListNode s' (Some il) = true →
            (∀ x, x < next_key s → x ≠ t →
               getParent s' x = getParent s x ∨ getParent s' x = None
               ∨ getParent s' x = Some il) →
            (∀ x, x < next_key s → getParent s x = None →
               getParent s' x = None) →
            getParent s' t = Some il →
            unnested s' r) as Hkept.
  { intros s' il HT HK Hkil Hr2 Hr1 Hpt'.
    apply (unnested_kept s s' r Hl Hu HK HT); [by apply Hr1|].
    destruct (decide (r = t)) as [->|Hrt].
    - right. right. by exists il.
    - destruct (Hr2 r Hrn Hrt) as [?|[?|?]]; [by left|right; by left|].
      right. right. by exists il. }
  destruct (isNestedListNode s (getNextSibling s t)) eqn:Hnn;
    destruct (isNestedListNode s (getPreviousSibling s t)) eqn:Hnp.
  - (* merge *)
    destruct (getNextSibling s t) as [C|] eqn:EC; [|done].
    destruct (getPreviousSibling s t) as [A|] eqn:EA; [|done].
    symmetry in Eprev. apply last_Some in Eprev as (l1' & Hl1).
    destruct l2 as [|C' l2']; [done|]. injection Enext as <-.
    destruct (isNestedListNode_inv _ _ Hnn) as (HkC & Lc & HLc & HkLc).
    destruct (isNestedListNode_inv _ _ Hnp) as (HkA & La & HLa & HkLa).
    pose proof (previous_sibling_parent s t A p Hl EA Hpt) as HpA.
    pose proof (next_sibling_parent s t C p Hl EC Hpt) as HpC.
    pose proof (first_child_parent s A La Hl HLa) as HpLa.
    pose proof (first_child_parent s C Lc Hl HLc) as HpLc.
    pose proof (siblings_distinct s t p A C Hl Hpt EA EC) as HAC.
    destruct (tree_sibling_inner_ne s t p A La Ht Hpt HpA HLa) as [HpLa' HtLa].
    destruct (tree_sibling_inner_ne s t p C Lc Ht Hpt HpC HLc) as [HpLc' HtLc].
    destruct (tree_item_ne_inner s t p C Lc Ht Hpt HpC HLc) as [HCLc HCp].
    assert (t ≠ A) as HtA by (intros ->; congruence).
    assert (t ≠ C) as HtC by (intros ->; congruence).
    assert (La ≠ Lc) as HLL by (intros ->; congruence).
    assert (C ≠ La) as HCLa.
    { intros ->. rewrite HpC in HpLa. injection HpLa as ->.
      by apply (tree_parent_ne s A A Ht HpA). }
    destruct (indent_merge_effect s t p Hl Hnested Hpt A C La Lc)
      as (s' & Hs' & HP & HC & HT & HK); try done.
    exists s'. split; [done|]. split.
    + apply (reading_top s s' p
               (λ d, changed_below s p A La d ∨ changed_below s p C Lc d) Ht);
        try done.
      * intros x Hx. unfold changed_below in Hx.
        split; [|apply own_type; by rewrite HT].
        rewrite HC. rewrite !decide_False; [done|..]; intros ->; tauto.
      * intros d [Hd|Hd].
        -- by apply (nest_hub s p A La HpA HpLa).
        -- by apply (nest_hub s p C Lc HpC HpLc).
      * apply (indent_merge_reading s s' t p l1 (C :: l2') Ht Hw Hpt Hcp
                 (old_types_same s s' HT) A La C Lc l1' l2'); try done.
        -- rewrite HC. by rewrite decide_True.
        -- rewrite HC. rewrite !decide_False by done.
           rewrite decide_True by done.
           rewrite (nest_children s C Lc Ht HpLc Hw HkC HkLc).
           by rewrite removeKey_cons_eq.
        -- rewrite HC. rewrite !decide_False by done.
           rewrite decide_True by done.
           rewrite Hcp. rewrite removeKey_middle by done. rewrite Hl1.
           by rewrite <- app_assoc.
        -- intros x Hx1 Hx2 Hx3 Hx4. rewrite HC. by rewrite !decide_False.
      * intros d [Hd|Hd].
        -- by apply (nest_unnested s p A La r d).
        -- by apply (nest_unnested s p C Lc r d).
    + apply (Hkept s' La); [by apply old_types_same|lia| | | |].
      * by rewrite (isListNode_type s s').
      * intros x _ Hxt. rewrite HP. rewrite decide_False by done.
        destruct (decide (x ∈ getChildren s Lc)); [right; by right|].
        destruct (decide (x = Lc)); [right; by left|by left].
      * intros x _ Hx. rewrite HP. rewrite decide_False by congruence.
        rewrite decide_False.
        2: { intros Hin. apply (linked_child_parent s Hl) in Hin. congruence. }
        by destruct (decide (x = Lc)).
      * rewrite HP. by rewrite decide_True.
  - (* only the next sibling is a wrapper *)
    destruct (getNextSibling s t) as [C|] eqn:EC; [|done].
    destruct l2 as [|C' l2']; [done|]. injection Enext as <-.
    destruct (isNestedListNode_inv _ _ Hnn) as (HkC & Lc & HLc & HkLc).
    pose proof (next_sibling_parent s t C p Hl EC Hpt) as HpC.
    pose proof (first_child_parent s C Lc Hl HLc) as HpLc.
    destruct (tree_sibling_inner_ne s t p C Lc Ht Hpt HpC HLc) as [HpLc' HtLc].
    destruct (getChildren s Lc) as [|f rf] eqn:EcLc.
    + destruct (indent_next_empty_effect s t Hnested C Lc)
        as (s' & Hs' & d & ->); try done.
      eexists. split; [done|]. split.
      * apply (reading_ext s); [| |done].
        -- intros x. apply getChildren_markAllDirty.
        -- apply node_type_markAllDirty.
      * apply (unnested_same s); [| | |done].
        -- intros x. apply getParent_markAllDirty.
        -- apply node_type_markAllDirty.
        -- apply next_key_markAllDirty.
    + destruct (indent_next_effect s t p Hl Hnested Hpt C Lc f rf)
        as (s' & Hs' & HP & HC & HT & HK); try done.
      exists s'. split; [done|]. split.
      * apply (reading_top s s' p (changed_below s p C Lc) Ht); try done.
        -- intros x Hx. unfold changed_below in Hx.
           split; [|apply own_type; by rewrite HT].
           rewrite HC. rewrite !decide_False; [done|..]; intros ->; tauto.
        -- by apply (nest_hub s p C Lc HpC HpLc).
        -- apply (indent_next_reading s s' t p l1 (C :: l2') Ht Hw Hpt Hcp
                    (old_types_same s s' HT) C Lc l2'); try done.
           ++ rewrite HC. rewrite decide_True by done. by rewrite EcLc.
           ++ rewrite HC. rewrite decide_False by done.
              rewrite decide_True by done.
              rewrite Hcp. by rewrite removeKey_middle.
           ++ intros x Hx1 Hx2. rewrite HC. by rewrite !decide_False.
        -- intros d. by apply (nest_unnested s p C Lc r d).
      * apply (Hkept s' Lc); [by apply old_types_same|lia| | | |].
        -- by rewrite (isListNode_type s s').
        -- intros x _ Hxt. rewrite HP. rewrite decide_False by done. by left.
        -- intros x _ Hx. rewrite HP. by rewrite decide_False by congruence.
        -- rewrite HP. by rewrite decide_True.
  - (* only the previous sibling is a wrapper *)
    destruct (getPreviousSibling s t) as [A|] eqn:EA; [|done].
    symmetry in Eprev. apply last_Some in Eprev as (l1' & Hl1).
    destruct (isNestedListNode_inv _ _ Hnp) as (HkA & La & HLa & HkLa).
    pose proof (previous_sibling_parent s t A p Hl EA Hpt) as HpA.
    pose proof (first_child_parent s A La Hl HLa) as HpLa.
    destruct (tree_sibling_inner_ne s t p A La Ht Hpt HpA HLa) as [HpLa' HtLa].
    destruct (indent_previous_effect s t p Hnested Hpt A La)
      as (s' & Hs' & HP & HC & HT & HK); try done.
    exists s'. split; [done|]. split.
    + apply (reading_top s s' p (changed_below s p A La) Ht); try done.
      * intros x Hx. unfold changed_below in Hx.
        split; [|apply own_type; by rewrite HT].
        rewrite HC. rewrite !decide_False; [done|..]; intros ->; tauto.
      * by apply (nest_hub s p A La HpA HpLa).
      * apply (indent_previous_reading s s' t p l1 l2 Ht Hw Hpt Hcp
                 (old_types_same s s' HT) A La l1'); try done.
        -- rewrite HC. by rewrite decide_True.
        -- rewrite HC. rewrite decide_False by done.
           rewrite decide_True by done.
           rewrite Hcp. rewrite removeKey_middle by done. rewrite Hl1.
           by rewrite <- app_assoc.
        -- intros x Hx1 Hx2. rewrite HC. by rewrite !decide_False.
      * intros d. by apply (nest_unnested s p A La r d).
    + apply (Hkept s' La); [by apply old_types_same|lia| | | |].
      * by rewrite (isListNode_type s s').
      * intros x _ Hxt. rewrite HP. rewrite decide_False by done. by left.
      * intros x _ Hx. rewrite HP. by rewrite decide_False by congruence.
      * rewrite HP. by rewrite decide_True.
  - (* no wrapper on either side *)
    destruct (isListNode s (Some p)) eqn:Hkp.
    2: { exists s. split_and!; [|done|done].
         apply indentListItem_no_list; [by rewrite Hpt|done|done]. }
    destruct (indent_new_effect s t p Hl Hnested Hpt l1 l2)
      as (s' & Hs' & HP & HC & HT & HK); try done.
    exists s'. split; [done|].
    assert (∀ x, x < next_key s → node_type s' !! x = node_type s !! x) as HT'.
    { intros x Hx. rewrite HT. by rewrite !decide_False by lia. }
    split.
    + apply (reading_top s s' p (λ d, d = p ∨ next_key s ≤ d) Ht); try done.
      * intros x Hx.
        assert (x < next_key s) as Hxn by (apply Nat.lt_nge; intros ?; tauto).
        split; [|by apply own_type, HT'].
        rewrite HC. rewrite decide_False by (intros ->; tauto).
        by rewrite !decide_False by lia.
      * intros d [->|Hd]; [by left|by right; right].
      * apply (indent_new_reading s s' t p l1 l2 Ht Hpt Hcp HT'
                 (next_key s) (S (next_key s))); try done; try lia.
        -- rewrite HC. by rewrite decide_True.
        -- rewrite HC. rewrite decide_False by lia. by rewrite decide_True.
        -- rewrite HC. rewrite !decide_False by lia. by rewrite decide_True.
        -- unfold isListItemNode. rewrite HT. by rewrite decide_True.
        -- unfold isListNode. rewrite HT. rewrite decide_False by lia.
           by rewrite decide_True.
        -- intros x Hx1 Hx2. rewrite HC. rewrite decide_False by done.
           by rewrite !decide_False by lia.
      * intros d [->|Hd] Hdp Hin; [done|].
        exfalso. by apply (not_below_fresh s r d Hl Hrn Hd).
    + apply (Hkept s' (S (next_key s))); [done|lia| | | |].
      * unfold isListNode. rewrite HT. rewrite decide_False by lia.
        by rewrite decide_True.
      * intros x Hxn Hxt. rewrite HP. rewrite decide_False by done.
        rewrite !decide_False by lia. by left.
      * intros x Hxn Hx. rewrite HP. rewrite decide_False by congruence.
        by rewrite !decide_False by lia.
      * rewrite HP. by rewrite decide_True.
Qed.

Lemma reading_batch (f : nat → EditorState → option EditorState) :
  (∀ t s, tree s → wrapped s →
     ∃ s', f t s = Some s' ∧ tree s' ∧ wrapped s' ∧ extends s s' ∧ preserved s s') →
  (∀ t s r l, tree s → wrapped s → unnested s r → reading s [r] l →
     ∃ s', f t s = Some s' ∧ reading s' [r] l ∧ unnested s' r) →
  ∀ ts s r l, tree s → wrapped s → unnested s r → reading s [r] l →
    ∃ s', forEach f ts s = Some s'
      ∧ tree s' ∧ wrapped s' ∧ reading s' [r] l ∧ unnested s' r.
Proof.
  intros Hstep Hread ts. induction ts as [|t ts IH]; intros s r l Ht Hw Hu H.
  { by exists s. }
  destruct (Hstep t s Ht Hw) as (s1 & Hs1 & Ht1 & Hw1 & _).
  destruct (Hread t s r l Ht Hw Hu H) as (s1' & Hs1' & H1 & Hu1).
  rewrite Hs1 in Hs1'. injection Hs1' as <-.
  destruct (IH s1 r l Ht1 Hw1 Hu1 H1) as (s' & Hs' & H').
  exists s'. split; [|done]. simpl. by rewrite Hs1.
Qed.
End reading_steps.

(** ** Every document tree can be read *)

Lemma parent_chain_bound s n k r :
  tree s → nsteps (parentOf s) n k r → n ≤ next_key s.
Proof.
  intros Ht Hn.
  assert (∃ L : list nat, length L = n ∧ NoDup L
            ∧ ∀ x, x ∈ L → x < next_key s ∧ rtc (parentOf s) k x)
    as (L & <- & Hnd & HL).
  { induction Hn as [k|n k k' r Hkk' _ (L & HlenL & Hnd & HL)].
    - exists []. split_and!; [done|constructor|]. intros x Hx.
      by apply elem_of_nil in Hx.
    - exists (k :: L). split_and!.
      + simpl. by rewrite HlenL.
      + apply NoDup_cons. split; [|done]. intros Hk.
        destruct (HL k Hk) as [_ Hr].
        apply (tree_ancestor_ne s k k Ht); [|done]. by eapply tc_rtc_r; [apply tc_once|].
      + intros x Hx. apply elem_of_cons in Hx as [->|Hx].
        * split; [|apply rtc_refl].
          apply (linked_parent_lt s k k' (tree_linked s Ht) Hkk').
        * destruct (HL x Hx) as [Hxn Hr]. split; [done|]. by eapply rtc_l. }
  transitivity (length (seq 0 (next_key s))); [|by rewrite length_seq].
  apply submseteq_length, NoDup_submseteq; [done|].
  intros x Hx. apply elem_of_seq. destruct (HL x Hx). lia.
Qed.

Lemma reading_forest s (ks : list nat) :
  (∀ c, c ∈ ks → ∃ l, reading s [c] l) → ∃ l, reading s ks l.
Proof.
  induction ks as [|c ks IH]; intros Hks.
  - exists []. constructor.
  - destruct (Hks c) as (lc & Hlc); [by left|].
    destruct IH as (l & Hl); [intros c' Hc'; apply Hks; by right|].
    exists (lc ++ l). by apply (reading_app s [c] ks).
Qed.

Lemma reading_exists_below s :
  tree s →
  ∀ m n k r, nsteps (parentOf s) n k r → next_key s < n + m →
    ∃ l, reading s [k] l.
Proof.
  intros Ht. induction m as [|m IH]; intros n k r Hn Hm.
  - pose proof (parent_chain_bound s n k r Ht Hn). lia.
  - destruct (reading_forest s (getChildren s k)) as (l & Hl).
    + intros c Hc. apply (IH (S n) c r); [|lia].
      eapply nsteps_l; [|exact Hn].
      by apply (linked_child_parent s (tree_linked s Ht)).
    + exists (own s k ++ l). by apply reading_single.
Qed.

Lemma reading_exists s k : tree s → ∃ l, reading s [k] l.
Proof.
  intros Ht. destruct (tree_rooted s Ht k) as (r & Hr & _).
  apply rtc_nsteps in Hr as (n & Hn).
  apply (reading_exists_below s Ht (S (next_key s)) n k r Hn). lia.
Qed.

(** The reading of a forest lists exactly the content nodes below it. *)
Lemma reading_content s (ks l : list nat) :
  reading s ks l →
  ∀ c, c ∈ l ↔ isContent s c ∧ ∃ k, k ∈ ks ∧ inSubtree s k c.
Proof.
  induction 1 as [|k ks l1 l2 _ IH1 _ IH2]; intros c.
  - rewrite elem_of_nil. split; [done|]. intros (_ & k & Hk & _).
    by apply elem_of_nil in Hk.
  - rewrite !elem_of_app, elem_of_own, IH1, IH2. split.
    + intros [[-> Hc]|[(Hc & k' & Hk' & Hin)|(Hc & k' & Hk' & Hin)]].
      * split; [done|]. exists k. split; [by left|apply rtc_refl].
      * split; [done|]. exists k. split; [by left|].
        by eapply rtc_l; [exact Hk'|].
      * split; [done|]. exists k'. split; [by right|done].
    + intros (Hc & k' & Hk' & Hin).
      apply elem_of_cons in Hk' as [->|Hk'].
      * apply rtc_inv in Hin as [->|(y & Hy & Hin)].
        -- by left.
        -- right. left. split; [done|]. by exists y.
      * right. right. split; [done|]. by exists k'.
Qed.

Lemma reading_subtree s r l :
  reading s [r] l → ∀ c, c ∈ l ↔ isContent s c ∧ inSubtree s r c.
Proof.
  intros H c. rewrite (reading_content s [r] l H). split.
  - intros (Hc & k & Hk & Hin). apply list_elem_of_singleton in Hk as ->. done.
  - intros (Hc & Hin). split; [done|]. exists r. split; [by left|done].
Qed.

(** X16.  A batch of indents or of outdents never reorders the content of
    a well-formed document: the content nodes below a root, read in document
    order (a node before its children, the children from first to last),
    form the same sequence before and after the batch. *)
Theorem batch_keeps_order (direction : Direction) ts s r :
  tree s → wrapped s →
  getParent s r = None → r < next_key s →
  ∃ s' l, match direction with
          | indent => handleIndent ts s
          | outdent => handleOutdent ts s
          end = Some s'
    ∧ reading s [r] l ∧ reading s' [r] l.
Proof.
  intros Ht Hw Hr Hrn. destruct (reading_exists s r Ht) as (l & Hl).
  assert (unnested s r) as Hu by (split; [done|by left]).
  destruct direction.
  - destruct (reading_batch indentListItem indent_step indent_reading_step
                ts s r l Ht Hw Hu Hl) as (s' & Hs' & _ & _ & H' & _).
    by exists s', l.
  - destruct (reading_batch outdentListItem outdent_step outdent_reading_step
                ts s r l Ht Hw Hu Hl) as (s' & Hs' & _ & _ & H' & _).
    by exists s', l.
Qed.

Lemma batch_keeps_order_witness :
  ∃ s' l, handleIndent [2; 5; 7] merge_doc = Some s'
    ∧ reading merge_doc [0] l ∧ reading s' [0] l.
Proof.
  apply (batch_keeps_order indent [2; 5; 7] merge_doc 0).
  - apply tree_check_sound. by vm_compute.
  - apply wrapped_check_sound. by vm_compute.
  - reflexivity.
  - vm_compute. lia.
Defined.

(** C5, as amended.  In a well-formed document, a batch of indents or of
    outdents (any targets, in any order) runs to its end, leaves a well-formed
    document, and keeps the content of every subtree whose root [r] is a root
    of the document or a node that is no ListItem and does not hang directly
    below a ListItem (so: of every List that is not the inner List of a
    wrapper): a content node lies in the subtree of [r] afterwards exactly
    when it did before; nothing is lost from it, nothing is added to it, and
    (the result being a tree) nothing occurs in it twice. *)
Theorem batch_keeps_content (direction : Direction) l s r :
  tree s → wrapped s → unnested s r →
  ∃ s', match direction with
        | indent => handleIndent l s
        | outdent => handleOutdent l s
        end = Some s'
    ∧ tree s' ∧ wrapped s'
    ∧ ∀ c, (isContent s' c ∧ inSubtree s' r c) ↔ (isContent s c ∧ inSubtree s r c).
Proof.
  intros Ht Hw Hu. destruct (reading_exists s r Ht) as (cs & Hcs).
  assert (∃ s', match direction with
                | indent => handleIndent l s
                | outdent => handleOutdent l s
                end = Some s'
            ∧ tree s' ∧ wrapped s' ∧ reading s' [r] cs ∧ unnested s' r)
    as (s' & Hs' & Ht' & Hw' & Hcs' & _).
  { destruct direction.
    - by apply (reading_batch indentListItem indent_step indent_reading_step).
    - by apply (reading_batch outdentListItem outdent_step outdent_reading_step). }
  exists s'. split_and!; try done. intros c.
  rewrite <- (reading_subtree s' r cs Hcs' c).
  by rewrite <- (reading_subtree s r cs Hcs c).
Qed.

Lemma batch_keeps_content_witness :
  ∃ s', handleIndent [3; 6] rooted_doc = Some s'
    ∧ tree s' ∧ wrapped s'
    ∧ ∀ c, (isContent s' c ∧ inSubtree s' 1 c)
           ↔ (isContent rooted_doc c ∧ inSubtree rooted_doc 1 c).
Proof.
  apply (batch_keeps_content indent [3; 6] rooted_doc 1).
  - apply tree_check_sound. by vm_compute.
  - apply wrapped_check_sound. by vm_compute.
  - split; [vm_compute; lia|]. right. by vm_compute.
Defined.

(** ** Targets in an unexpected place *)

Lemma indentListItem_wrapper s t :
  isNestedListNode s (Some t) = true → indentListItem t s = Some s.
Proof. intros H. unfold indentListItem. by rewrite H. Qed.

Lemma indentListItem_hollow_next s t C il :
  isListNode s (getParent s t) = false →
  isNestedListNode s (getPreviousSibling s t) = false →
  getNextSibling s t = Some C → getFirstChild s C = Some il →
  getChildren s il = [] →
  indentListItem t s = Some s.
Proof.
  intros Hp Hprev HC Hil Hempty.
  destruct (isNestedListNode s (Some C)) eqn:HkC.
  2: { apply indentListItem_no_list; [done| |done]. by rewrite HC. }
  destruct (isNestedListNode_inv s C HkC) as (_ & il' & Hil' & Hkil).
  rewrite Hil in Hil'. injection Hil' as <-.
  unfold indentListItem. destruct (isNestedListNode s (Some t)); [done|].
  rewrite HC, HkC, Hprev. simpl. unfold indentIntoNext. rewrite Hil, Hkil.
  unfold getFirstChild at 1. rewrite Hempty. simpl.
  unfold markAllDirty. rewrite Hempty. simpl. rewrite Hp.
  by destruct (getParent s t).
Qed.

(** C6, as amended.  An outdent target whose ancestry is not List,
    ListItem, List leaves the state as it is and the rest of the batch runs
    as if the target were not there.  So does an indent target whose parent
    is not a List when it is itself a wrapper, or when no wrapper precedes it
    and its next sibling is no wrapper or holds an empty List.  In a document
    tree, any other indent target (not a wrapper, behind a wrapper or before
    a wrapper with a non-empty List) is moved out of its parent into the
    inner List of a neighbouring wrapper, whatever its parent is. *)
Theorem unexpected_target_skipped :
  (∀ s t rest, validAncestry s t = false →
     handleOutdent (t :: rest) s = handleOutdent rest s)
  ∧ (∀ s t rest,
       isListNode s (getParent s t) = false →
       isNestedListNode s (Some t) = true
       ∨ (isNestedListNode s (getPreviousSibling s t) = false
          ∧ (isNestedListNode s (getNextSibling s t) = false
             ∨ ∃ C il, getNextSibling s t = Some C
                       ∧ getFirstChild s C = Some il
                       ∧ getChildren s il = [])) →
       handleIndent (t :: rest) s = handleIndent rest s)
  ∧ (∀ s t w,
       tree s →
       isNestedListNode s (Some t) = false →
       isNestedListNode s (Some w) = true →
       getPreviousSibling s t = Some w
       ∨ (getNextSibling s t = Some w
          ∧ ∃ il, getFirstChild s w = Some il ∧ getChildren s il ≠ []) →
       ∃ s' v il, handleIndent [t] s = Some s'
         ∧ (getPreviousSibling s t = Some v ∨ getNextSibling s t = Some v)
         ∧ isNestedListNode s (Some v) = true
         ∧ getFirstChild s v = Some il
         ∧ isListNode s (Some il) = true
         ∧ getParent s' t = Some il
         ∧ getParent s t ≠ Some il).
Proof.
  split_and!.
  - intros s t rest H. unfold handleOutdent; simpl.
    by rewrite outdentListItem_invalid.
  - intros s t rest Hp Hcase. unfold handleIndent; simpl.
    destruct Hcase as [Hw|[Hprev [Hnext|(C & il & HC & Hil & Hempty)]]].
    + by rewrite indentListItem_wrapper.
    + by rewrite indentListItem_no_list.
    + by rewrite (indentListItem_hollow_next s t C il).
  - intros s t w Ht Hn Hw Hcase. pose proof (tree_linked s Ht) as Hl.
    unfold handleIndent. setoid_rewrite forEach_single.
    assert (∃ p, getParent s t = Some p) as (p & Hpt).
    { destruct (getParent s t) as [p|] eqn:Hpt; [by exists p|].
      destruct Hcase as [H|[H _]].
      - by rewrite (getPreviousSibling_None_parent s t Hpt) in H.
      - by rewrite (getNextSibling_None_parent s t Hpt) in H. }
    destruct (isNestedListNode s (getPreviousSibling s t)) eqn:Hprev.
    + destruct (getPreviousSibling s t) as [A|] eqn:EA;
        [|by rewrite isNestedListNode_None in Hprev].
      destruct (isNestedListNode_inv s A Hprev) as (HkA & La & HLa & HkLa).
      pose proof (previous_sibling_parent s t A p Hl EA Hpt) as HpA.
      pose proof (first_child_parent s A La Hl HLa) as HpLa.
      destruct (tree_sibling_inner_ne s t p A La Ht Hpt HpA HLa) as [HpLa' HtLa].
      destruct (isNestedListNode s (getNextSibling s t)) eqn:Hnext.
      * destruct (getNextSibling s t) as [C|] eqn:EC;
          [|by rewrite isNestedListNode_None in Hnext].
        destruct (isNestedListNode_inv s C Hnext) as (HkC & Lc & HLc & HkLc).
        pose proof (next_sibling_parent s t C p Hl EC Hpt) as HpC.
        pose proof (siblings_distinct s t p A C Hl Hpt EA EC) as HAC.
        destruct (tree_sibling_inner_ne s t p C Lc Ht Hpt HpC HLc)
          as [HpLc' HtLc].
        destruct (indent_merge_effect s t p Hl Hn Hpt A C La Lc EA EC Hprev
                    Hnext HLa HLc) as (s' & Hs' & HP & _); try done.
        { intros ->. by apply (tree_parent_ne s C C Ht). }
        exists s', A, La. split_and!; try done.
        -- by left.
        -- rewrite HP. by rewrite decide_True.
        -- rewrite Hpt. congruence.
      * destruct (indent_previous_effect s t p Hn Hpt A La EA Hnext Hprev HLa
                    HpLa') as (s' & Hs' & HP & _).
        exists s', A, La. split_and!; try done.
        -- by left.
        -- rewrite HP. by rewrite decide_True.
        -- rewrite Hpt. congruence.
    + destruct Hcase as [EA|(EC & Lc & HLc & Hne)].
      { rewrite EA in Hprev. congruence. }
      pose proof (next_sibling_parent s t w p Hl EC Hpt) as HpC.
      destruct (tree_sibling_inner_ne s t p w Lc Ht Hpt HpC HLc) as [HpLc' HtLc].
      destruct (isNestedListNode_inv s w Hw) as (HkC & Lc' & HLc' & HkLc).
      rewrite HLc in HLc'. injection HLc' as <-.
      destruct (getChildren s Lc) as [|f rf] eqn:EcLc; [done|].
      destruct (indent_next_effect s t p Hl Hn Hpt w Lc f rf Hprev EC Hw
                  HLc EcLc HpLc') as (s' & Hs' & HP & _).
      exists s', w, Lc. split_and!; try done.
      * by right.
      * rewrite HP. by rewrite decide_True.
      * rewrite Hpt. congruence.
Qed.

Lemma unexpected_target_skipped_witness :
  handleOutdent [2; 5] merge_doc = handleOutdent [5] merge_doc
  ∧ handleIndent [1; 2] loose_doc = handleIndent [2] loose_doc
  ∧ ∃ s' v il, handleIndent [1] stray_doc = Some s'
      ∧ (getPreviousSibling stray_doc 1 = Some v
         ∨ getNextSibling stray_doc 1 = Some v)
      ∧ isNestedListNode stray_doc (Some v) = true
      ∧ getFirstChild stray_doc v = Some il
      ∧ isListNode stray_doc (Some il) = true
      ∧ getParent s' 1 = Some il
      ∧ getParent stray_doc 1 ≠ Some il.
Proof.
  destruct unexpected_target_skipped as (H1 & H2 & H3). split_and!.
  - apply (H1 merge_doc 2 [5]). reflexivity.
  - apply (H2 loose_doc 1 [2]); [reflexivity|]. right. split; [reflexivity|].
    left. reflexivity.
  - apply (H3 stray_doc 1 2); [|reflexivity|reflexivity|].
    + apply tree_check_sound. by vm_compute.
    + right. split; [reflexivity|]. exists 3. split; [reflexivity|].
      by vm_compute.
Defined.

(** ** A selection of one node *)

(** X17.  In a document tree, a selection of one node, or of no node (the
    anchor then stands in), resolves through the ancestor walk, which ends:
    the target list is the nearest ListItem among that node and its
    ancestors, alone, or it is empty when no ListItem lies on the parent
    chain of the node. *)
Theorem lone_selection_resolves_upwards s sel node :
  rooted s node →
  selection s = Some sel →
  sel_nodes sel = [node] ∨ (sel_nodes sel = [] ∧ sel_anchor sel = node) →
  ∃ fuel0, ∀ fuel, fuel0 ≤ fuel →
    ∃ tg, resolveTargets fuel s = Some tg
      ∧ ((tg = [] ∧ ∀ a, rtc (parentOf s) node a →
                         isListItemNode s (Some a) = false)
         ∨ (∃ li, tg = [li]
              ∧ isListItemNode s (Some li) = true
              ∧ rtc (parentOf s) node li
              ∧ ∀ a, rtc (parentOf s) node a →
                     isListItemNode s (Some a) = true →
                     rtc (parentOf s) li a)).
Proof.
  intros Hroot Hsel Hnodes.
  destruct (findNearestListItemNode_terminates s node Hroot)
    as (fuel0 & res & Hres).
  exists fuel0. intros fuel Hle.
  pose proof (findNearestListItemNode_mono fuel0 fuel s node res Hle Hres) as Ef.
  unfold resolveTargets, selectedListItemNodes. rewrite Hsel.
  assert ((if bool_decide (length (sel_nodes sel) = 0)
           then sel_nodes sel ++ [sel_anchor sel] else sel_nodes sel) = [node])
    as ->.
  { destruct Hnodes as [->|[-> ->]]; by simpl. }
  rewrite Ef. simpl. destruct res as [li|].
  - exists [li]. split; [done|]. right. exists li. split; [done|].
    by apply (findNearestListItemNode_found fuel s node li).
  - exists []. split; [done|]. left. split; [done|].
    by apply (findNearestListItemNode_none fuel s node).
Qed.

Lemma lone_selection_resolves_upwards_witness :
  ∃ fuel0, ∀ fuel, fuel0 ≤ fuel →
    ∃ tg, resolveTargets fuel caret_doc = Some tg
      ∧ ((tg = [] ∧ ∀ a, rtc (parentOf caret_doc) 6 a →
                         isListItemNode caret_doc (Some a) = false)
         ∨ (∃ li, tg = [li]
              ∧ isListItemNode caret_doc (Some li) = true
              ∧ rtc (parentOf caret_doc) 6 li
              ∧ ∀ a, rtc (parentOf caret_doc) 6 a →
                     isListItemNode caret_doc (Some a) = true →
                     rtc (parentOf caret_doc) li a)).
Proof.
  apply (lone_selection_resolves_upwards caret_doc
           {| sel_nodes := []; sel_anchor := 6 |} 6).
  - apply tree_rooted, tree_check_sound. by vm_compute.
  - reflexivity.
  - right. by split.
Defined.
